(** * The orchestration core of xen-orchestra

    A shallow embedding of the watcher bridge of [src/src/xapi.js]
    ([_waitObject], [_watchTask], the [onAddOrUpdate] listener, [wrapError])
    and of the storage workflows of [src/@xen-orchestra/xapi/sr.js]
    ([enableMaintenanceMode], [disableMaintenanceMode], [importVdi]), with
    the properties of their specification.

    The first half of the file holds the definitions: the code, the model of
    what the code runs against, the predicates used to state the properties,
    and a few concrete pools.  The second half holds the proofs.

    Further functions of [src/src/xapi.js] are embedded after these
    ([getNamespaceForType], [resolveVersionPatches],
    [listMissingPoolPatchesOnHost], [isVmRunning], [_deleteVdi], [deleteVm],
    [_setObjectProperties], [setSrProperties]), with what maintenance mode
    does to the pool; their properties are marked X1 to X15. *)

From stdpp Require Import base option list gmap strings sorting.
From Stdlib Require Import Lia ZArith Strings.Byte.

(** * Watcher bridge (src/src/xapi.js)

    The [Xapi] class keeps two tables of pending watches, [_objectWatchers]
    and [_taskWatchers], filled by [_waitObject] and [_watchTask] and emptied
    by the [onAddOrUpdate] listener.  A JavaScript promise is modelled by a
    handle (a natural number); the [resolve] and [reject] capabilities stored
    next to it in a watcher act on that handle, so a watcher is the handle
    alone.  Every invocation of a capability is appended to [settle_log]; the
    state of a promise is the first settlement logged for its handle, as a
    promise ignores later settlements. *)
Module Xapi.

(** The [Error] built by [wrapError]: [new Error(error[0])] with [code] and
    [params] attached.  [error[0]] of an empty tuple is [undefined], whose
    message is the empty string. *)
Record wrapped_error := WrappedError {
  e_message : string;
  e_code : option string;
  e_params : list string;
}.

Definition wrapError (error : list string) : wrapped_error :=
  {| e_message := default "" (head error);
     e_code := head error;
     e_params := tail error |}.

(** The fields of a notified object that the listener reads: [$id], [$ref],
    and for tasks [status], [result] and [error_info]. *)
Record xobject := XObject {
  o_id : string;
  o_ref : string;
  o_status : string;
  o_result : string;
  o_error_info : list string;
}.

(** What a watch resolves with: the object itself, or a task's result. *)
Inductive jsvalue := VObject (o : xobject) | VResult (r : string).
Inductive settlement := Fulfilled (v : jsvalue) | Rejected (e : wrapped_error).

(** The two tables are the prototype-less objects created in the
    constructor, used as maps from property key to watcher. *)
Record xapi := MkXapi {
  _objectWatchers : gmap string nat;
  _taskWatchers : gmap string nat;
  next_promise : nat;
  settle_log : list (nat * settlement);
}.

Definition fresh_xapi : xapi :=
  {| _objectWatchers := ∅; _taskWatchers := ∅; next_promise := 0; settle_log := [] |}.

Definition promise_state (x : xapi) (p : nat) : option settlement :=
  snd <$> head (filter (λ en, en.1 = p) (settle_log x)).

(** [_waitObject]: reuse the watcher registered under the key, or create a
    promise and register it. *)
Definition _waitObject (idOrUuidOrRef : string) (x : xapi) : nat * xapi :=
  match _objectWatchers x !! idOrUuidOrRef with
  | Some watcher => (watcher, x)
  | None =>
      let promise := next_promise x in
      (promise,
       {| _objectWatchers := <[idOrUuidOrRef := promise]> (_objectWatchers x);
          _taskWatchers := _taskWatchers x;
          next_promise := S promise;
          settle_log := settle_log x |})
  end.

(** [_watchTask] accepts a ref or a task object; an object with a truthy
    [$ref] is unpacked, any other object is used as a property key through its
    string conversion. *)
Inductive ref_or_task := ARef (ref : string) | ATask (task : xobject).

Definition unpack_ref (a : ref_or_task) : string :=
  match a with
  | ARef ref => ref
  | ATask task => if decide (o_ref task = "") then "[object Object]" else o_ref task
  end.

Definition _watchTask (a : ref_or_task) (x : xapi) : nat * xapi :=
  let ref := unpack_ref a in
  match _taskWatchers x !! ref with
  | Some watcher => (watcher, x)
  | None =>
      let promise := next_promise x in
      (promise,
       {| _objectWatchers := _objectWatchers x;
          _taskWatchers := <[ref := promise]> (_taskWatchers x);
          next_promise := S promise;
          settle_log := settle_log x |})
  end.

(** The two [if (key in objectsWatchers)] blocks of [onAddOrUpdate]. *)
Definition watched_object (key : string) (object : xobject) (x : xapi) : xapi :=
  match _objectWatchers x !! key with
  | Some watcher =>
      {| _objectWatchers := delete key (_objectWatchers x);
         _taskWatchers := _taskWatchers x;
         next_promise := next_promise x;
         settle_log := settle_log x ++ [(watcher, Fulfilled (VObject object))] |}
  | None => x
  end.

Definition settle_task (ref : string) (watcher : nat) (s : settlement) (x : xapi) : xapi :=
  {| _objectWatchers := _objectWatchers x;
     _taskWatchers := delete ref (_taskWatchers x);
     next_promise := next_promise x;
     settle_log := settle_log x ++ [(watcher, s)] |}.

(** The [if (ref in taskWatchers)] block: the [else] branch returns from the
    callback of this object only, leaving the watcher registered. *)
Definition watched_task (object : xobject) (x : xapi) : xapi :=
  match _taskWatchers x !! o_ref object with
  | Some watcher =>
      if decide (o_status object = "success") then
        settle_task (o_ref object) watcher (Fulfilled (VResult (o_result object))) x
      else if decide (o_status object = "failure") then
        settle_task (o_ref object) watcher (Rejected (wrapError (o_error_info object))) x
      else x
  | None => x
  end.

(** The body of the [forEach] callback for one object. *)
Definition notify (x : xapi) (object : xobject) : xapi :=
  watched_task object
    (watched_object (o_ref object) object
       (watched_object (o_id object) object x)).

Definition onAddOrUpdate (objects : list xobject) (x : xapi) : xapi :=
  fold_left notify objects x.

(** What can happen to the tables: a caller waits, or the collection emits
    [add] or [update] with a batch of objects. *)
Inductive request :=
| WaitObject (key : string)
| WatchTask (a : ref_or_task)
| Notification (objects : list xobject).

Definition serve (x : xapi) (r : request) : xapi :=
  match r with
  | WaitObject key => (_waitObject key x).2
  | WatchTask a => (_watchTask a x).2
  | Notification objects => onAddOrUpdate objects x
  end.

Inductive reachable : xapi → Prop :=
| reach_fresh : reachable fresh_xapi
| reach_serve x r : reachable x → reachable (serve x r).

(** Invariant of the reachable states: handles are allocated below
    [next_promise], registered handles are unsettled, no handle is registered
    twice (within a table or across the two), and no capability has been
    invoked twice. *)
Record wf (x : xapi) : Prop := {
  wf_obj_bound : ∀ k p, _objectWatchers x !! k = Some p → p < next_promise x;
  wf_task_bound : ∀ k p, _taskWatchers x !! k = Some p → p < next_promise x;
  wf_log_bound : ∀ p, p ∈ (settle_log x).*1 → p < next_promise x;
  wf_obj_pending : ∀ k p, _objectWatchers x !! k = Some p → p ∉ (settle_log x).*1;
  wf_task_pending : ∀ k p, _taskWatchers x !! k = Some p → p ∉ (settle_log x).*1;
  wf_obj_inj : ∀ k1 k2 p, _objectWatchers x !! k1 = Some p →
                 _objectWatchers x !! k2 = Some p → k1 = k2;
  wf_task_inj : ∀ k1 k2 p, _taskWatchers x !! k1 = Some p →
                 _taskWatchers x !! k2 = Some p → k1 = k2;
  wf_disjoint : ∀ k1 k2 p, _objectWatchers x !! k1 = Some p →
                 _taskWatchers x !! k2 = Some p → False;
  wf_once : NoDup (settle_log x).*1;
}.

Definition resolve_only (p : nat) (x : xapi) : Prop :=
  p < next_promise x ∧
  (∀ k, _taskWatchers x !! k ≠ Some p) ∧
  (∀ s, (p, s) ∈ settle_log x → ∃ o, s = Fulfilled (VObject o)).

End Xapi.

(** * The remote pool

    [src/@xen-orchestra/xapi/sr.js] talks to the pool through [this.call],
    [this.callAsync], [this.getField] and [this.setFieldEntry].  The pool is
    the environment of the workflows: it is modelled as a state ([world]) with
    the objects the workflows touch, a logical clock, and a fault oracle that
    can make any call fail at any time.  The theorems below quantify over all
    worlds and oracles. *)
Module Remote.

(** The object kept under [other_config["xo:maintenanceState"]].  It is
    written with [JSON.stringify] and read back with [JSON.parse]; the model
    stores it in parsed form.  [shutdownVms] and [unpluggedPbds] are absent
    from the placeholder [{ timestamp }] written when maintenance begins.
    [shutdownVms] is an object used as a map from uuid to flag: an association
    list in insertion order. *)
Record MaintenanceState := {
  timestamp : nat;
  shutdownVms : option (list (string * bool));
  unpluggedPbds : option (list string);
}.

(** The [vm_power_state] enumeration of the pool. *)
Inductive power_state := Halted | Paused | Running | Suspended.

Global Instance power_state_eq_dec : EqDecision power_state.
Proof. solve_decision. Defined.

(** Errors raised by the workflows: a failure of a remote call (code and
    parameters), [incorrectState] of xo-common, [AggregateError], and the
    built-in errors of the language. *)
#[warnings="-register-all"] Inductive error :=
| XapiError (code : string) (params : list string)
| IncorrectState (actual expected : list string)
| AggregateError (errors : list error)
| SyntaxError
| TypeError
| AssertionError.

(** Values returned by the remote calls. *)
Inductive value :=
| VUndefined
| VBool (b : bool)
| VString (s : string)
| VRefs (refs : list string)
| VPowerState (p : power_state)
| VOtherConfig (other_config : gmap string MaintenanceState).

Inductive reply := Reply (v : value) | Raise (e : error).

(** The remote calls issued by [sr.js].  [getField(type, ref, field)] is the
    call [type.get_field]; [setFieldEntry('SR', ref, 'other_config', k, v)] is
    [SR_set_other_config_entry]. *)
Inductive rcall :=
| SR_add_to_other_config (sr key : string) (v : MaintenanceState)
| SR_remove_from_other_config (sr key : string)
| SR_set_other_config_entry (sr key : string) (v : MaintenanceState)
| SR_get_other_config (sr : string)
| SR_get_VDIs (sr : string)
| SR_get_PBDs (sr : string)
| VDI_get_VBDs (vdi : string)
| VBD_get_VM (vbd : string)
| VM_get_power_state (vm : string)
| VM_get_uuid (vm : string)
| VM_get_by_uuid (uuid : string)
| VM_clean_shutdown (vm : string)
| VM_hard_shutdown (vm : string)
| VM_start (vm : string) (start_paused force : bool)
| PBD_get_currently_attached (pbd : string)
| PBD_get_uuid (pbd : string)
| PBD_get_by_uuid (uuid : string)
| PBD_unplug (pbd : string)
| PBD_plug (pbd : string).

Record sr_record := {
  sr_other_config : gmap string MaintenanceState;
  sr_VDIs : list string;
  sr_PBDs : list string;
}.

Record vm_record := { vm_uuid : string; vm_power_state : power_state }.

Record pbd_record := { pbd_uuid : string; pbd_currently_attached : bool }.

(** [now] is the clock read by [Date.now()]; it advances with every call.
    [fault t call] says whether [call], issued at time [t], fails, and with
    which error. *)
Record world := {
  now : nat;
  fault : nat → rcall → option error;
  SRs : gmap string sr_record;
  VDIs : gmap string (list string);
  VBDs : gmap string string;
  VMs : gmap string vm_record;
  PBDs : gmap string pbd_record;
}.

Definition tick (w : world) : world :=
  {| now := S (now w); fault := fault w; SRs := SRs w; VDIs := VDIs w;
     VBDs := VBDs w; VMs := VMs w; PBDs := PBDs w |}.

Definition with_other_config (w : world) (sr : string) (s : sr_record)
    (oc : gmap string MaintenanceState) : world :=
  {| now := now w; fault := fault w;
     SRs := <[sr := {| sr_other_config := oc; sr_VDIs := sr_VDIs s; sr_PBDs := sr_PBDs s |}]> (SRs w);
     VDIs := VDIs w; VBDs := VBDs w; VMs := VMs w; PBDs := PBDs w |}.

Definition with_power_state (w : world) (vm : string) (v : vm_record) (p : power_state) : world :=
  {| now := now w; fault := fault w; SRs := SRs w; VDIs := VDIs w; VBDs := VBDs w;
     VMs := <[vm := {| vm_uuid := vm_uuid v; vm_power_state := p |}]> (VMs w);
     PBDs := PBDs w |}.

Definition with_attached (w : world) (pbd : string) (p : pbd_record) (b : bool) : world :=
  {| now := now w; fault := fault w; SRs := SRs w; VDIs := VDIs w; VBDs := VBDs w;
     VMs := VMs w;
     PBDs := <[pbd := {| pbd_uuid := pbd_uuid p; pbd_currently_attached := b |}]> (PBDs w) |}.

Definition handle_invalid (class ref : string) : reply :=
  Raise (XapiError "HANDLE_INVALID" [class; ref]).

Definition uuid_invalid (class uuid : string) : reply :=
  Raise (XapiError "UUID_INVALID" [class; uuid]).

Definition bad_power_state (vm : string) : reply :=
  Raise (XapiError "VM_BAD_POWER_STATE" [vm]).

(** [X.get_by_uuid]: the ref of an object with the given uuid. *)
Definition by_uuid {A} (uuid_of : A → string) (m : gmap string A) (uuid : string)
    : option string :=
  (λ found, found.2.1) <$> list_find (λ entry, uuid_of entry.2 = uuid) (map_to_list m).

(** Modelled from the spec: [setFieldEntry] of the xen-api package is not
    part of the sources at hand; it "overwrite[s] the metadata entry", so the
    value is replaced whether or not the key is set. *)
Definition setFieldEntry_other_config (w : world) (sr : string) (s : sr_record)
    (key : string) (v : MaintenanceState) : reply * world :=
  (Reply VUndefined, with_other_config w sr s (<[key := v]> (sr_other_config s))).

Definition on_sr (w : world) (sr : string) (k : sr_record → reply * world) : reply * world :=
  match SRs w !! sr with Some s => k s | None => (handle_invalid "SR" sr, w) end.

Definition on_vm (w : world) (vm : string) (k : vm_record → reply * world) : reply * world :=
  match VMs w !! vm with Some v => k v | None => (handle_invalid "VM" vm, w) end.

Definition on_pbd (w : world) (pbd : string) (k : pbd_record → reply * world) : reply * world :=
  match PBDs w !! pbd with Some p => k p | None => (handle_invalid "PBD" pbd, w) end.

(** What the pool answers when no fault is injected.
    [SR.add_to_other_config] fails when the key is already set ("will throw if
    already in maintenance mode") and [SR.remove_from_other_config] fails when
    it is not ("will throw if not in maintenance mode"), as the comments of
    [sr.js] state. *)
Definition answer (w : world) (c : rcall) : reply * world :=
  match c with
  | SR_add_to_other_config sr key v =>
      on_sr w sr (λ s,
        match sr_other_config s !! key with
        | Some _ => (Raise (XapiError "MAP_DUPLICATE_KEY" ["SR"; "other_config"; sr; key]), w)
        | None => (Reply VUndefined, with_other_config w sr s (<[key := v]> (sr_other_config s)))
        end)
  | SR_remove_from_other_config sr key =>
      on_sr w sr (λ s,
        match sr_other_config s !! key with
        | Some _ => (Reply VUndefined, with_other_config w sr s (delete key (sr_other_config s)))
        | None => (Raise (XapiError "MAP_NO_SUCH_KEY" ["SR"; "other_config"; sr; key]), w)
        end)
  | SR_set_other_config_entry sr key v =>
      on_sr w sr (λ s, setFieldEntry_other_config w sr s key v)
  | SR_get_other_config sr => on_sr w sr (λ s, (Reply (VOtherConfig (sr_other_config s)), w))
  | SR_get_VDIs sr => on_sr w sr (λ s, (Reply (VRefs (sr_VDIs s)), w))
  | SR_get_PBDs sr => on_sr w sr (λ s, (Reply (VRefs (sr_PBDs s)), w))
  | VDI_get_VBDs vdi =>
      match VDIs w !! vdi with
      | Some vbds => (Reply (VRefs vbds), w)
      | None => (handle_invalid "VDI" vdi, w)
      end
  | VBD_get_VM vbd =>
      match VBDs w !! vbd with
      | Some vm => (Reply (VString vm), w)
      | None => (handle_invalid "VBD" vbd, w)
      end
  | VM_get_power_state vm => on_vm w vm (λ v, (Reply (VPowerState (vm_power_state v)), w))
  | VM_get_uuid vm => on_vm w vm (λ v, (Reply (VString (vm_uuid v)), w))
  | VM_get_by_uuid uuid =>
      match by_uuid vm_uuid (VMs w) uuid with
      | Some vm => (Reply (VString vm), w)
      | None => (uuid_invalid "VM" uuid, w)
      end
  | VM_clean_shutdown vm =>
      on_vm w vm (λ v,
        match vm_power_state v with
        | Running => (Reply VUndefined, with_power_state w vm v Halted)
        | _ => (bad_power_state vm, w)
        end)
  | VM_hard_shutdown vm =>
      on_vm w vm (λ v,
        match vm_power_state v with
        | Running | Paused => (Reply VUndefined, with_power_state w vm v Halted)
        | _ => (bad_power_state vm, w)
        end)
  | VM_start vm start_paused force =>
      on_vm w vm (λ v,
        match vm_power_state v with
        | Halted =>
            (Reply VUndefined, with_power_state w vm v (if start_paused then Paused else Running))
        | _ => (bad_power_state vm, w)
        end)
  | PBD_get_currently_attached pbd =>
      on_pbd w pbd (λ p, (Reply (VBool (pbd_currently_attached p)), w))
  | PBD_get_uuid pbd => on_pbd w pbd (λ p, (Reply (VString (pbd_uuid p)), w))
  | PBD_get_by_uuid uuid =>
      match by_uuid pbd_uuid (PBDs w) uuid with
      | Some pbd => (Reply (VString pbd), w)
      | None => (uuid_invalid "PBD" uuid, w)
      end
  | PBD_unplug pbd => on_pbd w pbd (λ p, (Reply VUndefined, with_attached w pbd p false))
  | PBD_plug pbd => on_pbd w pbd (λ p, (Reply VUndefined, with_attached w pbd p true))
  end.

(** One remote call: the oracle may fail it, otherwise the pool answers; the
    clock ticks either way. *)
Definition exec (w : world) (c : rcall) : reply * world :=
  match fault w (now w) c with
  | Some e => (Raise e, tick w)
  | None => let '(r, w') := answer w c in (r, tick w')
  end.

(** An entry of the trace: the call, its reply, and the pool right after. *)
Record event := { ev_call : rcall; ev_reply : reply; ev_world : world }.

End Remote.

(** * Asynchronous code

    An [async] function is a computation over its local variables [L] and a
    configuration: the pool, the trace of the calls made so far, and the
    schedule that decides how concurrent tasks interleave.  It returns,
    throws, or is still [Pending] when the schedule is exhausted. *)
Module Async.
Import Remote.

Inductive outcome (A : Type) := Returned (a : A) | Threw (e : error) | Pending.
Arguments Returned {A} a.
Arguments Threw {A} e.
Arguments Pending {A}.

Record cfg := { c_world : world; c_trace : list event; c_sched : list nat }.

Definition M (L A : Type) : Type := L → cfg → outcome A * L * cfg.

Definition ret {L A} (a : A) : M L A := λ l c, (Returned a, l, c).

Definition throw {L A} (e : error) : M L A := λ l c, (Threw e, l, c).

Definition bind {L A B} (m : M L A) (k : A → M L B) : M L B :=
  λ l c,
    match m l c with
    | (Returned a, l', c') => k a l' c'
    | (Threw e, l', c') => (Threw e, l', c')
    | (Pending, l', c') => (Pending, l', c')
    end.

Notation "'do' x <- m ; k" := (bind m (λ x, k))
  (at level 10, x name, m at level 100, k at level 200).

Definition locals {L} : M L L := λ l c, (Returned l, l, c).

Definition assign {L} (f : L → L) : M L unit := λ l c, (Returned tt, f l, c).

(** [await this.call(...)]: perform the call and record it. *)
Definition perform (c : cfg) (call : rcall) : reply * cfg :=
  let '(r, w') := exec (c_world c) call in
  (r, {| c_world := w';
         c_trace := c_trace c ++ [{| ev_call := call; ev_reply := r; ev_world := w' |}];
         c_sched := c_sched c |}).

Definition await {L} (call : rcall) : M L value :=
  λ l c,
    match perform c call with
    | (Reply v, c') => (Returned v, l, c')
    | (Raise e, c') => (Threw e, l, c')
    end.

Definition pending {L A} : M L A := λ l c, (Pending, l, c).

Definition Date_now {L} : M L nat := λ l c, (Returned (now (c_world c)), l, c).

(** A task started by [asyncMap] is a state machine, as an [async] function
    is: [PC] is the set of its suspension points, each one awaiting a remote
    call.  When the reply arrives the task runs, on the shared local
    variables, up to its next suspension point ([Continue]), to its end
    ([Finished]), to an uncaught exception ([Failed]), or to a nested
    [asyncMap] ([Spawn]) whose result is the result of the task. *)
Inductive next (PC : Type) :=
| Finished
| Failed (e : error)
| Continue (pc : PC)
| Spawn (pcs : list PC).
Arguments Finished {PC}.
Arguments Failed {PC} e.
Arguments Continue {PC} pc.
Arguments Spawn {PC} pcs.

Definition successors {PC} (n : next PC) : list PC :=
  match n with
  | Finished | Failed _ => []
  | Continue pc => [pc]
  | Spawn pcs => pcs
  end.

Section Pool.
Context {L PC : Type}.
Variable awaited : PC → rcall.
Variable resume : PC → reply → L → L * next PC.

(** Modelled from the spec: [asyncMap] and [asyncMapSettled] of
  [@xen-orchestra/async-map] are not part of the sources at hand.  Both run
  the tasks "concurrently": the pool holds the suspended tasks, and each
  element [n] of the schedule resumes the task at position [n mod length
  pool] by performing its awaited call.  With [settled = false]
  ([asyncMap], i.e. [Promise.all]) the first failure rejects at once; the
  tasks still suspended are dropped from the model (in [sr.js] only tasks
  that read fields can be left behind).  With [settled = true]
  ([asyncMapSettled]) every task is run to its end, "continuing past
  individual failures", before the first error is rethrown.  A nested
  [asyncMap] that ends a task is flattened into the pool: it rejects with
  the first failure and resolves when all its tasks have. *)
Fixpoint run_pool (settled : bool) (sched : list nat) (pool : list PC)
    (failure : option error) (l : L) (w : world) (tr : list event)
    : outcome unit * L * cfg :=
  match pool with
  | [] =>
      (match failure with Some e => Threw e | None => Returned tt end, l,
       {| c_world := w; c_trace := tr; c_sched := sched |})
  | _ :: _ =>
      match sched with
      | [] => (Pending, l, {| c_world := w; c_trace := tr; c_sched := [] |})
      | n :: sched' =>
          let i := n mod length pool in
          match pool !! i with
          | None => (Pending, l, {| c_world := w; c_trace := tr; c_sched := sched' |})
          | Some pc =>
              let '(r, w') := exec w (awaited pc) in
              let '(l', nx) := resume pc r l in
              let tr' := tr ++ [{| ev_call := awaited pc; ev_reply := r; ev_world := w' |}] in
              let pool' := delete i pool ++ successors nx in
              match nx with
              | Failed e =>
                  if settled
                  then run_pool settled sched' pool'
                         (Some (default e failure)) l' w' tr'
                  else (Threw e, l', {| c_world := w'; c_trace := tr'; c_sched := sched' |})
              | _ => run_pool settled sched' pool' failure l' w' tr'
              end
          end
      end
  end.

(** Modelled from the spec: [asyncMap], as [Promise.all] over the tasks. *)
Definition asyncMap (pool : list PC) : M L unit :=
  λ l c, run_pool false (c_sched c) pool None l (c_world c) (c_trace c).

(** Modelled from the spec: [asyncMapSettled], which waits for every task
    before rejecting. *)
Definition asyncMapSettled (pool : list PC) : M L unit :=
  λ l c, run_pool true (c_sched c) pool None l (c_world c) (c_trace c).
End Pool.


Section Defer.
Context {S Act : Type}.
Variable invoke : Act → S → S.

(** Modelled from the spec: the [defer] decorator of golike-defer is not
  part of the sources at hand.  [$defer.onFailure] pushes an action on the
  stack of the call; "if the scope's body fails, every recorded action runs
  in strict reverse order; a failing action's error is captured but does not
  stop the remaining actions; if the body succeeds, the stack is discarded
  unexecuted".  The stack is kept most recent first. *)
Fixpoint executeDeferreds (stack : list Act) (s : S) : S :=
  match stack with
  | [] => s
  | d :: stack' => executeDeferreds stack' (invoke d s)
  end.
End Defer.

End Async.

(** * Maintenance mode (src/@xen-orchestra/xapi/sr.js) *)
Module Sr.
Import Remote Async.

Definition OC_MAINTENANCE : string := "xo:maintenanceState".

(** [Map.prototype.set] and assignment to an object property: a new key
    goes last, an existing key keeps its place. *)
Fixpoint assoc_set {A} (k : string) (v : A) (m : list (string * A)) : list (string * A) :=
  match m with
  | [] => [(k, v)]
  | (k', v') :: m' => if decide (k' = k) then (k, v) :: m' else (k', v') :: assoc_set k v m'
  end.

Definition assoc_has {A} (k : string) (m : list (string * A)) : bool :=
  bool_decide (k ∈ m.*1).

Definition truthy (v : value) : bool :=
  match v with
  | VUndefined => false
  | VBool b => b
  | VString s => negb (bool_decide (s = ""))
  | VRefs _ | VPowerState _ | VOtherConfig _ => true
  end.

(** The local variables of [enableMaintenanceMode] shared by its closures:
    [state], the [Map] [runningVms] (ref to [isPaused]), the array built by
    [asyncMap] for [runningVmUuids] (a slot is [None] until its promise
    resolves), and the stack of [$defer]. *)
Record enable_locals := {
  state : MaintenanceState;
  runningVms : list (string * bool);
  runningVmUuids : list (option string);
  deferreds : list rcall;
}.

Definition set_state (st : MaintenanceState) (l : enable_locals) : enable_locals :=
  {| state := st; runningVms := runningVms l; runningVmUuids := runningVmUuids l;
     deferreds := deferreds l |}.

Definition set_runningVms (m : list (string * bool)) (l : enable_locals) : enable_locals :=
  {| state := state l; runningVms := m; runningVmUuids := runningVmUuids l;
     deferreds := deferreds l |}.

Definition set_runningVmUuids (us : list (option string)) (l : enable_locals)
    : enable_locals :=
  {| state := state l; runningVms := runningVms l; runningVmUuids := us;
     deferreds := deferreds l |}.

Definition push_deferred (d : rcall) (l : enable_locals) : enable_locals :=
  {| state := state l; runningVms := runningVms l; runningVmUuids := runningVmUuids l;
     deferreds := d :: deferreds l |}.

Definition no_locals : enable_locals :=
  {| state := {| timestamp := 0; shutdownVms := None; unpluggedPbds := None |};
     runningVms := []; runningVmUuids := []; deferreds := [] |}.

(** Lines 62-74: for each VDI read its VBDs, and [handleVbd] each of them:
    read the VM of the VBD, and unless [runningVms] has it read its power
    state and record it when paused or running. *)
Inductive handleVbd_pc :=
| VdiVBDs (ref : string)
| VbdVM (ref : string)
| VmPowerState (vmRef : string).

Definition handleVbd_awaited (pc : handleVbd_pc) : rcall :=
  match pc with
  | VdiVBDs ref => VDI_get_VBDs ref
  | VbdVM ref => VBD_get_VM ref
  | VmPowerState vmRef => VM_get_power_state vmRef
  end.

Definition handleVbd_resume (pc : handleVbd_pc) (r : reply) (l : enable_locals)
    : enable_locals * next handleVbd_pc :=
  match r with
  | Raise e => (l, Failed e)
  | Reply v =>
      match pc with
      | VdiVBDs _ =>
          match v with
          | VRefs vbds => (l, Spawn (VbdVM <$> vbds))
          | _ => (l, Failed TypeError)
          end
      | VbdVM _ =>
          match v with
          | VString vmRef =>
              if assoc_has vmRef (runningVms l) then (l, Finished)
              else (l, Continue (VmPowerState vmRef))
          | _ => (l, Failed TypeError)
          end
      | VmPowerState vmRef =>
          match v with
          | VPowerState power_state =>
              let isPaused := bool_decide (power_state = Paused) in
              if isPaused || bool_decide (power_state = Running)
              then (set_runningVms (assoc_set vmRef isPaused (runningVms l)) l, Finished)
              else (l, Finished)
          | _ => (l, Finished)
          end
      end
  end.

(** Line 77: [ref => this.getField('VM', ref, 'uuid')], filling its slot. *)
Inductive uuid_pc := VmUuid (index : nat) (ref : string).

Definition uuid_awaited (pc : uuid_pc) : rcall :=
  match pc with VmUuid _ ref => VM_get_uuid ref end.

Definition uuid_resume (pc : uuid_pc) (r : reply) (l : enable_locals)
    : enable_locals * next uuid_pc :=
  match pc, r with
  | _, Raise e => (l, Failed e)
  | VmUuid index _, Reply (VString uuid) =>
      (set_runningVmUuids (<[index := Some uuid]> (runningVmUuids l)) l, Finished)
  | _, Reply _ => (l, Failed TypeError)
  end.

(** Lines 93-104: record [state.shutdownVms[uuid] = isPaused], try a clean
    shutdown, fall back to a hard shutdown, then register [VM.start]. *)
Inductive shutdown_pc :=
| ShutdownUuid (ref : string) (isPaused : bool)
| CleanShutdown (ref : string) (isPaused : bool)
| HardShutdown (ref : string) (isPaused : bool).

Definition shutdown_awaited (pc : shutdown_pc) : rcall :=
  match pc with
  | ShutdownUuid ref _ => VM_get_uuid ref
  | CleanShutdown ref _ => VM_clean_shutdown ref
  | HardShutdown ref _ => VM_hard_shutdown ref
  end.

Definition set_shutdownVm (uuid : string) (isPaused : bool) (st : MaintenanceState)
    : option MaintenanceState :=
  match shutdownVms st with
  | Some vms =>
      Some {| timestamp := timestamp st;
              shutdownVms := Some (assoc_set uuid isPaused vms);
              unpluggedPbds := unpluggedPbds st |}
  | None => None
  end.

Definition shutdown_resume (pc : shutdown_pc) (r : reply) (l : enable_locals)
    : enable_locals * next shutdown_pc :=
  match pc with
  | ShutdownUuid ref isPaused =>
      match r with
      | Reply (VString uuid) =>
          match set_shutdownVm uuid isPaused (state l) with
          | Some st => (set_state st l, Continue (CleanShutdown ref isPaused))
          | None => (l, Failed TypeError)
          end
      | Reply _ => (l, Failed TypeError)
      | Raise e => (l, Failed e)
      end
  | CleanShutdown ref isPaused =>
      match r with
      | Reply _ => (push_deferred (VM_start ref isPaused true) l, Finished)
      | Raise _ => (l, Continue (HardShutdown ref isPaused))
      end
  | HardShutdown ref isPaused =>
      match r with
      | Reply _ => (push_deferred (VM_start ref isPaused true) l, Finished)
      | Raise e => (l, Failed e)
      end
  end.

(** Lines 107-115: for an attached PBD push its uuid, unplug it, then
    register [PBD.plug]. *)
Inductive unplug_pc :=
| PbdAttached (ref : string)
| PbdUuid (ref : string)
| PbdUnplug (ref : string).

Definition unplug_awaited (pc : unplug_pc) : rcall :=
  match pc with
  | PbdAttached ref => PBD_get_currently_attached ref
  | PbdUuid ref => PBD_get_uuid ref
  | PbdUnplug ref => PBD_unplug ref
  end.

Definition push_unpluggedPbd (uuid : string) (st : MaintenanceState)
    : option MaintenanceState :=
  match unpluggedPbds st with
  | Some pbds =>
      Some {| timestamp := timestamp st;
              shutdownVms := shutdownVms st;
              unpluggedPbds := Some (pbds ++ [uuid]) |}
  | None => None
  end.

Definition unplug_resume (pc : unplug_pc) (r : reply) (l : enable_locals)
    : enable_locals * next unplug_pc :=
  match r with
  | Raise e => (l, Failed e)
  | Reply v =>
      match pc with
      | PbdAttached ref =>
          if truthy v then (l, Continue (PbdUuid ref)) else (l, Finished)
      | PbdUuid ref =>
          match v with
          | VString uuid =>
              match push_unpluggedPbd uuid (state l) with
              | Some st => (set_state st l, Continue (PbdUnplug ref))
              | None => (l, Failed TypeError)
              end
          | _ => (l, Failed TypeError)
          end
      | PbdUnplug ref => (push_deferred (PBD_plug ref) l, Finished)
      end
  end.

Definition getField_refs {L} (c : rcall) : M L (list string) :=
  do v <- await c;
  match v with
  | VRefs refs => ret refs
  | _ => throw TypeError
  end.

Definition onFailure (d : rcall) : M enable_locals unit := assign (push_deferred d).

Definition discoverRunningVms (ref : string) : M enable_locals unit :=
  do vdis <- getField_refs (SR_get_VDIs ref);
  asyncMap handleVbd_awaited handleVbd_resume (VdiVBDs <$> vdis).

Definition resolveRunningVmUuids : M enable_locals (list string) :=
  do l <- locals;
  do _ <- assign (set_runningVmUuids (replicate (length (runningVms l)) None));
  do _ <- asyncMap uuid_awaited uuid_resume (imap VmUuid (runningVms l).*1);
  do l' <- locals;
  match mapM id (runningVmUuids l') with
  | Some uuids => ret uuids
  | None => pending
  end.

(** Lines 79-88: every running uuid must be in [new Set(vmsToShutdown)]. *)
Definition checkVmsToShutdown (vmsToShutdown runningVmUuids : list string)
    : M enable_locals unit :=
  if decide (Forall (λ vmUuid, vmUuid ∈ vmsToShutdown) runningVmUuids)
  then ret tt
  else throw (IncorrectState vmsToShutdown runningVmUuids).

Definition shutdownRunningVms : M enable_locals unit :=
  do _ <- assign (λ l, set_state {| timestamp := timestamp (state l);
                                      shutdownVms := Some [];
                                      unpluggedPbds := unpluggedPbds (state l) |} l);
  do l <- locals;
  asyncMapSettled shutdown_awaited shutdown_resume
    ((λ vm, ShutdownUuid vm.1 vm.2) <$> runningVms l).

Definition unplugPbds (ref : string) : M enable_locals unit :=
  do _ <- assign (λ l, set_state {| timestamp := timestamp (state l);
                                      shutdownVms := shutdownVms (state l);
                                      unpluggedPbds := Some [] |} l);
  do pbds <- getField_refs (SR_get_PBDs ref);
  asyncMapSettled unplug_awaited unplug_resume (PbdAttached <$> pbds).

Definition placeholder (t : nat) : MaintenanceState :=
  {| timestamp := t; shutdownVms := None; unpluggedPbds := None |}.

(** Lines 54-77: write the placeholder, register its removal, discover the
    running VMs and read their uuids. *)
Definition beginMaintenance (ref : string) : M enable_locals (list string) :=
  do t <- Date_now;
  do _ <- assign (set_state (placeholder t));
  do l <- locals;
  do _ <- await (SR_add_to_other_config ref OC_MAINTENANCE (state l));
  do _ <- onFailure (SR_remove_from_other_config ref OC_MAINTENANCE);
  do _ <- discoverRunningVms ref;
  resolveRunningVmUuids.

Definition enableMaintenanceMode_body (ref : string) (vmsToShutdown : list string)
    : M enable_locals unit :=
  do runningVmUuids <- beginMaintenance ref;
  do _ <- checkVmsToShutdown vmsToShutdown runningVmUuids;
  do _ <- shutdownRunningVms;
  do _ <- unplugPbds ref;
  do l <- locals;
  do _ <- await (SR_set_other_config_entry ref OC_MAINTENANCE (state l));
  ret tt.

(** A call starts with an empty trace. *)
Definition start (w : world) (sched : list nat) : cfg :=
  {| c_world := w; c_trace := []; c_sched := sched |}.

Definition compensate (d : rcall) (c : cfg) : cfg := (perform c d).2.

(** Modelled from the spec: the wrapper installed by
    [decorateClass(Sr, { enableMaintenanceMode: defer, ... })]: run the body
    with an empty stack; if it throws, execute the stack and rethrow the
    error of the body; otherwise forget the stack. *)
Definition defer {A} (fn : M enable_locals A) (c : cfg) : outcome A * cfg :=
  match fn no_locals c with
  | (Threw e, l, c') => (Threw e, executeDeferreds compensate (deferreds l) c')
  | (o, _, c') => (o, c')
  end.

Definition enableMaintenanceMode (ref : string) (vmsToShutdown : list string)
    (w : world) (sched : list nat) : outcome unit * cfg :=
  defer (enableMaintenanceMode_body ref vmsToShutdown) (start w sched).

Record disable_locals := { d_errors : list error }.

(** Lines 129-135: look the PBD up by uuid and plug it; any error is caught
    and pushed on [errors]. *)
Inductive plug_pc := PlugGetByUuid (uuid : string) | PlugPbd (ref : string).

Definition plug_awaited (pc : plug_pc) : rcall :=
  match pc with
  | PlugGetByUuid uuid => PBD_get_by_uuid uuid
  | PlugPbd ref => PBD_plug ref
  end.

Definition push_error (e : error) (l : disable_locals) : disable_locals :=
  {| d_errors := d_errors l ++ [e] |}.

Definition plug_resume (pc : plug_pc) (r : reply) (l : disable_locals)
    : disable_locals * next plug_pc :=
  match r with
  | Raise error => (push_error error l, Finished)
  | Reply v =>
      match pc with
      | PlugGetByUuid _ =>
          match v with
          | VString ref => (l, Continue (PlugPbd ref))
          | _ => (push_error TypeError l, Finished)
          end
      | PlugPbd _ => (l, Finished)
      end
  end.

(** Lines 137-143: look the VM up by uuid and start it with its recorded
    flag; any error is caught and pushed on [errors]. *)
Inductive start_pc :=
| StartGetByUuid (uuid : string) (isPaused : bool)
| StartVm (ref : string) (isPaused : bool).

Definition start_awaited (pc : start_pc) : rcall :=
  match pc with
  | StartGetByUuid uuid _ => VM_get_by_uuid uuid
  | StartVm ref isPaused => VM_start ref isPaused true
  end.

Definition start_resume (pc : start_pc) (r : reply) (l : disable_locals)
    : disable_locals * next start_pc :=
  match r with
  | Raise error => (push_error error l, Finished)
  | Reply v =>
      match pc with
      | StartGetByUuid _ isPaused =>
          match v with
          | VString ref => (l, Continue (StartVm ref isPaused))
          | _ => (push_error TypeError l, Finished)
          end
      | StartVm _ _ => (l, Finished)
      end
  end.

(** [JSON.parse] of the value under the key: [undefined] is a syntax
    error. *)
Definition JSON_parse {L} (text : option MaintenanceState) : M L MaintenanceState :=
  match text with
  | Some st => ret st
  | None => throw SyntaxError
  end.

(** Iterating over a field that the stored state lacks is a type error. *)
Definition iterable {L A} (xs : option (list A)) : M L (list A) :=
  match xs with
  | Some l => ret l
  | None => throw TypeError
  end.

Definition disableMaintenanceMode (ref : string) : M disable_locals unit :=
  do v <- await (SR_get_other_config ref);
  do other_config <- match v with
                     | VOtherConfig oc => ret oc
                     | _ => throw TypeError
                     end;
  do st <- JSON_parse (other_config !! OC_MAINTENANCE);
  do _ <- await (SR_remove_from_other_config ref OC_MAINTENANCE);
  do _ <- assign (λ _, {| d_errors := [] |});
  do pbds <- iterable (unpluggedPbds st);
  do _ <- asyncMap plug_awaited plug_resume (PlugGetByUuid <$> pbds);
  do vms <- iterable (shutdownVms st);
  do _ <- asyncMap start_awaited start_resume ((λ vm, StartGetByUuid vm.1 vm.2) <$> vms);
  do l <- locals;
  match d_errors l with
  | [] => ret tt
  | errors => throw (AggregateError errors)
  end.

End Sr.

Import Xapi Remote Async Sr.

(** * Reading traces *)

Definition fired {PC} (awaited : PC → rcall) (pc : PC) (w : world) : event :=
  {| ev_call := awaited pc; ev_reply := (exec w (awaited pc)).1;
     ev_world := (exec w (awaited pc)).2 |}.

(** The event a call leaves in the trace when made on pool [w]. *)
Definition call_event (call : rcall) (w : world) : event :=
  {| ev_call := call; ev_reply := (exec w call).1; ev_world := (exec w call).2 |}.

(** [steps allowed w t w']: the events [t] are a genuine run of calls, all
    of them [allowed], that leads the pool from [w] to [w']. *)
Inductive steps (allowed : rcall → Prop) : world → list event → world → Prop :=
| steps_nil w : steps allowed w [] w
| steps_snoc w t w' call :
    steps allowed w t w' → allowed call →
    steps allowed w (t ++ [call_event call w']) (exec w' call).2.

(** A computation is confined to [allowed] when all it does to the
    configuration is to append such a run to the trace. *)
Definition confined {L A} (allowed : rcall → Prop) (m : M L A) : Prop :=
  ∀ l c, ∃ t, c_trace (m l c).2 = c_trace c ++ t ∧
              steps allowed (c_world c) t (c_world (m l c).2).

(** Classes of calls: reads; calls that shut a VM down or detach a
    connection; writes to [other_config]; the calls of the shutdown tasks, of
    the unplug block, and of the two blocks of [disableMaintenanceMode]. *)
Definition getter (call : rcall) : bool :=
  match call with
  | SR_get_other_config _ | SR_get_VDIs _ | SR_get_PBDs _ | VDI_get_VBDs _
  | VBD_get_VM _ | VM_get_power_state _ | VM_get_uuid _ | VM_get_by_uuid _
  | PBD_get_currently_attached _ | PBD_get_uuid _ | PBD_get_by_uuid _ => true
  | _ => false
  end.

Definition disruptive (call : rcall) : bool :=
  match call with
  | VM_clean_shutdown _ | VM_hard_shutdown _ | PBD_unplug _ => true
  | _ => false
  end.

Definition writes_other_config (call : rcall) : bool :=
  match call with
  | SR_add_to_other_config _ _ _ | SR_remove_from_other_config _ _
  | SR_set_other_config_entry _ _ _ => true
  | _ => false
  end.

Definition shutdown_call (call : rcall) : bool :=
  match call with
  | VM_get_uuid _ | VM_clean_shutdown _ | VM_hard_shutdown _ => true
  | _ => false
  end.

Definition unplug_call (call : rcall) : bool :=
  match call with
  | SR_get_PBDs _ | PBD_get_currently_attached _ | PBD_get_uuid _ | PBD_unplug _ => true
  | _ => false
  end.

(** A computation keeps a property of the local variables. *)
Definition keeps {L A} (X : L → Prop) (m : M L A) : Prop :=
  ∀ l c, X l → X (m l c).1.2.

(** The stack of [$defer] and [state] have the given values. *)
Definition registered (ds : list rcall) (st : MaintenanceState) (l : enable_locals) : Prop :=
  deferreds l = ds ∧ state l = st.

(** What [beginMaintenance] does once the placeholder is written and its
    removal registered. *)
Definition scanRunningVms (ref : string) : M enable_locals (list string) :=
  do _ <- discoverRunningVms ref; resolveRunningVmUuids.

Definition is_Reply (r : reply) : bool :=
  match r with Reply _ => true | Raise _ => false end.

(** The connection detached, and the VM shut down, by a successful event. *)
Definition unplugged_by (ev : event) : option string :=
  match ev_call ev, ev_reply ev with
  | PBD_unplug pbd, Reply _ => Some pbd
  | _, _ => None
  end.

Definition halted_by (ev : event) : option string :=
  match ev_call ev, ev_reply ev with
  | VM_clean_shutdown vm, Reply _ | VM_hard_shutdown vm, Reply _ => Some vm
  | _, _ => None
  end.

(** The connections detached and the VMs shut down in a trace, in order. *)
Definition unplugged (tr : list event) : list string := omap unplugged_by tr.
Definition halted (tr : list event) : list string := omap halted_by tr.

(** The stack of [$defer] after a trace: the connections to reattach, most
    recently detached first, then the VMs to restart, then [base], the removal
    of the key. *)
Definition compensations (base : list rcall) (starts : list (string * bool))
    (tr : list event) : list rcall :=
  (PBD_plug <$> rev (unplugged tr)) ++ ((λ vm, VM_start vm.1 vm.2 true) <$> starts) ++ base.

(** The stack holds exactly the compensations of what the trace completed:
    a restart for each VM shut down, most recent first, with the flag recorded
    in [runningVms]. *)
Definition undoable (base : list rcall) (l : enable_locals) (tr : list event) : Prop :=
  ∃ starts, deferreds l = compensations base starts tr ∧
            starts.*1 = rev (halted tr) ∧
            starts ⊆ runningVms l.

Definition shutdown_target (pc : shutdown_pc) : string * bool :=
  match pc with
  | ShutdownUuid ref isPaused | CleanShutdown ref isPaused | HardShutdown ref isPaused =>
      (ref, isPaused)
  end.

(** The maintenance state stored on the storage object [sr], if any. *)
Definition maintenance_record (w : world) (sr : string) : option MaintenanceState :=
  SRs w !! sr ≫= λ s, sr_other_config s !! OC_MAINTENANCE.

Definition keeps_config (call : rcall) : Prop := writes_other_config call = false.

(** The trace holds a read of the uuid of [vm] that returned [uuid]. *)
Definition uuid_read (tr : list event) (vm uuid : string) : Prop :=
  ∃ ev, ev ∈ tr ∧ ev_call ev = VM_get_uuid vm ∧ ev_reply ev = Reply (VString uuid).

(** The event is a clean or hard shutdown of [vm], successful or not. *)
Definition shutdown_attempt (ev : event) (vm : string) : Prop :=
  ev_call ev = VM_clean_shutdown vm ∨ ev_call ev = VM_hard_shutdown vm.

(** The in-memory [state.shutdownVms] has an entry for the uuid read for
    [vm]. *)
Definition listed (l : enable_locals) (tr : list event) (vm : string) : Prop :=
  ∃ uuid vms, uuid_read tr vm uuid ∧ shutdownVms (state l) = Some vms ∧ uuid ∈ vms.*1.

(** Every VM whose shutdown was attempted is listed in memory. *)
Definition all_listed (l : enable_locals) (tr : list event) : Prop :=
  ∀ ev vm, ev ∈ tr → shutdown_attempt ev vm → listed l tr vm.

Definition shutdown_pc_listed (l : enable_locals) (tr : list event) (pc : shutdown_pc)
    : Prop :=
  match pc with
  | ShutdownUuid _ _ => True
  | CleanShutdown ref _ | HardShutdown ref _ => listed l tr ref
  end.

Definition shutdown_listing (pool : list shutdown_pc) (l : enable_locals)
    (tr : list event) : Prop :=
  is_Some (shutdownVms (state l)) ∧
  Forall (shutdown_pc_listed l tr) pool ∧
  all_listed l tr.

(** [state.shutdownVms] only gains keys. *)
Definition config_grows (l l' : enable_locals) : Prop :=
  ∀ vms, shutdownVms (state l) = Some vms →
         ∃ vms', shutdownVms (state l') = Some vms' ∧ vms.*1 ⊆ vms'.*1.

(** No shutdown was attempted in the trace. *)
Definition no_attempt (tr : list event) : Prop :=
  ∀ ev vm, ev ∈ tr → ¬ shutdown_attempt ev vm.

(** The error of a failed call, and the errors of a trace in order. *)
Definition failure_of (ev : event) : option error :=
  match ev_reply ev with Raise e => Some e | Reply _ => None end.

Definition failures (t : list event) : list error := omap failure_of t.

(** Reading the trace of the reattach block: the uuid looked up by an
    event, the ref a lookup found, and the ref an event tries to plug. *)
Definition pbd_lookup (ev : event) : option string :=
  match ev_call ev with PBD_get_by_uuid uuid => Some uuid | _ => None end.

Definition pbd_found (ev : event) : option string :=
  match ev_call ev, ev_reply ev with
  | PBD_get_by_uuid _, Reply (VString ref) => Some ref
  | _, _ => None
  end.

Definition pbd_plugged (ev : event) : option string :=
  match ev_call ev with PBD_plug ref => Some ref | _ => None end.

Definition plug_call (call : rcall) : bool :=
  match call with PBD_get_by_uuid _ | PBD_plug _ => true | _ => false end.

(** What a suspended task of the reattach block still has to do. *)
Definition plug_waiting_lookup (pc : plug_pc) : option string :=
  match pc with PlugGetByUuid uuid => Some uuid | PlugPbd _ => None end.

Definition plug_waiting_plug (pc : plug_pc) : option string :=
  match pc with PlugGetByUuid _ => None | PlugPbd ref => Some ref end.

(** The number of calls a task can still make. *)
Definition plug_rank (pc : plug_pc) : nat :=
  match pc with PlugGetByUuid _ => 2 | PlugPbd _ => 1 end.

(** Invariant of the reattach block: the errors pushed are the errors of
    the failed calls; each recorded uuid has been looked up or is about to be;
    each ref found has been plugged or is about to be. *)
Definition plug_progress (pbds : list string) (l0 : disable_locals) (w0 : world)
    (tr0 : list event) (pool : list plug_pc) (l : disable_locals) (w : world)
    (tr : list event) : Prop :=
  ∃ t,
    tr = tr0 ++ t ∧
    steps plug_call w0 t w ∧
    d_errors l = d_errors l0 ++ failures t ∧
    omap pbd_lookup t ++ omap plug_waiting_lookup pool ≡ₚ pbds ∧
    omap pbd_plugged t ++ omap plug_waiting_plug pool ≡ₚ omap pbd_found t.

(** The same readings for the restart block. *)
Definition vm_lookup (ev : event) : option string :=
  match ev_call ev with VM_get_by_uuid uuid => Some uuid | _ => None end.

Definition vm_found (ev : event) : option string :=
  match ev_call ev, ev_reply ev with
  | VM_get_by_uuid _, Reply (VString ref) => Some ref
  | _, _ => None
  end.

Definition vm_started (ev : event) : option string :=
  match ev_call ev with VM_start ref _ _ => Some ref | _ => None end.

Definition start_call (call : rcall) : bool :=
  match call with VM_get_by_uuid _ | VM_start _ _ _ => true | _ => false end.

Definition start_waiting_lookup (pc : start_pc) : option string :=
  match pc with StartGetByUuid uuid _ => Some uuid | StartVm _ _ => None end.

Definition start_waiting_start (pc : start_pc) : option string :=
  match pc with StartGetByUuid _ _ => None | StartVm ref _ => Some ref end.

Definition start_rank (pc : start_pc) : nat :=
  match pc with StartGetByUuid _ _ => 2 | StartVm _ _ => 1 end.

(** Invariant of the restart block. *)
Definition start_progress (uuids : list string) (l0 : disable_locals) (w0 : world)
    (tr0 : list event) (pool : list start_pc) (l : disable_locals) (w : world)
    (tr : list event) : Prop :=
  ∃ t,
    tr = tr0 ++ t ∧
    steps start_call w0 t w ∧
    d_errors l = d_errors l0 ++ failures t ∧
    omap vm_lookup t ++ omap start_waiting_lookup pool ≡ₚ uuids ∧
    omap vm_started t ++ omap start_waiting_start pool ≡ₚ omap vm_found t.

(** What [disableMaintenanceMode] does once the key is removed. *)
Definition restoreAll (st : MaintenanceState) : M disable_locals unit :=
  do _ <- assign (λ _, {| d_errors := [] |});
  do pbds <- iterable (unpluggedPbds st);
  do _ <- asyncMap plug_awaited plug_resume (PlugGetByUuid <$> pbds);
  do vms <- iterable (shutdownVms st);
  do _ <- asyncMap start_awaited start_resume ((λ vm, StartGetByUuid vm.1 vm.2) <$> vms);
  do l <- locals;
  match d_errors l with
  | [] => ret tt
  | errors => throw (AggregateError errors)
  end.

(** The trace holds a read of the power state of [vm] that returned [p]. *)
Definition power_read (tr : list event) (vm : string) (p : power_state) : Prop :=
  ∃ ev, ev ∈ tr ∧ ev_call ev = VM_get_power_state vm ∧ ev_reply ev = Reply (VPowerState p).

(** An entry of [runningVms] comes from a read that found the VM paused or
    running; its flag says which. *)
Definition seen_running (tr : list event) (vm : string * bool) : Prop :=
  ∃ p, power_read tr vm.1 p ∧ (p = Paused ∨ p = Running) ∧ vm.2 = bool_decide (p = Paused).

(** [runningVmUuids] holds, position by position, the uuids read for the
    keys of [runningVms]. *)
Definition uuids_read (tr : list event) (vms : list (string * bool)) (uuids : list string)
    : Prop :=
  Forall2 (λ vm uuid, uuid_read tr vm.1 uuid) vms uuids.

(** The outcome of the discovery: the running VMs and their uuids. *)
Definition discovered (tr : list event) (vms : list (string * bool)) (uuids : list string)
    : Prop :=
  Forall (seen_running tr) vms ∧ uuids_read tr vms uuids.

(** * Disk import ([importVdi] of src/@xen-orchestra/xapi/sr.js)

    [importVdi] sequences three collaborators that are not part of the
    sources at hand: [peekFooterFromStream] of vhd-lib, and [VDI_create] and
    [VDI_importContent] of the same class.  Each is modelled from the spec and
    logs an event when it is called, so that the order of the calls and what
    they receive can be read off the trace. *)
Module VdiImport.

(** Modelled from the spec: the constant [VDI_FORMAT_VHD] of [./index.js],
    the name of the structured format. *)
Definition VDI_FORMAT_VHD : string := "vhd".

(** A readable stream: its [length] hint, if any, and the bytes its
    consumer will still read. *)
Record stream := { s_length : option Z; s_unread : list byte }.

Record footer := { currentSize : Z }.

(** The options [importVdi] destructures; the remaining ones are passed to
    [VDI_create] untouched and are left out. *)
Record import_opts := {
  o_format : option string;
  o_name_label : option string;
  o_virtual_size : option Z;
}.

(** How the collaborators behave in a given run: what the footer parser
    finds in the bytes, the ref of the created disk, whether creation or
    import fails, and the date used for the default label. *)
Record collaborators := {
  parse_footer : list byte → option footer;
  created_ref : string;
  create_error : option error;
  import_error : option error;
  toISOString : string;
}.

Inductive import_event :=
| PeekFooter (unread : list byte)
| VdiCreate (SR name_label : string) (virtual_size : Z) (failed : bool)
| VdiImportContent (vdiRef : string) (content : list byte) (format : string) (failed : bool)
| VdiDestroy (vdiRef : string).

Record import_state := {
  i_stream : stream;
  i_deferreds : list string;
  i_trace : list import_event;
}.

Definition Step (A : Type) : Type := import_state → outcome A * import_state.

Definition iret {A} (a : A) : Step A := λ s, (Returned a, s).
Definition ithrow {A} (e : error) : Step A := λ s, (Threw e, s).
Definition ibind {A B} (m : Step A) (k : A → Step B) : Step B :=
  λ s, match m s with
       | (Returned a, s') => k a s'
       | (Threw e, s') => (Threw e, s')
       | (Pending, s') => (Pending, s')
       end.

Definition log (ev : import_event) (s : import_state) : import_state :=
  {| i_stream := i_stream s; i_deferreds := i_deferreds s; i_trace := i_trace s ++ [ev] |}.

(** Modelled from the spec: [peekFooterFromStream] "yields footer fields (at
    minimum logical size) without consuming payload bytes from the stream as
    seen by its eventual consumer"; it throws when the bytes hold no
    footer. *)
Definition peekFooterFromStream (env : collaborators) : Step footer :=
  λ s, let s' := log (PeekFooter (s_unread (i_stream s))) s in
       match parse_footer env (s_unread (i_stream s)) with
       | Some f => (Returned f, s')
       | None => (Threw (XapiError "NOT_A_VHD" []), s')
       end.

(** Modelled from the spec: [VDI_create] "create[s] the new disk object
    sized accordingly" and returns its ref, or fails. *)
Definition VDI_create (env : collaborators) (SR name_label : string) (virtual_size : Z)
    : Step string :=
  λ s, match create_error env with
       | Some e => (Threw e, log (VdiCreate SR name_label virtual_size true) s)
       | None => (Returned (created_ref env), log (VdiCreate SR name_label virtual_size false) s)
       end.

(** Modelled from the spec: [VDI_importContent] "stream[s] its content into
    the disk in the declared format", reading the stream to its end. *)
Definition VDI_importContent (env : collaborators) (vdiRef : string) (format : string)
    : Step unit :=
  λ s, let content := s_unread (i_stream s) in
       let drained := {| s_length := s_length (i_stream s); s_unread := [] |} in
       match import_error env with
       | Some e =>
           (Threw e,
            {| i_stream := drained; i_deferreds := i_deferreds s;
               i_trace := i_trace s ++ [VdiImportContent vdiRef content format true] |})
       | None =>
           (Returned tt,
            {| i_stream := drained; i_deferreds := i_deferreds s;
               i_trace := i_trace s ++ [VdiImportContent vdiRef content format false] |})
       end.

(** [$defer.onFailure.call(this, 'callAsync', 'VDI.destroy', vdiRef)]. *)
Definition onFailure_destroy (vdiRef : string) : Step unit :=
  λ s, (Returned tt,
        {| i_stream := i_stream s; i_deferreds := vdiRef :: i_deferreds s;
           i_trace := i_trace s |}).

Definition stream_length : Step (option Z) := λ s, (Returned (s_length (i_stream s)), s).

Definition importVdi_body (env : collaborators) (ref : string) (opts : import_opts)
    : Step string :=
  let format := default VDI_FORMAT_VHD (o_format opts) in
  let name_label :=
    default ("[XO] Imported disk - " +:+ toISOString env) (o_name_label opts) in
  ibind
    (match o_virtual_size opts with
     | Some virtual_size => iret virtual_size
     | None =>
         if decide (format = VDI_FORMAT_VHD)
         then ibind (peekFooterFromStream env) (λ footer, iret (currentSize footer))
         else ibind stream_length (λ virtual_size,
                match virtual_size with
                | Some n => iret n
                | None => ithrow AssertionError
                end)
     end)
    (λ virtual_size,
       ibind (VDI_create env ref name_label virtual_size) (λ vdiRef,
       ibind (onFailure_destroy vdiRef) (λ _,
       ibind (VDI_importContent env vdiRef format) (λ _,
       iret vdiRef)))).

Definition destroy (vdiRef : string) (s : import_state) : import_state :=
  log (VdiDestroy vdiRef) s.

(** The decorated method: the body runs with an empty stack, which [defer]
    executes when the body throws. *)
Definition importVdi (env : collaborators) (ref : string) (s : stream) (opts : import_opts)
    : outcome string * import_state :=
  match importVdi_body env ref opts
          {| i_stream := s; i_deferreds := []; i_trace := [] |} with
  | (Threw e, s') => (Threw e, executeDeferreds destroy (i_deferreds s') s')
  | r => r
  end.

End VdiImport.

Import VdiImport.

Definition chosen_size (env : collaborators) (s : stream) (opts : import_opts) : option Z :=
  if decide (default VDI_FORMAT_VHD (o_format opts) = VDI_FORMAT_VHD)
  then currentSize <$> parse_footer env (s_unread s)
  else s_length s.

(** * Concrete inputs

    A pool with one storage object, two disks, three VMs (running, halted,
    paused) and two connections (one attached); the same pool once in
    maintenance; fault oracles; two schedules. *)
Module Examples.

Definition boom : error := XapiError "INTERNAL_ERROR" ["injected"].

Definition no_fault : nat → rcall → option error := λ _ _, None.

Definition unplug_fails : nat → rcall → option error :=
  λ _ call, match call with PBD_unplug _ => Some boom | _ => None end.

Definition vmC_stays_up : nat → rcall → option error :=
  λ _ call,
    match call with
    | VM_clean_shutdown vm | VM_hard_shutdown vm =>
        if decide (vm = "vmC") then Some boom else None
    | _ => None
    end.


Definition pool0 (f : nat → rcall → option error) : world :=
  {| now := 100; fault := f;
     SRs := {[ "sr0" := {| sr_other_config := ∅;
                            sr_VDIs := ["vdi1"; "vdi2"];
                            sr_PBDs := ["pbd1"; "pbd2"] |} ]};
     VDIs := {[ "vdi1" := ["vbd1"; "vbd3"]; "vdi2" := ["vbd2"] ]};
     VBDs := {[ "vbd1" := "vmA"; "vbd2" := "vmB"; "vbd3" := "vmC" ]};
     VMs := {[ "vmA" := {| vm_uuid := "uuid-A"; vm_power_state := Running |};
               "vmB" := {| vm_uuid := "uuid-B"; vm_power_state := Halted |};
               "vmC" := {| vm_uuid := "uuid-C"; vm_power_state := Paused |} ]};
     PBDs := {[ "pbd1" := {| pbd_uuid := "uuid-p1"; pbd_currently_attached := true |};
                "pbd2" := {| pbd_uuid := "uuid-p2"; pbd_currently_attached := false |} ]} |}.

Definition recorded : MaintenanceState :=
  {| timestamp := 100;
     shutdownVms := Some [("uuid-A", false); ("uuid-C", true)];
     unpluggedPbds := Some ["uuid-p1"] |}.

Definition sr0_maintained : sr_record :=
  {| sr_other_config := {[ OC_MAINTENANCE := recorded ]};
     sr_VDIs := ["vdi1"; "vdi2"];
     sr_PBDs := ["pbd1"; "pbd2"] |}.

Definition maintained (f : nat → rcall → option error) : world :=
  {| now := 200; fault := f;
     SRs := {[ "sr0" := sr0_maintained ]};
     VDIs := {[ "vdi1" := ["vbd1"; "vbd3"]; "vdi2" := ["vbd2"] ]};
     VBDs := {[ "vbd1" := "vmA"; "vbd2" := "vmB"; "vbd3" := "vmC" ]};
     VMs := {[ "vmA" := {| vm_uuid := "uuid-A"; vm_power_state := Halted |};
               "vmB" := {| vm_uuid := "uuid-B"; vm_power_state := Halted |};
               "vmC" := {| vm_uuid := "uuid-C"; vm_power_state := Halted |} ]};
     PBDs := {[ "pbd1" := {| pbd_uuid := "uuid-p1"; pbd_currently_attached := false |};
                "pbd2" := {| pbd_uuid := "uuid-p2"; pbd_currently_attached := false |} ]} |}.

Definition in_order : list nat := replicate 40 0.

Definition interleaved : list nat :=
  [3; 1; 4; 1; 5; 9; 2; 6; 5; 3; 5; 8; 9; 7; 9; 3; 2; 3; 8; 4; 6; 2; 6; 4; 3; 3; 8; 3; 2; 7;
   9; 5; 0; 2; 8; 8; 4; 1; 9; 7].

Definition failed_task : xobject :=
  {| o_id := "task-17"; o_ref := "OpaqueRef:task"; o_status := "failure"; o_result := "";
     o_error_info := ["VM_BAD_POWER_STATE"; "OpaqueRef:vm"; "halted"; "running"] |}.

Definition watching_task : xapi := serve fresh_xapi (WatchTask (ARef "OpaqueRef:task")).

Definition new_vm : xobject :=
  {| o_id := "vm-uuid"; o_ref := "OpaqueRef:vm"; o_status := ""; o_result := "";
     o_error_info := [] |}.

Definition watching_vm_twice : xapi :=
  serve (serve fresh_xapi (WaitObject "vm-uuid")) (WaitObject "OpaqueRef:vm").

Definition vhd_upload : stream :=
  {| s_length := None; s_unread := ["c"; "o"; "n"; "e"; "c"; "t"; "i"; "x"]%byte |}.

Definition import_fails : collaborators :=
  {| parse_footer := λ _, Some {| currentSize := 4096 |};
     created_ref := "OpaqueRef:vdi";
     create_error := None;
     import_error := Some boom;
     toISOString := "2024-01-01T00:00:00.000Z" |}.

Definition default_opts : import_opts :=
  {| o_format := None; o_name_label := None; o_virtual_size := None |}.

End Examples.

Import Examples.

(** * Namespaces and pool patches (src/src/xapi.js) *)
Module Patches.

(** [String.prototype.toLowerCase], on the ASCII letters: it is only applied
    to the namespaces listed below. *)
Definition lower (c : Ascii.ascii) : Ascii.ascii :=
  let n := Ascii.nat_of_ascii c in
  if (65 <=? n) && (n <=? 90) then Ascii.ascii_of_nat (n + 32) else c.

Fixpoint toLowerCase (s : string) : string :=
  match s with
  | EmptyString => EmptyString
  | String c s' => String (lower c) (toLowerCase s')
  end.

(** The array literal of lines 31-54. *)
Definition namespaces : list string :=
  ["Bond"; "DR_task"; "GPU_group"; "PBD"; "PCI"; "PGPU"; "PIF"; "PIF_metrics"; "SM"; "SR";
   "VBD"; "VBD_metrics"; "VDI"; "VGPU"; "VGPU_type"; "VLAN"; "VM"; "VM_appliance";
   "VM_guest_metrics"; "VM_metrics"; "VMPP"; "VTPM"].

(** [typeToNamespace], the prototype-less object filled by the [forEach]:
    [typeToNamespace[namespace.toLowerCase()] = namespace]. *)
Definition typeToNamespace : gmap string string :=
  fold_left (λ m namespace, <[toLowerCase namespace := namespace]> m) namespaces ∅.

(** [typeToNamespace[type] || type]: a missing entry and an empty string are
    both falsy. *)
Definition getNamespaceForType (type : string) : string :=
  match typeToNamespace !! type with
  | Some namespace => if decide (namespace = "") then type else namespace
  | None => type
  end.

(** An entry of the [patches] object built by [_getXenUpdates]; of its
    fields, [listMissingPoolPatchesOnHost] reads [conflicts] only, and the
    entry is stored under its [uuid]. *)
Record patch_info := {
  pi_uuid : string;
  pi_name : string;
  pi_conflicts : list string;
  pi_requirements : list string;
}.

(** A JavaScript object that is enumerated later is an association list
    that holds its properties in the order of their creation ([assoc_set]
    keeps the place of a key that is set again).  Enumeration ([Object.keys],
    on which [forEach] of lodash relies for an object) does not follow that
    order: it visits first the keys that are array indices, in ascending
    numeric order, then the other keys in the order of their creation.  A key
    is an array index when it is the canonical decimal form (no leading zero)
    of an integer up to [2^32 - 2]. *)
Definition digit (c : Ascii.ascii) : option N :=
  let n := Ascii.N_of_ascii c in
  if ((48 <=? n) && (n <=? 57))%N then Some (n - 48)%N else None.

Fixpoint decimal (s : string) (acc : N) : option N :=
  match s with
  | EmptyString => Some acc
  | String c s' =>
      match digit c with
      | Some d => decimal s' (10 * acc + d)%N
      | None => None
      end
  end.

Definition array_index (key : string) : option N :=
  match key with
  | EmptyString => None
  | String c rest =>
      if decide (Ascii.N_of_ascii c = 48%N ∧ rest ≠ EmptyString) then None
      else match decimal key 0 with
           | Some n => if (n <=? 4294967294)%N then Some n else None
           | None => None
           end
  end.

Definition index_entry {A} (entry : string * A) : option (N * (string * A)) :=
  (λ n, (n, entry)) <$> array_index entry.1.

Definition by_index {A} (x y : N * A) : Prop := (x.1 ≤ y.1)%N.

Global Instance by_index_dec {A} : RelDecision (by_index (A:=A)).
Proof. intros x y. unfold by_index. apply _. Defined.

(** The properties of an object in the order of their enumeration. *)
Definition own_entries {A} (object : list (string * A)) : list (string * A) :=
  (merge_sort by_index (omap index_entry object)).*2 ++
  filter (λ entry, array_index entry.1 = None) object.

(** [resolveVersionPatches]: [versionPatches[uuid] = patches[uuid]] for each
    listed uuid, which stores [undefined] for a uuid that [patches] lacks.
    The result is an object: its properties in the order of their
    creation. *)
Definition resolveVersionPatches (patches : gmap string patch_info) (uuids : list string)
    : list (string * option patch_info) :=
  fold_left (λ versionPatches uuid, assoc_set uuid (patches !! uuid) versionPatches) uuids [].

(** What [listMissingPoolPatchesOnHost] reads of the host:
    [software_version.product_version], and for each element of [$patches]
    the uuid of its [$pool_patch], a link that is [undefined] when the pool
    patch is not in the cache. *)
Record host_record := {
  product_version : string;
  host_patches : list (option string);
}.

(** The callback of [forEach(all, (patch, uuid) => ...)]: skip an installed
    patch, skip a patch one of whose conflicts is installed, otherwise push.
    Reading [conflicts] of [undefined] is a type error. *)
Definition pushInstallable (installed : gset string) (acc : outcome (list patch_info))
    (entry : string * option patch_info) : outcome (list patch_info) :=
  match acc with
  | Returned installable =>
      if decide (entry.1 ∈ installed) then Returned installable
      else match entry.2 with
           | None => Threw TypeError
           | Some patch =>
               if decide (Exists (λ uuid, uuid ∈ installed) (pi_conflicts patch))
               then Returned installable
               else Returned (installable ++ [patch])
           end
  | other => other
  end.

(** [listMissingPoolPatchesOnHost], given the [versions] object returned by
    [_getXenUpdates] (version id to the patches of that version);
    [forEach(all, ...)] visits the patches in the order of enumeration. *)
Definition listMissingPoolPatchesOnHost
    (versions : gmap string (list (string * option patch_info))) (host : host_record)
    : outcome (list patch_info) :=
  match versions !! product_version host with
  | None => Threw TypeError
  | Some all =>
      match mapM id (host_patches host) with
      | None => Threw TypeError
      | Some uuids =>
          fold_left (pushInstallable (list_to_set uuids)) (own_entries all) (Returned [])
      end
  end.

End Patches.

Import Patches.

(** The patches of a version that a host with [installed] can still take. *)
Definition installable_on (installed : gset string) (entry : string * option patch_info)
    : option patch_info :=
  if decide (entry.1 ∈ installed) then None
  else match entry.2 with
       | Some patch =>
           if decide (Exists (λ uuid, uuid ∈ installed) (pi_conflicts patch))
           then None else Some patch
       | None => None
       end.

(** An entry on which the callback throws: not installed, and missing from
    [patches]. *)
Definition dangling (installed : gset string) (entry : string * option patch_info) : Prop :=
  (entry.1 ∉ installed) ∧ entry.2 = None.

(** * Calls issued by the workflows of src/src/xapi.js

    [deleteVm] and [_setObjectProperties] look objects up in the cache of the
    connection with [this.getObject] and talk to the pool with [this.call].
    Both belong to the xen-api package and are parameters here: [getObject]
    gives the cached object, or [None] where it throws; [respond n c] is the
    pool's reply to the call [c] when it is the [n]-th call issued.  A
    workflow is observed at some moment: [arrival] lists the indices of the
    calls whose reply has arrived by then, in the order of arrival. *)
Module Session.

Inductive jsarg := AString (s : string) | ABool (b : bool).

Record xcall := { x_method : string; x_params : list jsarg }.

(** The fields of a cached object that the workflows read: [$ref], [$type],
    [power_state], and for each element of [$VBDs] its [$VDI] ([None] for a
    VBD that is [undefined]). *)
Record cached_object := {
  obj_ref : string;
  obj_type : string;
  obj_power_state : power_state;
  obj_VBDs : list (option string);
}.

(** What a workflow rejects with: the error of [getObject] for an unknown
    id, an [Error] built by the workflow, or the error of a failed call. *)
Inductive thrown :=
| NoSuchObject (id : string)
| JsError (message : string)
| CallFailed (e : error).

Inductive settled (A : Type) := Resolves (a : A) | Rejects (t : thrown) | Unsettled.
Arguments Resolves {A} a.
Arguments Rejects {A} t.
Arguments Unsettled {A}.

Section Connection.
Variable getObject : string → option cached_object.
Variable respond : nat → xcall → reply.

(** [await this.call(method, ...params)], after the calls of [issued]: the
    call is issued at once, as the next call; its promise settles when its
    reply arrives, that is when the index of the call is in [arrival]. *)
Definition call (arrival : list nat) (method : string) (params : list jsarg)
    (issued : list xcall) : settled value * list xcall :=
  let c := {| x_method := method; x_params := params |} in
  (if decide (length issued ∈ arrival)
   then match respond (length issued) c with
        | Reply v => Resolves v
        | Raise e => Rejects (CallFailed e)
        end
   else Unsettled,
   issued ++ [c]).

(** An [async] function that ends without [return] after [await p]: it
    settles as [p] does, and resolves with [undefined]. *)
Definition then_undefined {A} (p : settled A) : settled unit :=
  match p with
  | Resolves _ => Resolves tt
  | Rejects t => Rejects t
  | Unsettled => Unsettled
  end.

(** [VM_RUNNING_POWER_STATES[vm.power_state]], on the power states of the
    pool. *)
Definition isVmRunning (vm : cached_object) : bool :=
  match obj_power_state vm with
  | Running | Paused => true
  | Halted | Suspended => false
  end.

(** [_deleteVdi]: an [async] function, so that the error of [getObject]
    rejects its promise. *)
Definition _deleteVdi (arrival : list nat) (vdiId : string) (issued : list xcall)
    : settled unit * list xcall :=
  match getObject vdiId with
  | None => (Rejects (NoSuchObject vdiId), issued)
  | Some vdi =>
      let '(p, issued') := call arrival "VDI.destroy" [AString (obj_ref vdi)] issued in
      (then_undefined p, issued')
  end.

(** [p.catch(noop)]. *)
Definition catch_noop (p : settled unit) : settled unit :=
  match p with
  | Rejects _ => Resolves tt
  | other => other
  end.

(** The callback of [map(vm.$VBDs, ...)] in [deleteVm], which adds the
    element it returns to the mapped array.  Reading [$VDI] of [undefined]
    throws inside the [try]: the callback returns [undefined], which
    [Promise.all] takes as resolved.  Otherwise the element is the promise of
    [_deleteVdi] with [.catch(noop)].  The calls are issued when the callback
    runs. *)
Definition deleteDisk (arrival : list nat) (acc : list (settled unit) * list xcall)
    (vbd : option string) : list (settled unit) * list xcall :=
  match vbd with
  | None => (acc.1 ++ [Resolves tt], acc.2)
  | Some vdiId =>
      let '(p, issued) := _deleteVdi arrival vdiId acc.2 in
      (acc.1 ++ [catch_noop p], issued)
  end.

(** [Promise.all] over promises: it rejects as soon as one has rejected
    (the first of the array stands for it), resolves once all have resolved,
    and is unsettled until then. *)
Definition is_resolved {A} (p : settled A) : bool :=
  match p with Resolves _ => true | _ => false end.

Definition all_of (promises : list (settled unit)) : settled unit :=
  match omap (λ p, match p with Rejects t => Some t | _ => None end) promises with
  | t :: _ => Rejects t
  | [] => if decide (Forall (λ p, is_resolved p) promises) then Resolves tt else Unsettled
  end.

Definition deleteVm (arrival : list nat) (vmId : string) (deleteDisks : bool)
    : settled unit * list xcall :=
  match getObject vmId with
  | None => (Rejects (NoSuchObject vmId), [])
  | Some vm =>
      if isVmRunning vm then (Rejects (JsError "running VMs cannot be deleted"), [])
      else
        let '(promises, issued) :=
          if deleteDisks then fold_left (deleteDisk arrival) (obj_VBDs vm) ([], [])
          else ([], []) in
        match all_of promises with
        | Resolves _ =>
            let '(p, issued') := call arrival "VM.destroy" [AString (obj_ref vm)] issued in
            (then_undefined p, issued')
        | Rejects t => (Rejects t, issued)
        | Unsettled => (Unsettled, issued)
        end
  end.

(** [Promise.all] over calls that were all issued: [arrival] lists the
    indices of the calls in the order their replies arrive.  The first
    failure to arrive rejects; when every reply has arrived without one, it
    resolves. *)
Definition rejection (replies : list reply) (i : nat) : option error :=
  match replies !! i with
  | Some (Raise e) => Some e
  | _ => None
  end.

Definition Promise_all (replies : list reply) (arrival : list nat) : settled unit :=
  match head (omap (rejection replies) arrival) with
  | Some e => Rejects (CallFailed e)
  | None =>
      if decide (Forall (λ i, i ∈ arrival) (seq 0 (length replies)))
      then Resolves tt else Unsettled
  end.

(** [_setObjectProperties]: one call [namespace.set_name(ref, value)] for
    each property whose value is neither [null] nor [undefined] ([None]),
    all issued before any reply is awaited. *)
Definition setter (namespace ref : string) (prop : string * option string) : option xcall :=
  (λ value, {| x_method := namespace +:+ ".set_" +:+ prop.1;
               x_params := [AString ref; AString value] |}) <$> prop.2.

Definition _setObjectProperties (arrival : list nat) (id : string)
    (props : list (string * option string)) : settled unit * list xcall :=
  match getObject id with
  | None => (Rejects (NoSuchObject id), [])
  | Some object =>
      let namespace := getNamespaceForType (obj_type object) in
      let calls := omap (setter namespace (obj_ref object)) props in
      (Promise_all (imap respond calls) arrival, calls)
  end.

(** [setSrProperties] destructures [name_label] and [name_description] from
    its second argument and passes these two on. *)
Definition setSrProperties (arrival : list nat) (id : string)
    (name_label name_description : option string) : settled unit * list xcall :=
  _setObjectProperties arrival id
    [("name_label", name_label); ("name_description", name_description)].

End Connection.

End Session.

Import Session.

(** The [VDI.destroy] that [deleteVm] issues for an element of [$VBDs]: none
    when the VBD, or its disk, is not in the cache. *)
Definition disk_destruction (getObject : string → option cached_object)
    (vbd : option string) : option xcall :=
  match vbd with
  | Some vdiId =>
      match getObject vdiId with
      | Some vdi => Some {| x_method := "VDI.destroy"; x_params := [AString (obj_ref vdi)] |}
      | None => None
      end
  | None => None
  end.

(** * What maintenance mode does to the pool *)

(** A VM once shut down, a connection once detached or reattached, a VM
    once restarted with its recorded flag. *)
Definition halt (v : vm_record) : vm_record :=
  {| vm_uuid := vm_uuid v; vm_power_state := Halted |}.

Definition restart (isPaused : bool) (v : vm_record) : vm_record :=
  {| vm_uuid := vm_uuid v; vm_power_state := if isPaused then Paused else Running |}.

Definition detach (p : pbd_record) : pbd_record :=
  {| pbd_uuid := pbd_uuid p; pbd_currently_attached := false |}.

Definition attach (p : pbd_record) : pbd_record :=
  {| pbd_uuid := pbd_uuid p; pbd_currently_attached := true |}.

Definition is_running (v : vm_record) : bool :=
  match vm_power_state v with
  | Running | Paused => true
  | Halted | Suspended => false
  end.

(** Two pools hold the same objects and the same fault oracle; only their
    clocks may differ. *)
Definition same_objects (w w' : world) : Prop :=
  fault w' = fault w ∧ SRs w' = SRs w ∧ VDIs w' = VDIs w ∧ VBDs w' = VBDs w ∧
  VMs w' = VMs w ∧ PBDs w' = PBDs w.

(** No call issued from time [t] on is failed by the oracle. *)
Definition fault_free_from (w : world) (t : nat) : Prop :=
  ∀ t' call, t ≤ t' → fault w t' call = None.

(** [vbd] belongs to one of the disks [vdis]; [vm] has a disk among them. *)
Definition on_vdis (w : world) (vdis : list string) (vbd : string) : Prop :=
  ∃ vdi vbds, vdi ∈ vdis ∧ VDIs w !! vdi = Some vbds ∧ vbd ∈ vbds.

Definition user (w : world) (vdis : list string) (vm : string) : Prop :=
  ∃ vbd, on_vdis w vdis vbd ∧ VBDs w !! vbd = Some vm.

(** An entry of [runningVms] that tells the truth about pool [w]: the VM
    is running or paused there, and the flag says which. *)
Definition genuine (w : world) (entry : string * bool) : Prop :=
  ∃ v, VMs w !! entry.1 = Some v ∧ is_running v = true ∧
       entry.2 = bool_decide (vm_power_state v = Paused).

(** A VM is accounted for by the discovery: if it runs, [runningVms] has
    it. *)
Definition covered (w : world) (l : enable_locals) (vm : string) : Prop :=
  ∀ v, VMs w !! vm = Some v → is_running v = true → vm ∈ (runningVms l).*1.

(** What is left to do for a VM, a VBD and a disk while the discovery
    runs. *)
Definition vm_todo (w : world) (pool : list handleVbd_pc) (l : enable_locals)
    (vm : string) : Prop :=
  VmPowerState vm ∈ pool ∨ covered w l vm.

Definition vbd_todo (w : world) (pool : list handleVbd_pc) (l : enable_locals)
    (vbd : string) : Prop :=
  VbdVM vbd ∈ pool ∨ ∀ vm, VBDs w !! vbd = Some vm → vm_todo w pool l vm.

Definition vdi_todo (w : world) (pool : list handleVbd_pc) (l : enable_locals)
    (vdi : string) : Prop :=
  VdiVBDs vdi ∈ pool ∨
  ∀ vbds vbd, VDIs w !! vdi = Some vbds → vbd ∈ vbds → vbd_todo w pool l vbd.

Definition task_on_vdis (w : world) (vdis : list string) (pc : handleVbd_pc) : Prop :=
  match pc with
  | VdiVBDs vdi => vdi ∈ vdis
  | VbdVM vbd => on_vdis w vdis vbd
  | VmPowerState vm => user w vdis vm
  end.

(** Invariant of the discovery started on pool [w0] for the disks [vdis]. *)
Definition discovering (w0 : world) (vdis : list string) (pool : list handleVbd_pc)
    (l : enable_locals) (w : world) (tr : list event) : Prop :=
  same_objects w0 w ∧
  Forall (task_on_vdis w0 vdis) pool ∧
  Forall (genuine w0) (runningVms l) ∧
  Forall (user w0 vdis) (runningVms l).*1 ∧
  NoDup (runningVms l).*1 ∧
  ∀ vdi, vdi ∈ vdis → vdi_todo w0 pool l vdi.

(** Invariant of the shutdown block started on pool [w0] for the entries
    [targets] of [runningVms]: the pool differs from [w0] by the targets
    already shut down; [state.shutdownVms] holds uuids of targets, each once;
    every target still has a task or is shut down, and has its uuid recorded
    once the task has read it. *)
Definition shutting (w0 : world) (targets : list (string * bool)) (pool : list shutdown_pc)
    (l : enable_locals) (w : world) (tr : list event) : Prop :=
  fault w = fault w0 ∧ SRs w = SRs w0 ∧ VDIs w = VDIs w0 ∧ VBDs w = VBDs w0 ∧
  PBDs w = PBDs w0 ∧
  (∀ vm, VMs w !! vm = VMs w0 !! vm ∨
         (vm ∈ targets.*1 ∧ VMs w !! vm = halt <$> VMs w0 !! vm)) ∧
  Forall (λ pc, shutdown_target pc ∈ targets) pool ∧
  (∃ vms, shutdownVms (state l) = Some vms ∧ NoDup vms.*1 ∧
     (∀ u f, (u, f) ∈ vms →
        ∃ vm v, (vm, f) ∈ targets ∧ VMs w0 !! vm = Some v ∧ vm_uuid v = u) ∧
     (∀ target, target ∈ targets →
        ShutdownUuid target.1 target.2 ∈ pool ∨
        ∃ v, VMs w0 !! target.1 = Some v ∧ vm_uuid v ∈ vms.*1)) ∧
  (∀ target, target ∈ targets →
     (∃ pc, pc ∈ pool ∧ shutdown_target pc = target) ∨
     (is_Some (VMs w0 !! target.1) ∧ VMs w !! target.1 = halt <$> VMs w0 !! target.1)).

Definition unplug_target (pc : unplug_pc) : string :=
  match pc with PbdAttached ref | PbdUuid ref | PbdUnplug ref => ref end.

(** The connection was attached in pool [w]. *)
Definition was_attached (w : world) (pbd : string) : Prop :=
  ∃ p, PBDs w !! pbd = Some p ∧ pbd_currently_attached p = true.

(** What a task of the unplug block has established about its connection:
    once it has read [currently_attached], the connection was attached when
    the block started; once it has read the uuid, the uuid is recorded. *)
Definition unplug_task_ok (w0 : world) (pbds ps : list string) (pc : unplug_pc) : Prop :=
  unplug_target pc ∈ pbds ∧
  match pc with
  | PbdAttached _ => True
  | PbdUuid ref => was_attached w0 ref
  | PbdUnplug ref => ∃ p, PBDs w0 !! ref = Some p ∧ pbd_currently_attached p = true ∧
                          pbd_uuid p ∈ ps
  end.

(** Invariant of the unplug block started on pool [w0] for the connections
    [pbds]: the pool differs from [w0] by the connections detached so far,
    all of them attached in [w0] and recorded in [state.unpluggedPbds]; every
    connection still has a task, or is detached. *)
Definition unplugging (w0 : world) (pbds : list string) (pool : list unplug_pc)
    (l : enable_locals) (w : world) (tr : list event) : Prop :=
  fault w = fault w0 ∧ SRs w = SRs w0 ∧ VDIs w = VDIs w0 ∧ VBDs w = VBDs w0 ∧
  VMs w = VMs w0 ∧
  ∃ ps, unpluggedPbds (state l) = Some ps ∧
    (∀ pbd, PBDs w !! pbd = PBDs w0 !! pbd ∨
            ∃ p, PBDs w0 !! pbd = Some p ∧ pbd ∈ pbds ∧ pbd_currently_attached p = true ∧
                 pbd_uuid p ∈ ps ∧ PBDs w !! pbd = Some (detach p)) ∧
    (∀ u, u ∈ ps →
       ∃ pbd p, pbd ∈ pbds ∧ PBDs w0 !! pbd = Some p ∧ pbd_uuid p = u ∧
                pbd_currently_attached p = true) ∧
    Forall (unplug_task_ok w0 pbds ps) pool ∧
    (∀ pbd, pbd ∈ pbds →
       (∃ pc, pc ∈ pool ∧ unplug_target pc = pbd) ∨
       ∃ p, PBDs w0 !! pbd = Some p ∧ PBDs w !! pbd = Some (detach p) ∧
            (pbd_currently_attached p = true → pbd_uuid p ∈ ps)).

(** The storage object once in maintenance with state [st]. *)
Definition in_maintenance (s : sr_record) (st : MaintenanceState) : sr_record :=
  {| sr_other_config := <[OC_MAINTENANCE := st]> (sr_other_config s);
     sr_VDIs := sr_VDIs s; sr_PBDs := sr_PBDs s |}.

(** What a run of [enableMaintenanceMode] that returned has done: pool [w']
    is pool [w] with the storage object [ref] in maintenance, the VMs of
    [runningVms], which are the running VMs with a disk on the storage object,
    shut down, and the connections of the storage object detached; the stored
    state names the uuids of these VMs and of the connections that were
    attached. *)
Record maintained_from (w : world) (ref : string) (s : sr_record) (l : enable_locals)
    (w' : world) : Prop := {
  mf_sr : SRs w !! ref = Some s;
  mf_fresh : sr_other_config s !! OC_MAINTENANCE = None;
  mf_fault : fault w' = fault w;
  mf_VDIs : VDIs w' = VDIs w;
  mf_VBDs : VBDs w' = VBDs w;
  mf_SRs : SRs w' = <[ref := in_maintenance s (state l)]> (SRs w);
  mf_genuine : Forall (genuine w) (runningVms l);
  mf_users : Forall (user w (sr_VDIs s)) (runningVms l).*1;
  mf_nodup : NoDup (runningVms l).*1;
  mf_covered : ∀ vm, user w (sr_VDIs s) vm → covered w l vm;
  mf_halted : ∀ vm, vm ∈ (runningVms l).*1 → VMs w' !! vm = halt <$> VMs w !! vm;
  mf_others : ∀ vm, vm ∉ (runningVms l).*1 → VMs w' !! vm = VMs w !! vm;
  mf_detached : ∀ pbd, pbd ∈ sr_PBDs s →
    ∃ p, PBDs w !! pbd = Some p ∧ PBDs w' !! pbd = Some (detach p);
  mf_other_pbds : ∀ pbd, pbd ∉ sr_PBDs s → PBDs w' !! pbd = PBDs w !! pbd;
  mf_vms : ∃ vms, shutdownVms (state l) = Some vms ∧ NoDup vms.*1 ∧
    (∀ u f, (u, f) ∈ vms →
       ∃ vm v, (vm, f) ∈ runningVms l ∧ VMs w !! vm = Some v ∧ vm_uuid v = u) ∧
    (∀ target, target ∈ runningVms l →
       ∃ v, VMs w !! target.1 = Some v ∧ vm_uuid v ∈ vms.*1);
  mf_pbds : ∃ ps, unpluggedPbds (state l) = Some ps ∧
    (∀ u, u ∈ ps →
       ∃ pbd p, pbd ∈ sr_PBDs s ∧ PBDs w !! pbd = Some p ∧ pbd_uuid p = u ∧
                pbd_currently_attached p = true) ∧
    (∀ pbd p, pbd ∈ sr_PBDs s → PBDs w !! pbd = Some p →
       pbd_currently_attached p = true → pbd_uuid p ∈ ps);
}.

(** No two objects of the map have the same uuid. *)
Definition unique_uuids {A} (uuid_of : A → string) (m : gmap string A) : Prop :=
  ∀ ref1 ref2 x1 x2,
    m !! ref1 = Some x1 → m !! ref2 = Some x2 → uuid_of x1 = uuid_of x2 → ref1 = ref2.

Definition plug_task_ok (w0 : world) (ps : list string) (pc : plug_pc) : Prop :=
  match pc with
  | PlugGetByUuid u => u ∈ ps
  | PlugPbd ref => ∃ p, PBDs w0 !! ref = Some p ∧ pbd_uuid p ∈ ps
  end.

(** Invariant of the reattach block of [disableMaintenanceMode], started on
    a pool [w0] where no call fails any more, for the recorded uuids [ps]:
    no error was caught; the pool differs from [w0] by the connections
    reattached so far; every recorded uuid still has a task, or its connection
    is attached. *)
Definition plugging (w0 : world) (ps : list string) (pool : list plug_pc)
    (l : disable_locals) (w : world) (tr : list event) : Prop :=
  d_errors l = [] ∧ fault w = fault w0 ∧ now w0 ≤ now w ∧ SRs w = SRs w0 ∧
  VDIs w = VDIs w0 ∧ VBDs w = VBDs w0 ∧ VMs w = VMs w0 ∧
  (∀ pbd, PBDs w !! pbd = PBDs w0 !! pbd ∨
          ∃ p, PBDs w0 !! pbd = Some p ∧ pbd_uuid p ∈ ps ∧
               PBDs w !! pbd = Some (attach p)) ∧
  Forall (plug_task_ok w0 ps) pool ∧
  (∀ u, u ∈ ps →
     PlugGetByUuid u ∈ pool ∨
     ∃ pbd p, PBDs w0 !! pbd = Some p ∧ pbd_uuid p = u ∧
              (PlugPbd pbd ∈ pool ∨ PBDs w !! pbd = Some (attach p))).

(** The uuid a task of the restart block is about. *)
Definition start_uuid (w0 : world) (pc : start_pc) : string :=
  match pc with
  | StartGetByUuid u _ => u
  | StartVm ref _ => default "" (vm_uuid <$> VMs w0 !! ref)
  end.

Definition start_task_ok (w0 : world) (vms : list (string * bool)) (w : world)
    (pc : start_pc) : Prop :=
  match pc with
  | StartGetByUuid u f => (u, f) ∈ vms
  | StartVm ref f =>
      ∃ v, VMs w0 !! ref = Some v ∧ (vm_uuid v, f) ∈ vms ∧ VMs w !! ref = Some v
  end.

(** Invariant of the restart block, started on a pool [w0] where no call
    fails any more, for the recorded entries [vms]: no error was caught; the
    pool differs from [w0] by the VMs restarted so far, each with its recorded
    flag and with no task left; no two tasks are about the same uuid; every
    recorded uuid still has a task, or its VM is restarted. *)
Definition starting (w0 : world) (vms : list (string * bool)) (pool : list start_pc)
    (l : disable_locals) (w : world) (tr : list event) : Prop :=
  d_errors l = [] ∧ fault w = fault w0 ∧ now w0 ≤ now w ∧ SRs w = SRs w0 ∧
  VDIs w = VDIs w0 ∧ VBDs w = VBDs w0 ∧ PBDs w = PBDs w0 ∧
  (∀ vm, VMs w !! vm = VMs w0 !! vm ∨
         ∃ v f, VMs w0 !! vm = Some v ∧ (vm_uuid v, f) ∈ vms ∧
                (vm_uuid v ∉ start_uuid w0 <$> pool) ∧
                VMs w !! vm = Some (restart f v)) ∧
  Forall (start_task_ok w0 vms w) pool ∧
  NoDup (start_uuid w0 <$> pool) ∧
  (∀ u f, (u, f) ∈ vms →
     (∃ pc, pc ∈ pool ∧ start_uuid w0 pc = u) ∨
     ∃ vm v, VMs w0 !! vm = Some v ∧ vm_uuid v = u ∧ VMs w !! vm = Some (restart f v)).

(** The event is an attempt to detach a connection. *)
Definition detach_attempt (ev : event) : bool :=
  match ev_call ev with PBD_unplug _ => true | _ => false end.

(** * The entries of the in-memory state *)

(** The in-memory [state.shutdownVms] maps the uuid of [vm] to whether [vm]
    was paused in pool [w]. *)
Definition entry_recorded (w : world) (l : enable_locals) (vm : string) : Prop :=
  ∃ v vms, VMs w !! vm = Some v ∧ shutdownVms (state l) = Some vms ∧
           (vm_uuid v, bool_decide (vm_power_state v = Paused)) ∈ vms.

(** Every VM whose shutdown was attempted has its entry in memory. *)
Definition all_recorded (w : world) (l : enable_locals) (tr : list event) : Prop :=
  ∀ ev vm, ev ∈ tr → shutdown_attempt ev vm → entry_recorded w l vm.

(** A task of the shutdown block that has read the uuid of its VM has
    recorded the entry of the VM, with the flag of [runningVms]. *)
Definition shutdown_pc_recorded (w0 : world) (vms : list (string * bool))
    (pc : shutdown_pc) : Prop :=
  match pc with
  | ShutdownUuid _ _ => True
  | CleanShutdown ref f | HardShutdown ref f =>
      ∃ v, VMs w0 !! ref = Some v ∧ (vm_uuid v, f) ∈ vms
  end.

(** Invariant of the shutdown block started on pool [w0] with the trace
    [tr0] for the entries [targets] of [runningVms], whatever fails: the VMs
    keep their uuids, and every VM whose shutdown is attempted after [tr0] has
    its entry in [state.shutdownVms]. *)
Definition recording (w0 : world) (targets : list (string * bool)) (tr0 : list event)
    (pool : list shutdown_pc) (l : enable_locals) (w : world) (tr : list event) : Prop :=
  (∀ vm, vm_uuid <$> VMs w !! vm = vm_uuid <$> VMs w0 !! vm) ∧
  Forall (λ pc, shutdown_target pc ∈ targets) pool ∧
  ∃ vms, shutdownVms (state l) = Some vms ∧
    Forall (shutdown_pc_recorded w0 vms) pool ∧
    ∀ ev vm, ev ∈ tr → shutdown_attempt ev vm →
      ev ∈ tr0 ∨ ∃ v f, (vm, f) ∈ targets ∧ VMs w0 !! vm = Some v ∧ (vm_uuid v, f) ∈ vms.

(** * Concrete inputs for the patches and the cached objects

    Three patches of one version, the second and third in conflict; a host
    with the third installed, and the same host once the first is installed
    too; an older version whose two patches have uuids that are array
    indices, listed in descending order, and a host of that version without
    patches.  A cache with a halted VM that has a disk, an empty drive and a disk
    that left the cache, and a storage object; a pool that refuses to destroy
    disks. *)
Definition hotfix1 : patch_info :=
  {| pi_uuid := "p1"; pi_name := "XS70E001"; pi_conflicts := []; pi_requirements := [] |}.

Definition hotfix2 : patch_info :=
  {| pi_uuid := "p2"; pi_name := "XS70E002"; pi_conflicts := ["p3"];
     pi_requirements := ["p1"] |}.

Definition hotfix3 : patch_info :=
  {| pi_uuid := "p3"; pi_name := "XS70E003"; pi_conflicts := ["p2"]; pi_requirements := [] |}.

Definition nine : patch_info :=
  {| pi_uuid := "9"; pi_name := "XS65E009"; pi_conflicts := []; pi_requirements := [] |}.

Definition ten : patch_info :=
  {| pi_uuid := "10"; pi_name := "XS65E010"; pi_conflicts := []; pi_requirements := [] |}.

Definition known_patches : gmap string patch_info :=
  {[ "p1" := hotfix1; "p2" := hotfix2; "p3" := hotfix3; "9" := nine; "10" := ten ]}.

Definition xs70 : gmap string (list (string * option patch_info)) :=
  {[ "7.0.0" := resolveVersionPatches known_patches ["p1"; "p2"; "p3"];
     "6.5.0" := resolveVersionPatches known_patches ["10"; "9"] ]}.

Definition bare_host : host_record :=
  {| product_version := "6.5.0"; host_patches := [] |}.

Definition host_with_p3 : host_record :=
  {| product_version := "7.0.0"; host_patches := [Some "p3"] |}.

Definition host_with_p3_p1 : host_record :=
  {| product_version := "7.0.0"; host_patches := [Some "p3"; Some "p1"] |}.

Definition halted_vm : cached_object :=
  {| obj_ref := "OpaqueRef:vm1"; obj_type := "vm"; obj_power_state := Halted;
     obj_VBDs := [Some "vdi-1"; None; Some "vdi-gone"] |}.

Definition cached_sr : cached_object :=
  {| obj_ref := "OpaqueRef:sr1"; obj_type := "sr"; obj_power_state := Halted;
     obj_VBDs := [] |}.

Definition cache (id : string) : option cached_object :=
  if decide (id = "vm-1") then Some halted_vm
  else if decide (id = "vdi-1")
  then Some {| obj_ref := "OpaqueRef:vdi1"; obj_type := "vdi"; obj_power_state := Halted;
               obj_VBDs := [] |}
  else if decide (id = "sr-1") then Some cached_sr
  else None.

Definition disks_stay : nat → xcall → reply :=
  λ _ c, if decide (x_method c = "VDI.destroy") then Raise boom else Reply VUndefined.

Definition sized_opts : import_opts :=
  {| o_format := Some "raw"; o_name_label := None; o_virtual_size := Some 1024%Z |}.

(** The state stored by [enableMaintenanceMode] on the pool of the
    examples, with the schedule [interleaved]. *)
Definition stored : MaintenanceState :=
  {| timestamp := 100;
     shutdownVms := Some [("uuid-C", true); ("uuid-A", false)];
     unpluggedPbds := Some ["uuid-p1"] |}.

(** * Proofs: the watcher bridge *)

Lemma wf_fresh : wf fresh_xapi.
Proof.
  split; simpl; try (intros; simplify_map_eq; done).
  - intros p Hp. inversion Hp.
  - constructor.
Qed.

Lemma wf_waitObject key x : wf x → wf (_waitObject key x).2.
Proof.
  intros H. unfold _waitObject.
  destruct (_objectWatchers x !! key) as [p|] eqn:E; [done|]. simpl.
  destruct H. split; simpl.
  - intros k p. rewrite lookup_insert. case_decide; [intros [= <-]; lia|].
    intros Hk. apply wf_obj_bound0 in Hk. lia.
  - intros k p Hk. apply wf_task_bound0 in Hk. lia.
  - intros p Hp. apply wf_log_bound0 in Hp. lia.
  - intros k p. rewrite lookup_insert. case_decide.
    + intros [= <-] Hin. apply wf_log_bound0 in Hin. lia.
    + eauto.
  - eauto.
  - intros k1 k2 p. rewrite !lookup_insert. repeat case_decide; subst; try done.
    + intros [= <-] Hk. apply wf_obj_bound0 in Hk. lia.
    + intros Hk [= <-]. apply wf_obj_bound0 in Hk. lia.
    + eauto.
  - eauto.
  - intros k1 k2 p. rewrite lookup_insert. case_decide.
    + intros [= <-] Hk. apply wf_task_bound0 in Hk. lia.
    + eauto.
  - done.
Qed.

Lemma wf_watchTask a x : wf x → wf (_watchTask a x).2.
Proof.
  intros H. unfold _watchTask.
  destruct (_taskWatchers x !! unpack_ref a) as [p|] eqn:E; [done|]. simpl.
  destruct H. split; simpl.
  - intros k p Hk. apply wf_obj_bound0 in Hk. lia.
  - intros k p. rewrite lookup_insert. case_decide; [intros [= <-]; lia|].
    intros Hk. apply wf_task_bound0 in Hk. lia.
  - intros p Hp. apply wf_log_bound0 in Hp. lia.
  - eauto.
  - intros k p. rewrite lookup_insert. case_decide.
    + intros [= <-] Hin. apply wf_log_bound0 in Hin. lia.
    + eauto.
  - eauto.
  - intros k1 k2 p. rewrite !lookup_insert. repeat case_decide; subst; try done.
    + intros [= <-] Hk. apply wf_task_bound0 in Hk. lia.
    + intros Hk [= <-]. apply wf_task_bound0 in Hk. lia.
    + eauto.
  - intros k1 k2 p Hk. rewrite lookup_insert. case_decide.
    + intros [= <-]. apply wf_obj_bound0 in Hk. lia.
    + eauto.
  - done.
Qed.

Lemma wf_watched_object key o x : wf x → wf (watched_object key o x).
Proof.
  intros H. unfold watched_object.
  destruct (_objectWatchers x !! key) as [p|] eqn:E; [|done].
  destruct H. split; simpl.
  - intros k q. rewrite lookup_delete. case_decide; [done|]. eauto.
  - eauto.
  - intros q. rewrite fmap_app, elem_of_app. simpl. rewrite list_elem_of_singleton.
    intros [?| ->]; eauto.
  - intros k q. rewrite lookup_delete. case_decide; [done|]. intros Hk.
    rewrite fmap_app, elem_of_app. simpl. rewrite list_elem_of_singleton.
    intros [Hin| ->]; [by eapply wf_obj_pending0|].
    by specialize (wf_obj_inj0 _ _ _ E Hk).
  - intros k q Hk. rewrite fmap_app, elem_of_app. simpl. rewrite list_elem_of_singleton.
    intros [Hin| ->]; [by eapply wf_task_pending0|]. eauto.
  - intros k1 k2 q. rewrite !lookup_delete. repeat case_decide; try done. eauto.
  - eauto.
  - intros k1 k2 q. rewrite lookup_delete. case_decide; [done|]. eauto.
  - rewrite fmap_app. simpl. apply NoDup_app. split_and!; [done| |apply NoDup_singleton].
    intros q Hq ->%list_elem_of_singleton. by eapply wf_obj_pending0.
Qed.

Lemma wf_settle_task ref p s x :
  wf x → _taskWatchers x !! ref = Some p → wf (settle_task ref p s x).
Proof.
  intros H E. destruct H. split; simpl.
  - eauto.
  - intros k q. rewrite lookup_delete. case_decide; [done|]. eauto.
  - intros q. rewrite fmap_app, elem_of_app. simpl. rewrite list_elem_of_singleton.
    intros [?| ->]; eauto.
  - intros k q Hk. rewrite fmap_app, elem_of_app. simpl. rewrite list_elem_of_singleton.
    intros [Hin| ->]; [by eapply wf_obj_pending0|]. eauto.
  - intros k q. rewrite lookup_delete. case_decide; [done|]. intros Hk.
    rewrite fmap_app, elem_of_app. simpl. rewrite list_elem_of_singleton.
    intros [Hin| ->]; [by eapply wf_task_pending0|].
    by specialize (wf_task_inj0 _ _ _ E Hk).
  - eauto.
  - intros k1 k2 q. rewrite !lookup_delete. repeat case_decide; try done. eauto.
  - intros k1 k2 q Hk. rewrite lookup_delete. case_decide; [done|]. eauto.
  - rewrite fmap_app. simpl. apply NoDup_app. split_and!; [done| |apply NoDup_singleton].
    intros q Hq ->%list_elem_of_singleton. by eapply wf_task_pending0.
Qed.

Lemma wf_watched_task o x : wf x → wf (watched_task o x).
Proof.
  intros H. unfold watched_task.
  destruct (_taskWatchers x !! o_ref o) as [p|] eqn:E; [|done].
  repeat case_decide; auto using wf_settle_task.
Qed.

Lemma wf_notify x o : wf x → wf (notify x o).
Proof. intros H. unfold notify. auto using wf_watched_task, wf_watched_object. Qed.

Lemma wf_onAddOrUpdate objects x : wf x → wf (onAddOrUpdate objects x).
Proof.
  unfold onAddOrUpdate. revert x.
  induction objects as [|o os IH]; intros x H; simpl; auto using wf_notify.
Qed.

Lemma reachable_wf x : reachable x → wf x.
Proof.
  induction 1 as [|x r _ IH]; [apply wf_fresh|].
  destruct r; simpl; auto using wf_waitObject, wf_watchTask, wf_onAddOrUpdate.
Qed.

Lemma promise_state_fresh x p :
  p ∉ (settle_log x).*1 → promise_state x p = None.
Proof.
  unfold promise_state. intros Hp.
  induction (settle_log x) as [|[q s] l IH]; [done|].
  rewrite fmap_cons, not_elem_of_cons in Hp. destruct Hp as [Hne Hp].
  rewrite filter_cons. simpl in *. case_decide; [by subst|]. auto.
Qed.

Lemma first_settlement_here (l rest : list (nat * settlement)) p s :
  p ∉ l.*1 →
  snd <$> head (filter (λ en, en.1 = p) (l ++ (p, s) :: rest)) = Some s.
Proof.
  intros Hp. induction l as [|[q t] l IH]; simpl.
  - rewrite filter_cons. simpl. by case_decide.
  - rewrite fmap_cons, not_elem_of_cons in Hp. destruct Hp as [Hne Hp].
    rewrite filter_cons. simpl in *. case_decide; [by subst|]. auto.
Qed.

Lemma first_settlement_stable (l rest : list (nat * settlement)) p s :
  snd <$> head (filter (λ en, en.1 = p) l) = Some s →
  snd <$> head (filter (λ en, en.1 = p) (l ++ rest)) = Some s.
Proof.
  induction l as [|[q t] l IH]; simpl; [done|].
  rewrite !filter_cons. simpl. case_decide; simpl; auto.
Qed.

Lemma log_grows_watched_object key o x :
  ∃ more, settle_log (watched_object key o x) = settle_log x ++ more.
Proof.
  unfold watched_object. destruct (_ !! _); simpl; eauto. exists []. by rewrite app_nil_r.
Qed.

Lemma log_grows_watched_task o x :
  ∃ more, settle_log (watched_task o x) = settle_log x ++ more.
Proof.
  unfold watched_task. destruct (_ !! _); repeat case_decide; simpl; eauto;
    exists []; by rewrite app_nil_r.
Qed.

Lemma log_grows_notify x o :
  ∃ more, settle_log (notify x o) = settle_log x ++ more.
Proof.
  unfold notify.
  destruct (log_grows_watched_object (o_id o) o x) as [m1 E1].
  destruct (log_grows_watched_object (o_ref o) o (watched_object (o_id o) o x)) as [m2 E2].
  destruct (log_grows_watched_task o
    (watched_object (o_ref o) o (watched_object (o_id o) o x))) as [m3 E3].
  exists (m1 ++ m2 ++ m3). rewrite E3, E2, E1. by rewrite <- !app_assoc.
Qed.

Lemma log_grows_serve x r :
  ∃ more, settle_log (serve x r) = settle_log x ++ more.
Proof.
  destruct r as [key|a|objects]; simpl.
  - unfold _waitObject. destruct (_ !! _); simpl; exists []; by rewrite app_nil_r.
  - unfold _watchTask. destruct (_ !! _); simpl; exists []; by rewrite app_nil_r.
  - unfold onAddOrUpdate. revert x. induction objects as [|o os IH]; intros x; simpl.
    + exists []. by rewrite app_nil_r.
    + destruct (IH (notify x o)) as [m2 E2]. destruct (log_grows_notify x o) as [m1 E1].
      exists (m1 ++ m2). by rewrite E2, E1, <- app_assoc.
Qed.

Lemma log_grows_serve_all rs x :
  ∃ more, settle_log (fold_left serve rs x) = settle_log x ++ more.
Proof.
  revert x. induction rs as [|r rs IH]; intros x; simpl.
  - exists []. by rewrite app_nil_r.
  - destruct (IH (serve x r)) as [m2 E2]. destruct (log_grows_serve x r) as [m1 E1].
    exists (m1 ++ m2). by rewrite E2, E1, <- app_assoc.
Qed.

Lemma promise_state_settled_forever rs x p s :
  promise_state x p = Some s → promise_state (fold_left serve rs x) p = Some s.
Proof.
  unfold promise_state. intros H.
  destruct (log_grows_serve_all rs x) as [more ->].
  by apply first_settlement_stable.
Qed.

Lemma reachable_serve_all rs x : reachable x → reachable (fold_left serve rs x).
Proof.
  revert x. induction rs as [|r rs IH]; intros x H; simpl; [done|].
  apply IH. by constructor.
Qed.

Lemma taskWatchers_watched_object key o x :
  _taskWatchers (watched_object key o x) = _taskWatchers x.
Proof. unfold watched_object. by destruct (_ !! _). Qed.

Lemma objectWatchers_watched_task o x :
  _objectWatchers (watched_task o x) = _objectWatchers x.
Proof. unfold watched_task. destruct (_ !! _); repeat case_decide; done. Qed.

(** C4: at most one pending watch per key.  A wait on a key already in the
    table returns the registered handle and leaves the state unchanged, for
    objects ([_waitObject]) and for tasks ([_watchTask]); every handle in a
    table of a reachable state is unsettled; in particular a second wait
    right after a first returns the same handle, creates no second entry, and
    both waiters observe the same resolution whatever happens next. *)
Theorem one_pending_watch_per_key (key : string) (a : ref_or_task) (x : xapi) :
  let first := _waitObject key x in
  let second := _waitObject key first.2 in
  let tfirst := _watchTask a x in
  let tsecond := _watchTask a tfirst.2 in
  (∀ y p, _objectWatchers y !! key = Some p → _waitObject key y = (p, y)) ∧
  (∀ y p, _taskWatchers y !! unpack_ref a = Some p → _watchTask a y = (p, y)) ∧
  (∀ y k p, reachable y →
     _objectWatchers y !! k = Some p ∨ _taskWatchers y !! k = Some p →
     promise_state y p = None) ∧
  _objectWatchers first.2 !! key = Some first.1 ∧
  second.1 = first.1 ∧ second.2 = first.2 ∧
  (∀ rs, promise_state (fold_left serve rs second.2) second.1 =
         promise_state (fold_left serve rs second.2) first.1) ∧
  _taskWatchers tfirst.2 !! unpack_ref a = Some tfirst.1 ∧
  tsecond.1 = tfirst.1 ∧ tsecond.2 = tfirst.2 ∧
  (∀ rs, promise_state (fold_left serve rs tsecond.2) tsecond.1 =
         promise_state (fold_left serve rs tsecond.2) tfirst.1).
Proof.
  simpl.
  assert (Ho : _objectWatchers (_waitObject key x).2 !! key = Some (_waitObject key x).1).
  { unfold _waitObject. destruct (_objectWatchers x !! key) eqn:E; simpl; [done|].
    apply lookup_insert_eq. }
  assert (Ht : _taskWatchers (_watchTask a x).2 !! unpack_ref a = Some (_watchTask a x).1).
  { unfold _watchTask. destruct (_taskWatchers x !! unpack_ref a) eqn:E; simpl; [done|].
    apply lookup_insert_eq. }
  assert (Ho2 : _waitObject key (_waitObject key x).2 = _waitObject key x).
  { unfold _waitObject at 1. rewrite Ho. by destruct (_waitObject key x). }
  assert (Ht2 : _watchTask a (_watchTask a x).2 = _watchTask a x).
  { unfold _watchTask at 1. simpl. rewrite Ht. by destruct (_watchTask a x). }
  rewrite Ho2, Ht2. split_and!; try done.
  - intros y p Hy. unfold _waitObject. by rewrite Hy.
  - intros y p Hy. unfold _watchTask. by rewrite Hy.
  - intros y k p Hreach [Hy|Hy]; apply promise_state_fresh;
      [eapply wf_obj_pending|eapply wf_task_pending]; eauto using reachable_wf.
Qed.

(** C5: a task watched under [o_ref object] is pending before the
    notification; status "success" resolves it with the task's result and
    removes the entry; status "failure" rejects it with the wrapped error
    (code: first element of the error tuple, params: the rest) and removes the
    entry; any other status leaves the promise pending and the table
    unchanged; once settled the promise keeps its settlement for ever, and no
    capability is ever invoked twice. *)
Theorem watched_task_settles_once (x : xapi) (object : xobject) (p : nat) :
  reachable x →
  _taskWatchers x !! o_ref object = Some p →
  let x' := notify x object in
  promise_state x p = None ∧
  (o_status object = "success" →
     promise_state x' p = Some (Fulfilled (VResult (o_result object))) ∧
     _taskWatchers x' !! o_ref object = None) ∧
  (o_status object = "failure" →
     promise_state x' p =
       Some (Rejected {| e_message := default "" (head (o_error_info object));
                         e_code := head (o_error_info object);
                         e_params := tail (o_error_info object) |}) ∧
     _taskWatchers x' !! o_ref object = None) ∧
  (o_status object ≠ "success" → o_status object ≠ "failure" →
     promise_state x' p = None ∧ _taskWatchers x' = _taskWatchers x) ∧
  (∀ rs, promise_state (fold_left serve rs x') p = promise_state x' p ∨
         promise_state x' p = None) ∧
  (∀ rs, NoDup (settle_log (fold_left serve rs x')).*1).
Proof.
  intros Hreach Hp x'.
  pose proof (reachable_wf _ Hreach) as Hwf.
  set (x2 := watched_object (o_ref object) object (watched_object (o_id object) object x)).
  assert (Hwf2 : wf x2) by (unfold x2; auto using wf_watched_object).
  assert (Hp2 : _taskWatchers x2 !! o_ref object = Some p).
  { unfold x2. by rewrite !taskWatchers_watched_object. }
  assert (Hpend2 : p ∉ (settle_log x2).*1) by (by eapply wf_task_pending).
  assert (Hx' : x' = watched_task object x2) by done.
  split_and!.
  - apply promise_state_fresh. by eapply wf_task_pending.
  - intros Hs. rewrite Hx'. unfold watched_task. rewrite Hp2.
    rewrite decide_True by done. split; [|apply lookup_delete_eq].
    unfold promise_state. simpl. by apply first_settlement_here.
  - intros Hs. rewrite Hx'. unfold watched_task. rewrite Hp2.
    rewrite decide_False by (rewrite Hs; done). rewrite decide_True by done.
    split; [|apply lookup_delete_eq].
    unfold promise_state. simpl. by apply first_settlement_here.
  - intros Hs Hf. rewrite Hx'. unfold watched_task. rewrite Hp2.
    rewrite !decide_False by done. split; [by apply promise_state_fresh|].
    unfold x2. by rewrite !taskWatchers_watched_object.
  - intros rs. destruct (promise_state x' p) as [s|] eqn:E; [left|by right].
    by apply promise_state_settled_forever.
  - intros rs. apply wf_once, reachable_wf, reachable_serve_all.
    apply (reach_serve x (Notification [object])). done.
Qed.

(** C9: one notification resolves two distinct pending object watches, the
    one keyed by the object's id and the one keyed by its ref, with the same
    object, and removes both entries. *)
Theorem notification_resolves_id_and_ref_watch (x : xapi) (object : xobject) (p1 p2 : nat) :
  reachable x →
  o_id object ≠ o_ref object →
  _objectWatchers x !! o_id object = Some p1 →
  _objectWatchers x !! o_ref object = Some p2 →
  let x' := notify x object in
  p1 ≠ p2 ∧
  promise_state x p1 = None ∧ promise_state x p2 = None ∧
  promise_state x' p1 = Some (Fulfilled (VObject object)) ∧
  promise_state x' p2 = Some (Fulfilled (VObject object)) ∧
  _objectWatchers x' !! o_id object = None ∧
  _objectWatchers x' !! o_ref object = None.
Proof.
  intros Hreach Hne H1 H2 x'.
  pose proof (reachable_wf _ Hreach) as Hwf.
  assert (Hp : p1 ≠ p2).
  { intros ->. apply Hne. by eapply wf_obj_inj. }
  set (x1 := watched_object (o_id object) object x).
  set (x2 := watched_object (o_ref object) object x1).
  assert (E1 : x1 = {| _objectWatchers := delete (o_id object) (_objectWatchers x);
                       _taskWatchers := _taskWatchers x;
                       next_promise := next_promise x;
                       settle_log := settle_log x ++ [(p1, Fulfilled (VObject object))] |}).
  { unfold x1, watched_object. by rewrite H1. }
  assert (H2' : _objectWatchers x1 !! o_ref object = Some p2).
  { rewrite E1. simpl. by rewrite lookup_delete_ne. }
  assert (E2 : x2 = {| _objectWatchers := delete (o_ref object) (_objectWatchers x1);
                       _taskWatchers := _taskWatchers x1;
                       next_promise := next_promise x1;
                       settle_log := settle_log x1 ++ [(p2, Fulfilled (VObject object))] |}).
  { unfold x2, watched_object. by rewrite H2'. }
  assert (Hwf1 : wf x1) by (unfold x1; auto using wf_watched_object).
  destruct (log_grows_watched_task object x2) as [more Hmore].
  assert (Hx' : x' = watched_task object x2) by done.
  assert (L1 : settle_log x1 = settle_log x ++ [(p1, Fulfilled (VObject object))])
    by (by rewrite E1).
  assert (L2 : settle_log x2 = settle_log x1 ++ [(p2, Fulfilled (VObject object))])
    by (by rewrite E2).
  assert (O1 : _objectWatchers x1 = delete (o_id object) (_objectWatchers x))
    by (by rewrite E1).
  assert (O2 : _objectWatchers x2 = delete (o_ref object) (_objectWatchers x1))
    by (by rewrite E2).
  clearbody x' x2 x1.
  split_and!; try done.
  - apply promise_state_fresh. by eapply wf_obj_pending.
  - apply promise_state_fresh. by eapply wf_obj_pending.
  - unfold promise_state. rewrite Hx', Hmore, L2, L1.
    rewrite <- !app_assoc. simpl. apply first_settlement_here. by eapply wf_obj_pending.
  - unfold promise_state. rewrite Hx', Hmore, L2.
    rewrite <- !app_assoc. simpl. apply first_settlement_here. by eapply wf_obj_pending.
  - rewrite Hx', objectWatchers_watched_task, O2, O1.
    rewrite lookup_delete_ne by done. apply lookup_delete_eq.
  - rewrite Hx', objectWatchers_watched_task, O2. apply lookup_delete_eq.
Qed.

(** A handle that no task watcher holds and that has only ever been
    resolved with an object. *)
Lemma resolve_only_watched_object p key o x :
  resolve_only p x → resolve_only p (watched_object key o x).
Proof.
  intros (Hlt & Ht & Hlog). unfold watched_object.
  destruct (_objectWatchers x !! key) as [q|]; [|done].
  split_and!; simpl; [done..|].
  intros s [Hin|Hin%list_elem_of_singleton]%elem_of_app; [eauto|].
  injection Hin as _ ->. eauto.
Qed.

Lemma resolve_only_watched_task p o x :
  resolve_only p x → resolve_only p (watched_task o x).
Proof.
  intros (Hlt & Ht & Hlog). unfold watched_task.
  destruct (_taskWatchers x !! o_ref o) as [q|] eqn:E; [|done].
  assert (q ≠ p) by (intros ->; by eapply Ht).
  repeat case_decide; [| |done]; (split_and!; simpl; [done| |]).
  - intros k. rewrite lookup_delete. case_decide; [done|]. apply Ht.
  - intros s [Hin|Hin%list_elem_of_singleton]%elem_of_app; [eauto|]. congruence.
  - intros k. rewrite lookup_delete. case_decide; [done|]. apply Ht.
  - intros s [Hin|Hin%list_elem_of_singleton]%elem_of_app; [eauto|]. congruence.
Qed.

Lemma resolve_only_serve p x r : resolve_only p x → resolve_only p (serve x r).
Proof.
  intros H. destruct r as [key|a|objects]; simpl.
  - destruct H as (Hlt & Ht & Hlog). unfold _waitObject.
    destruct (_ !! _); simpl; [done|]. split_and!; simpl; auto with lia.
  - destruct H as (Hlt & Ht & Hlog). unfold _watchTask.
    destruct (_ !! _); simpl; [done|]. split_and!; simpl; auto with lia.
    intros k. rewrite lookup_insert. case_decide; [|apply Ht].
    intros [= <-]. lia.
  - unfold onAddOrUpdate. revert x H. induction objects as [|o os IH]; intros x H; [done|].
    simpl. apply IH. unfold notify.
    auto using resolve_only_watched_task, resolve_only_watched_object.
Qed.

Lemma resolve_only_waitObject key x :
  wf x → resolve_only (_waitObject key x).1 (_waitObject key x).2.
Proof.
  intros Hwf. unfold _waitObject.
  destruct (_objectWatchers x !! key) as [p|] eqn:E; simpl.
  - split_and!.
    + by eapply wf_obj_bound.
    + intros k Hk. by eapply wf_disjoint.
    + intros s Hin. exfalso. eapply wf_obj_pending; [done..|].
      apply list_elem_of_fmap. by exists (p, s).
  - split_and!; simpl.
    + lia.
    + intros k Hk. eapply wf_task_bound in Hk; [|done]. lia.
    + intros s Hin. assert (next_promise x < next_promise x); [|lia].
      eapply wf_log_bound; [done|]. apply list_elem_of_fmap. by exists (next_promise x, s).
Qed.

(** C10: the promise returned by [_waitObject] is never rejected: whatever
    requests follow, its reject capability is not invoked, and the promise is
    either pending or fulfilled with an object. *)
Theorem object_watch_never_rejected (x : xapi) (key : string) (rs : list request) :
  reachable x →
  let p := (_waitObject key x).1 in
  let x' := fold_left serve rs (_waitObject key x).2 in
  (∀ e, (p, Rejected e) ∉ settle_log x') ∧
  (promise_state x' p = None ∨ ∃ o, promise_state x' p = Some (Fulfilled (VObject o))).
Proof.
  intros Hreach p x'.
  assert (H : resolve_only p x').
  { unfold x', p. generalize (resolve_only_waitObject key x (reachable_wf _ Hreach)).
    generalize (_waitObject key x).1 (_waitObject key x).2. clear.
    intros p x. revert x. induction rs as [|r rs IH]; intros x H; simpl; [done|].
    apply IH. by apply resolve_only_serve. }
  destruct H as (_ & _ & Hlog). split.
  - intros e Hin. apply Hlog in Hin as [o Ho]. done.
  - unfold promise_state.
    destruct (head (filter (λ en, en.1 = p) (settle_log x'))) as [[q s]|] eqn:E; [|by left].
    right. apply head_Some_elem_of, list_elem_of_filter in E as [Hq Hin].
    simpl in Hq. subst q. apply Hlog in Hin as [o ->]. by exists o.
Qed.

(** * Proofs: maintenance mode *)

Section PoolFacts.
Context {L PC : Type}.
Variable awaited : PC → rcall.
Variable resume : PC → reply → L → L * next PC.

Lemma run_pool_nil settled sched failure l w tr :
  run_pool awaited resume settled sched [] failure l w tr =
  (match failure with Some e => Threw e | None => Returned tt end, l,
   {| c_world := w; c_trace := tr; c_sched := sched |}).
Proof. by destruct sched. Qed.

Lemma run_pool_step settled n sched pool failure l w tr pc :
  pool !! (n mod length pool) = Some pc →
  run_pool awaited resume settled (n :: sched) pool failure l w tr =
  let '(r, w') := exec w (awaited pc) in
  let '(l', nx) := resume pc r l in
  let tr' := tr ++ [{| ev_call := awaited pc; ev_reply := r; ev_world := w' |}] in
  let pool' := delete (n mod length pool) pool ++ successors nx in
  match nx with
  | Failed e =>
      if settled
      then run_pool awaited resume settled sched pool' (Some (default e failure)) l' w' tr'
      else (Threw e, l', {| c_world := w'; c_trace := tr'; c_sched := sched |})
  | _ => run_pool awaited resume settled sched pool' failure l' w' tr'
  end.
Proof.
  intros Hpc. destruct pool as [|pc0 pool0]; [done|].
  change (run_pool awaited resume settled (n :: sched) (pc0 :: pool0) failure l w tr)
    with (match (pc0 :: pool0) !! (n mod length (pc0 :: pool0)) with
          | None => (Pending, l, {| c_world := w; c_trace := tr; c_sched := sched |})
          | Some pc =>
              let '(r, w') := exec w (awaited pc) in
              let '(l', nx) := resume pc r l in
              let tr' := tr ++ [{| ev_call := awaited pc; ev_reply := r; ev_world := w' |}] in
              let pool' := delete (n mod length (pc0 :: pool0)) (pc0 :: pool0)
                             ++ successors nx in
              match nx with
              | Failed e =>
                  if settled
                  then run_pool awaited resume settled sched pool'
                         (Some (default e failure)) l' w' tr'
                  else (Threw e, l', {| c_world := w'; c_trace := tr'; c_sched := sched |})
              | _ => run_pool awaited resume settled sched pool' failure l' w' tr'
              end
          end).
  by rewrite Hpc.
Qed.

Lemma pool_pick n (pool : list PC) :
  pool ≠ [] → ∃ pc, pool !! (n mod length pool) = Some pc.
Proof.
  intros Hne. apply lookup_lt_is_Some_2, Nat.mod_upper_bound.
  destruct pool; simpl; [done|lia].
Qed.

Variable I : list PC → L → world → list event → Prop.
Hypothesis I_step : ∀ before pc after l w tr,
  I (before ++ pc :: after) l w tr →
  I ((before ++ after) ++ successors (resume pc (exec w (awaited pc)).1 l).2)
    (resume pc (exec w (awaited pc)).1 l).1
    (exec w (awaited pc)).2
    (tr ++ [fired awaited pc w]).

Lemma run_pool_invariant settled sched pool failure l w tr :
  I pool l w tr →
  ∃ pool',
    let res := run_pool awaited resume settled sched pool failure l w tr in
    I pool' res.1.2 (c_world res.2) (c_trace res.2) ∧
    (res.1.1 = Returned tt → pool' = [] ∧ failure = None) ∧
    (settled = true → ∀ e, res.1.1 = Threw e → pool' = []).
Proof.
  revert pool failure l w tr.
  induction sched as [|n sched IH]; intros pool failure l w tr HI.
  - destruct pool as [|pc pool]; simpl.
    + exists []. split; [done|]. split; [|done]. by destruct failure.
    + exists (pc :: pool). done.
  - destruct (decide (pool = [])) as [->|Hne].
    { rewrite run_pool_nil. exists []. split; [done|]. split; [|done]. by destruct failure. }
    destruct (pool_pick n pool Hne) as [pc Hpc].
    pose proof (take_drop_middle _ _ _ Hpc) as Hsplit.
    pose proof (I_step (take (n mod length pool) pool) pc
                  (drop (S (n mod length pool)) pool) l w tr) as Hstep.
    rewrite Hsplit in Hstep. specialize (Hstep HI).
    rewrite <- delete_take_drop in Hstep.
    rewrite (run_pool_step _ _ _ _ _ _ _ _ _ Hpc).
    unfold fired in Hstep.
    destruct (exec w (awaited pc)) as [r w'] eqn:Eexec. simpl in Hstep.
    destruct (resume pc r l) as [l' nx] eqn:Eres. simpl in Hstep.
    destruct nx as [|e|pc'|pcs]; simpl in *.
    + apply (IH _ failure) in Hstep. done.
    + destruct settled.
      * destruct (IH _ (Some (default e failure)) _ _ _ Hstep) as (pool' & H1 & H2 & H3).
        exists pool'. split; [done|]. split; [|done].
        intros Hret. by destruct (H2 Hret).
      * eexists. simpl. split; [exact Hstep|]. done.
    + apply (IH _ failure) in Hstep. done.
    + apply (IH _ failure) in Hstep. done.
Qed.
End PoolFacts.

Lemma steps_app allowed w1 t1 w2 t2 w3 :
  steps allowed w1 t1 w2 → steps allowed w2 t2 w3 → steps allowed w1 (t1 ++ t2) w3.
Proof.
  intros H1 H2. induction H2 as [|w2 t2 w3 call H2 IH Hc].
  - by rewrite app_nil_r.
  - rewrite app_assoc. constructor; auto.
Qed.

Lemma steps_weaken (allowed allowed' : rcall → Prop) w t w' :
  (∀ call, allowed call → allowed' call) →
  steps allowed w t w' → steps allowed' w t w'.
Proof. intros Hsub. induction 1; constructor; auto. Qed.

Lemma steps_one (allowed : rcall → Prop) w call :
  allowed call → steps allowed w [call_event call w] (exec w call).2.
Proof. intros H. apply (steps_snoc allowed w [] w call); [constructor|done]. Qed.

Lemma steps_calls allowed w t w' :
  steps allowed w t w' → Forall (λ ev, allowed (ev_call ev)) t.
Proof.
  induction 1; [constructor|]. apply Forall_app. split; [done|].
  by repeat constructor.
Qed.

Section Confined.
Context {L : Type} (allowed : rcall → Prop).

Lemma confined_pure {A} (m : M L A) :
  (∀ l c, (m l c).2 = c) → confined allowed m.
Proof.
  intros H l c. exists []. rewrite H, app_nil_r. split; [done|constructor].
Qed.

Lemma confined_ret {A} (a : A) : confined allowed (ret (L:=L) a).
Proof. by apply confined_pure. Qed.

Lemma confined_throw {A} e : confined allowed (throw (L:=L) (A:=A) e).
Proof. by apply confined_pure. Qed.

Lemma confined_pending {A} : confined allowed (pending (L:=L) (A:=A)).
Proof. by apply confined_pure. Qed.

Lemma confined_locals : confined allowed (locals (L:=L)).
Proof. by apply confined_pure. Qed.

Lemma confined_assign f : confined allowed (assign (L:=L) f).
Proof. by apply confined_pure. Qed.

Lemma confined_Date_now : confined allowed (Date_now (L:=L)).
Proof. by apply confined_pure. Qed.

Lemma confined_bind {A B} (m : M L A) (k : A → M L B) :
  confined allowed m → (∀ a, confined allowed (k a)) → confined allowed (bind m k).
Proof.
  intros Hm Hk l c. destruct (Hm l c) as (t1 & E1 & S1). unfold bind.
  destruct (m l c) as [[[a|e|] l1] c1]; simpl in *; eauto.
  destruct (Hk a l1 c1) as (t2 & E2 & S2).
  exists (t1 ++ t2). rewrite E2, E1, app_assoc. split; [done|].
  by eapply steps_app.
Qed.

Lemma confined_await call : allowed call → confined allowed (await (L:=L) call).
Proof.
  intros Hc l c. exists [call_event call (c_world c)].
  unfold await, perform, call_event.
  destruct (exec (c_world c) call) as [[v|e] w'] eqn:E; simpl;
    (split; [done|]);
    pose proof (steps_one allowed (c_world c) call Hc) as H;
    unfold call_event in H; by rewrite E in H.
Qed.

Lemma confined_run_pool {PC} (awaited : PC → rcall) resume settled sched pool failure
    (l : L) w tr :
  (∀ pc, allowed (awaited pc)) →
  ∃ t, c_trace (run_pool awaited resume settled sched pool failure l w tr).2 = tr ++ t ∧
       steps allowed w t
         (c_world (run_pool awaited resume settled sched pool failure l w tr).2).
Proof.
  intros Hc.
  destruct (run_pool_invariant awaited resume
              (λ _ _ w' tr', ∃ t, tr' = tr ++ t ∧ steps allowed w t w')) with
    (settled := settled) (sched := sched) (pool := pool) (failure := failure)
    (l := l) (w := w) (tr := tr) as (pool' & H & _).
  - intros before pc after l0 w0 tr0 (t & -> & Hs).
    exists (t ++ [call_event (awaited pc) w0]). rewrite app_assoc. split; [done|].
    by constructor.
  - exists []. rewrite app_nil_r. split; [done|constructor].
  - exact H.
Qed.

Lemma confined_asyncMap {PC} (awaited : PC → rcall) resume pool :
  (∀ pc, allowed (awaited pc)) → confined allowed (asyncMap (L:=L) awaited resume pool).
Proof. intros Hc l c. by apply confined_run_pool. Qed.

Lemma confined_asyncMapSettled {PC} (awaited : PC → rcall) resume pool :
  (∀ pc, allowed (awaited pc)) →
  confined allowed (asyncMapSettled (L:=L) awaited resume pool).
Proof. intros Hc l c. by apply confined_run_pool. Qed.
End Confined.


Lemma answer_keeps_SRs w call :
  writes_other_config call = false → SRs (answer w call).2 = SRs w.
Proof.
  intros H. destruct call; try discriminate H; simpl; unfold on_sr, on_vm, on_pbd;
    repeat case_match; done.
Qed.

Lemma exec_keeps_SRs w call :
  writes_other_config call = false → SRs (exec w call).2 = SRs w.
Proof.
  intros H. unfold exec. destruct (fault w (now w) call); [done|].
  pose proof (answer_keeps_SRs w call H) as E.
  by destruct (answer w call).
Qed.

Lemma steps_keep_SRs (allowed : rcall → Prop) w t w' :
  (∀ call, allowed call → writes_other_config call = false) →
  steps allowed w t w' →
  SRs w' = SRs w ∧ Forall (λ ev, SRs (ev_world ev) = SRs w) t.
Proof.
  intros Hsub. induction 1 as [|w t w' call Hs [IH1 IH2] Hc].
  - split; [done|constructor].
  - assert (E : SRs (exec w' call).2 = SRs w) by (rewrite exec_keeps_SRs; auto).
    split; [done|]. apply Forall_app. split; [done|]. by repeat constructor.
Qed.

Lemma confined_discoverRunningVms ref : confined getter (discoverRunningVms ref).
Proof.
  unfold discoverRunningVms, getField_refs.
  apply confined_bind.
  - apply confined_bind; [by apply confined_await|].
    intros []; auto using confined_ret, confined_throw.
  - intros vdis. apply confined_asyncMap. by intros [].
Qed.

Lemma confined_resolveRunningVmUuids : confined getter resolveRunningVmUuids.
Proof.
  unfold resolveRunningVmUuids.
  apply confined_bind; [apply confined_locals|]. intros l.
  apply confined_bind; [apply confined_assign|]. intros _.
  apply confined_bind; [apply confined_asyncMap; by intros []|]. intros _.
  apply confined_bind; [apply confined_locals|]. intros l'.
  destruct (mapM id _); auto using confined_ret, confined_pending.
Qed.

Lemma confined_checkVmsToShutdown (allowed : rcall → Prop) vms us :
  confined allowed (checkVmsToShutdown vms us).
Proof. unfold checkVmsToShutdown. case_decide; auto using confined_ret, confined_throw. Qed.

Lemma confined_shutdownRunningVms : confined shutdown_call shutdownRunningVms.
Proof.
  unfold shutdownRunningVms.
  apply confined_bind; [apply confined_assign|]. intros _.
  apply confined_bind; [apply confined_locals|]. intros l.
  apply confined_asyncMapSettled. by intros [].
Qed.

Lemma confined_unplugPbds ref : confined unplug_call (unplugPbds ref).
Proof.
  unfold unplugPbds, getField_refs.
  apply confined_bind; [apply confined_assign|]. intros _.
  apply confined_bind.
  - apply confined_bind; [by apply confined_await|].
    intros []; auto using confined_ret, confined_throw.
  - intros pbds. apply confined_asyncMapSettled. by intros [].
Qed.

Section LocalsPreserved.
Context {L PC : Type}.
Variable awaited : PC → rcall.
Variable resume : PC → reply → L → L * next PC.
Variable X : L → Prop.
Hypothesis X_resume : ∀ pc r l, X l → X (resume pc r l).1.

Lemma run_pool_keeps settled sched pool failure l w tr :
  X l → X (run_pool awaited resume settled sched pool failure l w tr).1.2.
Proof.
  intros H.
  destruct (run_pool_invariant awaited resume (λ _ l' _ _, X l')) with
    (settled := settled) (sched := sched) (pool := pool) (failure := failure)
    (l := l) (w := w) (tr := tr) as (pool' & H' & _); auto.
Qed.
End LocalsPreserved.

Lemma keeps_bind {L A B} (X : L → Prop) (m : M L A) (k : A → M L B) :
  keeps X m → (∀ a, keeps X (k a)) → keeps X (bind m k).
Proof.
  intros Hm Hk l c H. specialize (Hm l c H). unfold bind.
  destruct (m l c) as [[[a|e|] l1] c1]; simpl in *; auto. by apply Hk.
Qed.

Lemma keeps_pure {L A} (X : L → Prop) (m : M L A) :
  (∀ l c, (m l c).1.2 = l) → keeps X m.
Proof. intros H l c HX. by rewrite H. Qed.

Lemma keeps_await {L} (X : L → Prop) call : keeps X (await call).
Proof. apply keeps_pure. intros l c. unfold await. by destruct (perform c call) as [[] ?]. Qed.

Lemma keeps_getField_refs {L} (X : L → Prop) call : keeps X (getField_refs call).
Proof.
  unfold getField_refs. apply keeps_bind; [apply keeps_await|].
  intros []; by apply keeps_pure.
Qed.

Lemma keeps_discoverRunningVms ref ds st :
  keeps (registered ds st) (discoverRunningVms ref).
Proof.
  unfold discoverRunningVms.
  apply keeps_bind; [apply keeps_getField_refs|]. intros vdis l c H.
  unfold asyncMap. apply run_pool_keeps; [|done]. clear. intros pc r l H.
  unfold handleVbd_resume. repeat case_match; done.
Qed.

Lemma keeps_resolveRunningVmUuids ds st :
  keeps (registered ds st) resolveRunningVmUuids.
Proof.
  unfold resolveRunningVmUuids.
  apply keeps_bind; [by apply keeps_pure|]. intros l0.
  apply keeps_bind; [by intros l c H|]. intros _.
  apply keeps_bind.
  { intros l c H. unfold asyncMap. apply run_pool_keeps; [|done]. clear. intros pc r l H.
    unfold uuid_resume. repeat case_match; done. }
  intros _. apply keeps_bind; [by apply keeps_pure|]. intros l'.
  destruct (mapM id _); by apply keeps_pure.
Qed.

Lemma beginMaintenance_unfold ref l c :
  beginMaintenance ref l c =
  let st := placeholder (now (c_world c)) in
  match perform c (SR_add_to_other_config ref OC_MAINTENANCE st) with
  | (Reply _, c') =>
      scanRunningVms ref
        (push_deferred (SR_remove_from_other_config ref OC_MAINTENANCE) (set_state st l)) c'
  | (Raise e, c') => (Threw e, set_state st l, c')
  end.
Proof.
  unfold beginMaintenance, scanRunningVms, bind, Date_now, assign, locals, await, onFailure.
  simpl. by destruct (perform c _) as [[v|e] c'].
Qed.

Lemma perform_trace c call :
  perform c call =
  ((exec (c_world c) call).1,
   {| c_world := (exec (c_world c) call).2;
      c_trace := c_trace c ++ [call_event call (c_world c)];
      c_sched := c_sched c |}).
Proof. unfold perform, call_event. by destruct (exec (c_world c) call). Qed.

Lemma confined_scanRunningVms ref : confined getter (scanRunningVms ref).
Proof.
  apply confined_bind; [apply confined_discoverRunningVms|].
  intros _. apply confined_resolveRunningVmUuids.
Qed.

Lemma keeps_scanRunningVms ref ds st : keeps (registered ds st) (scanRunningVms ref).
Proof.
  apply keeps_bind; [apply keeps_discoverRunningVms|].
  intros _. apply keeps_resolveRunningVmUuids.
Qed.

Lemma beginMaintenance_spec ref w sched :
  let add := SR_add_to_other_config ref OC_MAINTENANCE (placeholder (now w)) in
  let res := beginMaintenance ref no_locals (start w sched) in
  ∃ reads,
    c_trace res.2 = call_event add w :: reads ∧
    steps getter (exec w add).2 reads (c_world res.2) ∧
    state res.1.2 = placeholder (now w) ∧
    deferreds res.1.2 =
      (if is_Reply (exec w add).1
       then [SR_remove_from_other_config ref OC_MAINTENANCE] else []) ∧
    (∀ e, (exec w add).1 = Raise e → res.1.1 = Threw e ∧ reads = []).
Proof.
  intros add res. unfold res. rewrite beginMaintenance_unfold. cbv zeta.
  rewrite perform_trace. unfold start. cbn [c_world c_trace c_sched]. fold add.
  destruct (exec w add) as [[v|e] w1] eqn:E; cbn [fst snd is_Reply].
  - match goal with |- context [scanRunningVms ref ?l ?c] =>
      destruct (confined_scanRunningVms ref l c) as (t & Ht & Hs);
      destruct (keeps_scanRunningVms ref
        [SR_remove_from_other_config ref OC_MAINTENANCE] (placeholder (now w)) l c)
        as [Hd Hst]; [done|]
    end.
    exists t. rewrite Ht. done.
  - exists []. split_and!; try done; [constructor|].
    by intros e' [= ->].
Qed.

Lemma beginMaintenance_returned ref w sched us l1 c1 :
  beginMaintenance ref no_locals (start w sched) = (Returned us, l1, c1) →
  let add := SR_add_to_other_config ref OC_MAINTENANCE (placeholder (now w)) in
  ∃ v reads,
    (exec w add).1 = Reply v ∧
    c_trace c1 = call_event add w :: reads ∧
    steps getter (exec w add).2 reads (c_world c1) ∧
    deferreds l1 = [SR_remove_from_other_config ref OC_MAINTENANCE] ∧
    state l1 = placeholder (now w).
Proof.
  intros H add.
  destruct (beginMaintenance_spec ref w sched) as (reads & Ht & Hs & Hst & Hd & Hfail).
  rewrite H in Ht, Hs, Hst, Hd, Hfail. simpl in *. fold add in Ht, Hs, Hd, Hfail |- *.
  destruct (exec w add).1 as [v|e] eqn:E.
  - exists v, reads. done.
  - by destruct (Hfail e eq_refl).
Qed.

Lemma getter_not_disruptive call : getter call → disruptive call = false.
Proof. by destruct call. Qed.

(** C6: when the storage object already carries the maintenance key,
    [enableMaintenanceMode] throws at its first call, the add-if-absent write,
    with [MAP_DUPLICATE_KEY] unless a fault was injected; the trace holds that
    single failed call, nothing was registered for compensation, no field of
    a VM or connection was read, and the objects of the pool are unchanged
    (only the clock has advanced). *)
Theorem enable_twice_conflicts ref vmsToShutdown w sched s st :
  SRs w !! ref = Some s →
  sr_other_config s !! OC_MAINTENANCE = Some st →
  let add := SR_add_to_other_config ref OC_MAINTENANCE (placeholder (now w)) in
  ∃ e,
    enableMaintenanceMode ref vmsToShutdown w sched =
      (Threw e,
       {| c_world := tick w;
          c_trace := [{| ev_call := add; ev_reply := Raise e; ev_world := tick w |}];
          c_sched := sched |}) ∧
    (fault w (now w) add = None →
       e = XapiError "MAP_DUPLICATE_KEY" ["SR"; "other_config"; ref; OC_MAINTENANCE]) ∧
    SRs (tick w) = SRs w ∧ VMs (tick w) = VMs w ∧ PBDs (tick w) = PBDs w.
Proof.
  intros Hs Hst add.
  assert (Hexec : ∃ e, exec w add = (Raise e, tick w) ∧
    (fault w (now w) add = None →
       e = XapiError "MAP_DUPLICATE_KEY" ["SR"; "other_config"; ref; OC_MAINTENANCE])).
  { unfold exec. destruct (fault w (now w) add) as [e|]; [by exists e|].
    simpl. unfold on_sr. rewrite Hs, Hst. eauto. }
  destruct Hexec as (e & He & Hcode). exists e. split; [|done].
  unfold enableMaintenanceMode, defer, enableMaintenanceMode_body.
  unfold bind at 1. rewrite beginMaintenance_unfold. cbv zeta.
  rewrite perform_trace. unfold call_event, start. cbn [c_world c_trace c_sched].
  fold add. rewrite He. done.
Qed.

Lemma unplugged_snoc tr ev :
  unplugged (tr ++ [ev]) = unplugged tr ++ option_list (unplugged_by ev).
Proof. unfold unplugged. rewrite omap_app. simpl. by destruct (unplugged_by ev). Qed.

Lemma halted_snoc tr ev :
  halted (tr ++ [ev]) = halted tr ++ option_list (halted_by ev).
Proof. unfold halted. rewrite omap_app. simpl. by destruct (halted_by ev). Qed.

Lemma quiet_not_halted_by ev : disruptive (ev_call ev) = false → halted_by ev = None.
Proof. unfold halted_by. by destruct (ev_call ev). Qed.

Lemma quiet_not_unplugged_by ev : disruptive (ev_call ev) = false → unplugged_by ev = None.
Proof. unfold unplugged_by. by destruct (ev_call ev). Qed.

Lemma quiet_trace tr :
  Forall (λ ev, disruptive (ev_call ev) = false) tr → halted tr = [] ∧ unplugged tr = [].
Proof.
  induction 1 as [|ev tr Hev _ [IH1 IH2]]; [done|].
  unfold halted, unplugged in *. simpl.
  by rewrite quiet_not_halted_by, quiet_not_unplugged_by.
Qed.

Lemma shutdownRunningVms_undoable base l c :
  deferreds l = base → halted (c_trace c) = [] → unplugged (c_trace c) = [] →
  undoable base (shutdownRunningVms l c).1.2 (c_trace (shutdownRunningVms l c).2) ∧
  unplugged (c_trace (shutdownRunningVms l c).2) = [].
Proof.
  intros Hd Hh Hu. unfold shutdownRunningVms, bind, assign, locals. simpl.
  unfold asyncMapSettled. simpl.
  set (rv := runningVms l).
  destruct (run_pool_invariant shutdown_awaited shutdown_resume
    (λ pool l' _ tr, Forall (λ pc, shutdown_target pc ∈ rv) pool ∧
                     runningVms l' = rv ∧
                     unplugged tr = [] ∧
                     ∃ starts, deferreds l' = ((λ vm, VM_start vm.1 vm.2 true) <$> starts) ++ base ∧
                               starts.*1 = rev (halted tr) ∧ starts ⊆ rv))
    with (settled := true) (sched := c_sched c)
         (pool := (λ vm, ShutdownUuid vm.1 vm.2) <$> rv) (failure := @None error)
         (l := set_state {| timestamp := timestamp (state l); shutdownVms := Some [];
                            unpluggedPbds := unpluggedPbds (state l) |} l)
         (w := c_world c) (tr := c_trace c)
    as (pool' & (_ & Hrv & Hu' & starts & Hd' & Hs' & Hsub') & _).
  - clearbody rv. clear.
    intros before pc after l w tr (Hpool & Hrv & Hu & starts & Hd & Hs & Hsub).
    apply Forall_app in Hpool as [Hb Hpool]. apply Forall_cons in Hpool as [Hpc Ha].
    assert (Hrest : Forall (λ pc, shutdown_target pc ∈ rv) (before ++ after))
      by (by apply Forall_app).
    rewrite unplugged_snoc, halted_snoc. unfold fired, unplugged_by, halted_by. simpl.
    destruct pc as [ref b|ref b|ref b]; simpl in *;
      destruct (exec w _) as [[v|e] w'];
      simpl; rewrite ?app_nil_r.
    + destruct v; simpl; rewrite ?app_nil_r; try (split_and!; eauto; fail).
      unfold set_shutdownVm. destruct (shutdownVms (state l)); simpl; rewrite ?app_nil_r.
      * split_and!; eauto. apply Forall_app. split; [done|]. by repeat constructor.
      * split_and!; eauto.
    + split_and!; eauto.
    + split_and!; eauto. exists ((ref, b) :: starts). csimpl.
      rewrite Hd, Hs, rev_unit. split_and!; [done..|].
      intros x [->|Hx]%elem_of_cons; auto.
    + split_and!; eauto. apply Forall_app. split; [done|]. by repeat constructor.
    + split_and!; eauto. exists ((ref, b) :: starts). csimpl.
      rewrite Hd, Hs, rev_unit. split_and!; [done..|].
      intros x [->|Hx]%elem_of_cons; auto.
    + split_and!; eauto.
  - split_and!; [|done|done|].
    + apply Forall_fmap, Forall_forall. intros [vm b] Hin. exact Hin.
    + exists []. rewrite Hh. split_and!; [done..|]. apply list_subseteq_nil.
  - simpl in *. split; [|done]. exists starts. unfold compensations.
    rewrite Hu'. simpl. split_and!; [done..|]. by rewrite Hrv.
Qed.

Lemma undoable_quiet base l tr ev :
  disruptive (ev_call ev) = false → undoable base l tr → undoable base l (tr ++ [ev]).
Proof.
  intros Hq (starts & Hd & Hs & Hsub). exists starts. unfold compensations.
  rewrite unplugged_snoc, halted_snoc, quiet_not_halted_by, quiet_not_unplugged_by by done.
  simpl. by rewrite !app_nil_r.
Qed.

Lemma undoable_locals base l l' tr :
  deferreds l' = deferreds l → runningVms l' = runningVms l →
  undoable base l tr → undoable base l' tr.
Proof. intros Hd Hr (starts & ? & ? & ?). exists starts. by rewrite Hd, Hr. Qed.

Lemma unplug_pool_undoable base pool sched l w tr :
  undoable base l tr →
  let res := run_pool unplug_awaited unplug_resume true sched pool None l w tr in
  undoable base res.1.2 (c_trace res.2).
Proof.
  intros (starts & Hd & Hs & Hsub). simpl.
  destruct (run_pool_invariant unplug_awaited unplug_resume
    (λ _ l' _ tr', runningVms l' = runningVms l ∧ halted tr' = halted tr ∧
                   deferreds l' = compensations base starts tr'))
    with (settled := true) (sched := sched) (pool := pool) (failure := @None error)
         (l := l) (w := w) (tr := tr)
    as (pool' & (Hrv & Hh & Hd') & _); [|done|].
  - clear. intros before pc after l0 w0 tr0 (Hrv & Hh & Hd).
    unfold compensations in *.
    rewrite unplugged_snoc, halted_snoc. unfold fired, unplugged_by, halted_by. simpl.
    destruct pc as [ref|ref|ref]; simpl;
      destruct (exec w0 _) as [[v|e] w']; simpl; rewrite ?app_nil_r; try done.
    + by destruct (truthy v).
    + destruct v; try done. unfold push_unpluggedPbd.
      by destruct (unpluggedPbds (state l0)).
    + split_and!; [done..|]. by rewrite Hd, rev_unit.
  - exists starts. by rewrite Hd', Hh, Hrv.
Qed.

Lemma unplugPbds_undoable base ref l c :
  undoable base l (c_trace c) →
  undoable base (unplugPbds ref l c).1.2 (c_trace (unplugPbds ref l c).2).
Proof.
  intros H. unfold unplugPbds, bind, assign, getField_refs, bind, await. simpl.
  rewrite perform_trace.
  set (l1 := set_state _ l).
  assert (H1 : undoable base l1 (c_trace c ++ [call_event (SR_get_PBDs ref) (c_world c)])).
  { apply undoable_quiet; [done|]. by eapply undoable_locals. }
  destruct (exec (c_world c) (SR_get_PBDs ref)).1 as [v|e]; [|done].
  destruct v; try done. simpl. unfold asyncMapSettled. simpl.
  by apply unplug_pool_undoable.
Qed.

Lemma getter_trace_quiet w t w' :
  steps getter w t w' → Forall (λ ev, disruptive (ev_call ev) = false) t.
Proof.
  intros H. eapply Forall_impl; [by eapply steps_calls|].
  intros ev. apply getter_not_disruptive.
Qed.

Lemma undoable_nothing base l tr :
  deferreds l = base → halted tr = [] → unplugged tr = [] → undoable base l tr.
Proof.
  intros Hd Hh Hu. exists []. unfold compensations. rewrite Hu, Hh, Hd.
  split_and!; [done..|]. apply list_subseteq_nil.
Qed.

Lemma body_undoable ref vmsToShutdown w sched o l c :
  enableMaintenanceMode_body ref vmsToShutdown no_locals (start w sched) = (o, l, c) →
  let add := SR_add_to_other_config ref OC_MAINTENANCE (placeholder (now w)) in
  undoable (if is_Reply (exec w add).1
            then [SR_remove_from_other_config ref OC_MAINTENANCE] else [])
    l (c_trace c).
Proof.
  intros Hres add. unfold enableMaintenanceMode_body in Hres.
  destruct (beginMaintenance_spec ref w sched) as (reads & Ht & Hs & _ & Hd & _).
  fold add in Ht, Hs, Hd. set (base := if is_Reply (exec w add).1 then _ else _) in *.
  assert (Hq : Forall (λ ev, disruptive (ev_call ev) = false)
                 (call_event add w :: reads)).
  { constructor; [done|]. by eapply getter_trace_quiet. }
  rewrite <- Ht in Hq. apply quiet_trace in Hq as [Hh Hu].
  unfold bind at 1 in Hres.
  destruct (beginMaintenance ref no_locals (start w sched)) as [[[us|e|] l1] c1];
    cbn [fst snd] in Hd, Hh, Hu.
  2,3: injection Hres as <- <- <-; by apply undoable_nothing.
  unfold bind at 1 in Hres. unfold checkVmsToShutdown in Hres.
  case_decide; cbn [fst snd ret throw] in Hres.
  2: injection Hres as <- <- <-; by apply undoable_nothing.
  unfold bind at 1 in Hres.
  destruct (shutdownRunningVms_undoable base l1 c1 Hd Hh Hu) as [H3 Hu3].
  destruct (shutdownRunningVms l1 c1) as [[[[]|e|] l3] c3];
    cbn [fst snd] in H3, Hu3.
  2,3: by injection Hres as <- <- <-.
  unfold bind at 1 in Hres.
  pose proof (unplugPbds_undoable base ref l3 c3 H3) as H4.
  destruct (unplugPbds ref l3 c3) as [[[[]|e|] l4] c4]; cbn [fst snd] in H4.
  2,3: by injection Hres as <- <- <-.
  unfold bind, locals, await in Hres. rewrite perform_trace in Hres.
  destruct (exec (c_world c4) _).1; injection Hres as <- <- <-;
    cbn [c_trace]; by apply undoable_quiet.
Qed.

Lemma executeDeferreds_calls ds c :
  ev_call <$> c_trace (executeDeferreds compensate ds c) = (ev_call <$> c_trace c) ++ ds.
Proof.
  revert c. induction ds as [|d ds IH]; intros c; simpl.
  - by rewrite app_nil_r.
  - rewrite IH. unfold compensate. rewrite perform_trace. simpl.
    by rewrite fmap_app, <- app_assoc.
Qed.

Lemma getter_keeps_config call : getter call → keeps_config call.
Proof. by destruct call. Qed.

Lemma shutdown_call_keeps_config call : shutdown_call call → keeps_config call.
Proof. by destruct call. Qed.

Lemma unplug_call_keeps_config call : unplug_call call → keeps_config call.
Proof. by destruct call. Qed.

Lemma exec_write_reply w sr v r (call : rcall) :
  call = SR_add_to_other_config sr OC_MAINTENANCE v ∨
  call = SR_set_other_config_entry sr OC_MAINTENANCE v →
  (exec w call).1 = Reply r →
  maintenance_record (exec w call).2 sr = Some v.
Proof.
  intros Hcall. unfold exec. destruct (fault w (now w) call); [done|].
  destruct Hcall as [-> | ->]; simpl; unfold on_sr;
    destruct (SRs w !! sr) as [s|] eqn:Es; try done.
  - destruct (sr_other_config s !! OC_MAINTENANCE) eqn:Ek; [done|]. simpl. intros _.
    unfold maintenance_record. simpl. rewrite lookup_insert_eq. simpl.
    by rewrite lookup_insert_eq.
  - simpl. intros _. unfold maintenance_record. simpl. rewrite lookup_insert_eq. simpl.
    by rewrite lookup_insert_eq.
Qed.

Lemma body_shape ref vmsToShutdown w sched o l c :
  enableMaintenanceMode_body ref vmsToShutdown no_locals (start w sched) = (o, l, c) →
  let add := SR_add_to_other_config ref OC_MAINTENANCE (placeholder (now w)) in
  let set := SR_set_other_config_entry ref OC_MAINTENANCE (state l) in
  ∃ middle wm final,
    c_trace c = call_event add w :: middle ++ final ∧
    steps keeps_config (exec w add).2 middle wm ∧
    ((final = [] ∧ c_world c = wm ∧ o ≠ Returned tt) ∨
     (final = [call_event set wm] ∧ c_world c = (exec wm set).2 ∧
      (o = Returned tt ↔ is_Reply (exec wm set).1 = true))).
Proof.
  intros Hres add set. unfold enableMaintenanceMode_body in Hres.
  destruct (beginMaintenance_spec ref w sched) as (reads & Ht & Hs & _).
  fold add in Ht, Hs.
  apply (steps_weaken _ keeps_config) in Hs; [|apply getter_keeps_config].
  unfold bind at 1 in Hres.
  destruct (beginMaintenance ref no_locals (start w sched)) as [[[us|e|] l1] c1];
    cbn [fst snd] in Ht, Hs.
  2,3: injection Hres as <- <- <-; exists reads, (c_world c1), [];
       rewrite app_nil_r; split_and!; [done..|]; by left.
  unfold bind at 1 in Hres. unfold checkVmsToShutdown in Hres.
  case_decide; cbn [fst snd ret throw] in Hres.
  2: { injection Hres as <- <- <-. exists reads, (c_world c1), [].
       rewrite app_nil_r. split_and!; [done..|]. by left. }
  unfold bind at 1 in Hres.
  destruct (confined_shutdownRunningVms l1 c1) as (t3 & Ht3 & Hs3).
  apply (steps_weaken _ keeps_config) in Hs3; [|apply shutdown_call_keeps_config].
  pose proof (steps_app _ _ _ _ _ _ Hs Hs3) as Hs13.
  destruct (shutdownRunningVms l1 c1) as [[[[]|e|] l3] c3]; cbn [fst snd] in Ht3, Hs3, Hs13.
  2,3: injection Hres as <- <- <-; exists (reads ++ t3), (c_world c3), [];
       rewrite app_nil_r, Ht3, Ht; split_and!; [done..|]; by left.
  unfold bind at 1 in Hres.
  destruct (confined_unplugPbds ref l3 c3) as (t4 & Ht4 & Hs4).
  apply (steps_weaken _ keeps_config) in Hs4; [|apply unplug_call_keeps_config].
  pose proof (steps_app _ _ _ _ _ _ Hs13 Hs4) as Hs14.
  destruct (unplugPbds ref l3 c3) as [[[[]|e|] l4] c4]; cbn [fst snd] in Ht4, Hs4, Hs14.
  2,3: injection Hres as <- <- <-; exists ((reads ++ t3) ++ t4), (c_world c4), [];
       rewrite app_nil_r, Ht4, Ht3, Ht; split_and!;
       [by rewrite <- !app_assoc|done|]; by left.
  unfold bind, locals, await in Hres. rewrite perform_trace in Hres.
  exists ((reads ++ t3) ++ t4), (c_world c4).
  destruct (exec (c_world c4) _).1 as [v|e] eqn:E; injection Hres as <- <- <-;
    cbn [c_trace c_world]; fold set in E |- *;
    exists [call_event set (c_world c4)]; rewrite Ht4, Ht3, Ht;
    (split_and!; [by rewrite <- !app_assoc|done|]); right; rewrite E;
    split_and!; done.
Qed.

Lemma assoc_set_keys {A} k (v : A) m : k ∈ (assoc_set k v m).*1 ∧ m.*1 ⊆ (assoc_set k v m).*1.
Proof.
  induction m as [|[k' v'] m [IH1 IH2]]; simpl.
  - split; [apply list_elem_of_here|apply list_subseteq_nil].
  - case_decide; subst; csimpl.
    + split; [apply list_elem_of_here|done].
    + split; [by apply list_elem_of_further|].
      intros x [->|Hx]%elem_of_cons; [apply list_elem_of_here|].
      apply list_elem_of_further. by apply IH2.
Qed.

Lemma listed_mono l l' tr tr' vm :
  (∀ vms, shutdownVms (state l) = Some vms →
          ∃ vms', shutdownVms (state l') = Some vms' ∧ vms.*1 ⊆ vms'.*1) →
  tr ⊆ tr' → listed l tr vm → listed l' tr' vm.
Proof.
  intros Hst Htr (uuid & vms & (ev & Hev & Hc & Hr) & Hvms & Hu).
  destruct (Hst vms Hvms) as (vms' & Hvms' & Hsub).
  exists uuid, vms'. split_and!; [|done|by apply Hsub].
  exists ev. split_and!; [by apply Htr|done..].
Qed.

Lemma config_grows_refl l l' : state l' = state l → config_grows l l'.
Proof. intros E vms H. exists vms. by rewrite E. Qed.

Lemma shutdown_listing_advance pool next l l' tr ev :
  shutdown_listing pool l tr →
  config_grows l l' →
  (∀ vm, shutdown_attempt ev vm → listed l' (tr ++ [ev]) vm) →
  Forall (shutdown_pc_listed l' (tr ++ [ev])) next →
  shutdown_listing (pool ++ next) l' (tr ++ [ev]).
Proof.
  intros ([vms Hvms] & Hpool & Hall) Hgrow Hself Hnext.
  assert (Hmono : ∀ vm, listed l tr vm → listed l' (tr ++ [ev]) vm).
  { intros vm. apply listed_mono; [done|]. intros x Hx. apply elem_of_app. by left. }
  split_and!.
  - destruct (Hgrow vms Hvms) as (vms' & -> & _). done.
  - apply Forall_app. split; [|done].
    eapply Forall_impl; [eassumption|]. intros [] H; simpl in *; auto.
  - intros ev' vm [Hin| ->%list_elem_of_singleton]%elem_of_app Hat; [|by apply Hself].
    apply Hmono. by eapply Hall.
Qed.

Lemma shutdown_listing_step before pc after l w tr :
  shutdown_listing (before ++ pc :: after) l tr →
  shutdown_listing
    ((before ++ after) ++
       successors (shutdown_resume pc (exec w (shutdown_awaited pc)).1 l).2)
    (shutdown_resume pc (exec w (shutdown_awaited pc)).1 l).1
    (tr ++ [fired shutdown_awaited pc w]).
Proof.
  intros (Hsome & Hpool & Hall).
  apply Forall_app in Hpool as [Hb Hpool]. apply Forall_cons in Hpool as [Hpc Ha].
  assert (Hrest : shutdown_listing (before ++ after) l tr).
  { split_and!; [done| |done]. by apply Forall_app. }
  assert (Hin : ∀ t, fired shutdown_awaited pc w ∈ t ++ [fired shutdown_awaited pc w]).
  { intros t. apply elem_of_app. right. apply list_elem_of_here. }
  assert (Hmono : ∀ l' vm, config_grows l l' → listed l tr vm →
                    listed l' (tr ++ [fired shutdown_awaited pc w]) vm).
  { intros l' vm Hg. apply listed_mono; [done|]. intros x Hx. apply elem_of_app. by left. }
  destruct pc as [ref b|ref b|ref b]; simpl in *.
  - assert (Hno : ∀ vm, ¬ shutdown_attempt (fired shutdown_awaited (ShutdownUuid ref b) w) vm)
      by (by intros vm [|]).
    destruct (exec w (VM_get_uuid ref)).1 as [[| | uuid | | |]|e] eqn:E; simpl;
      try (apply (shutdown_listing_advance _ _ l); [done|by apply config_grows_refl| |by constructor];
           intros vm Hat; by destruct (Hno vm)).
    destruct Hsome as [vms Hvms]. unfold set_shutdownVm. rewrite Hvms. simpl.
    apply (shutdown_listing_advance _ _ l); [done| | |].
    + intros vms0. simpl. rewrite Hvms. intros [= <-]. eexists. split; [done|].
      apply (proj2 (assoc_set_keys _ _ _)).
    + intros vm Hat. by destruct (Hno vm).
    + apply Forall_singleton. exists uuid, (assoc_set uuid b vms).
      split_and!; [|done|apply (proj1 (assoc_set_keys uuid b vms))].
      eexists. split_and!; [apply Hin|done|]. simpl. done.
  - assert (Hself : ∀ l', config_grows l l' → ∀ vm,
              shutdown_attempt (fired shutdown_awaited (CleanShutdown ref b) w) vm →
              listed l' (tr ++ [fired shutdown_awaited (CleanShutdown ref b) w]) vm).
    { intros l' Hg vm [[= <-]|[=]]. by apply Hmono. }
    destruct (exec w (VM_clean_shutdown ref)).1 as [v|e] eqn:E; simpl.
    + apply (shutdown_listing_advance _ _ l); [done| |apply Hself|by constructor];
        by apply config_grows_refl.
    + apply (shutdown_listing_advance _ _ l); [done| |apply Hself|];
        try by apply config_grows_refl.
      apply Forall_singleton. apply Hmono; [by apply config_grows_refl|done].
  - assert (Hself : ∀ l', config_grows l l' → ∀ vm,
              shutdown_attempt (fired shutdown_awaited (HardShutdown ref b) w) vm →
              listed l' (tr ++ [fired shutdown_awaited (HardShutdown ref b) w]) vm).
    { intros l' Hg vm [[=]|[= <-]]. by apply Hmono. }
    destruct (exec w (VM_hard_shutdown ref)).1 as [v|e] eqn:E; simpl;
      (apply (shutdown_listing_advance _ _ l); [done| |apply Hself|by constructor]);
      by apply config_grows_refl.
Qed.

Lemma shutdownRunningVms_listed l c :
  (∀ ev vm, ev ∈ c_trace c → ¬ shutdown_attempt ev vm) →
  all_listed (shutdownRunningVms l c).1.2 (c_trace (shutdownRunningVms l c).2) ∧
  is_Some (shutdownVms (state (shutdownRunningVms l c).1.2)).
Proof.
  intros Hnone. unfold shutdownRunningVms, bind, assign, locals. simpl.
  unfold asyncMapSettled. simpl.
  destruct (run_pool_invariant shutdown_awaited shutdown_resume
    (λ pool l' _ tr, shutdown_listing pool l' tr))
    with (settled := true) (sched := c_sched c)
         (pool := (λ vm, ShutdownUuid vm.1 vm.2) <$> runningVms l) (failure := @None error)
         (l := set_state {| timestamp := timestamp (state l); shutdownVms := Some [];
                            unpluggedPbds := unpluggedPbds (state l) |} l)
         (w := c_world c) (tr := c_trace c)
    as (pool' & (Hsome & _ & Hall) & _).
  - intros. by apply shutdown_listing_step.
  - split_and!; [by eexists| |].
    + apply Forall_fmap, Forall_forall. by intros [vm b] _.
    + intros ev vm Hev Hat. by destruct (Hnone ev vm Hev).
  - done.
Qed.

Lemma quiet_no_attempt tr :
  Forall (λ ev, disruptive (ev_call ev) = false) tr → no_attempt tr.
Proof.
  intros H ev vm Hev Hat. rewrite Forall_forall in H. specialize (H ev Hev).
  by destruct Hat as [E|E]; rewrite E in H.
Qed.

Lemma unplug_call_no_attempt tr :
  Forall (λ ev, unplug_call (ev_call ev)) tr → no_attempt tr.
Proof.
  intros H ev vm Hev Hat. rewrite Forall_forall in H. specialize (H ev Hev).
  by destruct Hat as [E|E]; rewrite E in H.
Qed.

Lemma all_listed_nothing l tr : no_attempt tr → all_listed l tr.
Proof. intros H ev vm Hev Hat. by destruct (H ev vm Hev). Qed.

Lemma all_listed_extend l l' tr t :
  all_listed l tr → config_grows l l' → no_attempt t → all_listed l' (tr ++ t).
Proof.
  intros Hall Hg Hno ev vm [Hev|Hev]%elem_of_app Hat; [|by destruct (Hno ev vm Hev)].
  eapply listed_mono; [done| |by eapply Hall].
  intros x Hx. apply elem_of_app. by left.
Qed.

Lemma keeps_unplugPbds ref vms :
  keeps (λ l, shutdownVms (state l) = vms) (unplugPbds ref).
Proof.
  unfold unplugPbds.
  apply keeps_bind; [by intros l c H|]. intros _.
  apply keeps_bind; [apply keeps_getField_refs|]. intros pbds l c H.
  unfold asyncMapSettled. apply run_pool_keeps; [|done]. clear.
  intros pc r l H. unfold unplug_resume, push_unpluggedPbd.
  destruct r as [v|e]; [|done]. destruct pc; [by destruct (truthy v)| |done].
  destruct v; try done. by destruct (unpluggedPbds (state l)).
Qed.

Lemma body_listed ref vmsToShutdown w sched o l c :
  enableMaintenanceMode_body ref vmsToShutdown no_locals (start w sched) = (o, l, c) →
  all_listed l (c_trace c).
Proof.
  intros Hres. unfold enableMaintenanceMode_body in Hres.
  destruct (beginMaintenance_spec ref w sched) as (reads & Ht & Hs & _).
  assert (Hq : Forall (λ ev, disruptive (ev_call ev) = false)
    (call_event (SR_add_to_other_config ref OC_MAINTENANCE (placeholder (now w))) w :: reads)).
  { constructor; [done|]. by eapply getter_trace_quiet. }
  rewrite <- Ht in Hq. apply quiet_no_attempt in Hq. clear Ht Hs.
  unfold bind at 1 in Hres.
  destruct (beginMaintenance ref no_locals (start w sched)) as [[[us|e|] l1] c1];
    cbn [fst snd] in Hq.
  2,3: injection Hres as <- <- <-; by apply all_listed_nothing.
  unfold bind at 1 in Hres. unfold checkVmsToShutdown in Hres.
  case_decide; cbn [fst snd ret throw] in Hres.
  2: injection Hres as <- <- <-; by apply all_listed_nothing.
  unfold bind at 1 in Hres.
  destruct (shutdownRunningVms_listed l1 c1 Hq) as [H3 _].
  destruct (shutdownRunningVms l1 c1) as [[[[]|e|] l3] c3]; cbn [fst snd] in H3.
  2,3: by injection Hres as <- <- <-.
  unfold bind at 1 in Hres.
  destruct (confined_unplugPbds ref l3 c3) as (t4 & Ht4 & Hs4).
  pose proof (keeps_unplugPbds ref (shutdownVms (state l3)) l3 c3 eq_refl) as Hk4.
  assert (H4 : all_listed (unplugPbds ref l3 c3).1.2 (c_trace (unplugPbds ref l3 c3).2)).
  { rewrite Ht4. apply (all_listed_extend l3); [done| |].
    - intros vms Hvms. exists vms. by rewrite Hk4.
    - apply unplug_call_no_attempt.
      eapply Forall_impl; [by eapply steps_calls|]. by intros ev Hev. }
  clear Ht4 Hs4 Hk4.
  destruct (unplugPbds ref l3 c3) as [[[[]|e|] l4] c4]; cbn [fst snd] in H4.
  2,3: by injection Hres as <- <- <-.
  unfold bind, locals, await in Hres. rewrite perform_trace in Hres.
  destruct (exec (c_world c4) _).1; injection Hres as <- <- <-; cbn [c_trace];
    (apply (all_listed_extend l4); [done|by apply config_grows_refl|]);
    by intros ev vm ->%list_elem_of_singleton [|].
Qed.

Lemma exec_add_ok w sr v :
  is_Reply (exec w (SR_add_to_other_config sr OC_MAINTENANCE v)).1 = true →
  maintenance_record (exec w (SR_add_to_other_config sr OC_MAINTENANCE v)).2 sr = Some v.
Proof.
  destruct (exec w _).1 as [r|e] eqn:E; [|done]. intros _.
  eapply exec_write_reply; [by left|done].
Qed.

Lemma steps_keep_record w t w' sr :
  steps keeps_config w t w' →
  maintenance_record w' sr = maintenance_record w sr ∧
  Forall (λ ev, maintenance_record (ev_world ev) sr = maintenance_record w sr) t.
Proof.
  intros H. destruct (steps_keep_SRs keeps_config w t w') as [E1 E2]; [done..|].
  unfold maintenance_record. rewrite E1. split; [done|].
  eapply Forall_impl; [exact E2|]. intros ev E. simpl in E. by rewrite E.
Qed.

(** While [enableMaintenanceMode] runs, the record stored on the storage
    object stays the timestamp-only placeholder after every call that
    precedes the last write: no call in between writes [other_config].  The
    state is persisted by the single [setFieldEntry] that ends the body; when
    the body returns the stored record is the complete in-memory state.  That
    state lists the uuid of every VM whose shutdown was attempted. *)
Lemma record_set_at_the_end ref vmsToShutdown w sched :
  let add := SR_add_to_other_config ref OC_MAINTENANCE (placeholder (now w)) in
  let body := enableMaintenanceMode_body ref vmsToShutdown no_locals (start w sched) in
  let set := SR_set_other_config_entry ref OC_MAINTENANCE (state body.1.2) in
  is_Reply (exec w add).1 = true →
  (∃ before final,
     c_trace body.2 = before ++ final ∧
     before ≠ [] ∧
     Forall (λ ev, maintenance_record (ev_world ev) ref = Some (placeholder (now w))) before ∧
     Forall (λ ev, writes_other_config (ev_call ev) = false) (tail before) ∧
     (final = [] ∨ ∃ ev, final = [ev] ∧ ev_call ev = set) ∧
     (body.1.1 = Returned tt →
        final ≠ [] ∧ maintenance_record (c_world body.2) ref = Some (state body.1.2))) ∧
  all_listed body.1.2 (c_trace body.2).
Proof.
  intros add body set Hadd.
  destruct body as [[o l] c] eqn:Hbody. unfold body in Hbody. cbn [fst snd] in set |- *.
  split; [|by eapply body_listed].
  destruct (body_shape _ _ _ _ _ _ _ Hbody) as (middle & wm & final & Ht & Hs & Hfinal).
  fold add set in Ht, Hs, Hfinal.
  destruct (steps_keep_record _ _ _ ref Hs) as [Hwm Hmid].
  pose proof (exec_add_ok _ _ _ Hadd) as Hrec. fold add in Hrec.
  rewrite Hrec in Hwm, Hmid.
  exists (call_event add w :: middle), final. split_and!; [done|done| | | |].
  - constructor; [exact Hrec|done].
  - simpl. eapply Forall_impl; [by eapply steps_calls|]. by intros ev Hev.
  - destruct Hfinal as [(-> & _)|(-> & _)]; [by left|right]. eexists. done.
  - intros ->. destruct Hfinal as [(_ & _ & Hne)|(-> & -> & Hok)]; [done|].
    split; [done|]. destruct Hok as [Hok _]. specialize (Hok eq_refl).
    destruct (exec wm set).1 as [r|e] eqn:E; [|done].
    eapply exec_write_reply; [by right|done].
Qed.

Section Completion.
Context {L PC : Type}.
Variable awaited : PC → rcall.
Variable resume : PC → reply → L → L * next PC.
Variable rank : PC → nat.
Hypothesis rank_step : ∀ pc r l,
  match (resume pc r l).2 with
  | Failed _ => False
  | nx => sum_list_with rank (successors nx) < rank pc
  end.

Lemma run_pool_completes settled sched pool l w tr :
  sum_list_with rank pool ≤ length sched →
  (run_pool awaited resume settled sched pool None l w tr).1.1 = Returned tt ∧
  length sched ≤
    length (c_sched (run_pool awaited resume settled sched pool None l w tr).2) +
    sum_list_with rank pool.
Proof.
  revert pool l w tr. induction sched as [|n sched IH]; intros pool l w tr Hlen.
  - destruct pool as [|pc pool]; simpl; [split; [done|lia]|].
    simpl in Hlen. pose proof (rank_step pc (Raise TypeError) l) as H.
    destruct (resume pc _ l).2; [|done|..]; lia.
  - destruct (decide (pool = [])) as [->|Hne].
    { rewrite run_pool_nil. simpl. split; [done|lia]. }
    destruct (pool_pick n pool Hne) as [pc Hpc].
    rewrite (run_pool_step _ _ _ _ _ _ _ _ _ _ _ Hpc).
    assert (Hsum : sum_list_with rank pool =
                   sum_list_with rank (delete (n mod length pool) pool) + rank pc).
    { rewrite <- (take_drop_middle _ _ _ Hpc) at 1.
      rewrite delete_take_drop, !sum_list_with_app. simpl. lia. }
    destruct (exec w (awaited pc)) as [r w'].
    pose proof (rank_step pc r l) as Hstep.
    destruct (resume pc r l) as [l' nx]. simpl in Hstep.
    assert (Hnext : sum_list_with rank (delete (n mod length pool) pool ++ successors nx)
                    ≤ length sched).
    { rewrite sum_list_with_app. simpl in Hlen. destruct nx; simpl in *; [|done|..]; lia. }
    destruct nx as [|e|pc'|pcs]; [|done|..];
      (destruct (IH _ l' w' (tr ++ [{| ev_call := awaited pc; ev_reply := r;
                                       ev_world := w' |}]) Hnext) as [H1 H2];
       split; [done|]; rewrite sum_list_with_app in H2; simpl in *; lia).
Qed.
End Completion.

Lemma exec_get_by_uuid_string w call v :
  (∃ uuid, call = PBD_get_by_uuid uuid ∨ call = VM_get_by_uuid uuid) →
  (exec w call).1 = Reply v → ∃ ref, v = VString ref.
Proof.
  intros (uuid & Hc). unfold exec. destruct (fault w (now w) call); [done|].
  destruct Hc as [-> | ->]; simpl.
  - destruct (by_uuid pbd_uuid (PBDs w) uuid); simpl; [|done]. intros [= <-]. eauto.
  - destruct (by_uuid vm_uuid (VMs w) uuid); simpl; [|done]. intros [= <-]. eauto.
Qed.

Lemma omap_snoc {A B} (f : A → option B) (t : list A) (x : A) :
  omap f (t ++ [x]) = omap f t ++ option_list (f x).
Proof. rewrite omap_app. simpl. by destruct (f x). Qed.

Lemma omap_cons_list {A B} (f : A → option B) (x : A) (l : list A) :
  omap f (x :: l) = option_list (f x) ++ omap f l.
Proof. simpl. by destruct (f x). Qed.

Lemma plug_progress_step pbds l0 w0 tr0 before pc after l w tr :
  plug_progress pbds l0 w0 tr0 (before ++ pc :: after) l w tr →
  plug_progress pbds l0 w0 tr0
    ((before ++ after) ++ successors (plug_resume pc (exec w (plug_awaited pc)).1 l).2)
    (plug_resume pc (exec w (plug_awaited pc)).1 l).1
    (exec w (plug_awaited pc)).2
    (tr ++ [fired plug_awaited pc w]).
Proof.
  intros (t & -> & Hs & He & Hl & Hp).
  rewrite omap_app, omap_cons_list in Hl, Hp.
  assert (Hs' : steps plug_call w0 (t ++ [fired plug_awaited pc w])
                  (exec w (plug_awaited pc)).2).
  { apply (steps_snoc plug_call w0 t w (plug_awaited pc)); [done|]. by destruct pc. }
  exists (t ++ [fired plug_awaited pc w]).
  split; [by rewrite app_assoc|]. split; [done|].
  unfold failures in *. rewrite !omap_snoc, !omap_app.
  unfold fired at 1 3 4. unfold failure_of at 2. unfold pbd_found at 2.
  unfold pbd_lookup at 2. unfold pbd_plugged at 2.
  cbn [ev_call ev_reply].
  destruct pc as [uuid|ref];
    cbn [plug_awaited plug_waiting_lookup plug_waiting_plug option_list app] in *.
  - destruct (exec w (PBD_get_by_uuid uuid)).1 as [v|e] eqn:E.
    + destruct (exec_get_by_uuid_string w _ v (ex_intro _ uuid (or_introl eq_refl)) E)
        as [ref ->].
      cbn [plug_resume fst snd successors option_list omap plug_waiting_lookup
           plug_waiting_plug].
      rewrite ?app_nil_r.
      split_and!; [done|rewrite <- Hl|rewrite <- Hp]; solve_Permutation.
    + cbn [plug_resume fst snd successors option_list omap push_error d_errors].
      rewrite ?app_nil_r.
      split_and!; [by rewrite He, app_assoc|rewrite <- Hl|rewrite <- Hp];
        solve_Permutation.
  - destruct (exec w (PBD_plug ref)).1 as [v|e];
      cbn [plug_resume fst snd successors option_list omap push_error d_errors];
      rewrite ?app_nil_r;
      (split_and!; [by rewrite ?He, ?app_assoc|rewrite <- Hl|rewrite <- Hp]);
      solve_Permutation.
Qed.

Lemma start_progress_step uuids l0 w0 tr0 before pc after l w tr :
  start_progress uuids l0 w0 tr0 (before ++ pc :: after) l w tr →
  start_progress uuids l0 w0 tr0
    ((before ++ after) ++ successors (start_resume pc (exec w (start_awaited pc)).1 l).2)
    (start_resume pc (exec w (start_awaited pc)).1 l).1
    (exec w (start_awaited pc)).2
    (tr ++ [fired start_awaited pc w]).
Proof.
  intros (t & -> & Hs & He & Hl & Hp).
  rewrite omap_app, omap_cons_list in Hl, Hp.
  assert (Hs' : steps start_call w0 (t ++ [fired start_awaited pc w])
                  (exec w (start_awaited pc)).2).
  { apply (steps_snoc start_call w0 t w (start_awaited pc)); [done|]. by destruct pc. }
  exists (t ++ [fired start_awaited pc w]).
  split; [by rewrite app_assoc|]. split; [done|].
  unfold failures in *. rewrite !omap_snoc, !omap_app.
  unfold fired at 1 3 4. unfold failure_of at 2. unfold vm_found at 2.
  unfold vm_lookup at 2. unfold vm_started at 2.
  cbn [ev_call ev_reply].
  destruct pc as [uuid b|ref b];
    cbn [start_awaited start_waiting_lookup start_waiting_start option_list app] in *.
  - destruct (exec w (VM_get_by_uuid uuid)).1 as [v|e] eqn:E.
    + destruct (exec_get_by_uuid_string w _ v (ex_intro _ uuid (or_intror eq_refl)) E)
        as [ref ->].
      cbn [start_resume fst snd successors option_list omap start_waiting_lookup
           start_waiting_start].
      rewrite ?app_nil_r.
      split_and!; [done|rewrite <- Hl|rewrite <- Hp]; solve_Permutation.
    + cbn [start_resume fst snd successors option_list omap push_error d_errors].
      rewrite ?app_nil_r.
      split_and!; [by rewrite He, app_assoc|rewrite <- Hl|rewrite <- Hp];
        solve_Permutation.
  - destruct (exec w (VM_start ref b true)).1 as [v|e];
      cbn [start_resume fst snd successors option_list omap push_error d_errors];
      rewrite ?app_nil_r;
      (split_and!; [by rewrite ?He, ?app_assoc|rewrite <- Hl|rewrite <- Hp]);
      solve_Permutation.
Qed.

Lemma plug_pool_spec pbds sched l w tr :
  2 * length pbds ≤ length sched →
  let res := asyncMap plug_awaited plug_resume (PlugGetByUuid <$> pbds) l
               {| c_world := w; c_trace := tr; c_sched := sched |} in
  res.1.1 = Returned tt ∧
  length sched ≤ length (c_sched res.2) + 2 * length pbds ∧
  plug_progress pbds l w tr [] res.1.2 (c_world res.2) (c_trace res.2).
Proof.
  intros Hlen. unfold asyncMap. simpl.
  assert (Hrank : sum_list_with plug_rank (PlugGetByUuid <$> pbds) = 2 * length pbds).
  { clear. induction pbds; csimpl in *; lia. }
  destruct (run_pool_completes plug_awaited plug_resume plug_rank) with
    (settled := false) (sched := sched) (pool := PlugGetByUuid <$> pbds)
    (l := l) (w := w) (tr := tr) as [Hret Hleft].
  { intros pc r l'. unfold plug_resume. destruct r as [v|e], pc; simpl; try lia.
    destruct v; simpl; lia. }
  { lia. }
  rewrite Hrank in Hleft. split_and!; [done..|].
  destruct (run_pool_invariant plug_awaited plug_resume
              (λ pool l' w' tr', plug_progress pbds l w tr pool l' w' tr'))
    with (settled := false) (sched := sched) (pool := PlugGetByUuid <$> pbds)
         (failure := @None error) (l := l) (w := w) (tr := tr)
    as (pool' & H & Hnil & _).
  - intros. by apply plug_progress_step.
  - exists []. rewrite app_nil_r. split_and!; [done|constructor|by rewrite app_nil_r|..].
    + simpl. clear. induction pbds; csimpl; [done|]. by f_equiv.
    + simpl. clear. induction pbds; csimpl; done.
  - simpl in *. destruct (Hnil Hret) as [-> _]. done.
Qed.

Lemma start_pool_spec (vms : list (string * bool)) sched l w tr :
  2 * length vms ≤ length sched →
  let res := asyncMap start_awaited start_resume
               ((λ vm, StartGetByUuid vm.1 vm.2) <$> vms) l
               {| c_world := w; c_trace := tr; c_sched := sched |} in
  res.1.1 = Returned tt ∧
  start_progress vms.*1 l w tr [] res.1.2 (c_world res.2) (c_trace res.2).
Proof.
  intros Hlen. unfold asyncMap. simpl.
  set (pool := (λ vm : string * bool, StartGetByUuid vm.1 vm.2) <$> vms).
  assert (Hrank : sum_list_with start_rank pool = 2 * length vms).
  { unfold pool. clear. induction vms; csimpl in *; lia. }
  destruct (run_pool_completes start_awaited start_resume start_rank) with
    (settled := false) (sched := sched) (pool := pool)
    (l := l) (w := w) (tr := tr) as [Hret Hleft].
  { intros pc r l'. unfold start_resume. destruct r as [v|e], pc; simpl; try lia.
    destruct v; simpl; lia. }
  { lia. }
  split; [done|].
  destruct (run_pool_invariant start_awaited start_resume
              (λ pool l' w' tr', start_progress vms.*1 l w tr pool l' w' tr'))
    with (settled := false) (sched := sched) (pool := pool)
         (failure := @None error) (l := l) (w := w) (tr := tr)
    as (pool' & H & Hnil & _).
  - intros. by apply start_progress_step.
  - exists []. rewrite app_nil_r. split_and!; [done|constructor|by rewrite app_nil_r|..].
    + unfold pool. simpl. clear. induction vms; csimpl; [done|]. by f_equiv.
    + unfold pool. simpl. clear. induction vms; csimpl; done.
  - simpl in *. destruct (Hnil Hret) as [-> _]. done.
Qed.




Lemma disable_prelude ref w sched s st l :
  SRs w !! ref = Some s →
  sr_other_config s !! OC_MAINTENANCE = Some st →
  fault w (now w) (SR_get_other_config ref) = None →
  fault w (S (now w)) (SR_remove_from_other_config ref OC_MAINTENANCE) = None →
  let get := SR_get_other_config ref in
  let remove := SR_remove_from_other_config ref OC_MAINTENANCE in
  (exec w get).2 = tick w ∧
  is_Reply (exec (tick w) remove).1 = true ∧
  maintenance_record (exec (tick w) remove).2 ref = None ∧
  disableMaintenanceMode ref l (start w sched) =
    restoreAll st l
      {| c_world := (exec (tick w) remove).2;
         c_trace := [call_event get w; call_event remove (tick w)];
         c_sched := sched |}.
Proof.
  intros Hs Hst Hf1 Hf2 get remove. subst get remove.
  assert (E1 : exec w (SR_get_other_config ref) = (Reply (VOtherConfig (sr_other_config s)), tick w)).
  { unfold exec. rewrite Hf1. simpl. unfold on_sr. by rewrite Hs. }
  assert (E2 : exec (tick w) (SR_remove_from_other_config ref OC_MAINTENANCE) =
               (Reply VUndefined,
                tick (with_other_config (tick w) ref s
                        (delete OC_MAINTENANCE (sr_other_config s))))).
  { unfold exec. simpl. rewrite Hf2. simpl. unfold on_sr. simpl. by rewrite Hs, Hst. }
  split_and!.
  - by rewrite E1.
  - by rewrite E2.
  - rewrite E2. unfold maintenance_record. simpl. rewrite lookup_insert_eq. simpl.
    apply lookup_delete_eq.
  - unfold disableMaintenanceMode, restoreAll.
    unfold bind at 1. unfold await at 1. rewrite perform_trace.
    unfold start. cbn [c_world c_trace c_sched]. rewrite E1. cbn [fst snd].
    unfold bind at 1. unfold ret at 1. unfold bind at 1. unfold JSON_parse. rewrite Hst.
    unfold ret at 1. unfold bind at 1. unfold await at 1. rewrite perform_trace.
    cbn [c_world c_trace c_sched]. rewrite E2. cbn [fst snd].
    unfold call_event. rewrite E1, E2. done.
Qed.




Lemma seen_running_mono tr tr' vm : tr ⊆ tr' → seen_running tr vm → seen_running tr' vm.
Proof.
  intros Hsub (p & (ev & Hev & Hc & Hr) & Hp & Hb).
  exists p. split_and!; [|done..]. exists ev. split_and!; [by apply Hsub|done..].
Qed.

Lemma uuid_read_mono tr tr' vm u : tr ⊆ tr' → uuid_read tr vm u → uuid_read tr' vm u.
Proof.
  intros Hsub (ev & Hev & Hc & Hr). exists ev. split_and!; [by apply Hsub|done..].
Qed.

Lemma assoc_set_elem {A} k (v : A) m x :
  x ∈ assoc_set k v m → x = (k, v) ∨ x ∈ m.
Proof.
  induction m as [|[k' v'] m IH]; simpl.
  - intros ->%list_elem_of_singleton. by left.
  - case_decide; subst.
    + intros [->|Hx]%elem_of_cons; [by left|]. right. by apply list_elem_of_further.
    + intros [->|Hx]%elem_of_cons; [right; apply list_elem_of_here|].
      destruct (IH Hx) as [->|Hm]; [by left|]. right. by apply list_elem_of_further.
Qed.

Lemma discoverRunningVms_seen ref l c :
  Forall (seen_running (c_trace c)) (runningVms l) →
  Forall (seen_running (c_trace (discoverRunningVms ref l c).2))
    (runningVms (discoverRunningVms ref l c).1.2).
Proof.
  intros H. unfold discoverRunningVms, getField_refs, bind, await.
  rewrite perform_trace.
  assert (H1 : Forall (seen_running (c_trace c ++ [call_event (SR_get_VDIs ref) (c_world c)]))
                 (runningVms l)).
  { eapply Forall_impl; [exact H|]. intros vm. apply seen_running_mono.
    intros x Hx. apply elem_of_app. by left. }
  destruct (exec (c_world c) (SR_get_VDIs ref)).1 as [v|e]; [|done].
  destruct v; try done. cbn [ret fst snd]. unfold asyncMap. cbn [c_world c_trace c_sched].
  destruct (run_pool_invariant handleVbd_awaited handleVbd_resume
    (λ _ l' _ tr', Forall (seen_running tr') (runningVms l')))
    with (settled := false) (sched := c_sched c) (pool := VdiVBDs <$> refs)
         (failure := @None error) (l := l) (w := (exec (c_world c) (SR_get_VDIs ref)).2)
         (tr := c_trace c ++ [call_event (SR_get_VDIs ref) (c_world c)])
    as (pool' & Hinv & _); [|done|done].
  clear. intros before pc after l w tr H.
  assert (Hmono : Forall (seen_running (tr ++ [fired handleVbd_awaited pc w])) (runningVms l)).
  { eapply Forall_impl; [exact H|]. intros vm. apply seen_running_mono.
    intros x Hx. apply elem_of_app. by left. }
  unfold handleVbd_resume.
  destruct (exec w (handleVbd_awaited pc)).1 as [v|e] eqn:E; [|done].
  destruct pc as [vdi|vbd|vmRef]; simpl in *.
  - by destruct v.
  - destruct v; try done. by destruct (assoc_has s (runningVms l)).
  - destruct v as [| | | |p|]; try done.
    destruct (bool_decide (p = Paused) || bool_decide (p = Running)) eqn:Hp; [|done].
    simpl. apply Forall_forall. intros x Hx.
    destruct (assoc_set_elem _ _ _ _ Hx) as [->|Hold].
    + exists p. split_and!; [|by repeat case_bool_decide; auto|done].
      eexists. split_and!; [apply elem_of_app; right; apply list_elem_of_here|done|].
      simpl. exact E.
    + rewrite Forall_forall in Hmono. by apply Hmono.
Qed.

Lemma resolveRunningVmUuids_read l c us l1 c1 :
  resolveRunningVmUuids l c = (Returned us, l1, c1) →
  runningVms l1 = runningVms l ∧ c_trace c ⊆ c_trace c1 ∧
  uuids_read (c_trace c1) (runningVms l) us.
Proof.
  unfold resolveRunningVmUuids. unfold bind at 1. unfold locals at 1.
  unfold bind at 1. unfold assign at 1. unfold bind at 1.
  set (keys := (runningVms l).*1).
  set (l0 := set_runningVmUuids _ l). unfold asyncMap.
  destruct (run_pool_invariant uuid_awaited uuid_resume
    (λ pool l' _ tr',
       Forall (λ pc, match pc with VmUuid i vm => keys !! i = Some vm end) pool ∧
       runningVms l' = runningVms l ∧ c_trace c ⊆ tr' ∧
       length (runningVmUuids l') = length keys ∧
       ∀ i u, runningVmUuids l' !! i = Some (Some u) →
              ∃ vm, keys !! i = Some vm ∧ uuid_read tr' vm u))
    with (settled := false) (sched := c_sched c) (pool := imap VmUuid keys)
         (failure := @None error) (l := l0) (w := c_world c) (tr := c_trace c)
    as (pool' & (_ & Hrv & Hsub & Hlen & Hslots) & _).
  - clearbody keys. clear. intros before pc after l' w tr (Hpool & Hrv & Hsub & Hlen & Hslots).
    apply Forall_app in Hpool as [Hb Hpool]. apply Forall_cons in Hpool as [Hpc Ha].
    assert (Hrest : Forall (λ pc, match pc with VmUuid i vm => keys !! i = Some vm end)
                      (before ++ after)) by (by apply Forall_app).
    assert (Hsub' : c_trace c ⊆ tr ++ [fired uuid_awaited pc w]).
    { intros x Hx. apply elem_of_app. left. by apply Hsub. }
    assert (Hold : ∀ i u, runningVmUuids l' !! i = Some (Some u) →
              ∃ vm, keys !! i = Some vm ∧ uuid_read (tr ++ [fired uuid_awaited pc w]) vm u).
    { intros i u Hi. destruct (Hslots i u Hi) as (vm & Hk & Hr). exists vm. split; [done|].
      eapply uuid_read_mono; [|done]. intros x Hx. apply elem_of_app. by left. }
    destruct pc as [i vm]. unfold uuid_resume.
    destruct (exec w (uuid_awaited (VmUuid i vm))).1 as [v|e] eqn:E; simpl.
    + destruct v; simpl; rewrite ?app_nil_r; try done.
      split_and!; [done..|by rewrite length_insert|].
      intros j u. destruct (decide (i = j)) as [<-|Hne].
      * intros Hj. apply list_lookup_insert_Some in Hj.
        destruct Hj as [(_ & Heq & _)|[? _]]; [|done]. injection Heq as <-.
        exists vm. split; [done|]. eexists.
        split_and!; [apply elem_of_app; right; apply list_elem_of_here|done|exact E].
      * rewrite list_lookup_insert_ne by done. apply Hold.
    + rewrite app_nil_r. done.
  - split_and!; [|done|done| |].
    + apply Forall_forall. intros pc (i & vm & -> & Hi)%elem_of_lookup_imap_1. done.
    + unfold l0, keys. simpl. by rewrite length_replicate, length_fmap.
    + unfold l0. simpl. intros i u [[=] _]%lookup_replicate_1.
  - cbn [c_world c_trace c_sched] in *.
    destruct (run_pool _ _ _ _ _ _ _ _ _) as [[o l2] c2]. cbn [fst snd] in *.
    destruct o as [[]|e|]; [|done..].
    unfold bind, locals.
    destruct (mapM id (runningVmUuids l2)) as [us'|] eqn:Em; [|done].
    intros [= <- <- <-]. split_and!; [done..|].
    apply mapM_Some_1 in Em.
    apply Forall2_same_length_lookup. split.
    + apply Forall2_length in Em. rewrite <- Em, Hlen. unfold keys. by rewrite length_fmap.
    + intros i [vm b] u Hvm Hu.
      destruct (Forall2_lookup_r _ _ _ _ _ Em Hu) as (slot & Hslot & Hid).
      simpl in Hid. subst slot.
      destruct (Hslots i u Hslot) as (vm' & Hk & Hr).
      unfold keys in Hk. rewrite list_lookup_fmap, Hvm in Hk. simpl in Hk.
      by injection Hk as <-.
Qed.

Lemma beginMaintenance_discovered ref w sched us l1 c1 :
  beginMaintenance ref no_locals (start w sched) = (Returned us, l1, c1) →
  discovered (c_trace c1) (runningVms l1) us.
Proof.
  rewrite beginMaintenance_unfold. cbv zeta. rewrite perform_trace.
  destruct (exec (c_world (start w sched)) _).1 as [v|e]; [|done].
  unfold scanRunningVms. unfold bind at 1.
  match goal with |- context [discoverRunningVms ref ?l ?c] =>
    pose proof (discoverRunningVms_seen ref l c) as Hseen;
    destruct (discoverRunningVms ref l c) as [[[[]|e|] l0] c0]; [|done..]
  end.
  cbn [fst snd] in Hseen. intros Hres.
  destruct (resolveRunningVmUuids_read _ _ _ _ _ Hres) as (Hrv & Hsub & Hread).
  split; rewrite Hrv; [|done].
  eapply Forall_impl; [apply Hseen; constructor|].
  intros vm. by apply seen_running_mono.
Qed.

Lemma keeps_runningVms_resolve rv :
  keeps (λ l, runningVms l = rv) resolveRunningVmUuids.
Proof.
  unfold resolveRunningVmUuids.
  apply keeps_bind; [by apply keeps_pure|]. intros l0.
  apply keeps_bind; [by intros l c H|]. intros _.
  apply keeps_bind.
  { intros l c H. unfold asyncMap. apply run_pool_keeps; [|done]. clear. intros pc r l H.
    unfold uuid_resume. repeat case_match; done. }
  intros _. apply keeps_bind; [by apply keeps_pure|]. intros l'.
  destruct (mapM id _); by apply keeps_pure.
Qed.

Lemma keeps_runningVms_shutdown rv :
  keeps (λ l, runningVms l = rv) shutdownRunningVms.
Proof.
  unfold shutdownRunningVms.
  apply keeps_bind; [by intros l c H|]. intros _.
  apply keeps_bind; [by apply keeps_pure|]. intros l0 l c H.
  unfold asyncMapSettled. apply run_pool_keeps; [|done]. clear. intros pc r l H.
  unfold shutdown_resume, set_shutdownVm.
  destruct pc, r as [[]|]; simpl; try done; by destruct (shutdownVms (state l)).
Qed.

Lemma keeps_runningVms_unplug ref rv :
  keeps (λ l, runningVms l = rv) (unplugPbds ref).
Proof.
  unfold unplugPbds.
  apply keeps_bind; [by intros l c H|]. intros _.
  apply keeps_bind; [apply keeps_getField_refs|]. intros pbds l c H.
  unfold asyncMapSettled. apply run_pool_keeps; [|done]. clear.
  intros pc r l H. unfold unplug_resume, push_unpluggedPbd.
  destruct r as [v|e]; [|done]. destruct pc; [by destruct (truthy v)| |done].
  destruct v; try done. by destruct (unpluggedPbds (state l)).
Qed.

Lemma Forall_seen_running_app tr t vms :
  Forall (seen_running tr) vms → Forall (seen_running (tr ++ t)) vms.
Proof.
  intros H. eapply Forall_impl; [exact H|]. intros vm. apply seen_running_mono.
  intros x Hx. apply elem_of_app. by left.
Qed.

Lemma body_seen_running ref vmsToShutdown w sched o l c :
  enableMaintenanceMode_body ref vmsToShutdown no_locals (start w sched) = (o, l, c) →
  Forall (seen_running (c_trace c)) (runningVms l).
Proof.
  intros Hres. unfold enableMaintenanceMode_body in Hres.
  unfold bind at 1 in Hres.
  assert (H1 : Forall (seen_running (c_trace (beginMaintenance ref no_locals (start w sched)).2))
                 (runningVms (beginMaintenance ref no_locals (start w sched)).1.2)).
  { rewrite beginMaintenance_unfold. cbv zeta. rewrite perform_trace.
    destruct (exec (c_world (start w sched)) _).1 as [v|e]; [|by constructor].
    unfold scanRunningVms. unfold bind.
    match goal with |- context [discoverRunningVms ref ?l ?c] =>
      pose proof (discoverRunningVms_seen ref l c) as Hseen;
      destruct (discoverRunningVms ref l c) as [[[[]|e|] l0] c0]; cbn [fst snd] in Hseen |- *;
        try (apply Hseen; constructor)
    end.
    destruct (confined_resolveRunningVmUuids l0 c0) as (t & Ht & _).
    pose proof (keeps_runningVms_resolve (runningVms l0) l0 c0 eq_refl) as Hk.
    simpl in Hk. rewrite Ht, Hk. apply Forall_seen_running_app, Hseen. constructor. }
  destruct (beginMaintenance ref no_locals (start w sched)) as [[[us|e|] l1] c1];
    cbn [fst snd] in H1.
  2,3: by injection Hres as <- <- <-.
  unfold bind at 1 in Hres. unfold checkVmsToShutdown in Hres.
  case_decide; cbn [fst snd ret throw] in Hres.
  2: by injection Hres as <- <- <-.
  unfold bind at 1 in Hres.
  destruct (confined_shutdownRunningVms l1 c1) as (t3 & Ht3 & _).
  pose proof (keeps_runningVms_shutdown (runningVms l1) l1 c1 eq_refl) as Hk3.
  simpl in Hk3.
  destruct (shutdownRunningVms l1 c1) as [[o3 l3] c3]; cbn [fst snd] in Ht3, Hk3.
  assert (H3 : Forall (seen_running (c_trace c3)) (runningVms l3)).
  { rewrite Ht3, Hk3. by apply Forall_seen_running_app. }
  destruct o3 as [[]|e|].
  2,3: by injection Hres as <- <- <-.
  unfold bind at 1 in Hres.
  destruct (confined_unplugPbds ref l3 c3) as (t4 & Ht4 & _).
  pose proof (keeps_runningVms_unplug ref (runningVms l3) l3 c3 eq_refl) as Hk4.
  simpl in Hk4.
  destruct (unplugPbds ref l3 c3) as [[o4 l4] c4]; cbn [fst snd] in Ht4, Hk4.
  assert (H4 : Forall (seen_running (c_trace c4)) (runningVms l4)).
  { rewrite Ht4, Hk4. by apply Forall_seen_running_app. }
  destruct o4 as [[]|e|].
  2,3: by injection Hres as <- <- <-.
  unfold bind, locals, await in Hres. rewrite perform_trace in Hres.
  destruct (exec (c_world c4) _).1; injection Hres as <- <- <-; cbn [c_trace];
    by apply Forall_seen_running_app.
Qed.

(** C1, as amended: once the discovery has returned the uuids [us] of the
    running or paused VMs attached to the storage object, the check passes
    when every uuid of [us] is in [vmsToShutdown], whatever else
    [vmsToShutdown] holds; and when some uuid of [us] is missing from
    [vmsToShutdown], [enableMaintenanceMode] throws [IncorrectState] carrying
    [vmsToShutdown] and [us], having only read fields since the placeholder
    was written: the whole trace, which ends with the compensating removal of
    the key, holds no shutdown and no unplug. *)
Theorem omitted_running_vm_is_rejected ref vmsToShutdown w sched us l1 c1 :
  beginMaintenance ref no_locals (start w sched) = (Returned us, l1, c1) →
  let result := enableMaintenanceMode ref vmsToShutdown w sched in
  let remove := SR_remove_from_other_config ref OC_MAINTENANCE in
  discovered (c_trace c1) (runningVms l1) us ∧
  (Forall (λ u, u ∈ vmsToShutdown) us →
     checkVmsToShutdown vmsToShutdown us l1 c1 = (Returned tt, l1, c1)) ∧
  ((∃ u, u ∈ us ∧ u ∉ vmsToShutdown) →
     result.1 = Threw (IncorrectState vmsToShutdown us) ∧
     c_trace result.2 = c_trace c1 ++ [call_event remove (c_world c1)] ∧
     Forall (λ ev, disruptive (ev_call ev) = false) (c_trace result.2)).
Proof.
  intros H result remove. split; [by eapply beginMaintenance_discovered|]. split.
  - intros Hall. unfold checkVmsToShutdown. by rewrite decide_True.
  - intros (u & Hu & Hnot).
    destruct (beginMaintenance_returned _ _ _ _ _ _ H) as (v & reads & Hadd & Htr & Hs & Hd & _).
    assert (Hres : result =
      (Threw (IncorrectState vmsToShutdown us), (perform c1 remove).2)).
    { unfold result, enableMaintenanceMode, defer, enableMaintenanceMode_body.
      unfold bind at 1. rewrite H. unfold bind at 1. unfold checkVmsToShutdown.
      rewrite decide_False.
      - simpl. by rewrite Hd.
      - intros Hall. rewrite Forall_forall in Hall. by apply Hnot, Hall. }
    rewrite Hres, perform_trace. simpl. split_and!; [done..|].
    rewrite Htr. apply Forall_app. split; [|by repeat constructor].
    constructor; [done|].
    eapply Forall_impl; [by eapply steps_calls|].
    intros ev. apply getter_not_disruptive.
Qed.

(** C2: [enableMaintenanceMode] ends as its body does, with the same error
    when the body throws.  When the body throws after the placeholder was
    written, the calls made after the body are exactly the stack of [$defer],
    in order: a plug for each connection the body detached, most recent
    first; then a start for each VM the body shut down, most recent first,
    with the flag recorded at discovery (paused or not, as read from its power
    state); then the removal of the key.  All of them are made whatever their
    own outcome.  When the body throws at the placeholder write, returns, or
    is still pending, nothing more is called. *)
Theorem failure_runs_compensations_in_reverse ref vmsToShutdown w sched :
  let add := SR_add_to_other_config ref OC_MAINTENANCE (placeholder (now w)) in
  let remove := SR_remove_from_other_config ref OC_MAINTENANCE in
  let body := enableMaintenanceMode_body ref vmsToShutdown no_locals (start w sched) in
  let result := enableMaintenanceMode ref vmsToShutdown w sched in
  result.1 = body.1.1 ∧
  Forall (seen_running (c_trace body.2)) (runningVms body.1.2) ∧
  (∀ e, body.1.1 = Threw e → is_Reply (exec w add).1 = true →
     ∃ starts,
       starts.*1 = rev (halted (c_trace body.2)) ∧
       starts ⊆ runningVms body.1.2 ∧
       deferreds body.1.2 =
         (PBD_plug <$> rev (unplugged (c_trace body.2))) ++
         ((λ vm, VM_start vm.1 vm.2 true) <$> starts) ++ [remove] ∧
       ev_call <$> c_trace result.2 = (ev_call <$> c_trace body.2) ++ deferreds body.1.2) ∧
  (∀ e, body.1.1 = Threw e → is_Reply (exec w add).1 = false → result.2 = body.2) ∧
  (body.1.1 = Returned tt ∨ body.1.1 = Pending → result.2 = body.2).
Proof.
  intros add remove body result.
  destruct body as [[o l] c] eqn:Hbody. unfold body in Hbody.
  pose proof (body_undoable _ _ _ _ _ _ _ Hbody) as (starts & Hd & Hs & Hsub).
  fold add in Hd. unfold compensations in Hd.
  assert (Hres : result = match o with
                          | Threw e => (Threw e, executeDeferreds compensate (deferreds l) c)
                          | _ => (o, c)
                          end).
  { unfold result, enableMaintenanceMode, defer. rewrite Hbody. by destruct o. }
  cbn [fst snd]. rewrite Hres. split_and!.
  - by destruct o.
  - by eapply body_seen_running.
  - intros e -> Hadd. rewrite Hadd in Hd. exists starts. cbn [fst snd].
    split_and!; [done..|]. apply executeDeferreds_calls.
  - intros e -> Hadd. cbn [fst snd].
    destruct (beginMaintenance_spec ref w sched) as (reads & _ & _ & _ & Hd0 & Hfail).
    fold add in Hd0, Hfail. rewrite Hadd in Hd0.
    destruct (exec w add).1 as [v|e'] eqn:E; [done|].
    destruct (Hfail e' eq_refl) as [Hthrew _].
    unfold enableMaintenanceMode_body in Hbody. unfold bind at 1 in Hbody.
    destruct (beginMaintenance ref no_locals (start w sched)) as [[o1 l1] c1].
    cbn [fst snd] in Hthrew, Hd0. subst o1. injection Hbody as _ <- <-.
    by rewrite Hd0.
  - by intros [-> | ->].
Qed.

(** * Proofs: disk import *)

(** The size [importVdi] settles on when none is given. *)
(** C7: [importVdi] without [virtual_size].  For the VHD format the size is
    the [currentSize] of the peeked footer, and the import later receives
    every byte of the stream; otherwise it is the stream's [length], and the
    call throws an assertion error, before anything is created, when there is
    none.  The disk is created with exactly that size; nothing is streamed
    before it is created; and its destruction is registered before the
    content is streamed, since a failing import is followed by the
    destruction of the disk. *)
Theorem importVdi_sizes_then_creates_then_streams env ref s opts :
  o_virtual_size opts = None →
  let format := default VDI_FORMAT_VHD (o_format opts) in
  let name_label :=
    default ("[XO] Imported disk - " +:+ toISOString env) (o_name_label opts) in
  let peeked := if decide (format = VDI_FORMAT_VHD) then [PeekFooter (s_unread s)] else [] in
  let res := importVdi env ref s opts in
  match chosen_size env s opts with
  | None =>
      i_trace res.2 = peeked ∧ i_stream res.2 = s ∧
      (format ≠ VDI_FORMAT_VHD → res.1 = Threw AssertionError) ∧
      (∃ e, res.1 = Threw e)
  | Some size =>
      match create_error env, import_error env with
      | Some e, _ =>
          res.1 = Threw e ∧ i_stream res.2 = s ∧
          i_trace res.2 = peeked ++ [VdiCreate ref name_label size true]
      | None, None =>
          res.1 = Returned (created_ref env) ∧
          i_trace res.2 =
            peeked ++ [VdiCreate ref name_label size false;
                       VdiImportContent (created_ref env) (s_unread s) format false]
      | None, Some e =>
          res.1 = Threw e ∧
          i_trace res.2 =
            peeked ++ [VdiCreate ref name_label size false;
                       VdiImportContent (created_ref env) (s_unread s) format true;
                       VdiDestroy (created_ref env)]
      end
  end.
Proof.
  intros Hsize format name_label peeked res.
  unfold res, importVdi, importVdi_body, chosen_size, peeked.
  rewrite Hsize. fold format name_label.
  unfold ibind, peekFooterFromStream, stream_length, VDI_create, onFailure_destroy,
    VDI_importContent, iret, ithrow.
  destruct (decide (format = VDI_FORMAT_VHD)) as [Hf|Hf]; simpl.
  - destruct (parse_footer env (s_unread s)) as [f|]; simpl.
    + destruct (create_error env), (import_error env); simpl; done.
    + split_and!; [done..|]. eauto.
  - destruct (s_length s) as [n|] eqn:E; simpl.
    + destruct (create_error env), (import_error env); simpl; done.
    + split_and!; [done..|]. eauto.
Qed.

(** * The properties on concrete pools *)

(** Membership in a list of strings, by computation. *)
Lemma one_string_in (x : string) (l : list string) : bool_decide (x ∈ l) = true → x ∈ l.
Proof. apply bool_decide_eq_true_1. Qed.

Lemma one_string_out (x : string) (l : list string) : bool_decide (x ∈ l) = false → x ∉ l.
Proof. apply bool_decide_eq_false_1. Qed.

Lemma omitted_running_vm_is_rejected_witness :
  let begun := beginMaintenance "sr0" no_locals (start (pool0 no_fault) interleaved) in
  begun = (Returned ["uuid-A"; "uuid-C"], begun.1.2, begun.2) ∧
  (∃ u, u ∈ ["uuid-A"; "uuid-C"] ∧ u ∉ ["uuid-A"]) ∧
  (enableMaintenanceMode "sr0" ["uuid-A"] (pool0 no_fault) interleaved).1 =
    Threw (IncorrectState ["uuid-A"] ["uuid-A"; "uuid-C"]).
Proof.
  intros begun.
  assert (H : begun = (Returned ["uuid-A"; "uuid-C"], begun.1.2, begun.2))
    by (vm_compute; reflexivity).
  assert (Hu : ∃ u, u ∈ ["uuid-A"; "uuid-C"] ∧ u ∉ ["uuid-A"]).
  { exists "uuid-C". split; [apply one_string_in|apply one_string_out];
      vm_compute; reflexivity. }
  split_and!; [exact H|exact Hu|].
  exact (proj1 (proj2 (proj2 (omitted_running_vm_is_rejected
                         "sr0" ["uuid-A"] (pool0 no_fault) interleaved _ _ _ H)) Hu)).
Defined.

(** C1 as stated fails: the discovery finds the running VMs [uuid-A] and
    [uuid-C]; [vmsToShutdown] also names [uuid-Z], which is not one of them,
    and [enableMaintenanceMode] returns normally instead of throwing
    [IncorrectState]. *)
Lemma extra_uuid_is_accepted :
  let vmsToShutdown := ["uuid-A"; "uuid-C"; "uuid-Z"] in
  (beginMaintenance "sr0" no_locals (start (pool0 no_fault) interleaved)).1.1 =
    Returned ["uuid-A"; "uuid-C"] ∧
  "uuid-Z" ∈ vmsToShutdown ∧ ("uuid-Z" ∉ ["uuid-A"; "uuid-C"]) ∧
  (enableMaintenanceMode "sr0" vmsToShutdown (pool0 no_fault) interleaved).1 = Returned tt.
Proof.
  split_and!; [vm_compute; reflexivity|apply one_string_in|apply one_string_out|];
    vm_compute; reflexivity.
Qed.

Lemma failure_runs_compensations_in_reverse_witness :
  let vmsToShutdown := ["uuid-A"; "uuid-C"] in
  let body := enableMaintenanceMode_body "sr0" vmsToShutdown no_locals
                (start (pool0 unplug_fails) interleaved) in
  let result := enableMaintenanceMode "sr0" vmsToShutdown (pool0 unplug_fails) interleaved in
  body.1.1 = Threw boom ∧
  result.1 = Threw boom ∧
  ev_call <$> c_trace result.2 =
    (ev_call <$> c_trace body.2) ++
    [VM_start "vmC" true true; VM_start "vmA" false true;
     SR_remove_from_other_config "sr0" OC_MAINTENANCE].
Proof.
  intros vmsToShutdown body result.
  destruct (failure_runs_compensations_in_reverse
              "sr0" vmsToShutdown (pool0 unplug_fails) interleaved)
    as (Hsame & _ & Hfail & _).
  assert (Hbody : body.1.1 = Threw boom) by (vm_compute; reflexivity).
  destruct (Hfail boom Hbody ltac:(vm_compute; reflexivity)) as (starts & _ & _ & _ & Hcalls).
  assert (Hd : deferreds body.1.2 =
               [VM_start "vmC" true true; VM_start "vmA" false true;
                SR_remove_from_other_config "sr0" OC_MAINTENANCE])
    by (vm_compute; reflexivity).
  fold body in Hcalls. rewrite Hd in Hcalls.
  split_and!; [exact Hbody| |exact Hcalls].
  fold result body in Hsame. by rewrite Hsame.
Defined.


Lemma watched_task_settles_once_witness :
  reachable watching_task ∧
  _taskWatchers watching_task !! o_ref failed_task = Some 0 ∧
  promise_state (notify watching_task failed_task) 0 =
    Some (Rejected {| e_message := "VM_BAD_POWER_STATE";
                      e_code := Some "VM_BAD_POWER_STATE";
                      e_params := ["OpaqueRef:vm"; "halted"; "running"] |}) ∧
  _taskWatchers (notify watching_task failed_task) !! o_ref failed_task = None.
Proof.
  assert (R : reachable watching_task) by (apply reach_serve, reach_fresh).
  assert (W : _taskWatchers watching_task !! o_ref failed_task = Some 0)
    by (vm_compute; reflexivity).
  destruct (watched_task_settles_once watching_task failed_task 0 R W)
    as (_ & _ & Hfailure & _).
  split_and!; [exact R|exact W|exact (proj1 (Hfailure eq_refl))|exact (proj2 (Hfailure eq_refl))].
Defined.

Lemma notification_resolves_id_and_ref_watch_witness :
  reachable watching_vm_twice ∧
  o_id new_vm ≠ o_ref new_vm ∧
  _objectWatchers watching_vm_twice !! o_id new_vm = Some 0 ∧
  _objectWatchers watching_vm_twice !! o_ref new_vm = Some 1 ∧
  promise_state (notify watching_vm_twice new_vm) 0 = Some (Fulfilled (VObject new_vm)) ∧
  promise_state (notify watching_vm_twice new_vm) 1 = Some (Fulfilled (VObject new_vm)).
Proof.
  assert (R : reachable watching_vm_twice) by (apply reach_serve, reach_serve, reach_fresh).
  assert (N : o_id new_vm ≠ o_ref new_vm) by discriminate.
  assert (W0 : _objectWatchers watching_vm_twice !! o_id new_vm = Some 0)
    by (vm_compute; reflexivity).
  assert (W1 : _objectWatchers watching_vm_twice !! o_ref new_vm = Some 1)
    by (vm_compute; reflexivity).
  destruct (notification_resolves_id_and_ref_watch watching_vm_twice new_vm 0 1 R N W0 W1)
    as (_ & _ & _ & H0 & H1 & _).
  split_and!; [exact R|exact N|exact W0|exact W1|exact H0|exact H1].
Defined.

Lemma object_watch_never_rejected_witness :
  reachable fresh_xapi ∧
  ∀ e, (0, Rejected e) ∉
       settle_log (fold_left serve
                     [WatchTask (ARef "OpaqueRef:task"); Notification [failed_task]]
                     (_waitObject "OpaqueRef:task" fresh_xapi).2).
Proof.
  split; [exact reach_fresh|].
  exact (proj1 (object_watch_never_rejected fresh_xapi "OpaqueRef:task"
                  [WatchTask (ARef "OpaqueRef:task"); Notification [failed_task]]
                  reach_fresh)).
Defined.

Lemma enable_twice_conflicts_witness :
  SRs (maintained no_fault) !! "sr0" = Some sr0_maintained ∧
  sr_other_config sr0_maintained !! OC_MAINTENANCE = Some recorded ∧
  (enableMaintenanceMode "sr0" ["uuid-A"] (maintained no_fault) in_order).1 =
    Threw (XapiError "MAP_DUPLICATE_KEY" ["SR"; "other_config"; "sr0"; OC_MAINTENANCE]).
Proof.
  assert (H1 : SRs (maintained no_fault) !! "sr0" = Some sr0_maintained)
    by (vm_compute; reflexivity).
  assert (H2 : sr_other_config sr0_maintained !! OC_MAINTENANCE = Some recorded)
    by (vm_compute; reflexivity).
  destruct (enable_twice_conflicts "sr0" ["uuid-A"] (maintained no_fault) in_order
              sr0_maintained recorded H1 H2) as (e & Hrun & Hcode & _).
  split_and!; [exact H1|exact H2|].
  rewrite Hrun. simpl. f_equal. exact (Hcode eq_refl).
Defined.

Lemma importVdi_sizes_then_creates_then_streams_witness :
  o_virtual_size default_opts = None ∧
  (importVdi import_fails "sr0" vhd_upload default_opts).1 = Threw boom ∧
  i_trace (importVdi import_fails "sr0" vhd_upload default_opts).2 =
    [PeekFooter (s_unread vhd_upload);
     VdiCreate "sr0" "[XO] Imported disk - 2024-01-01T00:00:00.000Z" 4096 false;
     VdiImportContent "OpaqueRef:vdi" (s_unread vhd_upload) "vhd" true;
     VdiDestroy "OpaqueRef:vdi"].
Proof.
  pose proof (importVdi_sizes_then_creates_then_streams
                import_fails "sr0" vhd_upload default_opts eq_refl) as H.
  split_and!; [reflexivity|exact (proj1 H)|exact (proj2 H)].
Defined.

(** C8 as stated fails: [vmA] is shut down, then the shutdown of [vmC]
    fails.  When the body throws, [vmA] is halted and the record on the
    storage object is still the placeholder, which lists no VM; once the
    compensation has run the record is gone. *)
Lemma remote_record_not_updated_per_shutdown :
  let vmsToShutdown := ["uuid-A"; "uuid-C"] in
  let body := enableMaintenanceMode_body "sr0" vmsToShutdown no_locals
                (start (pool0 vmC_stays_up) interleaved) in
  let result := enableMaintenanceMode "sr0" vmsToShutdown (pool0 vmC_stays_up)
                  interleaved in
  body.1.1 = Threw boom ∧
  halted (c_trace body.2) = ["vmA"] ∧
  vm_power_state <$> VMs (c_world body.2) !! "vmA" = Some Halted ∧
  maintenance_record (c_world body.2) "sr0" = Some (placeholder 100) ∧
  shutdownVms (placeholder 100) = None ∧
  maintenance_record (c_world result.2) "sr0" = None.
Proof. vm_compute. repeat split. Qed.

Lemma one_pending_watch_per_key_witness :
  _objectWatchers watching_vm_twice !! "vm-uuid" = Some 0 ∧
  _waitObject "vm-uuid" watching_vm_twice = (0, watching_vm_twice) ∧
  promise_state watching_vm_twice 0 = None.
Proof.
  assert (W : _objectWatchers watching_vm_twice !! "vm-uuid" = Some 0)
    by (vm_compute; reflexivity).
  assert (R : reachable watching_vm_twice) by (apply reach_serve, reach_serve, reach_fresh).
  destruct (one_pending_watch_per_key "vm-uuid" (ARef "OpaqueRef:task") watching_vm_twice)
    as (Hshared & _ & Hpending & _).
  split_and!; [exact W|exact (Hshared _ _ W)|exact (Hpending _ "vm-uuid" _ R (or_introl W))].
Defined.

Lemma typeToNamespace_from (l : list string) (m : gmap string string) type namespace :
  fold_left (λ m namespace, <[toLowerCase namespace := namespace]> m) l m !! type
    = Some namespace →
  m !! type = Some namespace ∨ (namespace ∈ l ∧ toLowerCase namespace = type).
Proof.
  revert m. induction l as [|ns l IH]; intros m; simpl; [by left|].
  intros H. apply IH in H as [H|[H1 H2]].
  - rewrite lookup_insert in H. case_decide.
    + injection H as <-. right. split; [left|done].
    + by left.
  - right. split; [by right|done].
Qed.

(** X1: [getNamespaceForType] maps the lower-case form of every listed
    namespace back to the namespace; it returns its argument unchanged unless
    the argument is such a lower-case form; and it is idempotent. *)
Theorem getNamespaceForType_restores_casing :
  (∀ namespace, namespace ∈ namespaces →
     getNamespaceForType (toLowerCase namespace) = namespace) ∧
  (∀ type, getNamespaceForType type = type ∨
           (getNamespaceForType type ∈ namespaces ∧
            toLowerCase (getNamespaceForType type) = type)) ∧
  (∀ type, getNamespaceForType (getNamespaceForType type) = getNamespaceForType type).
Proof.
  assert (Hback : Forall (λ ns, getNamespaceForType (toLowerCase ns) = ns) namespaces).
  { by apply (bool_decide_unpack _); vm_compute. }
  assert (Hfix : Forall (λ ns, getNamespaceForType ns = ns) namespaces).
  { by apply (bool_decide_unpack _); vm_compute. }
  assert (Hcases : ∀ type, getNamespaceForType type = type ∨
            (getNamespaceForType type ∈ namespaces ∧
             toLowerCase (getNamespaceForType type) = type)).
  { intros type. unfold getNamespaceForType.
    destruct (typeToNamespace !! type) as [ns|] eqn:E; [|left; reflexivity].
    destruct (decide (ns = "")); [left; reflexivity|]. right.
    apply typeToNamespace_from in E as [E|E]; [by rewrite lookup_empty in E|exact E]. }
  split; [|split].
  - intros ns Hns. exact (proj1 (Forall_forall _ _) Hback ns Hns).
  - exact Hcases.
  - intros type. destruct (Hcases type) as [E|[Hin _]]; [by rewrite !E|].
    exact (proj1 (Forall_forall _ _) Hfix _ Hin).
Qed.

Lemma fold_pushInstallable_threw installed all e :
  fold_left (pushInstallable installed) all (Threw e) = Threw e.
Proof. by induction all. Qed.

Lemma fold_pushInstallable installed all acc :
  (Exists (dangling installed) all →
     fold_left (pushInstallable installed) all (Returned acc) = Threw TypeError) ∧
  (¬ Exists (dangling installed) all →
     fold_left (pushInstallable installed) all (Returned acc) =
       Returned (acc ++ omap (installable_on installed) all)).
Proof.
  revert acc. induction all as [|[uuid patch] all IH]; intros acc.
  { split; [by intros H; inversion H|]. intros _. by rewrite app_nil_r. }
  simpl. unfold installable_on, dangling. simpl.
  destruct (decide (uuid ∈ installed)) as [Hin|Hout].
  - split.
    + intros H. apply Exists_cons in H as [[H _]|H]; [done|]. by apply IH.
    + intros H. apply IH. intros H'. apply H. by right.
  - destruct patch as [patch|].
    + destruct (decide (Exists _ _)).
      * split.
        -- intros H. apply Exists_cons in H as [[_ H]|H]; [done|]. by apply IH.
        -- intros H. apply IH. intros H'. apply H. by right.
      * split.
        -- intros H. apply Exists_cons in H as [[_ H]|H]; [done|]. by apply IH.
        -- intros H. rewrite (proj2 (IH _)); [by rewrite <- app_assoc|].
           intros H'. apply H. by right.
    + split; [intros _; apply fold_pushInstallable_threw|].
      intros H. exfalso. apply H. by left.
Qed.

Lemma installed_uuids (ps : list (option string)) uuids uuid :
  mapM id ps = Some uuids → uuid ∈ (list_to_set uuids : gset string) ↔ Some uuid ∈ ps.
Proof.
  intros H. apply mapM_Some in H. rewrite elem_of_list_to_set.
  induction H as [|o u ps us Ho H IH]; [by rewrite !elem_of_nil|].
  simpl in Ho. subst o. rewrite !elem_of_cons, IH.
  split; (intros [E|?]; [left|by right]); congruence.
Qed.

Lemma own_entries_Permutation {A} (object : list (string * A)) :
  own_entries object ≡ₚ object.
Proof.
  unfold own_entries. rewrite merge_sort_Permutation.
  induction object as [|entry object IH]; [done|]. csimpl.
  rewrite filter_cons. unfold index_entry at 1.
  destruct (array_index entry.1) as [n|] eqn:E; csimpl.
  - by rewrite IH.
  - rewrite <- Permutation_middle. by rewrite IH.
Qed.

Lemma own_entries_named {A} (object : list (string * A)) :
  Forall (λ entry, array_index entry.1 = None) object → own_entries object = object.
Proof.
  intros H. unfold own_entries.
  assert (E : omap index_entry object = []).
  { induction H as [|entry object He _ IH]; [done|]. csimpl.
    unfold index_entry at 1. by rewrite He. }
  rewrite E. simpl. clear E.
  induction H as [|entry object He _ IH]; [done|].
  rewrite filter_cons, decide_True by done. by rewrite IH.
Qed.

Lemma listMissing_returned versions host installable :
  listMissingPoolPatchesOnHost versions host = Returned installable →
  ∃ all uuids,
    versions !! product_version host = Some all ∧
    mapM id (host_patches host) = Some uuids ∧
    installable = omap (installable_on (list_to_set uuids)) (own_entries all).
Proof.
  unfold listMissingPoolPatchesOnHost.
  destruct (versions !! product_version host) as [all|]; [|done].
  destruct (mapM id (host_patches host)) as [uuids|]; [|done].
  intros H. exists all, uuids. split_and!; try done.
  destruct (decide (Exists (dangling (list_to_set uuids)) (own_entries all))) as [Hd|Hd].
  - by rewrite (proj1 (fold_pushInstallable _ _ _) Hd) in H.
  - rewrite (proj2 (fold_pushInstallable _ _ _) Hd) in H. by injection H as <-.
Qed.

Lemma elem_of_installable installed (all : list (string * option patch_info)) patch :
  patch ∈ omap (installable_on installed) all ↔
  ∃ uuid, (uuid, Some patch) ∈ all ∧ (uuid ∉ installed) ∧
          ∀ c, c ∈ pi_conflicts patch → c ∉ installed.
Proof.
  rewrite list_elem_of_omap. unfold installable_on. split.
  - intros [[uuid o] [Hin H]]. simpl in H.
    destruct (decide (uuid ∈ installed)); [done|].
    destruct o as [p|]; [|done].
    destruct (decide (Exists _ _)) as [|Hno]; [done|]. injection H as ->.
    exists uuid. split_and!; try done.
    intros c Hc Hc'. apply Hno, Exists_exists. eauto.
  - intros (uuid & Hin & Hout & Hc). exists (uuid, Some patch). split; [done|]. simpl.
    rewrite decide_False by done.
    rewrite decide_False; [done|].
    intros (c & H1 & H2)%Exists_exists. by apply (Hc c).
Qed.

(** X2: when [listMissingPoolPatchesOnHost] returns, it returns exactly the
    patches of the host's version that are not installed on the host and have
    no conflict installed on the host, in the order in which the patches
    object of the version is enumerated: the uuids that are array indices
    first, in ascending order, then the others as the version lists them.
    When no uuid of the version is an array index, this is the order of the
    version's list. *)
Theorem missing_patches_are_installable versions host installable :
  listMissingPoolPatchesOnHost versions host = Returned installable →
  ∃ all,
    versions !! product_version host = Some all ∧
    installable `sublist_of` omap snd (own_entries all) ∧
    (Forall (λ entry, array_index entry.1 = None) all →
       installable `sublist_of` omap snd all) ∧
    ∀ patch, patch ∈ installable ↔
      ∃ uuid, (uuid, Some patch) ∈ all ∧
              (Some uuid ∉ host_patches host) ∧
              ∀ c, c ∈ pi_conflicts patch → Some c ∉ host_patches host.
Proof.
  intros (all & uuids & Hall & Hu & ->)%listMissing_returned.
  assert (Hsub : ∀ entries : list (string * option patch_info),
            omap (installable_on (list_to_set uuids)) entries `sublist_of` omap snd entries).
  { clear. induction entries as [|[uuid o] entries IH]; [constructor|]. csimpl.
    unfold installable_on at 1. simpl.
    destruct (decide _); [destruct o; [by apply sublist_cons|done]|].
    destruct o as [p|]; [|done].
    destruct (decide _); [by apply sublist_cons|by apply sublist_skip]. }
  exists all. split_and!; [done|apply Hsub| |].
  - intros Hnamed. rewrite (own_entries_named _ Hnamed). apply Hsub.
  - intros patch. rewrite elem_of_installable.
    split; intros (uuid & H1 & H2 & H3); exists uuid; split_and!; try done.
    + by rewrite <- (own_entries_Permutation all).
    + by rewrite <- (installed_uuids _ _ _ Hu).
    + intros c Hc. rewrite <- (installed_uuids _ _ _ Hu). by apply H3.
    + by rewrite (own_entries_Permutation all).
    + by rewrite (installed_uuids _ _ _ Hu).
    + intros c Hc. rewrite (installed_uuids _ _ _ Hu). by apply H3.
Qed.

(** X3: installing more patches on a host never makes
    [listMissingPoolPatchesOnHost] propose a patch it did not propose
    before. *)
Theorem missing_patches_shrink versions host host' installable installable' :
  product_version host' = product_version host →
  host_patches host ⊆ host_patches host' →
  listMissingPoolPatchesOnHost versions host = Returned installable →
  listMissingPoolPatchesOnHost versions host' = Returned installable' →
  installable' ⊆ installable.
Proof.
  intros Hv Hsub (all & uuids & Hall & Hu & ->)%listMissing_returned
    (all' & uuids' & Hall' & Hu' & ->)%listMissing_returned.
  rewrite Hv, Hall in Hall'. injection Hall' as <-.
  intros patch. rewrite !elem_of_installable.
  intros (uuid & H1 & H2 & H3). exists uuid. split_and!; [done|..].
  - rewrite (installed_uuids _ _ _ Hu). rewrite (installed_uuids _ _ _ Hu') in H2.
    intros H. by apply H2, Hsub.
  - intros c Hc. specialize (H3 c Hc).
    rewrite (installed_uuids _ _ _ Hu). rewrite (installed_uuids _ _ _ Hu') in H3.
    intros H. by apply H3, Hsub.
Qed.

Lemma resolveVersionPatches_entries patches uuids uuid o :
  (uuid, o) ∈ resolveVersionPatches patches uuids ↔ uuid ∈ uuids ∧ o = patches !! uuid.
Proof.
  unfold resolveVersionPatches.
  assert (Hgen : ∀ acc,
    (∀ u p, (u, p) ∈ acc → p = patches !! u) →
    (∀ u p, (u, p) ∈ fold_left (λ vp u, assoc_set u (patches !! u) vp) uuids acc →
            p = patches !! u) ∧
    (∀ u, u ∈ (fold_left (λ vp u, assoc_set u (patches !! u) vp) uuids acc).*1 ↔
          u ∈ uuids ∨ u ∈ acc.*1)).
  { induction uuids as [|u0 uuids IH]; intros acc Hacc; simpl.
    - split; [done|]. intros u. rewrite elem_of_nil. tauto.
    - destruct (IH (assoc_set u0 (patches !! u0) acc)) as [IH1 IH2].
      { intros u p [[= -> ->]|H]%assoc_set_elem; [done|eauto]. }
      split; [done|]. intros u. rewrite IH2, elem_of_cons.
      pose proof (assoc_set_keys u0 (patches !! u0) acc) as [Hk1 Hk2].
      split.
      + intros [H|H]; [tauto|].
        apply list_elem_of_fmap in H as [[u' p] [-> H]].
        apply assoc_set_elem in H as [[= -> ->]|H]; [tauto|].
        right. apply list_elem_of_fmap. by exists (u', p).
      + intros [[->|H]|H]; [by right|by left|]. right. by apply Hk2. }
  destruct (Hgen []) as [H1 H2]; [by intros ?? ?%elem_of_nil|].
  split.
  - intros H. split; [|by apply (H1 _ _ H)].
    destruct (proj1 (H2 uuid)) as [Hin|Hin]; [|done|by apply elem_of_nil in Hin].
    apply list_elem_of_fmap. by exists (uuid, o).
  - intros [Hin ->].
    pose proof (proj2 (H2 uuid) (or_introl Hin)) as H.
    apply list_elem_of_fmap in H as [[u p] [-> H]].
    simpl. by rewrite <- (H1 _ _ H).
Qed.

(** X4: with the versions as [_getXenUpdates] builds them,
    [listMissingPoolPatchesOnHost] throws a type error exactly when the
    host's version is unknown, a pool patch of the host is not resolved, or
    the version lists a patch that is neither installed nor described in
    [patches]; it returns otherwise. *)
Theorem missing_patches_type_error patches (listed : gmap string (list string)) host :
  let versions := resolveVersionPatches patches <$> listed in
  let result := listMissingPoolPatchesOnHost versions host in
  (result = Threw TypeError ∨ ∃ installable, result = Returned installable) ∧
  (result = Threw TypeError ↔
     listed !! product_version host = None ∨
     None ∈ host_patches host ∨
     ∃ uuids uuid, listed !! product_version host = Some uuids ∧ uuid ∈ uuids ∧
                   (Some uuid ∉ host_patches host) ∧ patches !! uuid = None).
Proof.
  intros versions result. subst versions result. unfold listMissingPoolPatchesOnHost.
  rewrite lookup_fmap.
  destruct (listed !! product_version host) as [uuids|] eqn:El; simpl; [|naive_solver].
  destruct (mapM id (host_patches host)) as [us|] eqn:Eu.
  - assert (Hnone : None ∉ host_patches host).
    { apply mapM_Some in Eu. clear -Eu. induction Eu as [|o u ps us' Ho H IH].
      - by intros ?%elem_of_nil.
      - simpl in Ho. subst. intros [?|?]%elem_of_cons; [done|by apply IH]. }
    set (all := resolveVersionPatches patches uuids).
    destruct (decide (Exists (dangling (list_to_set us)) (own_entries all))) as [Hd|Hd].
    + rewrite (proj1 (fold_pushInstallable _ _ _) Hd).
      split; [by left|]. split; [|done]. intros _. right. right.
      apply Exists_exists in Hd as ([uuid o] & Hin & Hout & Ho). simpl in *. subst o.
      rewrite (own_entries_Permutation all) in Hin.
      apply resolveVersionPatches_entries in Hin as [Hin Hp].
      exists uuids, uuid. split_and!; try done.
      by rewrite <- (installed_uuids _ _ _ Eu).
    + rewrite (proj2 (fold_pushInstallable _ _ _) Hd).
      split; [right; eauto|]. split; [done|].
      intros [?|[?|(uuids' & uuid & [= <-] & Hin & Hout & Hp)]]; [done..|].
      exfalso. apply Hd, Exists_exists. exists (uuid, None). split.
      * rewrite (own_entries_Permutation all).
        apply resolveVersionPatches_entries. by rewrite Hp.
      * split; [|done]. simpl. by rewrite (installed_uuids _ _ _ Eu).
  - split; [by left|]. split; [|done]. intros _. right. left.
    clear -Eu. induction (host_patches host) as [|o ps IH]; [done|].
    destruct o as [u|]; [|by left]. right. apply IH.
    simpl in Eu. destruct (mapM id ps); [done|done].
Qed.

Lemma all_of_resolved (promises : list (settled unit)) :
  Forall (λ p, is_resolved p ∨ p = Unsettled) promises →
  all_of promises = if decide (Forall (λ p, is_resolved p) promises)
                    then Resolves tt else Unsettled.
Proof.
  intros H. unfold all_of.
  assert (E : omap (λ p : settled unit, match p with Rejects t => Some t | _ => None end)
                promises = []).
  { induction H as [|p ps Hp _ IH]; [done|]. csimpl.
    destruct p as [a|t|]; [done| |done]. by destruct Hp. }
  by rewrite E.
Qed.

(** The disk destructions of [deleteVm] after the calls of [issued]: one
    call for each disk found in the cache; no element of the mapped array
    rejects, and all are resolved exactly when every reply has arrived. *)
Lemma deleteDisk_calls getObject respond arrival vbds promises issued :
  let result := fold_left (deleteDisk getObject respond arrival) vbds (promises, issued) in
  let disks := omap (disk_destruction getObject) vbds in
  result.2 = issued ++ disks ∧
  (Forall (λ p, is_resolved p ∨ p = Unsettled) promises →
   Forall (λ p, is_resolved p ∨ p = Unsettled) result.1) ∧
  (Forall (λ p, is_resolved p) result.1 ↔
   Forall (λ p, is_resolved p) promises ∧
   Forall (λ i, i ∈ arrival) (seq (length issued) (length disks))).
Proof.
  revert promises issued. induction vbds as [|vbd vbds IH]; intros promises issued; csimpl.
  { rewrite app_nil_r. split_and!; [done..|]. rewrite Forall_nil. tauto. }
  destruct vbd as [vdiId|]; simpl.
  - unfold _deleteVdi. destruct (getObject vdiId) as [vdi|] eqn:Evdi; simpl.
    + destruct (IH (promises ++
                      [catch_noop (then_undefined
                         (call respond arrival "VDI.destroy"
                            [AString (obj_ref vdi)] issued).1)])
                   (issued ++ [{| x_method := "VDI.destroy";
                                  x_params := [AString (obj_ref vdi)] |}]))
        as (IH1 & IH2 & IH3).
      unfold call in *. cbn [fst snd] in *. split_and!.
      * by rewrite IH1, <- app_assoc.
      * intros Hp. apply IH2, Forall_app. split; [done|]. apply Forall_singleton.
        case_decide; [|by right]. destruct (respond _ _); by left.
      * rewrite IH3, Forall_app, Forall_singleton, Forall_cons, length_app. simpl.
        rewrite Nat.add_1_r.
        assert (Hone : is_resolved (catch_noop (then_undefined
                  (if decide (length issued ∈ arrival)
                   then match respond (length issued)
                                {| x_method := "VDI.destroy";
                                   x_params := [AString (obj_ref vdi)] |} with
                        | Reply v => Resolves v
                        | Raise e => Rejects (CallFailed e)
                        end
                   else Unsettled))) ↔ length issued ∈ arrival).
        { case_decide; [by destruct (respond _ _)|]. simpl. tauto. }
        rewrite Hone. tauto.
    + destruct (IH (promises ++ [Resolves tt]) issued) as (IH1 & IH2 & IH3).
      split_and!; [done| |].
      * intros Hp. apply IH2, Forall_app. split; [done|]. apply Forall_singleton. by left.
      * rewrite IH3, Forall_app, Forall_singleton. cbn [is_resolved Is_true]. tauto.
  - destruct (IH (promises ++ [Resolves tt]) issued) as (IH1 & IH2 & IH3).
    split_and!; [done| |].
    + intros Hp. apply IH2, Forall_app. split; [done|]. apply Forall_singleton. by left.
    + rewrite IH3, Forall_app, Forall_singleton. cbn [is_resolved Is_true]. tauto.
Qed.

(** X5: [deleteVm] rejects a running or paused VM before any call.
    Otherwise it issues one [VDI.destroy] for each disk found in the cache
    when [deleteDisks] is set, and none otherwise; it stays unsettled, with
    no further call, until every disk destruction has been answered; it then
    issues [VM.destroy], once and as its last call, whatever the answers
    were, and when that reply arrives it resolves with [undefined] or rejects
    with the error of [VM.destroy]. *)
Theorem deleteVm_destroys_vm_last getObject respond arrival vmId deleteDisks vm :
  getObject vmId = Some vm →
  let result := deleteVm getObject respond arrival vmId deleteDisks in
  let destroy_vm := {| x_method := "VM.destroy"; x_params := [AString (obj_ref vm)] |} in
  (isVmRunning vm = true →
     result = (Rejects (JsError "running VMs cannot be deleted"), [])) ∧
  (isVmRunning vm = false →
     ∃ disks,
       Forall (λ c, x_method c = "VDI.destroy") disks ∧
       (deleteDisks = false → disks = []) ∧
       (deleteDisks = true →
          disks = omap (disk_destruction getObject) (obj_VBDs vm)) ∧
       (¬ Forall (λ i, i ∈ arrival) (seq 0 (length disks)) →
          result = (Unsettled, disks)) ∧
       (Forall (λ i, i ∈ arrival) (seq 0 (length disks)) →
          result.2 = disks ++ [destroy_vm] ∧
          result.1 = if decide (length disks ∈ arrival)
                     then match respond (length disks) destroy_vm with
                          | Reply _ => Resolves tt
                          | Raise e => Rejects (CallFailed e)
                          end
                     else Unsettled)).
Proof.
  intros Hvm result destroy_vm. subst result. unfold deleteVm. rewrite Hvm.
  split; intros Hrun; rewrite Hrun; [done|].
  set (disks := if deleteDisks then omap (disk_destruction getObject) (obj_VBDs vm) else []).
  assert (Hdisks : ∃ promises,
    (if deleteDisks
     then fold_left (deleteDisk getObject respond arrival) (obj_VBDs vm) ([], [])
     else ([], [])) = (promises, disks) ∧
    Forall (λ p, is_resolved p ∨ p = Unsettled) promises ∧
    (Forall (λ p, is_resolved p) promises ↔
     Forall (λ i, i ∈ arrival) (seq 0 (length disks)))).
  { unfold disks. destruct deleteDisks.
    - pose proof (deleteDisk_calls getObject respond arrival (obj_VBDs vm) [] [])
        as (H1 & H2 & H3). cbv zeta in *.
      destruct (fold_left _ _ _) as [promises issued]. cbn [fst snd] in *.
      exists promises. rewrite H1. split_and!; [done|by apply H2|].
      rewrite H3. simpl. rewrite Forall_nil. tauto.
    - exists []. split_and!; [done|constructor|]. simpl. by rewrite !Forall_nil. }
  destruct Hdisks as (promises & -> & Hno & Hall).
  exists disks. split_and!.
  - unfold disks. destruct deleteDisks; [|constructor].
    apply Forall_forall. intros c (vbd & _ & Hc)%list_elem_of_omap.
    destruct vbd as [vdiId|]; [|done]. simpl in Hc.
    destruct (getObject vdiId); [|done]. simpl in Hc. by injection Hc as <-.
  - unfold disks. by intros ->.
  - unfold disks. by intros ->.
  - intros Hwait. rewrite (all_of_resolved _ Hno).
    rewrite decide_False; [done|]. by rewrite Hall.
  - intros Harrived. rewrite (all_of_resolved _ Hno).
    rewrite decide_True by (by rewrite Hall).
    unfold call. cbn [fst snd]. split; [done|].
    fold destroy_vm. case_decide; [|done]. by destruct (respond _ _).
Qed.

Lemma Promise_all_rejects replies arrival e :
  Promise_all replies arrival = Rejects (CallFailed e) → Raise e ∈ replies.
Proof.
  unfold Promise_all.
  destruct (head (omap (rejection replies) arrival)) as [e'|] eqn:E.
  - intros [= ->]. apply head_Some in E as [rest E].
    assert (He : e ∈ omap (rejection replies) arrival) by (rewrite E; left).
    apply list_elem_of_omap in He as (i & _ & Hi). unfold rejection in Hi.
    destruct (replies !! i) as [[v|e'']|] eqn:Ei; try done. injection Hi as ->.
    by apply list_elem_of_lookup_2 in Ei.
  - by case_decide.
Qed.

Lemma Promise_all_resolves replies arrival :
  Promise_all replies arrival = Resolves tt → ∀ e, Raise e ∉ replies.
Proof.
  unfold Promise_all.
  destruct (head (omap (rejection replies) arrival)) as [e'|] eqn:E; [done|].
  case_decide as Hall; [|done]. intros _ e Hin.
  apply list_elem_of_lookup in Hin as [i Hi].
  assert (i ∈ arrival) as Harr.
  { apply (proj1 (Forall_forall _ _) Hall), elem_of_seq.
    apply lookup_lt_Some in Hi. lia. }
  assert (e ∈ omap (rejection replies) arrival) as He.
  { apply list_elem_of_omap. exists i. split; [done|]. unfold rejection. by rewrite Hi. }
  destruct (omap (rejection replies) arrival); [by apply elem_of_nil in He|done].
Qed.

Lemma Promise_all_settles replies arrival :
  Forall (λ i, i ∈ arrival) (seq 0 (length replies)) →
  Promise_all replies arrival ≠ Unsettled.
Proof.
  intros Hall. unfold Promise_all.
  destruct (head (omap (rejection replies) arrival)); [done|].
  by rewrite decide_True.
Qed.

(** X6: [setSrProperties] on a cached storage object (type [sr]) issues
    [SR.set_name_label] and [SR.set_name_description], in this order, each
    with the ref of the object and only when its value is given; every call
    is issued whatever the pool replies to the others.  It resolves only if
    no call failed, rejects only with the error of one of its calls, and
    settles once all replies have arrived. *)
Theorem setSrProperties_sets_given_names getObject respond arrival id sr
    name_label name_description :
  getObject id = Some sr →
  obj_type sr = "sr" →
  let result := setSrProperties getObject respond arrival id name_label name_description in
  let set name value := {| x_method := "SR.set_" +:+ name;
                           x_params := [AString (obj_ref sr); AString value] |} in
  result.2 = option_list (set "name_label" <$> name_label) ++
             option_list (set "name_description" <$> name_description) ∧
  (result.1 = Resolves tt →
     ∀ i c, result.2 !! i = Some c → is_Reply (respond i c) = true) ∧
  (∀ t, result.1 = Rejects t →
     ∃ i c e, result.2 !! i = Some c ∧ respond i c = Raise e ∧ t = CallFailed e) ∧
  (Forall (λ i, i ∈ arrival) (seq 0 (length result.2)) → result.1 ≠ Unsettled).
Proof.
  intros Hsr Htype result set. subst result.
  unfold setSrProperties, _setObjectProperties. rewrite Hsr, Htype.
  assert (Hns : getNamespaceForType "sr" = "SR") by by vm_compute.
  rewrite Hns. cbv zeta.
  match goal with |- context [omap ?f ?l] => set (calls := omap f l) end.
  cbn [fst snd].
  assert (Hcalls : calls = option_list (set "name_label" <$> name_label) ++
                           option_list (set "name_description" <$> name_description)).
  { subst calls. by destruct name_label, name_description. }
  split_and!.
  - done.
  - intros Hres i c Hc. pose proof (Promise_all_resolves _ _ Hres) as Hno.
    destruct (respond i c) as [v|e] eqn:Er; [done|]. exfalso. apply (Hno e).
    apply list_elem_of_lookup. exists i. by rewrite list_lookup_imap, Hc; simpl; rewrite Er.
  - intros t Hrej.
    unfold Promise_all in Hrej.
    destruct (head (omap _ arrival)) as [e|] eqn:E; [|by case_decide].
    injection Hrej as <-.
    assert (Hrej : Promise_all (imap respond calls) arrival = Rejects (CallFailed e)).
    { unfold Promise_all. by rewrite E. }
    apply Promise_all_rejects, list_elem_of_lookup in Hrej as [i Hi].
    rewrite list_lookup_imap in Hi.
    destruct (calls !! i) as [c|] eqn:Ec; [|done]. simpl in Hi. injection Hi as Hi.
    by exists i, c, e.
  - intros Hall. apply Promise_all_settles. by rewrite length_imap.
Qed.

(** X7: [importVdi] with an explicit [virtual_size] uses it as given: the
    stream is not peeked, whatever its format, and its [length] is not
    needed; the disk is created with that size before the whole stream is
    imported, and it is destroyed when, and only when, the import fails. *)
Theorem importVdi_explicit_size_wins env ref s opts size :
  o_virtual_size opts = Some size →
  let format := default VDI_FORMAT_VHD (o_format opts) in
  let name_label :=
    default ("[XO] Imported disk - " +:+ toISOString env) (o_name_label opts) in
  let res := importVdi env ref s opts in
  match create_error env, import_error env with
  | Some e, _ =>
      res.1 = Threw e ∧ i_stream res.2 = s ∧
      i_trace res.2 = [VdiCreate ref name_label size true]
  | None, None =>
      res.1 = Returned (created_ref env) ∧
      i_trace res.2 =
        [VdiCreate ref name_label size false;
         VdiImportContent (created_ref env) (s_unread s) format false]
  | None, Some e =>
      res.1 = Threw e ∧
      i_trace res.2 =
        [VdiCreate ref name_label size false;
         VdiImportContent (created_ref env) (s_unread s) format true;
         VdiDestroy (created_ref env)]
  end.
Proof.
  intros Hsize format name_label res.
  unfold res, importVdi, importVdi_body. rewrite Hsize. fold format name_label.
  unfold ibind, VDI_create, onFailure_destroy, VDI_importContent, iret.
  destruct (create_error env), (import_error env); simpl; done.
Qed.

Lemma watched_object_other key o x k :
  k ≠ key →
  _objectWatchers (watched_object key o x) !! k = _objectWatchers x !! k.
Proof.
  intros Hk. unfold watched_object.
  destruct (_objectWatchers x !! key); [|done]. simpl. by rewrite lookup_delete_ne.
Qed.

Lemma watched_task_other o x k :
  k ≠ o_ref o →
  _taskWatchers (watched_task o x) !! k = _taskWatchers x !! k.
Proof.
  intros Hk. unfold watched_task.
  destruct (_taskWatchers x !! o_ref o); [|done].
  repeat case_decide; simpl; by rewrite ?lookup_delete_ne.
Qed.

Lemma onAddOrUpdate_other_task objects x key :
  Forall (λ o, o_ref o ≠ key) objects →
  _taskWatchers (onAddOrUpdate objects x) !! key = _taskWatchers x !! key.
Proof.
  intros Href. revert x.
  induction Href as [|o objects Ho _ IH]; intros x; [done|].
  unfold onAddOrUpdate in *. simpl. rewrite IH. unfold notify.
  rewrite watched_task_other by done.
  by rewrite !taskWatchers_watched_object.
Qed.

Lemma onAddOrUpdate_other_object objects x key :
  Forall (λ o, o_id o ≠ key ∧ o_ref o ≠ key) objects →
  _objectWatchers (onAddOrUpdate objects x) !! key = _objectWatchers x !! key.
Proof.
  intros Hkeys. revert x.
  induction Hkeys as [|o objects [Hid Href] _ IH]; intros x; [done|].
  unfold onAddOrUpdate in *. simpl. rewrite IH. unfold notify.
  rewrite objectWatchers_watched_task.
  by rewrite !watched_object_other.
Qed.

(** X8: a batch of notifications leaves alone every watch registered under
    a key that is not concerned.  A task watch under [key] is untouched, and
    still pending, unless an object of the batch has [key] as its [$ref] (its
    [$id] plays no part); an object watch under [key] is untouched, and still
    pending, unless an object of the batch has [key] as its [$id] or
    [$ref]. *)
Theorem notifications_spare_other_keys (x : xapi) (objects : list xobject) (key : string) :
  reachable x →
  Forall (λ o, o_ref o ≠ key) objects →
  let x' := onAddOrUpdate objects x in
  _taskWatchers x' !! key = _taskWatchers x !! key ∧
  (∀ p, _taskWatchers x !! key = Some p → promise_state x' p = None) ∧
  (Forall (λ o, o_id o ≠ key) objects →
     _objectWatchers x' !! key = _objectWatchers x !! key ∧
     ∀ p, _objectWatchers x !! key = Some p → promise_state x' p = None).
Proof.
  intros Hreach Href x'.
  assert (Hwf : wf x').
  { apply wf_onAddOrUpdate. by apply reachable_wf. }
  pose proof (onAddOrUpdate_other_task objects x key Href) as Htask.
  split_and!; [done|..].
  - intros p Hp. apply promise_state_fresh.
    apply (wf_task_pending _ Hwf key). subst x'. by rewrite Htask.
  - intros Hid.
    assert (Hobj : _objectWatchers x' !! key = _objectWatchers x !! key).
    { apply onAddOrUpdate_other_object. apply Forall_forall. intros o Ho. split.
      - by apply (proj1 (Forall_forall _ _) Hid).
      - by apply (proj1 (Forall_forall _ _) Href). }
    split; [done|]. intros p Hp. apply promise_state_fresh.
    apply (wf_obj_pending _ Hwf key). by rewrite Hobj.
Qed.

Lemma watched_object_hit key o x p :
  wf x → _objectWatchers x !! key = Some p →
  promise_state (watched_object key o x) p = Some (Fulfilled (VObject o)) ∧
  _objectWatchers (watched_object key o x) !! key = None.
Proof.
  intros Hwf Hp. unfold watched_object. rewrite Hp. simpl. split.
  - unfold promise_state. simpl.
    rewrite <- (app_nil_r (_ ++ [_])), <- app_assoc. simpl.
    apply first_settlement_here. by apply (wf_obj_pending _ Hwf key).
  - apply lookup_delete_eq.
Qed.

Lemma promise_state_notified x o p s :
  promise_state x p = Some s → promise_state (notify x o) p = Some s.
Proof.
  intros H. destruct (log_grows_notify x o) as [more E].
  unfold promise_state in *. rewrite E. by apply first_settlement_stable.
Qed.

Lemma watched_object_absent key o x k :
  _objectWatchers x !! k = None → _objectWatchers (watched_object key o x) !! k = None.
Proof.
  intros Hk. unfold watched_object.
  destruct (_objectWatchers x !! key); [|done]. simpl.
  rewrite lookup_delete. by case_decide.
Qed.

Lemma notify_absent o x k :
  _objectWatchers x !! k = None → _objectWatchers (notify x o) !! k = None.
Proof.
  intros Hk. unfold notify. rewrite objectWatchers_watched_task.
  by do 2 apply watched_object_absent.
Qed.

(** X9: the first object of a batch whose [$id] or [$ref] is a watched key
    resolves the watch, with that object; the entry is removed, and the
    objects that follow in the batch, matching or not, neither change the
    resolution nor bring the entry back. *)
Theorem first_matching_object_resolves (x : xapi) (key : string) (p : nat)
    (pre post : list xobject) (o : xobject) :
  reachable x →
  _objectWatchers x !! key = Some p →
  Forall (λ o', o_id o' ≠ key ∧ o_ref o' ≠ key) pre →
  o_id o = key ∨ o_ref o = key →
  let x' := onAddOrUpdate (pre ++ o :: post) x in
  promise_state x' p = Some (Fulfilled (VObject o)) ∧
  _objectWatchers x' !! key = None.
Proof.
  intros Hreach Hp Hpre Hmatch x'. subst x'.
  unfold onAddOrUpdate. rewrite fold_left_app. simpl.
  fold (onAddOrUpdate pre x). set (x1 := onAddOrUpdate pre x).
  assert (Hwf1 : wf x1) by (apply wf_onAddOrUpdate; by apply reachable_wf).
  assert (Hp1 : _objectWatchers x1 !! key = Some p).
  { subst x1. by rewrite onAddOrUpdate_other_object. }
  assert (Hhit : promise_state (notify x1 o) p = Some (Fulfilled (VObject o)) ∧
                 _objectWatchers (notify x1 o) !! key = None).
  { unfold notify.
    assert (Hlog : ∀ y, promise_state y p = Some (Fulfilled (VObject o)) →
              promise_state (watched_task o y) p = Some (Fulfilled (VObject o))).
    { intros y Hy. destruct (log_grows_watched_task o y) as [more E].
      unfold promise_state in *. rewrite E. by apply first_settlement_stable. }
    rewrite objectWatchers_watched_task.
    destruct (decide (o_id o = key)) as [Hid|Hid].
    - destruct (watched_object_hit (o_id o) o x1 p Hwf1) as [H1 H2]; [by rewrite Hid|].
      split.
      + apply Hlog. destruct (log_grows_watched_object (o_ref o) o (watched_object (o_id o) o x1))
          as [more E].
        unfold promise_state in *. rewrite E. by apply first_settlement_stable.
      + apply watched_object_absent. by rewrite <- Hid.
    - destruct Hmatch as [?|Href]; [done|].
      set (x2 := watched_object (o_id o) o x1).
      assert (Hwf2 : wf x2) by by apply wf_watched_object.
      assert (Hp2 : _objectWatchers x2 !! o_ref o = Some p).
      { subst x2. rewrite watched_object_other; [by rewrite Href|congruence]. }
      destruct (watched_object_hit (o_ref o) o x2 p Hwf2 Hp2) as [H1 H2].
      split; [by apply Hlog|by rewrite <- Href]. }
  destruct Hhit as [Hstate Habsent].
  generalize dependent (notify x1 o). clear. intros y Hstate Habsent.
  revert y Hstate Habsent. induction post as [|o' post IH]; intros y Hstate Habsent; [done|].
  simpl. apply IH; [by apply promise_state_notified|by apply notify_absent].
Qed.

(** X10: [disableMaintenanceMode] on a storage object that is not in
    maintenance throws a syntax error, from [JSON.parse] of the missing
    entry, right after reading [other_config]: the read is its only call, the
    removal of the key is not attempted, and the pool is unchanged. *)
Theorem disable_requires_maintenance ref w sched s l :
  SRs w !! ref = Some s →
  sr_other_config s !! OC_MAINTENANCE = None →
  fault w (now w) (SR_get_other_config ref) = None →
  let res := disableMaintenanceMode ref l (start w sched) in
  res.1.1 = Threw SyntaxError ∧
  ev_call <$> c_trace res.2 = [SR_get_other_config ref] ∧
  c_world res.2 = tick w.
Proof.
  intros Hs Hkey Hfault res. subst res.
  assert (E1 : exec w (SR_get_other_config ref) =
               (Reply (VOtherConfig (sr_other_config s)), tick w)).
  { unfold exec. rewrite Hfault. simpl. unfold on_sr. by rewrite Hs. }
  assert (E : disableMaintenanceMode ref l (start w sched) =
              (Threw SyntaxError, l,
               {| c_world := tick w;
                  c_trace := [call_event (SR_get_other_config ref) w];
                  c_sched := sched |})).
  { unfold disableMaintenanceMode.
    unfold bind at 1. unfold await at 1. rewrite perform_trace.
    unfold start. cbn [c_world c_trace c_sched]. rewrite E1. cbn [fst snd].
    unfold bind at 1. unfold ret at 1. unfold bind at 1. unfold JSON_parse. rewrite Hkey.
    done. }
  by rewrite E.
Qed.

(** ** Calls and the pool *)

Lemma same_objects_refl w : same_objects w w.
Proof. by repeat split. Qed.

Lemma same_objects_trans w1 w2 w3 :
  same_objects w1 w2 → same_objects w2 w3 → same_objects w1 w3.
Proof. intros (?&?&?&?&?&?) (?&?&?&?&?&?). repeat split; congruence. Qed.

Lemma same_objects_sym w1 w2 : same_objects w1 w2 → same_objects w2 w1.
Proof. intros (?&?&?&?&?&?). by repeat split. Qed.

Lemma same_objects_tick w : same_objects w (tick w).
Proof. by repeat split. Qed.

Lemma answer_getter w call : getter call → (answer w call).2 = w.
Proof.
  destruct call; try done; intros _; simpl; unfold on_sr, on_vm, on_pbd;
    repeat case_match; done.
Qed.

Lemma exec_getter w call : getter call → (exec w call).2 = tick w.
Proof.
  intros Hg. unfold exec. destruct (fault w (now w) call); [done|].
  pose proof (answer_getter w call Hg) as H.
  destruct (answer w call) as [r w']. simpl in *. by subst.
Qed.

Lemma exec_replied w call v :
  (exec w call).1 = Reply v →
  fault w (now w) call = None ∧ (answer w call).1 = Reply v ∧
  (exec w call).2 = tick (answer w call).2.
Proof.
  unfold exec. destruct (fault w (now w) call); [done|].
  destruct (answer w call) as [r w']. simpl. by intros ->.
Qed.

Lemma exec_unfaulted w call :
  fault w (now w) call = None →
  exec w call = ((answer w call).1, tick (answer w call).2).
Proof. unfold exec. intros ->. by destruct (answer w call). Qed.

Lemma steps_getter_same w t w' : steps getter w t w' → same_objects w w'.
Proof.
  induction 1 as [w|w t w' call _ IH Hg]; [apply same_objects_refl|].
  rewrite (exec_getter _ _ Hg).
  eapply same_objects_trans; [exact IH|apply same_objects_tick].
Qed.

Lemma steps_now (allowed : rcall → Prop) w t w' : steps allowed w t w' → now w ≤ now w'.
Proof.
  induction 1 as [w|w t w' call _ IH Hg]; [done|].
  etrans; [exact IH|]. unfold exec.
  destruct (fault w' (now w') call); [simpl; lia|].
  assert (now (answer w' call).2 = now w') as Hn.
  { destruct call; simpl; unfold on_sr, on_vm, on_pbd, setFieldEntry_other_config;
      repeat case_match; done. }
  destruct (answer w' call) as [r w'']. simpl in *. lia.
Qed.

Lemma bind_returned {L A B} (m : M L A) (k : A → M L B) l c b l' c' :
  bind m k l c = (Returned b, l', c') →
  ∃ a l1 c1, m l c = (Returned a, l1, c1) ∧ k a l1 c1 = (Returned b, l', c').
Proof.
  unfold bind. destruct (m l c) as [[[a|e|] l1] c1]; [|done..].
  intros H. by exists a, l1, c1.
Qed.

(** ** A pool of tasks that returns has run every task to its end *)

Section PoolReturned.
Context {L PC : Type}.
Variable awaited : PC → rcall.
Variable resume : PC → reply → L → L * next PC.
Variable I : list PC → L → world → list event → Prop.
Hypothesis I_step : ∀ before pc after l w tr,
  I (before ++ pc :: after) l w tr →
  (∀ e, (resume pc (exec w (awaited pc)).1 l).2 ≠ Failed e) →
  I ((before ++ after) ++ successors (resume pc (exec w (awaited pc)).1 l).2)
    (resume pc (exec w (awaited pc)).1 l).1
    (exec w (awaited pc)).2
    (tr ++ [fired awaited pc w]).

Lemma run_pool_failed_throws settled sched pool e l w tr :
  (run_pool awaited resume settled sched pool (Some e) l w tr).1.1 ≠ Returned tt.
Proof.
  intros H.
  destruct (run_pool_invariant awaited resume (λ _ _ _ _, True) (λ _ _ _ _ _ _ _, Logic.I)
              settled sched pool (Some e) l w tr Logic.I) as (pool' & _ & H2 & _).
  by destruct (H2 H).
Qed.

Lemma run_pool_returned settled sched pool failure l w tr l' c' :
  I pool l w tr →
  run_pool awaited resume settled sched pool failure l w tr = (Returned tt, l', c') →
  I [] l' (c_world c') (c_trace c').
Proof.
  revert pool failure l w tr.
  induction sched as [|n sched IH]; intros pool failure l w tr HI Hrun.
  - destruct pool as [|pc pool]; simpl in Hrun; [|done].
    destruct failure; [done|]. by injection Hrun as <- <-.
  - destruct (decide (pool = [])) as [->|Hne].
    { rewrite run_pool_nil in Hrun. destruct failure; [done|]. by injection Hrun as <- <-. }
    destruct (pool_pick n pool Hne) as [pc Hpc].
    pose proof (take_drop_middle _ _ _ Hpc) as Hsplit.
    pose proof (I_step (take (n mod length pool) pool) pc
                  (drop (S (n mod length pool)) pool) l w tr) as Hstep.
    rewrite Hsplit in Hstep. specialize (Hstep HI).
    rewrite <- delete_take_drop in Hstep.
    rewrite (run_pool_step _ _ _ _ _ _ _ _ _ _ _ Hpc) in Hrun.
    unfold fired in Hstep.
    destruct (exec w (awaited pc)) as [r w'] eqn:Eexec. simpl in Hstep.
    destruct (resume pc r l) as [l1 nx] eqn:Eres. simpl in Hstep.
    destruct nx as [|e|pc'|pcs]; simpl in *.
    + apply (IH _ _ _ _ _ (Hstep ltac:(done)) Hrun).
    + destruct settled; [|done].
      exfalso. eapply run_pool_failed_throws. by rewrite Hrun.
    + apply (IH _ _ _ _ _ (Hstep ltac:(done)) Hrun).
    + apply (IH _ _ _ _ _ (Hstep ltac:(done)) Hrun).
Qed.
End PoolReturned.

(** ** What the pool answers *)

Lemma answer_VDI_get_VBDs w vdi v :
  (answer w (VDI_get_VBDs vdi)).1 = Reply v →
  ∃ vbds, VDIs w !! vdi = Some vbds ∧ v = VRefs vbds.
Proof. simpl. destruct (VDIs w !! vdi) as [vbds|]; [|done]. intros [= <-]. eauto. Qed.

Lemma answer_VBD_get_VM w vbd v :
  (answer w (VBD_get_VM vbd)).1 = Reply v →
  ∃ vm, VBDs w !! vbd = Some vm ∧ v = VString vm.
Proof. simpl. destruct (VBDs w !! vbd) as [vm|]; [|done]. intros [= <-]. eauto. Qed.

Lemma answer_VM_get_power_state w vm v :
  (answer w (VM_get_power_state vm)).1 = Reply v →
  ∃ r, VMs w !! vm = Some r ∧ v = VPowerState (vm_power_state r).
Proof.
  simpl. unfold on_vm. destruct (VMs w !! vm) as [r|]; [|done]. intros [= <-]. eauto.
Qed.

Lemma answer_VM_get_uuid w vm v :
  (answer w (VM_get_uuid vm)).1 = Reply v →
  ∃ r, VMs w !! vm = Some r ∧ v = VString (vm_uuid r).
Proof.
  simpl. unfold on_vm. destruct (VMs w !! vm) as [r|]; [|done]. intros [= <-]. eauto.
Qed.

Lemma answer_SR_get_VDIs w sr v :
  (answer w (SR_get_VDIs sr)).1 = Reply v →
  ∃ s, SRs w !! sr = Some s ∧ v = VRefs (sr_VDIs s).
Proof.
  simpl. unfold on_sr. destruct (SRs w !! sr) as [s|]; [|done]. intros [= <-]. eauto.
Qed.

Lemma answer_SR_get_PBDs w sr v :
  (answer w (SR_get_PBDs sr)).1 = Reply v →
  ∃ s, SRs w !! sr = Some s ∧ v = VRefs (sr_PBDs s).
Proof.
  simpl. unfold on_sr. destruct (SRs w !! sr) as [s|]; [|done]. intros [= <-]. eauto.
Qed.

Lemma await_returned {L} call (l : L) c v l' c' :
  await call l c = (Returned v, l', c') →
  (exec (c_world c) call).1 = Reply v ∧ l' = l ∧
  c' = {| c_world := (exec (c_world c) call).2;
          c_trace := c_trace c ++ [call_event call (c_world c)];
          c_sched := c_sched c |}.
Proof.
  unfold await. rewrite perform_trace.
  destruct (exec (c_world c) call).1 as [v'|e]; [|done].
  by intros [= <- <- <-].
Qed.

Lemma getField_refs_returned {L} call (l : L) c refs l' c' :
  getField_refs call l c = (Returned refs, l', c') →
  (exec (c_world c) call).1 = Reply (VRefs refs) ∧ l' = l ∧
  c' = {| c_world := (exec (c_world c) call).2;
          c_trace := c_trace c ++ [call_event call (c_world c)];
          c_sched := c_sched c |}.
Proof.
  unfold getField_refs. intros (v & l1 & c1 & Hawait & Hk)%bind_returned.
  apply await_returned in Hawait as (Hr & -> & ->).
  destruct v; try done. by injection Hk as <- <- <-.
Qed.

(** ** Association lists *)

Lemma assoc_set_fst {A} k (v : A) m :
  (assoc_set k v m).*1 = if decide (k ∈ m.*1) then m.*1 else m.*1 ++ [k].
Proof.
  induction m as [|[k' v'] m IH].
  { destruct (decide (k ∈ ([] : list (string * A)).*1)) as [H|H]; [|done].
    by apply elem_of_nil in H. }
  cbn [assoc_set]. destruct (decide (k' = k)) as [->|Hne].
  - rewrite !fmap_cons. cbn [fst]. clear IH. case_decide as H; [done|]. exfalso. apply H. by left.
  - rewrite !fmap_cons. cbn [fst]. rewrite IH.
    destruct (decide (k ∈ m.*1)) as [Hin|Hout]; case_decide as H; try done.
    + exfalso. apply H. by right.
    + apply elem_of_cons in H as [?|?]; [by subst|done].
Qed.

Lemma assoc_set_NoDup {A} k (v : A) m : NoDup m.*1 → NoDup (assoc_set k v m).*1.
Proof.
  intros H. rewrite assoc_set_fst. case_decide; [done|].
  apply NoDup_app. split_and!; [done| |apply NoDup_singleton].
  intros x Hx ->%list_elem_of_singleton. done.
Qed.

Lemma assoc_set_fst_elem {A} k (v : A) m k' :
  k' ∈ (assoc_set k v m).*1 ↔ k' = k ∨ k' ∈ m.*1.
Proof.
  rewrite assoc_set_fst. case_decide.
  - split; [by right|]. by intros [->|?].
  - rewrite elem_of_app, list_elem_of_singleton. tauto.
Qed.

(** ** The discovery finds every running VM with a disk on the storage *)

Lemma todo_step w0 old new l l' pc :
  (∀ pc', pc' ∈ old → pc' = pc ∨ pc' ∈ new) →
  (runningVms l).*1 ⊆ (runningVms l').*1 →
  match pc with
  | VdiVBDs vdi =>
      ∀ vbds vbd, VDIs w0 !! vdi = Some vbds → vbd ∈ vbds → vbd_todo w0 new l' vbd
  | VbdVM vbd => ∀ vm, VBDs w0 !! vbd = Some vm → vm_todo w0 new l' vm
  | VmPowerState vm => covered w0 l' vm
  end →
  ∀ vdi, vdi_todo w0 old l vdi → vdi_todo w0 new l' vdi.
Proof.
  intros Hpool Hkeys Hpc.
  assert (Hvm : ∀ vm, vm_todo w0 old l vm → vm_todo w0 new l' vm).
  { intros vm [Hin|Hcov].
    - destruct (Hpool _ Hin) as [<-|Hn]; [by right|by left].
    - right. intros v Hv Hr. by apply Hkeys, (Hcov v). }
  assert (Hvbd : ∀ vbd, vbd_todo w0 old l vbd → vbd_todo w0 new l' vbd).
  { intros vbd [Hin|Hdone].
    - destruct (Hpool _ Hin) as [<-|Hn]; [by right|by left].
    - right. intros vm Hm. by apply Hvm, Hdone. }
  intros vdi [Hin|Hdone].
  - destruct (Hpool _ Hin) as [<-|Hn]; [by right|by left].
  - right. intros vbds vbd Hv Hb. by apply Hvbd, (Hdone vbds).
Qed.

Lemma pool_after_step {PC} (before after succ : list PC) pc pc' :
  pc' ∈ before ++ pc :: after → pc' = pc ∨ pc' ∈ (before ++ after) ++ succ.
Proof.
  rewrite !elem_of_app, elem_of_cons. tauto.
Qed.

Lemma discovering_step w0 vdis before pc after l w tr :
  discovering w0 vdis (before ++ pc :: after) l w tr →
  (∀ e, (handleVbd_resume pc (exec w (handleVbd_awaited pc)).1 l).2 ≠ Failed e) →
  discovering w0 vdis
    ((before ++ after) ++
       successors (handleVbd_resume pc (exec w (handleVbd_awaited pc)).1 l).2)
    (handleVbd_resume pc (exec w (handleVbd_awaited pc)).1 l).1
    (exec w (handleVbd_awaited pc)).2
    (tr ++ [fired handleVbd_awaited pc w]).
Proof.
  intros (Hsame & Htasks & Hgen & Huser & Hnd & Htodo) Hok.
  assert (Hsame' : same_objects w0 (exec w (handleVbd_awaited pc)).2).
  { rewrite exec_getter by by destruct pc.
    eapply same_objects_trans; [exact Hsame|apply same_objects_tick]. }
  assert (Hrest : Forall (task_on_vdis w0 vdis) (before ++ after)).
  { apply Forall_app in Htasks as [H1 H2]. apply Forall_cons in H2 as [_ H2].
    by apply Forall_app. }
  assert (Hpc : task_on_vdis w0 vdis pc).
  { apply Forall_app in Htasks as [_ H2]. by apply Forall_cons in H2 as [H2 _]. }
  destruct Hsame as (_ & _ & HVDIs & HVBDs & HVMs & _).
  destruct (exec w (handleVbd_awaited pc)).1 as [v|e] eqn:Er; [|by destruct (Hok e)].
  apply exec_replied in Er as (_ & Ha & _).
  destruct pc as [vdi|vbd|vm]; simpl in *.
  - apply answer_VDI_get_VBDs in Ha as (vbds & Hvdi & ->). rewrite HVDIs in Hvdi.
    simpl. split_and!; try done.
    + apply Forall_app. split; [done|]. apply Forall_fmap, Forall_forall.
      intros vbd Hvbd. simpl. by exists vdi, vbds.
    + intros vdi' Hvdi'. eapply (todo_step w0 _ _ l l (VdiVBDs vdi)); [| |..|by apply Htodo].
      * intros pc'. apply pool_after_step.
      * done.
      * simpl. intros vbds' vbd Hv Hb. left. rewrite Hvdi in Hv. injection Hv as <-.
        apply elem_of_app. right. by apply list_elem_of_fmap_2.
  - apply answer_VBD_get_VM in Ha as (vm & Hvbd & ->). rewrite HVBDs in Hvbd.
    unfold assoc_has. destruct (bool_decide (vm ∈ (runningVms l).*1)) eqn:Ehas; simpl.
    + apply bool_decide_eq_true in Ehas. rewrite app_nil_r. split_and!; try done.
      intros vdi' Hvdi'. eapply (todo_step w0 _ _ l l (VbdVM vbd)); [| |..|by apply Htodo].
      * intros pc' Hin. apply (pool_after_step _ _ []) in Hin. by rewrite app_nil_r in Hin.
      * done.
      * simpl. intros vm' Hvm'. rewrite Hvbd in Hvm'. injection Hvm' as <-.
        right. by intros v _ _.
    + split_and!; try done.
      * apply Forall_app. split; [done|]. apply Forall_singleton. simpl. by exists vbd.
      * intros vdi' Hvdi'.
        eapply (todo_step w0 _ _ l l (VbdVM vbd)); [| |..|by apply Htodo].
        -- intros pc'. apply pool_after_step.
        -- done.
        -- simpl. intros vm' Hvm'. rewrite Hvbd in Hvm'. injection Hvm' as <-.
           left. apply elem_of_app. right. by apply list_elem_of_singleton.
  - apply answer_VM_get_power_state in Ha as (r & Hvm & ->). rewrite HVMs in Hvm.
    destruct (bool_decide (vm_power_state r = Paused) ||
              bool_decide (vm_power_state r = Running)) eqn:Erun; simpl.
    + assert (Hr : is_running r = true).
      { unfold is_running. by destruct (vm_power_state r). }
      rewrite app_nil_r. split_and!; try done.
      * apply Forall_forall. intros x [->|Hx]%assoc_set_elem.
        -- by exists r.
        -- by apply (proj1 (Forall_forall _ _) Hgen).
      * apply Forall_forall. intros k [->|Hk]%assoc_set_fst_elem; [done|].
        by apply (proj1 (Forall_forall _ _) Huser).
      * by apply assoc_set_NoDup.
      * intros vdi' Hvdi'.
        eapply (todo_step w0 _ _ l _ (VmPowerState vm)); [| |..|by apply Htodo].
        -- intros pc' Hin. apply (pool_after_step _ _ []) in Hin.
           by rewrite app_nil_r in Hin.
        -- simpl. apply (proj2 (assoc_set_keys _ _ _)).
        -- intros v _ _. simpl. apply (proj1 (assoc_set_keys _ _ _)).
    + assert (Hr : is_running r = false).
      { unfold is_running. by destruct (vm_power_state r). }
      rewrite app_nil_r. split_and!; try done.
      intros vdi' Hvdi'.
      eapply (todo_step w0 _ _ l l (VmPowerState vm)); [| |..|by apply Htodo].
      * intros pc' Hin. apply (pool_after_step _ _ []) in Hin.
        by rewrite app_nil_r in Hin.
      * done.
      * simpl. intros v Hv Hrun. rewrite Hvm in Hv. injection Hv as <-. congruence.
Qed.

Lemma discoverRunningVms_complete ref l c l' c' s :
  discoverRunningVms ref l c = (Returned tt, l', c') →
  SRs (c_world c) !! ref = Some s →
  runningVms l = [] →
  same_objects (c_world c) (c_world c') ∧
  Forall (genuine (c_world c)) (runningVms l') ∧
  Forall (user (c_world c) (sr_VDIs s)) (runningVms l').*1 ∧
  NoDup (runningVms l').*1 ∧
  ∀ vm, user (c_world c) (sr_VDIs s) vm → covered (c_world c) l' vm.
Proof.
  unfold discoverRunningVms.
  intros (vdis & l1 & c1 & Hget & Hrun)%bind_returned Hs Hl.
  apply getField_refs_returned in Hget as (Hr & -> & ->).
  apply exec_replied in Hr as (_ & Ha & _).
  apply answer_SR_get_VDIs in Ha as (s' & Hs' & [= ->]).
  rewrite Hs in Hs'. injection Hs' as <-.
  unfold asyncMap in Hrun. cbn [c_world c_trace c_sched] in Hrun.
  apply (run_pool_returned _ _ (discovering (c_world c) (sr_VDIs s))
           (discovering_step (c_world c) (sr_VDIs s))) in Hrun.
  - destruct Hrun as (Hsame & _ & Hgen & Huser & Hnd & Htodo).
    split_and!; try done.
    intros vm (vbd & (vdi & vbds & Hvdi & Hvbds & Hvbd) & Hvm).
    destruct (Htodo vdi Hvdi) as [?%elem_of_nil|Hdone]; [done|].
    destruct (Hdone vbds vbd Hvbds Hvbd) as [?%elem_of_nil|Hdone']; [done|].
    by destruct (Hdone' vm Hvm) as [?%elem_of_nil|?].
  - rewrite exec_getter by done. unfold discovering. rewrite Hl. split_and!.
    + apply same_objects_tick.
    + apply Forall_fmap, Forall_forall. by intros vdi Hvdi.
    + constructor.
    + constructor.
    + constructor.
    + intros vdi Hvdi. left. by apply list_elem_of_fmap_2.
Qed.

(** ** The shutdown block halts every discovered VM *)

Lemma exec_raised w call e : (exec w call).1 = Raise e → (exec w call).2 = tick w.
Proof.
  unfold exec. destruct (fault w (now w) call); [done|].
  destruct (answer w call) as [r w'] eqn:E. simpl. intros ->.
  assert (w' = w) as ->; [|done].
  destruct call; simpl in E;
    unfold on_sr, on_vm, on_pbd, setFieldEntry_other_config, handle_invalid, uuid_invalid,
      bad_power_state in E;
    repeat case_match; by simplify_eq.
Qed.

Lemma answer_shutdown w vm v (call : rcall) :
  call = VM_clean_shutdown vm ∨ call = VM_hard_shutdown vm →
  (answer w call).1 = Reply v →
  ∃ r, VMs w !! vm = Some r ∧ (answer w call).2 = with_power_state w vm r Halted.
Proof.
  intros [->| ->]; simpl; unfold on_vm; destruct (VMs w !! vm) as [r|]; try done;
    destruct (vm_power_state r); simpl; try done; intros _; by exists r.
Qed.

Lemma halted_record (P : Prop) w w0 ref r :
  VMs w !! ref = VMs w0 !! ref ∨ (P ∧ VMs w !! ref = halt <$> VMs w0 !! ref) →
  VMs w !! ref = Some r →
  is_Some (VMs w0 !! ref) ∧
  Some {| vm_uuid := vm_uuid r; vm_power_state := Halted |} = halt <$> VMs w0 !! ref.
Proof.
  intros [E|[_ E]] Hr; rewrite Hr in E.
  - rewrite <- E. by split.
  - destruct (VMs w0 !! ref) as [v0|]; [|done]. simpl in E. injection E as ->. by split.
Qed.

Lemma shutting_step w0 targets before pc after l w tr :
  shutting w0 targets (before ++ pc :: after) l w tr →
  (∀ e, (shutdown_resume pc (exec w (shutdown_awaited pc)).1 l).2 ≠ Failed e) →
  shutting w0 targets
    ((before ++ after) ++
       successors (shutdown_resume pc (exec w (shutdown_awaited pc)).1 l).2)
    (shutdown_resume pc (exec w (shutdown_awaited pc)).1 l).1
    (exec w (shutdown_awaited pc)).2
    (tr ++ [fired shutdown_awaited pc w]).
Proof.
  intros (Hf & HSR & HVDI & HVBD & HPBD & HVM & Htasks & (vms & Hvms & Hnd & Hprov & Hcov) & Hprog) Hok.
  assert (Hrest : Forall (λ pc, shutdown_target pc ∈ targets) (before ++ after)).
  { apply Forall_app in Htasks as [H1 H2]. apply Forall_cons in H2 as [_ H2].
    by apply Forall_app. }
  assert (Hpc : shutdown_target pc ∈ targets).
  { apply Forall_app in Htasks as [_ H2]. by apply Forall_cons in H2 as [H2 _]. }
  assert (Hquiet : (exec w (shutdown_awaited pc)).2 = tick w →
    ∀ l' pc',
      state l' = state l →
      shutdown_target pc' = shutdown_target pc →
      (∀ ref f, pc ≠ ShutdownUuid ref f) →
      shutting w0 targets ((before ++ after) ++ [pc']) l' (exec w (shutdown_awaited pc)).2
        (tr ++ [fired shutdown_awaited pc w])).
  { intros -> l' pc' Hst Hnext Hnot. unfold shutting. rewrite Hst.
    split_and!; try done.
    - apply Forall_app. split; [done|]. apply Forall_singleton. by rewrite Hnext.
    - exists vms. split_and!; try done.
      intros target Ht. destruct (Hcov target Ht) as [Hin|Hdone]; [|by right].
      left. apply (pool_after_step _ _ [pc']) in Hin as [Heq|Hin]; [|done].
      by destruct (Hnot target.1 target.2).
    - intros target Ht. destruct (Hprog target Ht) as [(pc'' & Hin & Htg)|Hdone]; [|by right].
      left. apply (pool_after_step _ _ [pc']) in Hin as [->|Hin]; [|by exists pc''].
      exists pc'. split; [|congruence]. apply elem_of_app. right. by left. }
  destruct pc as [ref f|ref f|ref f]; simpl in *.
  - (* the uuid is read and recorded *)
    destruct (exec w (VM_get_uuid ref)).1 as [v|e] eqn:Er.
    2:{ by destruct (Hok e). }
    pose proof Er as Er'. apply exec_replied in Er' as (_ & Ha & _).
    apply answer_VM_get_uuid in Ha as (r & Hr & ->).
    unfold set_shutdownVm in *. rewrite Hvms in *. simpl.
    rewrite (exec_getter w (VM_get_uuid ref)) by done.
    assert (Hr0 : ∃ v0, VMs w0 !! ref = Some v0 ∧ vm_uuid v0 = vm_uuid r).
    { destruct (HVM ref) as [E|[_ E]]; rewrite Hr in E.
      - by exists r.
      - destruct (VMs w0 !! ref) as [v0|]; [|done]. injection E as ->. by exists v0. }
    destruct Hr0 as (v0 & Hv0 & Hu).
    split_and!; try done.
    + apply Forall_app. split; [done|]. by apply Forall_singleton.
    + exists (assoc_set (vm_uuid r) f vms). split_and!; try done.
      * by apply assoc_set_NoDup.
      * intros u f' [[= -> ->]|Hin]%assoc_set_elem; [|by apply Hprov].
        by exists ref, v0.
      * intros target Ht. destruct (Hcov target Ht) as [Hin|(v1 & Hv1 & Hk)].
        -- apply (pool_after_step _ _ [CleanShutdown ref f]) in Hin as [Heq|Hin]; [|by left].
           injection Heq as -> ->. right. exists v0. split; [done|].
           rewrite Hu. apply (proj1 (assoc_set_keys _ _ _)).
        -- right. exists v1. split; [done|]. by apply (proj2 (assoc_set_keys _ _ _)).
    + intros target Ht. destruct (Hprog target Ht) as [(pc' & Hin & Htg)|Hdone]; [|by right].
      left. apply (pool_after_step _ _ [CleanShutdown ref f]) in Hin as [->|Hin].
      * exists (CleanShutdown ref f). split; [|done]. apply elem_of_app. right. by left.
      * by exists pc'.
  - (* clean shutdown *)
    destruct (exec w (VM_clean_shutdown ref)).1 as [v|e] eqn:Er; simpl.
    + pose proof Er as Er'. apply exec_replied in Er' as (_ & Ha & Hw).
      apply (answer_shutdown _ ref) in Ha as (r & Hr & Hw'); [|by left].
      rewrite Hw, Hw'. rewrite app_nil_r. unfold shutting. simpl.
      split_and!; try done.
      * intros vm. destruct (decide (vm = ref)) as [->|Hne].
        -- right. rewrite lookup_insert_eq. split.
           ++ apply list_elem_of_fmap. by exists (ref, f).
           ++ by apply (halted_record _ _ _ _ _ (HVM ref) Hr).
        -- rewrite lookup_insert_ne by done. apply HVM.
      * exists vms. split_and!; try done.
        intros target Ht. destruct (Hcov target Ht) as [Hin|Hdone]; [|by right].
        left. apply (pool_after_step _ _ []) in Hin as [?|Hin]; [done|].
        by rewrite app_nil_r in Hin.
      * intros target Ht.
        destruct (decide (target.1 = ref)) as [Href|Hne].
        -- right. rewrite Href, lookup_insert_eq.
           by apply (halted_record _ _ _ _ _ (HVM ref) Hr).
        -- rewrite lookup_insert_ne by done.
           destruct (Hprog target Ht) as [(pc' & Hin & Htg)|Hdone]; [|by right].
           left. apply (pool_after_step _ _ []) in Hin as [->|Hin].
           ++ simpl in Htg. by subst target.
           ++ rewrite app_nil_r in Hin. by exists pc'.
    + by apply (Hquiet (exec_raised _ _ _ Er) l (HardShutdown ref f)).
  - (* hard shutdown *)
    destruct (exec w (VM_hard_shutdown ref)).1 as [v|e] eqn:Er; simpl.
    2:{ by destruct (Hok e). }
    pose proof Er as Er'. apply exec_replied in Er' as (_ & Ha & Hw).
    apply (answer_shutdown _ ref) in Ha as (r & Hr & Hw'); [|by right].
    rewrite Hw, Hw'. rewrite app_nil_r. unfold shutting. simpl.
    split_and!; try done.
    + intros vm. destruct (decide (vm = ref)) as [->|Hne].
      * right. rewrite lookup_insert_eq. split.
        -- apply list_elem_of_fmap. by exists (ref, f).
        -- by apply (halted_record _ _ _ _ _ (HVM ref) Hr).
      * rewrite lookup_insert_ne by done. apply HVM.
    + exists vms. split_and!; try done.
      intros target Ht. destruct (Hcov target Ht) as [Hin|Hdone]; [|by right].
      left. apply (pool_after_step _ _ []) in Hin as [?|Hin]; [done|].
      by rewrite app_nil_r in Hin.
    + intros target Ht.
      destruct (decide (target.1 = ref)) as [Href|Hne].
      * right. rewrite Href, lookup_insert_eq.
        by apply (halted_record _ _ _ _ _ (HVM ref) Hr).
      * rewrite lookup_insert_ne by done.
        destruct (Hprog target Ht) as [(pc' & Hin & Htg)|Hdone]; [|by right].
        left. apply (pool_after_step _ _ []) in Hin as [->|Hin].
        -- simpl in Htg. by subst target.
        -- rewrite app_nil_r in Hin. by exists pc'.
Qed.

Lemma assign_returned {L} (f : L → L) l c a l' c' :
  assign f l c = (Returned a, l', c') → l' = f l ∧ c' = c.
Proof. unfold assign. by intros [= <- <-]. Qed.

Lemma locals_returned {L} (l : L) c a l' c' :
  locals l c = (Returned a, l', c') → a = l ∧ l' = l ∧ c' = c.
Proof. unfold locals. by intros [= <- <- <-]. Qed.

Lemma shutdownRunningVms_complete l c l' c' :
  shutdownRunningVms l c = (Returned tt, l', c') →
  shutting (c_world c) (runningVms l) [] l' (c_world c') (c_trace c') ∧
  runningVms l' = runningVms l.
Proof.
  intros Hrun. split.
  2:{ pose proof (keeps_runningVms_shutdown (runningVms l) l c eq_refl) as H.
      by rewrite Hrun in H. }
  unfold shutdownRunningVms in Hrun.
  apply bind_returned in Hrun as (? & l1 & c1 & Ha & Hrun).
  apply assign_returned in Ha as [-> ->].
  apply bind_returned in Hrun as (l2 & l3 & c3 & Hl & Hrun).
  apply locals_returned in Hl as (-> & -> & ->).
  unfold asyncMapSettled in Hrun. simpl in Hrun.
  apply (run_pool_returned _ _ (shutting (c_world c) (runningVms l))
           (shutting_step (c_world c) (runningVms l))) in Hrun; [done|].
  unfold shutting. simpl. split_and!; try done.
  - by left.
  - apply Forall_fmap, Forall_forall. by intros [vm f] H.
  - exists []. split_and!; try done.
    + constructor.
    + by intros u f ?%elem_of_nil.
    + intros target Ht. left. apply list_elem_of_fmap. by exists target.
  - intros target Ht. left. exists (ShutdownUuid target.1 target.2). split.
    + apply list_elem_of_fmap. by exists target.
    + by destruct target.
Qed.

(** ** The unplug block detaches every connection of the storage *)

Lemma answer_PBD_get_currently_attached w pbd v :
  (answer w (PBD_get_currently_attached pbd)).1 = Reply v →
  ∃ p, PBDs w !! pbd = Some p ∧ v = VBool (pbd_currently_attached p).
Proof.
  simpl. unfold on_pbd. destruct (PBDs w !! pbd) as [p|]; [|done]. intros [= <-]. eauto.
Qed.

Lemma answer_PBD_get_uuid w pbd v :
  (answer w (PBD_get_uuid pbd)).1 = Reply v →
  ∃ p, PBDs w !! pbd = Some p ∧ v = VString (pbd_uuid p).
Proof.
  simpl. unfold on_pbd. destruct (PBDs w !! pbd) as [p|]; [|done]. intros [= <-]. eauto.
Qed.

Lemma answer_PBD_unplug w pbd v :
  (answer w (PBD_unplug pbd)).1 = Reply v →
  ∃ p, PBDs w !! pbd = Some p ∧ (answer w (PBD_unplug pbd)).2 = with_attached w pbd p false.
Proof.
  simpl. unfold on_pbd. destruct (PBDs w !! pbd) as [p|]; [|done]. intros _. eauto.
Qed.

Lemma detach_detached p : pbd_currently_attached p = false → detach p = p.
Proof. destruct p. simpl. by intros ->. Qed.

Lemma unplug_task_ok_mono w0 pbds ps ps' pc :
  ps ⊆ ps' → unplug_task_ok w0 pbds ps pc → unplug_task_ok w0 pbds ps' pc.
Proof.
  intros Hsub [H1 H2]. split; [done|]. destruct pc; try done.
  destruct H2 as (p & ? & ? & ?). exists p. split_and!; try done. by apply Hsub.
Qed.

Lemma unplugging_step w0 pbds before pc after l w tr :
  unplugging w0 pbds (before ++ pc :: after) l w tr →
  (∀ e, (unplug_resume pc (exec w (unplug_awaited pc)).1 l).2 ≠ Failed e) →
  unplugging w0 pbds
    ((before ++ after) ++
       successors (unplug_resume pc (exec w (unplug_awaited pc)).1 l).2)
    (unplug_resume pc (exec w (unplug_awaited pc)).1 l).1
    (exec w (unplug_awaited pc)).2
    (tr ++ [fired unplug_awaited pc w]).
Proof.
  intros (Hf & HSR & HVDI & HVBD & HVM & ps & Hps & HPBD & Hprov & Htasks & Hprog) Hok.
  assert (Hrest : Forall (unplug_task_ok w0 pbds ps) (before ++ after)).
  { apply Forall_app in Htasks as [H1 H2]. apply Forall_cons in H2 as [_ H2].
    by apply Forall_app. }
  assert (Hpc : unplug_task_ok w0 pbds ps pc).
  { apply Forall_app in Htasks as [_ H2]. by apply Forall_cons in H2 as [H2 _]. }
  destruct (exec w (unplug_awaited pc)).1 as [v|e] eqn:Er.
  2:{ by destruct (Hok e). }
  pose proof Er as Er'. apply exec_replied in Er' as (_ & Ha & Hw).
  assert (Hnext : ∀ pc', unplug_target pc' = unplug_target pc →
            ∀ target, target ∈ pbds →
              (∃ pc0, pc0 ∈ before ++ pc :: after ∧ unplug_target pc0 = target) →
              ∃ pc0, pc0 ∈ (before ++ after) ++ [pc'] ∧ unplug_target pc0 = target).
  { intros pc' Heq target Ht (pc0 & Hin & Htg).
    apply (pool_after_step _ _ [pc']) in Hin as [->|Hin]; [|by exists pc0].
    exists pc'. split; [|congruence]. apply elem_of_app. right. by left. }
  destruct pc as [ref|ref|ref]; cbn [unplug_awaited unplug_resume unplug_target] in *.
  - (* currently_attached is read *)
    apply answer_PBD_get_currently_attached in Ha as (p & Hp & ->).
    rewrite (exec_getter w (PBD_get_currently_attached ref)) by done. simpl.
    destruct (pbd_currently_attached p) eqn:Eatt; simpl.
    + unfold unplugging. split_and!; try done. exists ps. split_and!; try done.
      * apply Forall_app. split; [done|]. apply Forall_singleton.
        split; [by destruct Hpc|]. simpl.
        destruct (HPBD ref) as [E|(p0 & _ & _ & _ & _ & E)]; rewrite Hp in E.
        -- by exists p.
        -- injection E as ->. done.
      * intros target Ht. destruct (Hprog target Ht) as [H|H]; [|by right].
        left. by apply (Hnext (PbdUuid ref)).
    + rewrite app_nil_r. unfold unplugging. split_and!; try done.
      exists ps. split_and!; try done.
      intros target Ht. destruct (Hprog target Ht) as [(pc0 & Hin & Htg)|H]; [|by right].
      apply (pool_after_step _ _ []) in Hin as [->|Hin].
      * right. simpl in Htg. subst target.
        destruct (HPBD ref) as [E|(p0 & Hp0 & _ & _ & Hu & E)]; rewrite Hp in E.
        -- exists p. split_and!; [done| |by rewrite Eatt].
           simpl. by rewrite Hp, detach_detached.
        -- exists p0. split_and!; [done| |done]. simpl. by rewrite Hp.
      * left. rewrite app_nil_r in Hin. by exists pc0.
  - (* the uuid is read and pushed *)
    apply answer_PBD_get_uuid in Ha as (p & Hp & ->).
    rewrite (exec_getter w (PBD_get_uuid ref)) by done.
    unfold push_unpluggedPbd in *. rewrite Hps in *. simpl.
    destruct Hpc as [Hin (p0 & Hp0 & Hatt)].
    assert (Hu : pbd_uuid p = pbd_uuid p0).
    { destruct (HPBD ref) as [E|(p1 & Hp1 & _ & _ & _ & E)]; rewrite Hp in E.
      - rewrite Hp0 in E. by injection E as ->.
      - rewrite Hp0 in Hp1. injection Hp1 as <-. by injection E as ->. }
    assert (Hsub : ps ⊆ ps ++ [pbd_uuid p]).
    { intros u Hu'. apply elem_of_app. by left. }
    assert (Hnew : pbd_uuid p ∈ ps ++ [pbd_uuid p]).
    { apply elem_of_app. right. by left. }
    unfold unplugging. simpl. split_and!; try done.
    exists (ps ++ [pbd_uuid p]). split_and!; try done.
    + intros pbd. destruct (HPBD pbd) as [E|(p1 & ? & ? & ? & ? & ?)]; [by left|].
      right. exists p1. split_and!; try done. by apply Hsub.
    + intros u [Hu'|Hu']%elem_of_app; [by apply Hprov|].
      apply list_elem_of_singleton in Hu' as ->. by exists ref, p0.
    + apply Forall_app. split.
      * eapply Forall_impl; [exact Hrest|]. intros pc'. by apply unplug_task_ok_mono.
      * apply Forall_singleton. split; [done|]. simpl. exists p0. split_and!; try done.
        by rewrite <- Hu.
    + intros target Ht. destruct (Hprog target Ht) as [H|(p1 & ? & ? & Himp)].
      * left. by apply (Hnext (PbdUnplug ref)).
      * right. exists p1. split_and!; try done. intros Ha. by apply Hsub, Himp.
  - (* the connection is detached *)
    apply answer_PBD_unplug in Ha as (p & Hp & Hw'). rewrite Hw, Hw'.
    destruct Hpc as [Hin (p0 & Hp0 & Hatt & Hu)].
    assert (Hd : detach p = detach p0).
    { destruct (HPBD ref) as [E|(p1 & Hp1 & _ & _ & _ & E)]; rewrite Hp in E.
      - rewrite Hp0 in E. by injection E as ->.
      - rewrite Hp0 in Hp1. injection Hp1 as <-. by injection E as ->. }
    rewrite app_nil_r. unfold unplugging. simpl. split_and!; try done.
    exists ps. split_and!; try done.
    + intros pbd. destruct (decide (pbd = ref)) as [->|Hne].
      * right. exists p0. rewrite lookup_insert_eq. split_and!; try done.
        by fold (detach p); rewrite Hd.
      * rewrite lookup_insert_ne by done. apply HPBD.
    + intros target Ht. destruct (decide (target = ref)) as [->|Hne].
      * right. exists p0. rewrite lookup_insert_eq. split_and!; try done.
        by fold (detach p); rewrite Hd.
      * rewrite lookup_insert_ne by done.
        destruct (Hprog target Ht) as [(pc0 & Hin0 & Htg)|H]; [|by right].
        left. apply (pool_after_step _ _ []) in Hin0 as [->|Hin0]; [done|].
        rewrite app_nil_r in Hin0. by exists pc0.
Qed.

Lemma unplugPbds_complete ref l c l' c' s :
  unplugPbds ref l c = (Returned tt, l', c') →
  SRs (c_world c) !! ref = Some s →
  unplugging (c_world c) (sr_PBDs s) [] l' (c_world c') (c_trace c') ∧
  runningVms l' = runningVms l ∧
  shutdownVms (state l') = shutdownVms (state l).
Proof.
  intros Hrun Hs. split_and!.
  2:{ pose proof (keeps_runningVms_unplug ref (runningVms l) l c eq_refl) as H.
      by rewrite Hrun in H. }
  2:{ pose proof (keeps_unplugPbds ref (shutdownVms (state l)) l c eq_refl) as H.
      by rewrite Hrun in H. }
  unfold unplugPbds in Hrun.
  apply bind_returned in Hrun as (? & l1 & c1 & Ha & Hrun).
  apply assign_returned in Ha as [-> ->].
  apply bind_returned in Hrun as (pbds & l2 & c2 & Hget & Hrun).
  apply getField_refs_returned in Hget as (Hr & -> & ->).
  apply exec_replied in Hr as (_ & Ha & _).
  apply answer_SR_get_PBDs in Ha as (s' & Hs' & [= ->]).
  rewrite Hs in Hs'. injection Hs' as <-.
  unfold asyncMapSettled in Hrun. cbn [c_world c_trace c_sched] in Hrun.
  apply (run_pool_returned _ _ (unplugging (c_world c) (sr_PBDs s))
           (unplugging_step (c_world c) (sr_PBDs s))) in Hrun; [done|].
  rewrite exec_getter by done.
  unfold unplugging. simpl. split_and!; try done.
  exists []. split_and!; try done.
  - by left.
  - by intros u ?%elem_of_nil.
  - apply Forall_fmap, Forall_forall. by intros pbd H.
  - intros pbd H. left. exists (PbdAttached pbd). split; [|done].
    by apply list_elem_of_fmap_2.
Qed.

(** ** The whole of a run that returns *)

Lemma genuine_transfer w w' entry : VMs w' = VMs w → genuine w entry → genuine w' entry.
Proof. unfold genuine. by intros ->. Qed.

Lemma user_transfer w w' vdis vm :
  VDIs w' = VDIs w → VBDs w' = VBDs w → user w vdis vm → user w' vdis vm.
Proof. unfold user, on_vdis. by intros -> ->. Qed.

Lemma covered_transfer w w' l l' vm :
  VMs w' = VMs w → runningVms l' = runningVms l → covered w l vm → covered w' l' vm.
Proof. unfold covered. by intros -> ->. Qed.

Lemma checkVmsToShutdown_returned vms us l c l' c' :
  checkVmsToShutdown vms us l c = (Returned tt, l', c') → l' = l ∧ c' = c.
Proof. unfold checkVmsToShutdown. case_decide; [|done]. by intros [= <- <-]. Qed.

Lemma answer_write w sr key st v (call : rcall) :
  call = SR_add_to_other_config sr key st ∨ call = SR_set_other_config_entry sr key st →
  (answer w call).1 = Reply v →
  ∃ s, SRs w !! sr = Some s ∧
       (call = SR_add_to_other_config sr key st → sr_other_config s !! key = None) ∧
       (answer w call).2 = with_other_config w sr s (<[key := st]> (sr_other_config s)).
Proof.
  intros [->| ->]; simpl; unfold on_sr, setFieldEntry_other_config;
    destruct (SRs w !! sr) as [s|]; try done.
  - destruct (sr_other_config s !! key) eqn:E; [done|]. intros _. by exists s.
  - intros _. exists s. by split_and!.
Qed.

Lemma beginMaintenance_complete ref w sched us l1 c1 :
  beginMaintenance ref no_locals (start w sched) = (Returned us, l1, c1) →
  ∃ s, SRs w !! ref = Some s ∧ sr_other_config s !! OC_MAINTENANCE = None ∧
       fault (c_world c1) = fault w ∧
       SRs (c_world c1) = <[ref := in_maintenance s (placeholder (now w))]> (SRs w) ∧
       VDIs (c_world c1) = VDIs w ∧ VBDs (c_world c1) = VBDs w ∧
       VMs (c_world c1) = VMs w ∧ PBDs (c_world c1) = PBDs w ∧
       Forall (genuine w) (runningVms l1) ∧
       Forall (user w (sr_VDIs s)) (runningVms l1).*1 ∧
       NoDup (runningVms l1).*1 ∧
       ∀ vm, user w (sr_VDIs s) vm → covered w l1 vm.
Proof.
  intros Hbegin.
  rewrite beginMaintenance_unfold in Hbegin. cbn zeta in Hbegin.
  rewrite perform_trace in Hbegin. unfold start in Hbegin.
  cbn [c_world c_trace c_sched fst snd] in Hbegin.
  set (add := SR_add_to_other_config ref OC_MAINTENANCE (placeholder (now w))) in *.
  destruct (exec w add).1 as [va|e] eqn:Eadd; [|done].
  pose proof Eadd as Eadd'. apply exec_replied in Eadd' as (_ & Ha & Hwa).
  apply (answer_write _ ref OC_MAINTENANCE (placeholder (now w))) in Ha
    as (s & Hs & Hfresh & Hwa'); [|by left].
  specialize (Hfresh eq_refl). rewrite Hwa' in Hwa. clear Hwa'.
  set (sa := in_maintenance s (placeholder (now w))).
  unfold scanRunningVms in Hbegin.
  apply bind_returned in Hbegin as ([] & ld & cd & Hdisc & Hres).
  apply (discoverRunningVms_complete _ _ _ _ _ sa) in Hdisc
    as (Hsame_d & Hgen & Husers & Hnd & Hcov).
  2:{ cbn [c_world]. rewrite Hwa. simpl. by rewrite lookup_insert_eq. }
  2:{ done. }
  cbn [c_world] in *.
  pose proof (confined_resolveRunningVmUuids ld cd) as (t_r & _ & Hsteps_r).
  rewrite Hres in Hsteps_r. cbn [snd] in Hsteps_r.
  apply steps_getter_same in Hsteps_r as Hsame_r.
  apply resolveRunningVmUuids_read in Hres as (Hrv1 & _ & _).
  pose proof (same_objects_trans _ _ _ Hsame_d Hsame_r) as Hsame1.
  clear Hsame_d Hsame_r Hsteps_r.
  destruct Hsame1 as (Hf1 & HSR1 & HVDI1 & HVBD1 & HVM1 & HPBD1).
  rewrite Hwa in Hf1, HSR1, HVDI1, HVBD1, HVM1, HPBD1, Hgen, Husers, Hcov.
  simpl in Hf1, HSR1, HVDI1, HVBD1, HVM1, HPBD1.
  assert (Hgen' : Forall (genuine w) (runningVms ld)) by exact Hgen.
  assert (Husers' : Forall (user w (sr_VDIs s)) (runningVms ld).*1) by exact Husers.
  assert (Hcov' : ∀ vm, user w (sr_VDIs s) vm → covered w ld vm) by exact Hcov.
  exists s. rewrite Hrv1. split_and!; try done.
  intros vm Hu. unfold covered. rewrite Hrv1. by apply Hcov'.
Qed.

Lemma body_returned ref vmsToShutdown w sched l c :
  enableMaintenanceMode_body ref vmsToShutdown no_locals (start w sched) = (Returned tt, l, c) →
  ∃ s, maintained_from w ref s l (c_world c).
Proof.
  unfold enableMaintenanceMode_body.
  intros (us & l1 & c1 & Hbegin & H)%bind_returned.
  apply bind_returned in H as ([] & l2 & c2 & Hcheck & H).
  apply checkVmsToShutdown_returned in Hcheck as [-> ->].
  apply bind_returned in H as ([] & l3 & c3 & Hshut & H).
  apply bind_returned in H as ([] & l4 & c4 & Hunplug & H).
  apply bind_returned in H as (l5 & l6 & c6 & Hloc & H).
  apply locals_returned in Hloc as (-> & -> & ->).
  apply bind_returned in H as (v & l7 & c7 & Hset & H).
  apply await_returned in Hset as (Hsetr & -> & ->).
  injection H as <- <-. cbn [c_world].
  apply beginMaintenance_complete in Hbegin
    as (s & Hs & Hfresh & Hf1 & HSR1 & HVDI1 & HVBD1 & HVM1 & HPBD1 &
        Hgen' & Husers' & Hnd & Hcov').
  set (sa := in_maintenance s (placeholder (now w))) in *.
  (* the shutdowns *)
  apply shutdownRunningVms_complete in Hshut as [Hshut Hrv3].
  destruct Hshut as (Hf3 & HSR3 & HVDI3 & HVBD3 & HPBD3 & HVM3 & _ &
                     (vms & Hvms & Hndv & Hprov & Hcovv) & Hprog).
  (* the connections *)
  apply (unplugPbds_complete _ _ _ _ _ sa) in Hunplug as (Hunplug & Hrv4 & Hsv4).
  2:{ by rewrite HSR3, HSR1, lookup_insert_eq. }
  destruct Hunplug as (Hf4 & HSR4 & HVDI4 & HVBD4 & HVM4 & ps & Hps & HPBD4 & Hprovp &
                       _ & Hprogp).
  (* the final write *)
  pose proof Hsetr as Hsetr'. apply exec_replied in Hsetr' as (_ & Ha & Hw7).
  apply (answer_write _ ref OC_MAINTENANCE (state l4)) in Ha
    as (s7 & Hs7 & _ & Hw7'); [|by right].
  rewrite Hw7' in Hw7. clear Hw7'.
  assert (s7 = sa) as ->.
  { rewrite HSR4, HSR3, HSR1, lookup_insert_eq in Hs7. by injection Hs7. }
  rewrite Hw7. simpl.
  exists s. split; cbn [tick with_other_config fault VDIs VBDs SRs VMs PBDs].
  - done.
  - done.
  - congruence.
  - congruence.
  - congruence.
  - rewrite HSR4, HSR3, HSR1. unfold in_maintenance. simpl.
    rewrite insert_insert_eq. f_equal. f_equal. by rewrite insert_insert_eq.
  - by rewrite Hrv4, Hrv3.
  - by rewrite Hrv4, Hrv3.
  - by rewrite Hrv4, Hrv3.
  - intros vm Hu. unfold covered. rewrite Hrv4, Hrv3. by apply Hcov'.
  - intros vm Hin. rewrite Hrv4, Hrv3 in Hin. rewrite HVM4.
    apply list_elem_of_fmap in Hin as (target & -> & Ht).
    destruct (Hprog target Ht) as [(pc & ?%elem_of_nil & _)|[_ E]]; [done|].
    by rewrite E, HVM1.
  - intros vm Hout. rewrite Hrv4, Hrv3 in Hout. rewrite HVM4.
    destruct (HVM3 vm) as [E|[Hin _]]; [|done]. by rewrite E, HVM1.
  - intros pbd Hin.
    destruct (Hprogp pbd Hin) as [(pc & ?%elem_of_nil & _)|(p & Hp & Hp' & _)]; [done|].
    exists p. split; [|done]. by rewrite <- HPBD1, <- HPBD3.
  - intros pbd Hout.
    destruct (HPBD4 pbd) as [E|(p & _ & Hin & _)]; [|done]. by rewrite E, HPBD3, HPBD1.
  - exists vms. rewrite Hsv4. split_and!; try done.
    + intros u f Hin. destruct (Hprov u f Hin) as (vm & v0 & Ht & Hv0 & Hu).
      exists vm, v0. rewrite Hrv4, Hrv3. split_and!; try done. by rewrite <- HVM1.
    + intros target Ht. rewrite Hrv4, Hrv3 in Ht.
      destruct (Hcovv target Ht) as [?%elem_of_nil|(v0 & Hv0 & Hk)]; [done|].
      exists v0. split; [|done]. by rewrite <- HVM1.
  - exists ps. split_and!; try done.
    + intros u Hu. destruct (Hprovp u Hu) as (pbd & p & Hin & Hp & Hup & Hatt).
      exists pbd, p. split_and!; try done. by rewrite <- HPBD1, <- HPBD3.
    + intros pbd p Hin Hp Hatt.
      destruct (Hprogp pbd Hin) as [(pc & ?%elem_of_nil & _)|(p' & Hp' & _ & Himp)]; [done|].
      rewrite HPBD3, HPBD1, Hp in Hp'. injection Hp' as <-. by apply Himp.
Qed.

(** ** Looking an object up by uuid *)

Lemma by_uuid_Some {A} (uuid_of : A → string) (m : gmap string A) uuid ref :
  by_uuid uuid_of m uuid = Some ref → ∃ x, m !! ref = Some x ∧ uuid_of x = uuid.
Proof.
  unfold by_uuid.
  destruct (list_find _ _) as [[i [ref' x]]|] eqn:E; [|done]. simpl. intros [= <-].
  apply list_find_Some in E as (Hi & Hu & _). simpl in Hu.
  exists x. split; [|done]. apply elem_of_map_to_list. by apply list_elem_of_lookup_2 in Hi.
Qed.

Lemma by_uuid_is_Some {A} (uuid_of : A → string) (m : gmap string A) ref x :
  m !! ref = Some x → is_Some (by_uuid uuid_of m (uuid_of x)).
Proof.
  intros Hx. unfold by_uuid.
  destruct (list_find_elem_of (λ entry : string * A, uuid_of entry.2 = uuid_of x)
              (map_to_list m) (ref, x)) as [[i y] E].
  - by apply elem_of_map_to_list.
  - done.
  - by rewrite E.
Qed.

Lemma answer_get_by_uuid_PBD w uuid :
  (answer w (PBD_get_by_uuid uuid)).2 = w ∧
  ∀ ref x, PBDs w !! ref = Some x → pbd_uuid x = uuid →
    ∃ ref' x', (answer w (PBD_get_by_uuid uuid)).1 = Reply (VString ref') ∧
               PBDs w !! ref' = Some x' ∧ pbd_uuid x' = uuid.
Proof.
  simpl. split; [by destruct (by_uuid _ _ _)|].
  intros ref x Hx Hu. destruct (by_uuid_is_Some pbd_uuid _ _ _ Hx) as [ref' E].
  rewrite Hu in E. rewrite E. apply by_uuid_Some in E as (x' & ? & ?). by exists ref', x'.
Qed.

Lemma answer_get_by_uuid_VM w uuid :
  (answer w (VM_get_by_uuid uuid)).2 = w ∧
  ∀ ref x, VMs w !! ref = Some x → vm_uuid x = uuid →
    ∃ ref' x', (answer w (VM_get_by_uuid uuid)).1 = Reply (VString ref') ∧
               VMs w !! ref' = Some x' ∧ vm_uuid x' = uuid.
Proof.
  simpl. split; [by destruct (by_uuid _ _ _)|].
  intros ref x Hx Hu. destruct (by_uuid_is_Some vm_uuid _ _ _ Hx) as [ref' E].
  rewrite Hu in E. rewrite E. apply by_uuid_Some in E as (x' & ? & ?). by exists ref', x'.
Qed.

(** ** The reattach block on a pool that no longer fails *)

Lemma plugging_step w0 ps before pc after l w tr :
  fault_free_from w0 (now w0) →
  (∀ u, u ∈ ps → ∃ pbd p, PBDs w0 !! pbd = Some p ∧ pbd_uuid p = u) →
  plugging w0 ps (before ++ pc :: after) l w tr →
  plugging w0 ps
    ((before ++ after) ++ successors (plug_resume pc (exec w (plug_awaited pc)).1 l).2)
    (plug_resume pc (exec w (plug_awaited pc)).1 l).1
    (exec w (plug_awaited pc)).2
    (tr ++ [fired plug_awaited pc w]).
Proof.
  intros Hff Hexist (Herr & Hf & Hnow & HSR & HVDI & HVBD & HVM & HPBD & Htasks & Hprog).
  assert (Hrest : Forall (plug_task_ok w0 ps) (before ++ after)).
  { apply Forall_app in Htasks as [H1 H2]. apply Forall_cons in H2 as [_ H2].
    by apply Forall_app. }
  assert (Hpc : plug_task_ok w0 ps pc).
  { apply Forall_app in Htasks as [_ H2]. by apply Forall_cons in H2 as [H2 _]. }
  assert (Hnf : fault w (now w) (plug_awaited pc) = None).
  { rewrite Hf. by apply Hff. }
  assert (Hsame : ∀ pbd p, PBDs w !! pbd = Some p →
            ∃ p0, PBDs w0 !! pbd = Some p0 ∧ pbd_uuid p0 = pbd_uuid p ∧ attach p = attach p0).
  { intros pbd p Hp. destruct (HPBD pbd) as [E|(p0 & Hp0 & _ & E)]; rewrite Hp in E.
    - by exists p.
    - injection E as ->. by exists p0. }
  assert (Hback : ∀ pbd p0, PBDs w0 !! pbd = Some p0 →
            ∃ p, PBDs w !! pbd = Some p ∧ pbd_uuid p = pbd_uuid p0).
  { intros pbd p0 Hp0. destruct (HPBD pbd) as [E|(p1 & Hp1 & _ & E)].
    - exists p0. by rewrite E.
    - rewrite Hp0 in Hp1. injection Hp1 as <-. by exists (attach p0). }
  rewrite (exec_unfaulted _ _ Hnf). cbn [fst snd].
  destruct pc as [u|ref]; cbn [plug_awaited plug_resume plug_task_ok] in *.
  - (* the connection is looked up *)
    destruct (answer_get_by_uuid_PBD w u) as [Hw Hfound]. rewrite Hw.
    destruct (Hexist u Hpc) as (pbd0 & p0 & Hp0 & Hu0).
    destruct (Hback _ _ Hp0) as (pw & Hpw & Hupw).
    destruct (Hfound pbd0 pw Hpw) as (ref & p & Hr & Hp & Hu); [congruence|].
    rewrite Hr. cbn [successors fst snd].
    destruct (Hsame _ _ Hp) as (p1 & Hp1 & Hu1 & _).
    unfold plugging. cbn [tick now fault SRs VDIs VBDs VMs PBDs].
    split_and!; try done; [lia| |].
    + apply Forall_app. split; [done|]. apply Forall_singleton. simpl.
      exists p1. split; [done|]. by rewrite Hu1, Hu.
    + intros u' Hu'. destruct (Hprog u' Hu') as [Hin|(pbd & p' & Hp' & Hup' & Hd)].
      * apply (pool_after_step _ _ [PlugPbd ref]) in Hin as [[= ->]|Hin]; [|by left].
        right. exists ref, p1. split_and!; [done|congruence|].
        left. apply elem_of_app. right. by left.
      * right. exists pbd, p'. split_and!; try done. destruct Hd as [Hin|Hd]; [|by right].
        left. apply (pool_after_step _ _ [PlugPbd ref]) in Hin as [?|Hin]; done.
  - (* the connection is attached *)
    destruct Hpc as (p0 & Hp0 & Hu0).
    destruct (Hback _ _ Hp0) as (pw & Hpw & Hupw).
    destruct (Hsame _ _ Hpw) as (p1 & Hp1 & _ & Hatt).
    rewrite Hp0 in Hp1. injection Hp1 as <-.
    assert (Ha : answer w (PBD_plug ref) = (Reply VUndefined, with_attached w ref pw true)).
    { simpl. unfold on_pbd. by rewrite Hpw. }
    rewrite Ha. cbn [fst snd successors]. rewrite app_nil_r.
    unfold plugging. cbn [tick with_attached now fault SRs VDIs VBDs VMs PBDs].
    fold (attach pw). rewrite Hatt.
    split_and!; try done; [lia| |].
    + intros pbd. destruct (decide (pbd = ref)) as [->|Hne].
      * right. exists p0. by rewrite lookup_insert_eq.
      * rewrite lookup_insert_ne by done. apply HPBD.
    + intros u' Hu'. destruct (Hprog u' Hu') as [Hin|(pbd & p' & Hp' & Hup' & Hd)].
      * left. apply (pool_after_step _ _ []) in Hin as [?|Hin]; [done|].
        by rewrite app_nil_r in Hin.
      * right. exists pbd, p'. split_and!; try done.
        destruct (decide (pbd = ref)) as [->|Hne].
        -- right. rewrite lookup_insert_eq. rewrite Hp0 in Hp'. by injection Hp' as <-.
        -- rewrite lookup_insert_ne by done. destruct Hd as [Hin|Hd]; [|by right].
           left. apply (pool_after_step _ _ []) in Hin as [[= ->]|Hin]; [done|].
           by rewrite app_nil_r in Hin.
Qed.

(** ** The restart block on a pool that no longer fails *)

Lemma NoDup_fst_same {A} (m : list (string * A)) k v1 v2 :
  NoDup m.*1 → (k, v1) ∈ m → (k, v2) ∈ m → v1 = v2.
Proof.
  induction m as [|[k' v'] m IH]; [by intros _ ?%elem_of_nil|].
  rewrite fmap_cons, NoDup_cons. cbn [fst]. intros [Hk Hnd] H1 H2.
  apply elem_of_cons in H1 as [[= -> ->]|H1], H2 as [[= ->]|H2]; try done.
  - exfalso. apply Hk, list_elem_of_fmap. by exists (k', v2).
  - exfalso. apply Hk, list_elem_of_fmap. by exists (k', v1).
  - by apply IH.
Qed.

Lemma restart_not_halted f v : vm_power_state v = Halted → v ≠ restart f v.
Proof. intros H E. rewrite E in H. by destruct f. Qed.

Lemma starting_step w0 vms before pc after l w tr :
  fault_free_from w0 (now w0) →
  unique_uuids vm_uuid (VMs w0) →
  NoDup vms.*1 →
  (∀ u f, (u, f) ∈ vms →
     ∃ vm v, VMs w0 !! vm = Some v ∧ vm_uuid v = u ∧ vm_power_state v = Halted) →
  starting w0 vms (before ++ pc :: after) l w tr →
  starting w0 vms
    ((before ++ after) ++ successors (start_resume pc (exec w (start_awaited pc)).1 l).2)
    (start_resume pc (exec w (start_awaited pc)).1 l).1
    (exec w (start_awaited pc)).2
    (tr ++ [fired start_awaited pc w]).
Proof.
  intros Hff Huniq Hndv Hhalted
    (Herr & Hf & Hnow & HSR & HVDI & HVBD & HPBD & HVM & Htasks & Hnd & Hprog).
  assert (Hrest : Forall (start_task_ok w0 vms w) (before ++ after)).
  { apply Forall_app in Htasks as [H1 H2]. apply Forall_cons in H2 as [_ H2].
    by apply Forall_app. }
  assert (Hpc : start_task_ok w0 vms w pc).
  { apply Forall_app in Htasks as [_ H2]. by apply Forall_cons in H2 as [H2 _]. }
  assert (Hnf : fault w (now w) (start_awaited pc) = None).
  { rewrite Hf. by apply Hff. }
  assert (Hperm : ∀ next, start_uuid w0 <$> (before ++ after) ++ next ≡ₚ
            (start_uuid w0 <$> before ++ after) ++ (start_uuid w0 <$> next)).
  { intros next. by rewrite fmap_app. }
  assert (Hold : start_uuid w0 <$> before ++ pc :: after ≡ₚ
            start_uuid w0 pc :: (start_uuid w0 <$> before ++ after)).
  { rewrite !fmap_app, fmap_cons. by rewrite Permutation_middle. }
  rewrite Hold in Hnd. apply NoDup_cons in Hnd as [Hfresh Hnd].
  rewrite (exec_unfaulted _ _ Hnf). cbn [fst snd].
  destruct pc as [u f|ref f]; cbn [start_awaited start_resume start_task_ok start_uuid] in *.
  - (* the VM is looked up *)
    destruct (answer_get_by_uuid_VM w u) as [Hw Hfound]. rewrite Hw.
    destruct (Hhalted u f Hpc) as (vm0 & v0 & Hv0 & Hu0 & _).
    assert (∃ vw, VMs w !! vm0 = Some vw ∧ vm_uuid vw = u) as (vw & Hvw & Huw).
    { destruct (HVM vm0) as [E|(v1 & f1 & Hv1 & _ & _ & E)].
      - exists v0. by rewrite E.
      - rewrite Hv0 in Hv1. injection Hv1 as <-. by exists (restart f1 v0). }
    destruct (Hfound vm0 vw Hvw Huw) as (ref & x & Hr & Hx & Hux).
    rewrite Hr. cbn [start_resume successors fst snd].
    assert (Hx0 : VMs w0 !! ref = Some x).
    { destruct (HVM ref) as [E|(v1 & f1 & Hv1 & _ & Hout & E)]; [by rewrite <- E|].
      exfalso. apply Hout. rewrite Hold. apply elem_of_cons. left.
      rewrite Hx in E. injection E as ->. by rewrite <- Hux. }
    assert (Hnew : start_uuid w0 (StartVm ref f) = u).
    { simpl. by rewrite Hx0. }
    assert (Hset : ∀ k, k ∈ start_uuid w0 <$> (before ++ after) ++ [StartVm ref f] ↔
                        k ∈ start_uuid w0 <$> before ++ StartGetByUuid u f :: after).
    { intros k. rewrite Hold, Hperm. rewrite fmap_cons, fmap_nil, Hnew.
      rewrite elem_of_app, list_elem_of_singleton, elem_of_cons. tauto. }
    unfold starting. cbn [tick now fault SRs VDIs VBDs VMs PBDs].
    split_and!; try done; [lia| | | |].
    + intros vm. destruct (HVM vm) as [E|(v1 & f1 & Hv1 & Hin1 & Hout & E)]; [by left|].
      right. exists v1, f1. split_and!; try done. by rewrite Hset.
    + apply Forall_app. split; [done|]. apply Forall_singleton. simpl.
      exists x. split_and!; try done. by rewrite Hux.
    + rewrite Hperm. rewrite fmap_cons, fmap_nil, Hnew.
      apply NoDup_app. split_and!; [done| |apply NoDup_singleton].
      intros k Hk ->%list_elem_of_singleton. done.
    + intros u' f' Hin. destruct (Hprog u' f' Hin) as [(pc' & Hpc' & Hu')|Hdone]; [|by right].
      left. apply (pool_after_step _ _ [StartVm ref f]) in Hpc' as [->|Hpc'].
      * exists (StartVm ref f). split; [|by rewrite Hnew].
        apply elem_of_app. right. by left.
      * by exists pc'.
  - (* the VM is started *)
    destruct Hpc as (v & Hv0 & Hin & Hvw).
    assert (Hh : vm_power_state v = Halted).
    { destruct (Hhalted _ _ Hin) as (vm' & v' & Hv' & Hu' & Hh).
      assert (vm' = ref) as -> by by eapply Huniq.
      rewrite Hv0 in Hv'. by injection Hv' as <-. }
    assert (Ha : answer w (VM_start ref f true) =
                 (Reply VUndefined,
                  with_power_state w ref v (if f then Paused else Running))).
    { simpl. unfold on_vm. by rewrite Hvw, Hh. }
    rewrite Ha. cbn [fst snd successors]. rewrite app_nil_r.
    rewrite Hv0 in Hfresh. simpl in Hfresh.
    unfold starting. cbn [tick with_power_state now fault SRs VDIs VBDs VMs PBDs].
    fold (restart f v).
    split_and!; try done; [lia| | |].
    + intros vm. destruct (decide (vm = ref)) as [->|Hne].
      * right. exists v, f. by rewrite lookup_insert_eq.
      * rewrite lookup_insert_ne by done.
        destruct (HVM vm) as [E|(v1 & f1 & Hv1 & Hin1 & Hout & E)]; [by left|].
        right. exists v1, f1. split_and!; try done.
        intros Hk. apply Hout. rewrite Hold. by right.
    + apply Forall_forall. intros pc' Hpc'.
      pose proof (proj1 (Forall_forall _ _) Hrest pc' Hpc') as Hok.
      destruct pc' as [u' f'|ref' f']; [done|]. simpl in *.
      destruct Hok as (v' & Hv' & Hin' & Hw').
      exists v'. split_and!; try done.
      rewrite lookup_insert_ne; [done|]. intros <-.
      apply Hfresh. apply list_elem_of_fmap. exists (StartVm ref f'). split; [|done].
      simpl. by rewrite Hv0.
    + intros u' f' Hin'.
      destruct (Hprog u' f' Hin') as [(pc' & Hpc' & Hu')|(vm & v1 & Hv1 & Hu1 & E)].
      * apply (pool_after_step _ _ []) in Hpc' as [->|Hpc'].
        -- right. simpl in Hu'. rewrite Hv0 in Hu'. simpl in Hu'. subst u'.
           assert (f' = f) as -> by by eapply NoDup_fst_same.
           exists ref, v. by rewrite lookup_insert_eq.
        -- left. rewrite app_nil_r in Hpc'. by exists pc'.
      * right. exists vm, v1. split_and!; try done.
        destruct (decide (vm = ref)) as [->|Hne]; [|by rewrite lookup_insert_ne].
        exfalso. rewrite Hv0 in Hv1. injection Hv1 as <-.
        rewrite Hvw in E. injection E as E. by apply (restart_not_halted f' v).
Qed.

Lemma fault_free_later w w' :
  fault w' = fault w → now w ≤ now w' →
  fault_free_from w (now w) → fault_free_from w' (now w').
Proof. intros Hf Hn H t call Ht. rewrite Hf. apply H. lia. Qed.

Lemma restoreAll_restores st ps vms w tr sched l :
  unpluggedPbds st = Some ps →
  shutdownVms st = Some vms →
  2 * (length ps + length vms) ≤ length sched →
  fault_free_from w (now w) →
  (∀ u, u ∈ ps → ∃ pbd p, PBDs w !! pbd = Some p ∧ pbd_uuid p = u) →
  unique_uuids vm_uuid (VMs w) →
  NoDup vms.*1 →
  (∀ u f, (u, f) ∈ vms →
     ∃ vm v, VMs w !! vm = Some v ∧ vm_uuid v = u ∧ vm_power_state v = Halted) →
  let res := restoreAll st l {| c_world := w; c_trace := tr; c_sched := sched |} in
  let w' := c_world res.2 in
  res.1.1 = Returned tt ∧
  SRs w' = SRs w ∧ VDIs w' = VDIs w ∧ VBDs w' = VBDs w ∧
  (∀ pbd, PBDs w' !! pbd = PBDs w !! pbd ∨
          ∃ p, PBDs w !! pbd = Some p ∧ pbd_uuid p ∈ ps ∧
               PBDs w' !! pbd = Some (attach p)) ∧
  (∀ u, u ∈ ps →
     ∃ pbd p, PBDs w !! pbd = Some p ∧ pbd_uuid p = u ∧
              PBDs w' !! pbd = Some (attach p)) ∧
  (∀ vm, VMs w' !! vm = VMs w !! vm ∨
         ∃ v f, VMs w !! vm = Some v ∧ (vm_uuid v, f) ∈ vms ∧
                VMs w' !! vm = Some (restart f v)) ∧
  (∀ u f, (u, f) ∈ vms →
     ∃ vm v, VMs w !! vm = Some v ∧ vm_uuid v = u ∧
             VMs w' !! vm = Some (restart f v)).
Proof.
  intros Hp Hv Hlen Hff Hexist Huniq Hndv Hhalted res w'.
  assert (Hres : res = restoreAll st l {| c_world := w; c_trace := tr; c_sched := sched |})
    by done.
  clearbody res. unfold restoreAll in Hres. rewrite Hp, Hv in Hres.
  unfold bind at 1 in Hres. unfold assign in Hres. unfold bind at 1 in Hres.
  unfold iterable at 1 in Hres. unfold ret at 1 in Hres. unfold bind at 1 in Hres.
  (* the reattach block *)
  destruct (plug_pool_spec ps sched {| d_errors := [] |} w tr) as (Hr1 & Hleft & _);
    [lia|].
  destruct (run_pool_invariant plug_awaited plug_resume (plugging w ps)
              (λ before pc after l w1 tr1,
                 plugging_step w ps before pc after l w1 tr1 Hff Hexist)
              false sched (PlugGetByUuid <$> ps) None {| d_errors := [] |} w tr)
    as (pool1 & Hinv1 & Hnil1 & _).
  { unfold plugging. split_and!; try done.
    - by left.
    - apply Forall_fmap, Forall_forall. by intros u Hu.
    - intros u Hu. left. by apply list_elem_of_fmap_2. }
  unfold asyncMap in Hres, Hr1, Hleft. cbn [c_world c_trace c_sched] in Hres, Hr1, Hleft.
  cbn zeta in Hinv1, Hnil1.
  destruct (run_pool plug_awaited plug_resume false sched (PlugGetByUuid <$> ps) None
              {| d_errors := [] |} w tr) as [[o1 l1] c1].
  cbn [fst snd] in Hr1, Hleft, Hinv1, Hnil1. subst o1.
  destruct (Hnil1 eq_refl) as [-> _]. clear Hnil1.
  destruct Hinv1 as (Herr1 & Hf1 & Hnow1 & HSR1 & HVDI1 & HVBD1 & HVM1 & HPBD1 & _ & Hprog1).
  unfold bind at 1 in Hres. unfold iterable, ret at 1 in Hres. unfold bind at 1 in Hres.
  destruct c1 as [w1 tr1 sched1]. cbn [c_world c_trace c_sched] in *.
  (* the restart block *)
  destruct (start_pool_spec vms sched1 l1 w1 tr1) as (Hr2 & _); [lia|].
  assert (Hff1 : fault_free_from w1 (now w1)) by by eapply fault_free_later.
  assert (Huniq1 : unique_uuids vm_uuid (VMs w1)) by by rewrite HVM1.
  assert (Hhalted1 : ∀ u f, (u, f) ∈ vms →
            ∃ vm v, VMs w1 !! vm = Some v ∧ vm_uuid v = u ∧ vm_power_state v = Halted).
  { by rewrite HVM1. }
  destruct (run_pool_invariant start_awaited start_resume (starting w1 vms)
              (λ before pc after l w2 tr2,
                 starting_step w1 vms before pc after l w2 tr2 Hff1 Huniq1 Hndv Hhalted1)
              false sched1 ((λ vm, StartGetByUuid vm.1 vm.2) <$> vms) None l1 w1 tr1)
    as (pool2 & Hinv2 & Hnil2 & _).
  { unfold starting. split_and!; try done.
    - by left.
    - apply Forall_fmap, Forall_forall. by intros [u f] Hu.
    - assert (Heq : start_uuid w1 <$> ((λ vm : string * bool, StartGetByUuid vm.1 vm.2) <$> vms)
                    = vms.*1).
      { clear. induction vms as [|[u f] vms IH]; [done|]. csimpl. by rewrite IH. }
      by rewrite Heq.
    - intros u f Hin. left. exists (StartGetByUuid u f). split; [|done].
      apply list_elem_of_fmap. by exists (u, f). }
  unfold asyncMap in Hres, Hr2. cbn [c_world c_trace c_sched] in Hres, Hr2.
  cbn zeta in Hinv2, Hnil2.
  destruct (run_pool start_awaited start_resume false sched1 _ None l1 w1 tr1)
    as [[o2 l2] c2].
  cbn [fst snd] in Hr2, Hinv2, Hnil2. subst o2.
  destruct (Hnil2 eq_refl) as [-> _]. clear Hnil2.
  destruct Hinv2 as (Herr2 & Hf2 & Hnow2 & HSR2 & HVDI2 & HVBD2 & HPBD2 & HVM2 & _ & _ & Hprog2).
  unfold bind, locals in Hres. cbn [fst snd] in Hres. rewrite Herr2 in Hres.
  cbn [ret] in Hres. subst res w'. cbn [fst snd].
  unfold ret. cbn [fst snd c_world].
  split_and!; try congruence.
  - intros pbd. rewrite HPBD2. apply HPBD1.
  - intros u Hu. destruct (Hprog1 u Hu) as [?%elem_of_nil|(pbd & p & ? & ? & [?%elem_of_nil|?])];
      try done.
    exists pbd, p. by rewrite HPBD2.
  - intros vm. destruct (HVM2 vm) as [E|(v & f & Hv0 & Hin & _ & E)].
    + left. by rewrite E, HVM1.
    + right. exists v, f. by rewrite <- HVM1.
  - intros u f Hin.
    destruct (Hprog2 u f Hin) as [(pc & ?%elem_of_nil & _)|(vm & v & Hv0 & Hu & E)]; [done|].
    exists vm, v. by rewrite <- HVM1.
Qed.

(** ** What a successful [enableMaintenanceMode] leaves behind *)

Lemma enable_returned ref vmsToShutdown w sched c :
  enableMaintenanceMode ref vmsToShutdown w sched = (Returned tt, c) →
  ∃ l, enableMaintenanceMode_body ref vmsToShutdown no_locals (start w sched) =
         (Returned tt, l, c).
Proof.
  unfold enableMaintenanceMode, defer.
  destruct (enableMaintenanceMode_body _ _ _ _) as [[[[]|e|] l] c']; [|done..].
  intros [= <-]. by exists l.
Qed.

Lemma elem_of_fst_pair {A} (m : list (string * A)) k :
  k ∈ m.*1 → ∃ v, (k, v) ∈ m.
Proof. intros ([k' v] & -> & H)%list_elem_of_fmap. by exists v. Qed.

(** X11: when [enableMaintenanceMode] returns, the pool is the initial pool
    where exactly the running or paused VMs with a disk on the storage object
    are halted, exactly the connections of the storage object are detached,
    and the storage object carries the maintenance state; that state lists
    the uuid of every VM shut down and of every connection that was
    attached.  Nothing else has changed. *)
Theorem enable_quiesces_storage ref vmsToShutdown w sched c :
  enableMaintenanceMode ref vmsToShutdown w sched = (Returned tt, c) →
  let w' := c_world c in
  ∃ s st vms ps,
    SRs w !! ref = Some s ∧
    SRs w' = <[ref := in_maintenance s st]> (SRs w) ∧
    VDIs w' = VDIs w ∧ VBDs w' = VBDs w ∧
    shutdownVms st = Some vms ∧ unpluggedPbds st = Some ps ∧
    (∀ vm v, VMs w !! vm = Some v → user w (sr_VDIs s) vm → is_running v = true →
       VMs w' !! vm = Some (halt v) ∧ vm_uuid v ∈ vms.*1) ∧
    (∀ vm, ¬ (user w (sr_VDIs s) vm ∧ ∃ v, VMs w !! vm = Some v ∧ is_running v = true) →
       VMs w' !! vm = VMs w !! vm) ∧
    (∀ pbd, pbd ∈ sr_PBDs s →
       ∃ p, PBDs w !! pbd = Some p ∧ PBDs w' !! pbd = Some (detach p) ∧
            (pbd_currently_attached p = true → pbd_uuid p ∈ ps)) ∧
    (∀ pbd, pbd ∉ sr_PBDs s → PBDs w' !! pbd = PBDs w !! pbd).
Proof.
  intros [l Hbody]%enable_returned w'. subst w'.
  apply body_returned in Hbody as [s Hm].
  destruct (mf_vms _ _ _ _ _ Hm) as (vms & Hvms & _ & _ & Hcovv).
  destruct (mf_pbds _ _ _ _ _ Hm) as (ps & Hps & _ & Hcovp).
  exists s, (state l), vms, ps. split_and!; try done; try apply Hm.
  - intros vm v Hv Hu Hr.
    pose proof (mf_covered _ _ _ _ _ Hm vm Hu v Hv Hr) as Hin.
    split.
    + by rewrite (mf_halted _ _ _ _ _ Hm vm Hin), Hv.
    + apply elem_of_fst_pair in Hin as [f Hin].
      destruct (Hcovv _ Hin) as (v' & Hv' & Hk). simpl in Hv'.
      rewrite Hv in Hv'. by injection Hv' as <-.
  - intros vm Hnot. apply (mf_others _ _ _ _ _ Hm). intros Hin. apply Hnot. split.
    + by apply (proj1 (Forall_forall _ _) (mf_users _ _ _ _ _ Hm)).
    + apply elem_of_fst_pair in Hin as [f Hin].
      destruct (proj1 (Forall_forall _ _) (mf_genuine _ _ _ _ _ Hm) _ Hin)
        as (v & Hv & Hr & _).
      by exists v.
  - intros pbd Hin. destruct (mf_detached _ _ _ _ _ Hm pbd Hin) as (p & Hp & Hp').
    exists p. split_and!; try done. intros Hatt. by apply (Hcovp pbd).
Qed.

(** ** Maintenance mode and back *)

Lemma attach_detach p : pbd_currently_attached p = true → attach (detach p) = p.
Proof. destruct p. simpl. by intros ->. Qed.

Lemma restart_halt v :
  is_running v = true →
  restart (bool_decide (vm_power_state v = Paused)) (halt v) = v.
Proof. destruct v as [u []]; simpl; done. Qed.

Lemma sr_record_eta s :
  {| sr_other_config := sr_other_config s; sr_VDIs := sr_VDIs s; sr_PBDs := sr_PBDs s |} = s.
Proof. by destruct s. Qed.

(** X12: [enableMaintenanceMode] followed by [disableMaintenanceMode] is
    the identity on the pool.  When the first returns, on a pool where uuids
    identify VMs and connections, and the second then runs without a failed
    call and with a schedule long enough for its tasks, the second returns
    and the storage objects, VMs and connections are those of the initial
    pool: every VM is back in its power state, paused or running, and every
    connection is attached as it was. *)
Theorem enable_then_disable_restores ref vmsToShutdown w sched c sched' st ps vms :
  enableMaintenanceMode ref vmsToShutdown w sched = (Returned tt, c) →
  unique_uuids vm_uuid (VMs w) →
  unique_uuids pbd_uuid (PBDs w) →
  fault_free_from (c_world c) (now (c_world c)) →
  maintenance_record (c_world c) ref = Some st →
  unpluggedPbds st = Some ps →
  shutdownVms st = Some vms →
  2 * (length ps + length vms) ≤ length sched' →
  let res := disableMaintenanceMode ref {| d_errors := [] |} (start (c_world c) sched') in
  res.1.1 = Returned tt ∧
  SRs (c_world res.2) = SRs w ∧ VDIs (c_world res.2) = VDIs w ∧
  VBDs (c_world res.2) = VBDs w ∧ VMs (c_world res.2) = VMs w ∧
  PBDs (c_world res.2) = PBDs w.
Proof.
  intros [l Hbody]%enable_returned HuniqV HuniqP Hff Hrec Hps Hvms Hlen res.
  apply body_returned in Hbody as [s Hm].
  set (w1 := c_world c) in *.
  assert (Hs1 : SRs w1 !! ref = Some (in_maintenance s (state l))).
  { by rewrite (mf_SRs _ _ _ _ _ Hm), lookup_insert_eq. }
  assert (st = state l) as ->.
  { unfold maintenance_record in Hrec. rewrite Hs1 in Hrec. simpl in Hrec.
    rewrite lookup_insert_eq in Hrec. by injection Hrec. }
  destruct (mf_vms _ _ _ _ _ Hm) as (vms' & Hvms' & Hndv & Hprovv & Hcovv).
  rewrite Hvms in Hvms'. injection Hvms' as <-.
  destruct (mf_pbds _ _ _ _ _ Hm) as (ps' & Hps' & Hprovp & Hcovp).
  rewrite Hps in Hps'. injection Hps' as <-.
  (* the removal of the key *)
  set (remove := SR_remove_from_other_config ref OC_MAINTENANCE).
  destruct (disable_prelude ref w1 sched' (in_maintenance s (state l)) (state l)
              {| d_errors := [] |}) as (_ & _ & _ & Hdis).
  { done. }
  { simpl. by rewrite lookup_insert_eq. }
  { by apply Hff. }
  { apply Hff. lia. }
  assert (E2 : (exec (tick w1) remove).2 =
               tick (with_other_config (tick w1) ref (in_maintenance s (state l))
                       (delete OC_MAINTENANCE
                          (sr_other_config (in_maintenance s (state l)))))).
  { rewrite exec_unfaulted by (apply Hff; simpl; lia).
    simpl. unfold on_sr. simpl. rewrite Hs1. simpl. by rewrite lookup_insert_eq. }
  set (w2 := (exec (tick w1) remove).2) in *.
  assert (HSR2 : SRs w2 = SRs w).
  { rewrite E2. simpl. rewrite (mf_SRs _ _ _ _ _ Hm), insert_insert_eq.
    rewrite delete_insert_eq. rewrite delete_id by apply Hm.
    rewrite sr_record_eta. apply insert_id, Hm. }
  assert (HVM2 : VMs w2 = VMs w1) by by rewrite E2.
  assert (HPBD2 : PBDs w2 = PBDs w1) by by rewrite E2.
  assert (HVDI2 : VDIs w2 = VDIs w) by (rewrite E2; apply Hm).
  assert (HVBD2 : VBDs w2 = VBDs w) by (rewrite E2; apply Hm).
  assert (Hff2 : fault_free_from w2 (now w2)).
  { rewrite E2. intros t call Ht. simpl in *. apply Hff. lia. }
  (* the pool after the first call, object by object *)
  assert (HVM1 : ∀ vm, VMs w1 !! vm = VMs w !! vm ∨
            (vm ∈ (runningVms l).*1 ∧ VMs w1 !! vm = halt <$> VMs w !! vm)).
  { intros vm. destruct (decide (vm ∈ (runningVms l).*1)) as [Hin|Hout].
    - right. split; [done|]. by apply (mf_halted _ _ _ _ _ Hm).
    - left. by apply (mf_others _ _ _ _ _ Hm). }
  assert (Huuid1 : ∀ vm v1, VMs w1 !! vm = Some v1 →
            ∃ v, VMs w !! vm = Some v ∧ vm_uuid v = vm_uuid v1).
  { intros vm v1 Hv1. destruct (HVM1 vm) as [E|[_ E]]; rewrite Hv1 in E.
    - by exists v1.
    - destruct (VMs w !! vm) as [v|]; [|done]. injection E as ->. by exists v. }
  assert (HuniqV1 : unique_uuids vm_uuid (VMs w2)).
  { rewrite HVM2. intros r1 r2 x1 x2 H1 H2 Hu.
    destruct (Huuid1 _ _ H1) as (y1 & Hy1 & Hu1), (Huuid1 _ _ H2) as (y2 & Hy2 & Hu2).
    eapply HuniqV; [done..|congruence]. }
  assert (HPBD1 : ∀ pbd p1, PBDs w1 !! pbd = Some p1 →
            ∃ p, PBDs w !! pbd = Some p ∧ pbd_uuid p = pbd_uuid p1).
  { intros pbd p1 Hp1. destruct (decide (pbd ∈ sr_PBDs s)) as [Hin|Hout].
    - destruct (mf_detached _ _ _ _ _ Hm pbd Hin) as (p & Hp & Hp').
      rewrite Hp1 in Hp'. injection Hp' as ->. by exists p.
    - rewrite (mf_other_pbds _ _ _ _ _ Hm pbd Hout) in Hp1. by exists p1. }
  (* the restoration *)
  destruct (restoreAll_restores (state l) ps vms w2
              [call_event (SR_get_other_config ref) w1; call_event remove (tick w1)]
              sched' {| d_errors := [] |})
    as (Hret & HSR3 & HVDI3 & HVBD3 & HPBD3 & Hplugged & HVM3 & Hstarted); try done.
  { intros u Hu. destruct (Hprovp u Hu) as (pbd & p & Hin & Hp & Hup & _).
    destruct (mf_detached _ _ _ _ _ Hm pbd Hin) as (p' & Hp' & Hp1).
    rewrite Hp in Hp'. injection Hp' as <-.
    exists pbd, (detach p). by rewrite HPBD2. }
  { intros u f Hin. destruct (Hprovv u f Hin) as (vm & v & Ht & Hv & Hu).
    exists vm, (halt v). rewrite HVM2. split_and!; try done.
    rewrite (mf_halted _ _ _ _ _ Hm vm), Hv; [done|].
    apply list_elem_of_fmap. by exists (vm, f). }
  subst res. rewrite Hdis. fold remove. fold w2.
  split_and!; [done| | | | |].
  - congruence.
  - congruence.
  - congruence.
  - (* the VMs *)
    apply map_eq. intros vm.
    destruct (decide (vm ∈ (runningVms l).*1)) as [Hin|Hout].
    + pose proof Hin as Hin'. apply elem_of_fst_pair in Hin' as [f Hf].
      destruct (proj1 (Forall_forall _ _) (mf_genuine _ _ _ _ _ Hm) _ Hf)
        as (v & Hv & Hr & Hflag). simpl in Hv, Hflag.
      assert (Hv1 : VMs w2 !! vm = Some (halt v)).
      { by rewrite HVM2, (mf_halted _ _ _ _ _ Hm vm Hin), Hv. }
      destruct (Hcovv _ Hf) as (v' & Hv' & Hk). simpl in Hv'.
      rewrite Hv in Hv'. injection Hv' as <-.
      apply elem_of_fst_pair in Hk as [f' Hf'].
      destruct (Hstarted _ _ Hf') as (vm' & v' & Hv' & Hu' & E).
      assert (vm' = vm) as -> by by eapply HuniqV1.
      rewrite Hv1 in Hv'. injection Hv' as <-.
      assert (f' = f) as ->.
      { destruct (Hprovv _ _ Hf') as (vm'' & v'' & Ht'' & Hv'' & Hu'').
        assert (vm'' = vm) as -> by by eapply HuniqV.
        by eapply NoDup_fst_same; [apply Hm|..]. }
      rewrite E, Hv, Hflag. by rewrite restart_halt.
    + destruct (HVM3 vm) as [E|(v2 & f2 & Hv2 & Hin2 & _)].
      * by rewrite E, HVM2, (mf_others _ _ _ _ _ Hm vm Hout).
      * exfalso. apply Hout.
        destruct (Hprovv _ _ Hin2) as (vm'' & v'' & Ht'' & Hv'' & Hu'').
        rewrite HVM2 in Hv2. destruct (Huuid1 _ _ Hv2) as (v & Hv & Hu).
        assert (vm'' = vm) as -> by (eapply HuniqV; [done..|congruence]).
        apply list_elem_of_fmap. by exists (vm, f2).
  - (* the connections *)
    apply map_eq. intros pbd.
    assert (Hcase : PBDs (c_world (restoreAll (state l) {| d_errors := [] |}
                      {| c_world := w2;
                         c_trace := [call_event (SR_get_other_config ref) w1;
                                     call_event remove (tick w1)];
                         c_sched := sched' |}).2) !! pbd = PBDs w2 !! pbd →
                    (∀ p, PBDs w !! pbd = Some p → pbd ∈ sr_PBDs s →
                          pbd_currently_attached p = false) →
                    PBDs (c_world (restoreAll (state l) {| d_errors := [] |}
                      {| c_world := w2;
                         c_trace := [call_event (SR_get_other_config ref) w1;
                                     call_event remove (tick w1)];
                         c_sched := sched' |}).2) !! pbd = PBDs w !! pbd).
    { intros E Hdet. rewrite E, HPBD2.
      destruct (decide (pbd ∈ sr_PBDs s)) as [Hin|Hout].
      - destruct (mf_detached _ _ _ _ _ Hm pbd Hin) as (p & Hp & Hp').
        rewrite Hp, Hp'. by rewrite detach_detached by by apply Hdet.
      - by apply (mf_other_pbds _ _ _ _ _ Hm). }
    destruct (HPBD3 pbd) as [E|(p2 & Hp2 & Hin2 & E)].
    + destruct (decide (pbd ∈ sr_PBDs s)) as [Hin|Hout].
      * destruct (mf_detached _ _ _ _ _ Hm pbd Hin) as (p & Hp & Hp').
        destruct (pbd_currently_attached p) eqn:Eatt.
        -- (* it was attached: it has been reattached *)
           pose proof (Hcovp pbd p Hin Hp Eatt) as Hu.
           destruct (Hplugged _ Hu) as (pbd' & p' & Hp'' & Hu' & E').
           rewrite HPBD2 in Hp''.
           destruct (HPBD1 _ _ Hp'') as (p0 & Hp0 & Hu0).
           assert (pbd' = pbd) as -> by (eapply HuniqP; [done..|congruence]).
           rewrite Hp' in Hp''. injection Hp'' as <-.
           rewrite E', Hp. by rewrite attach_detach.
        -- apply Hcase; [done|]. intros p' Hp'' _. rewrite Hp in Hp''. by injection Hp'' as <-.
      * apply Hcase; [done|]. by intros p' _ Hin.
    + (* a connection reattached was attached at first *)
      destruct (Hprovp _ Hin2) as (pbd' & p' & Hin' & Hp' & Hu' & Hatt').
      rewrite HPBD2 in Hp2. destruct (HPBD1 _ _ Hp2) as (p0 & Hp0 & Hu0).
      assert (pbd' = pbd) as -> by (eapply HuniqP; [done..|congruence]).
      rewrite Hp0 in Hp'. injection Hp' as ->.
      destruct (mf_detached _ _ _ _ _ Hm pbd Hin') as (p & Hp & Hp1).
      rewrite Hp0 in Hp. injection Hp as <-.
      rewrite Hp2 in Hp1. injection Hp1 as ->.
      rewrite E, Hp0. by rewrite attach_detach.
Qed.

(** * Proofs: the order of the disruptive steps *)

Lemma bind_cases {L A B} (m : M L A) (k : A → M L B) l c o l' c' :
  bind m k l c = (o, l', c') →
  (∃ a l1 c1, m l c = (Returned a, l1, c1) ∧ k a l1 c1 = (o, l', c')) ∨
  ((m l c).2 = c' ∧ (m l c).1.2 = l' ∧ ∀ b, o ≠ Returned b).
Proof.
  unfold bind. destruct (m l c) as [[[a|e|] l1] c1]; intros H.
  - left. by exists a, l1, c1.
  - right. by simplify_eq.
  - right. by simplify_eq.
Qed.

Lemma exec_unplug_call_VMs w call : unplug_call call → VMs (exec w call).2 = VMs w.
Proof.
  intros Hc. unfold exec. destruct (fault w (now w) call); [done|].
  destruct (answer w call) as [r wa] eqn:E. simpl.
  destruct call; try done; simpl in E; unfold on_sr, on_pbd in E;
    repeat case_match; by simplify_eq.
Qed.

Lemma steps_unplug_VMs w t w' :
  steps unplug_call w t w' →
  VMs w' = VMs w ∧ Forall (λ ev, VMs (ev_world ev) = VMs w) t.
Proof.
  induction 1 as [|w t w' call _ [IH1 IH2] Hc]; [done|].
  pose proof (exec_unplug_call_VMs w' call Hc) as E. split; [congruence|].
  apply Forall_app. split; [done|]. apply Forall_singleton. simpl. congruence.
Qed.

Lemma steps_no_detach (allowed : rcall → Prop) w t w' ev :
  (∀ call, allowed call → unplug_call call = false ∨ getter call ∨ shutdown_call call) →
  steps allowed w t w' → ev ∈ t → detach_attempt ev = false.
Proof.
  intros Hall Hsteps Hev. apply steps_calls in Hsteps.
  rewrite Forall_forall in Hsteps. specialize (Hsteps _ Hev). apply Hall in Hsteps.
  unfold detach_attempt. destruct (ev_call ev); try done. by destruct Hsteps as [?|[?|?]].
Qed.

Lemma await_cfg {L} call (l : L) c :
  (await call l c).2 =
  {| c_world := (exec (c_world c) call).2;
     c_trace := c_trace c ++ [call_event call (c_world c)];
     c_sched := c_sched c |}.
Proof. unfold await. rewrite perform_trace. by destruct (exec (c_world c) call).1. Qed.

(** A detach is attempted only by the unplug block, which runs once the
    shutdown block has returned and leaves the VMs as that block left
    them. *)
Lemma body_detach ref vmsToShutdown w sched o l c ev :
  enableMaintenanceMode_body ref vmsToShutdown no_locals (start w sched) = (o, l, c) →
  ev ∈ c_trace c → detach_attempt ev = true →
  ∃ us l1 c1 l3 c3,
    beginMaintenance ref no_locals (start w sched) = (Returned us, l1, c1) ∧
    shutdownRunningVms l1 c1 = (Returned tt, l3, c3) ∧
    VMs (ev_world ev) = VMs (c_world c3).
Proof.
  intros Hbody Hev Hd.
  pose proof (beginMaintenance_spec ref w sched) as Hspec. cbv zeta in Hspec.
  destruct Hspec as (reads & Htr1 & Hsteps1 & _).
  assert (Hpre : ∀ ev', ev' ∈ c_trace (beginMaintenance ref no_locals (start w sched)).2 →
                        detach_attempt ev' = false).
  { intros ev'. rewrite Htr1. intros [->|Hin]%elem_of_cons; [done|].
    eapply steps_no_detach; [|done..]. intros call Hc. right. by left. }
  unfold enableMaintenanceMode_body in Hbody.
  apply bind_cases in Hbody as [(us & l1 & c1 & Hb & Hbody)|[Hc _]].
  2:{ rewrite <- Hc in Hev. apply Hpre in Hev. congruence. }
  rewrite Hb in Hpre. cbn [snd] in Hpre.
  apply bind_cases in Hbody as [([] & l2 & c2 & Hcheck & Hbody)|[Hc _]].
  2:{ unfold checkVmsToShutdown in Hc. case_decide; simpl in Hc; subst c;
        apply Hpre in Hev; congruence. }
  apply checkVmsToShutdown_returned in Hcheck as [-> ->].
  pose proof (confined_shutdownRunningVms l1 c1) as (t3 & Ht3 & Hs3).
  assert (Hpre3 : ∀ ev', ev' ∈ c_trace (shutdownRunningVms l1 c1).2 →
                         detach_attempt ev' = false).
  { intros ev'. rewrite Ht3. intros [Hin|Hin]%elem_of_app; [by apply Hpre|].
    eapply steps_no_detach; [|done..]. intros call Hc. right. by right. }
  apply bind_cases in Hbody as [([] & l3 & c3 & Hshut & Hbody)|[Hc _]].
  2:{ rewrite <- Hc in Hev. apply Hpre3 in Hev. congruence. }
  rewrite Hshut in Hpre3. cbn [snd] in Hpre3.
  pose proof (confined_unplugPbds ref l3 c3) as (t4 & Ht4 & Hs4).
  apply steps_unplug_VMs in Hs4 as [_ Hs4]. rewrite Forall_forall in Hs4.
  assert (Hpost : ∀ ev', ev' ∈ c_trace (unplugPbds ref l3 c3).2 →
                         detach_attempt ev' = true →
                         VMs (ev_world ev') = VMs (c_world c3)).
  { intros ev'. rewrite Ht4. intros [Hin|Hin]%elem_of_app Hd'.
    - apply Hpre3 in Hin. congruence.
    - by apply Hs4. }
  exists us, l1, c1, l3, c3. split_and!; [done..|].
  apply bind_cases in Hbody as [([] & l4 & c4 & Hunplug & Hbody)|[Hc _]].
  2:{ rewrite <- Hc in Hev. by apply Hpost. }
  rewrite Hunplug in Hpost. cbn [snd] in Hpost.
  apply bind_cases in Hbody as [(l5 & l6 & c6 & Hloc & Hbody)|[Hc _]].
  2:{ simpl in Hc. subst c. by apply Hpost. }
  apply locals_returned in Hloc as (-> & -> & ->).
  assert (Hc : c = (await (SR_set_other_config_entry ref OC_MAINTENANCE (state l4)) l4 c4).2).
  { apply bind_cases in Hbody as [(v & l7 & c7 & Hset & Hbody)|[Hc _]]; [|done].
    rewrite Hset. cbn [snd]. unfold ret in Hbody. congruence. }
  rewrite await_cfg in Hc. subst c. cbn [c_trace] in Hev.
  apply elem_of_app in Hev as [Hin|Hin]; [by apply Hpost|].
  apply list_elem_of_singleton in Hin. by subst ev.
Qed.

Lemma executeDeferreds_trace ds c :
  ∃ t, c_trace (executeDeferreds compensate ds c) = c_trace c ++ t ∧ ev_call <$> t = ds.
Proof.
  revert c. induction ds as [|d ds IH]; intros c; simpl.
  - exists []. by rewrite app_nil_r.
  - destruct (IH (compensate d c)) as (t & Ht & Hds).
    exists (call_event d (c_world c) :: t). rewrite Ht.
    unfold compensate. rewrite perform_trace. cbn [snd c_trace].
    rewrite <- app_assoc. split; [done|]. rewrite fmap_cons. by rewrite Hds.
Qed.

(** The calls made by the compensations: reattachments, restarts and the
    removal of the key. *)
Lemma compensation_calls ref vmsToShutdown w sched o l c ev :
  enableMaintenanceMode_body ref vmsToShutdown no_locals (start w sched) = (o, l, c) →
  ev ∈ c_trace (executeDeferreds compensate (deferreds l) c) →
  ev ∈ c_trace c ∨
  (∃ pbd, ev_call ev = PBD_plug pbd) ∨
  (∃ vm isPaused, ev_call ev = VM_start vm isPaused true) ∨
  ev_call ev = SR_remove_from_other_config ref OC_MAINTENANCE.
Proof.
  intros Hbody Hev.
  destruct (executeDeferreds_trace (deferreds l) c) as (t & Ht & Hds).
  rewrite Ht in Hev. apply elem_of_app in Hev as [Hin|Hin]; [by left|]. right.
  apply body_undoable in Hbody. cbv zeta in Hbody.
  destruct Hbody as (starts & Hdef & _).
  assert (Hin' : ev_call ev ∈ deferreds l).
  { rewrite <- Hds. by apply list_elem_of_fmap_2. }
  rewrite Hdef in Hin'. unfold compensations in Hin'.
  apply elem_of_app in Hin' as [Hin'|Hin'].
  { apply list_elem_of_fmap in Hin' as (p & E & _). left. by exists p. }
  apply elem_of_app in Hin' as [Hin'|Hin'].
  { apply list_elem_of_fmap in Hin' as (p & E & _). right. left. by exists p.1, p.2. }
  destruct (is_Reply _); [|by apply elem_of_nil in Hin'].
  apply list_elem_of_singleton in Hin'. by right; right.
Qed.

(** X13: order of the disruptive steps of [enableMaintenanceMode]: whatever
    the outcome of the call and whichever calls fail, a connection of the
    storage object is detached, or its detachment attempted, only when every
    VM that was running or paused with a disk on the storage object has been
    shut down. *)
Theorem detach_only_after_shutdowns ref vmsToShutdown w sched ev :
  ev ∈ c_trace (enableMaintenanceMode ref vmsToShutdown w sched).2 →
  detach_attempt ev = true →
  ∃ s, SRs w !! ref = Some s ∧
       ∀ vm v, VMs w !! vm = Some v → user w (sr_VDIs s) vm → is_running v = true →
               VMs (ev_world ev) !! vm = Some (halt v).
Proof.
  intros Hev Hd. unfold enableMaintenanceMode, defer in Hev.
  destruct (enableMaintenanceMode_body ref vmsToShutdown no_locals (start w sched))
    as [[o l] c] eqn:Hbody.
  assert (Hin : ev ∈ c_trace c).
  { destruct o; cbn [snd] in Hev; [done| |done].
    destruct (compensation_calls _ _ _ _ _ _ _ _ Hbody Hev)
      as [?|[[p E]|[(p & f & E)|E]]]; [done|..];
      unfold detach_attempt in Hd; by rewrite E in Hd. }
  clear Hev.
  destruct (body_detach _ _ _ _ _ _ _ _ Hbody Hin Hd)
    as (us & l1 & c1 & l3 & c3 & Hbegin & Hshut & HVMs).
  apply beginMaintenance_complete in Hbegin
    as (s & Hs & _ & _ & _ & _ & _ & HVM1 & _ & _ & _ & _ & Hcov).
  apply shutdownRunningVms_complete in Hshut as [Hshut _].
  destruct Hshut as (_ & _ & _ & _ & _ & _ & _ & _ & Hdone).
  exists s. split; [done|]. intros vm v Hv Hu Hrun.
  specialize (Hcov vm Hu v Hv Hrun).
  apply list_elem_of_fmap in Hcov as (target & -> & Htarget).
  destruct (Hdone target Htarget) as [(pc & Hpc & _)|[_ Hh]].
  { by apply elem_of_nil in Hpc. }
  rewrite HVMs, Hh, HVM1, Hv. done.
Qed.

(** * Proofs: maintenance mode is exclusive *)

Lemma enable_on_maintained ref vmsToShutdown w sched s st :
  SRs w !! ref = Some s →
  sr_other_config s !! OC_MAINTENANCE = Some st →
  let add := SR_add_to_other_config ref OC_MAINTENANCE (placeholder (now w)) in
  ∃ e,
    enableMaintenanceMode ref vmsToShutdown w sched =
      (Threw e,
       {| c_world := tick w;
          c_trace := [{| ev_call := add; ev_reply := Raise e; ev_world := tick w |}];
          c_sched := sched |}) ∧
    (fault w (now w) add = None →
       e = XapiError "MAP_DUPLICATE_KEY" ["SR"; "other_config"; ref; OC_MAINTENANCE]).
Proof.
  intros Hs Hst add.
  assert (Hexec : ∃ e, exec w add = (Raise e, tick w) ∧
    (fault w (now w) add = None →
       e = XapiError "MAP_DUPLICATE_KEY" ["SR"; "other_config"; ref; OC_MAINTENANCE])).
  { unfold exec. destruct (fault w (now w) add) as [e|]; [by exists e|].
    simpl. unfold on_sr. rewrite Hs, Hst. eauto. }
  destruct Hexec as (e & He & Hcode). exists e. split; [|done].
  unfold enableMaintenanceMode, defer, enableMaintenanceMode_body.
  unfold bind at 1. rewrite beginMaintenance_unfold. cbv zeta.
  rewrite perform_trace. unfold call_event, start. cbn [c_world c_trace c_sched].
  fold add. rewrite He. done.
Qed.

(** X14: maintenance mode is exclusive: once [enableMaintenanceMode] has
    returned, a further call on the same storage object, whatever its
    arguments and schedule, throws at its first remote call (with
    [MAP_DUPLICATE_KEY] unless that call is failed by a fault), makes no other
    call, runs no compensation, and leaves the pool as it was, the stored
    maintenance state of the first call included. *)
Theorem second_enable_is_refused ref vmsToShutdown w sched c vmsToShutdown' sched' :
  enableMaintenanceMode ref vmsToShutdown w sched = (Returned tt, c) →
  let w' := c_world c in
  let add := SR_add_to_other_config ref OC_MAINTENANCE (placeholder (now w')) in
  let res := enableMaintenanceMode ref vmsToShutdown' w' sched' in
  ∃ e st,
    res.1 = Threw e ∧
    (fault w' (now w') add = None →
       e = XapiError "MAP_DUPLICATE_KEY" ["SR"; "other_config"; ref; OC_MAINTENANCE]) ∧
    ev_call <$> c_trace res.2 = [add] ∧
    c_world res.2 = tick w' ∧
    maintenance_record w' ref = Some st ∧
    maintenance_record (c_world res.2) ref = Some st.
Proof.
  intros Hen w' add res.
  apply enable_returned in Hen as (l & Hbody).
  apply body_returned in Hbody as (s & Hm).
  assert (Hrec : SRs w' !! ref = Some (in_maintenance s (state l))).
  { unfold w'. rewrite (mf_SRs _ _ _ _ _ Hm). by rewrite lookup_insert_eq. }
  destruct (enable_on_maintained ref vmsToShutdown' w' sched' _ (state l) Hrec)
    as (e & Hres & Hcode).
  { simpl. by rewrite lookup_insert_eq. }
  exists e, (state l). unfold res. rewrite Hres. cbn [fst snd c_world c_trace].
  split_and!; try done.
  - unfold maintenance_record. rewrite Hrec. simpl. by rewrite lookup_insert_eq.
  - unfold maintenance_record. simpl. rewrite Hrec. simpl. by rewrite lookup_insert_eq.
Qed.

(** * Proofs: which VMs are shut down *)

(** The events of a run of reads are made on pools that hold the objects
    of the pool the run started from. *)
Lemma steps_getter_events w t w' :
  steps getter w t w' →
  Forall (λ ev, ∃ wi, same_objects w wi ∧ ev = call_event (ev_call ev) wi) t.
Proof.
  induction 1 as [|w t w' call Hsteps IH Hc]; [constructor|].
  apply Forall_app. split; [done|]. apply Forall_singleton.
  exists w'. split; [by apply steps_getter_same in Hsteps|done].
Qed.

(** The shutdown block attempts to shut down VMs of [runningVms] only. *)
Lemma shutdownRunningVms_targets l c ev vm :
  ev ∈ c_trace (shutdownRunningVms l c).2 → shutdown_attempt ev vm →
  ev ∈ c_trace c ∨ vm ∈ (runningVms l).*1.
Proof.
  unfold shutdownRunningVms. unfold bind, assign, locals, asyncMapSettled.
  cbn [c_world c_trace c_sched runningVms set_state].
  match goal with |- context [run_pool _ _ _ ?sc ?po _ ?l0 _ _] =>
    destruct (run_pool_invariant shutdown_awaited shutdown_resume
      (λ pool _ _ tr,
         Forall (λ pc, (shutdown_target pc).1 ∈ (runningVms l).*1) pool ∧
         ∀ ev vm, ev ∈ tr → shutdown_attempt ev vm →
                  ev ∈ c_trace c ∨ vm ∈ (runningVms l).*1))
      with (settled := true) (sched := sc) (pool := po)
           (failure := @None error) (l := l0) (w := c_world c) (tr := c_trace c)
      as (pool' & (_ & Hall) & _)
  end.
  - clear. intros before pc after l' w tr (Hpool & Hall).
    apply Forall_app in Hpool as [Hb Hpool]. apply Forall_cons in Hpool as [Hpc Ha].
    split.
    + apply Forall_app. split; [by apply Forall_app|].
      unfold shutdown_resume.
      destruct pc as [ref f|ref f|ref f]; simpl in *;
        destruct (exec w _).1 as [v|e]; simpl; repeat case_match; simpl;
        repeat constructor; done.
    + intros ev vm [Hin|Hin]%elem_of_app Hat; [by apply Hall|].
      apply list_elem_of_singleton in Hin. subst ev. right.
      destruct pc as [ref f|ref f|ref f]; destruct Hat as [Hat|Hat]; simpl in *;
        by simplify_eq.
  - split; [|by left].
    apply Forall_forall. intros pc ([vm' f] & -> & Hin)%list_elem_of_fmap. simpl.
    apply list_elem_of_fmap. by exists (vm', f).
  - intros Hev Hat. by apply (Hall ev vm).
Qed.

(** A shutdown is attempted only by the shutdown block, which runs once
    the check of [vmsToShutdown] has passed. *)
Lemma body_shutdown_attempt ref vmsToShutdown w sched o l c ev vm :
  enableMaintenanceMode_body ref vmsToShutdown no_locals (start w sched) = (o, l, c) →
  ev ∈ c_trace c → shutdown_attempt ev vm →
  ∃ us l1 c1,
    beginMaintenance ref no_locals (start w sched) = (Returned us, l1, c1) ∧
    Forall (λ u, u ∈ vmsToShutdown) us ∧
    vm ∈ (runningVms l1).*1.
Proof.
  intros Hbody Hev Hat.
  pose proof (beginMaintenance_spec ref w sched) as Hspec. cbv zeta in Hspec.
  destruct Hspec as (reads & Htr1 & Hsteps1 & _).
  assert (Hpre : no_attempt (c_trace (beginMaintenance ref no_locals (start w sched)).2)).
  { rewrite Htr1. intros ev' vm' [->|Hin]%elem_of_cons Hat'.
    - by destruct Hat'.
    - apply getter_trace_quiet in Hsteps1.
      by apply (quiet_no_attempt _ Hsteps1 ev' vm'). }
  unfold enableMaintenanceMode_body in Hbody.
  apply bind_cases in Hbody as [(us & l1 & c1 & Hb & Hbody)|[Hc _]].
  2:{ rewrite <- Hc in Hev. by destruct (Hpre ev vm). }
  rewrite Hb in Hpre. cbn [snd] in Hpre.
  apply bind_cases in Hbody as [([] & l2 & c2 & Hcheck & Hbody)|[Hc _]].
  2:{ unfold checkVmsToShutdown in Hc. case_decide; simpl in Hc; subst c;
        by destruct (Hpre ev vm). }
  assert (Hall : Forall (λ u, u ∈ vmsToShutdown) us).
  { unfold checkVmsToShutdown in Hcheck. by case_decide. }
  apply checkVmsToShutdown_returned in Hcheck as [-> ->].
  exists us, l1, c1. split_and!; [done..|].
  assert (Hpre3 : ∀ ev', ev' ∈ c_trace (shutdownRunningVms l1 c1).2 →
                         shutdown_attempt ev' vm → vm ∈ (runningVms l1).*1).
  { intros ev' Hin Hat'.
    destruct (shutdownRunningVms_targets l1 c1 ev' vm Hin Hat') as [Hold|?]; [|done].
    by destruct (Hpre ev' vm). }
  apply bind_cases in Hbody as [([] & l3 & c3 & Hshut & Hbody)|[Hc _]].
  2:{ rewrite <- Hc in Hev. by apply (Hpre3 ev). }
  rewrite Hshut in Hpre3. cbn [snd] in Hpre3.
  pose proof (confined_unplugPbds ref l3 c3) as (t4 & Ht4 & Hs4).
  apply steps_calls, unplug_call_no_attempt in Hs4.
  assert (Hpost : ∀ ev', ev' ∈ c_trace (unplugPbds ref l3 c3).2 →
                         shutdown_attempt ev' vm → vm ∈ (runningVms l1).*1).
  { intros ev'. rewrite Ht4. intros [Hin|Hin]%elem_of_app Hat'.
    - by apply (Hpre3 ev').
    - by destruct (Hs4 ev' vm). }
  apply bind_cases in Hbody as [([] & l4 & c4 & Hunplug & Hbody)|[Hc _]].
  2:{ rewrite <- Hc in Hev. by apply (Hpost ev). }
  rewrite Hunplug in Hpost. cbn [snd] in Hpost.
  apply bind_cases in Hbody as [(l5 & l6 & c6 & Hloc & Hbody)|[Hc _]].
  2:{ simpl in Hc. subst c. by apply (Hpost ev). }
  apply locals_returned in Hloc as (-> & -> & ->).
  assert (Hc : c = (await (SR_set_other_config_entry ref OC_MAINTENANCE (state l4)) l4 c4).2).
  { apply bind_cases in Hbody as [(v & l7 & c7 & Hset & Hbody)|[Hc _]]; [|done].
    rewrite Hset. cbn [snd]. unfold ret in Hbody. congruence. }
  rewrite await_cfg in Hc. subst c. cbn [c_trace] in Hev.
  apply elem_of_app in Hev as [Hin|Hin]; [by apply (Hpost ev)|].
  apply list_elem_of_singleton in Hin. subst ev. by destruct Hat.
Qed.

(** X15: which VMs [enableMaintenanceMode] may shut down: whatever the
    outcome of the call and whichever calls fail, a clean or hard shutdown is
    attempted only on a VM which was running or paused when the call started,
    has a disk on the storage object, and whose uuid the caller listed in
    [vmsToShutdown]. *)
Theorem shutdowns_are_consented ref vmsToShutdown w sched ev vm :
  ev ∈ c_trace (enableMaintenanceMode ref vmsToShutdown w sched).2 →
  shutdown_attempt ev vm →
  ∃ s v, SRs w !! ref = Some s ∧ VMs w !! vm = Some v ∧
         user w (sr_VDIs s) vm ∧ is_running v = true ∧
         vm_uuid v ∈ vmsToShutdown.
Proof.
  intros Hev Hat. unfold enableMaintenanceMode, defer in Hev.
  destruct (enableMaintenanceMode_body ref vmsToShutdown no_locals (start w sched))
    as [[o l] c] eqn:Hbody.
  assert (Hin : ev ∈ c_trace c).
  { destruct o; cbn [snd] in Hev; [done| |done].
    destruct (compensation_calls _ _ _ _ _ _ _ _ Hbody Hev)
      as [?|[[p E]|[(p & f & E)|E]]]; [done|..];
      destruct Hat as [E'|E']; by rewrite E in E'. }
  clear Hev.
  destruct (body_shutdown_attempt _ _ _ _ _ _ _ _ _ Hbody Hin Hat)
    as (us & l1 & c1 & Hbegin & Hall & Hvm).
  pose proof (beginMaintenance_discovered _ _ _ _ _ _ Hbegin) as [_ Hread].
  pose proof (beginMaintenance_returned _ _ _ _ _ _ Hbegin) as Hret. cbv zeta in Hret.
  destruct Hret as (va & reads & _ & Htr & Hsteps & _).
  apply beginMaintenance_complete in Hbegin
    as (s & Hs & _ & _ & _ & _ & _ & HVM1 & _ & Hgen & Husers & _ & _).
  rewrite Forall_forall in Husers. pose proof (Husers vm Hvm) as Hu.
  apply list_elem_of_fmap in Hvm as (target & -> & Htarget).
  rewrite Forall_forall in Hgen. destruct (Hgen target Htarget) as (v & Hv & Hrun & _).
  exists s, v. split_and!; [done..|].
  apply list_elem_of_lookup in Htarget as [i Hi].
  destruct (Forall2_lookup_l _ _ _ _ _ Hread Hi) as (u & Hu' & ev0 & Hev0 & Hcall & Hreply).
  rewrite Forall_forall in Hall.
  assert (Huin : u ∈ vmsToShutdown) by (apply Hall; by eapply list_elem_of_lookup_2).
  rewrite Htr in Hev0. apply elem_of_cons in Hev0 as [->|Hev0]; [done|].
  pose proof (steps_getter_same _ _ _ Hsteps) as (_ & _ & _ & _ & HVMa & _).
  apply steps_getter_events in Hsteps. rewrite Forall_forall in Hsteps.
  destruct (Hsteps ev0 Hev0) as (wi & (_ & _ & _ & _ & HVMi & _) & Eev).
  rewrite Eev, Hcall in Hreply. simpl in Hreply.
  apply exec_replied in Hreply as (_ & Hans & _).
  apply answer_VM_get_uuid in Hans as (r & Hr & [= ->]).
  rewrite HVMi, <- HVMa, HVM1, Hv in Hr. by injection Hr as <-.
Qed.

(** * Proofs: the entries recorded by the shutdown block *)

Lemma assoc_set_here {A} k (v : A) m : (k, v) ∈ assoc_set k v m.
Proof.
  induction m as [|[k' v'] m IH]; simpl; [by left|].
  case_decide; [by left|by right].
Qed.

Lemma assoc_set_other {A} k (v : A) m k' v' :
  k' ≠ k → (k', v') ∈ m → (k', v') ∈ assoc_set k v m.
Proof.
  intros Hne. induction m as [|[k0 v0] m IH]; simpl; [by intros ?%elem_of_nil|].
  intros [[= <- <-]|H]%elem_of_cons.
  - rewrite decide_False by done. by left.
  - case_decide; right; [done|by apply IH].
Qed.

(** No call changes the uuid of a VM. *)
Lemma exec_keeps_uuids w call vm :
  vm_uuid <$> VMs (exec w call).2 !! vm = vm_uuid <$> VMs w !! vm.
Proof.
  unfold exec. destruct (fault w (now w) call); [done|].
  destruct (answer w call) as [r wa] eqn:E. simpl.
  assert (Hset : ∀ ref v p, VMs w !! ref = Some v →
            vm_uuid <$> VMs (with_power_state w ref v p) !! vm = vm_uuid <$> VMs w !! vm).
  { intros ref v p Hv. simpl. destruct (decide (ref = vm)) as [->|Hne].
    - by rewrite lookup_insert_eq, Hv.
    - by rewrite lookup_insert_ne. }
  destruct call; simpl in E; unfold on_sr, on_vm, on_pbd, setFieldEntry_other_config in E;
    repeat case_match; simplify_eq; try done; by apply Hset.
Qed.

Section Recording.
Variable w0 : world.
Variable targets : list (string * bool).
Variable tr0 : list event.
Hypothesis Huniq : unique_uuids vm_uuid (VMs w0).
Hypothesis Hnd : NoDup targets.*1.

Lemma entry_kept vms ref v0 f vm' v' f' :
  VMs w0 !! ref = Some v0 → (ref, f) ∈ targets →
  VMs w0 !! vm' = Some v' → (vm', f') ∈ targets →
  (vm_uuid v', f') ∈ vms →
  (vm_uuid v', f') ∈ assoc_set (vm_uuid v0) f vms.
Proof.
  intros Hv0 Ht Hv' Ht' Hin.
  destruct (decide (vm_uuid v' = vm_uuid v0)) as [E|Hne].
  - pose proof (Huniq _ _ _ _ Hv' Hv0 E) as ->.
    rewrite (NoDup_fst_same _ _ _ _ Hnd Ht' Ht), E. apply assoc_set_here.
  - by apply assoc_set_other.
Qed.

Lemma recording_step before pc after l w tr :
  recording w0 targets tr0 (before ++ pc :: after) l w tr →
  recording w0 targets tr0
    ((before ++ after) ++
       successors (shutdown_resume pc (exec w (shutdown_awaited pc)).1 l).2)
    (shutdown_resume pc (exec w (shutdown_awaited pc)).1 l).1
    (exec w (shutdown_awaited pc)).2
    (tr ++ [fired shutdown_awaited pc w]).
Proof.
  intros (Hu & Hpool & vms & Hvms & Hrec & Hatt).
  apply Forall_app in Hpool as [Hpb Hpool]. apply Forall_cons in Hpool as [Hpc Hpa].
  apply Forall_app in Hrec as [Hrb Hrec]. apply Forall_cons in Hrec as [Hrpc Hra].
  assert (Hu' : ∀ vm, vm_uuid <$> VMs (exec w (shutdown_awaited pc)).2 !! vm =
                      vm_uuid <$> VMs w0 !! vm).
  { intros vm. by rewrite exec_keeps_uuids. }
  assert (Hrest : Forall (λ pc, shutdown_target pc ∈ targets) (before ++ after))
    by (by apply Forall_app).
  assert (Hrrest : Forall (shutdown_pc_recorded w0 vms) (before ++ after))
    by (by apply Forall_app).
  (* the facts that hold when the state is left as it is *)
  assert (Hsame : ∀ l' next,
    shutdownVms (state l') = Some vms →
    Forall (λ pc, shutdown_target pc ∈ targets) next →
    Forall (shutdown_pc_recorded w0 vms) next →
    (∀ vm, shutdown_attempt (fired shutdown_awaited pc w) vm →
       ∃ v f, (vm, f) ∈ targets ∧ VMs w0 !! vm = Some v ∧ (vm_uuid v, f) ∈ vms) →
    recording w0 targets tr0 ((before ++ after) ++ next) l'
      (exec w (shutdown_awaited pc)).2 (tr ++ [fired shutdown_awaited pc w])).
  { intros l' next Hl' Hn1 Hn2 Hnew. split_and!; [done|by apply Forall_app|].
    exists vms. split_and!; [done|by apply Forall_app|].
    intros ev vm [Hin|Hin]%elem_of_app Hat; [by apply Hatt|].
    apply list_elem_of_singleton in Hin. subst ev. right. by apply Hnew. }
  destruct pc as [ref f|ref f|ref f]; cbn [shutdown_resume shutdown_awaited] in *.
  - (* the uuid is read: the entry is recorded *)
    destruct (exec w (VM_get_uuid ref)).1 as [v|e] eqn:E.
    2:{ apply Hsame; [done|constructor|constructor|]. by intros vm [|]. }
    destruct v as [|b|uuid|refs|p|oc];
      try (apply Hsame; [done|constructor|constructor|]; by intros vm [|]).
    unfold set_shutdownVm. rewrite Hvms. simpl.
    apply exec_replied in E as (_ & Ha & _).
    apply answer_VM_get_uuid in Ha as (r & Hr & [= ->]).
    assert (Hv0 : ∃ v0, VMs w0 !! ref = Some v0 ∧ vm_uuid v0 = vm_uuid r).
    { specialize (Hu ref). rewrite Hr in Hu. simpl in Hu.
      destruct (VMs w0 !! ref) as [v0|]; [|done]. exists v0. split; [done|].
      simpl in Hu. congruence. }
    destruct Hv0 as (v0 & Hv0 & Euuid). rewrite <- Euuid.
    simpl in Hpc.
    split_and!; [done| |].
    { apply Forall_app. split; [done|]. by repeat constructor. }
    exists (assoc_set (vm_uuid v0) f vms). split_and!; [done| |].
    + apply Forall_app. split.
      * rewrite Forall_forall in Hrrest, Hrest. apply Forall_forall. intros pc' Hpc'.
        specialize (Hrrest pc' Hpc'). specialize (Hrest pc' Hpc').
        destruct pc' as [ref' f'|ref' f'|ref' f']; [done|..]; simpl in *;
          destruct Hrrest as (v' & Hv' & Hin'); exists v'; (split; [done|]);
          by eapply entry_kept.
      * apply Forall_singleton. simpl. exists v0. split; [done|]. apply assoc_set_here.
    + intros ev vm [Hin|Hin]%elem_of_app Hat.
      * destruct (Hatt ev vm Hin Hat) as [?|(v' & f' & Ht' & Hv' & Hin')]; [by left|].
        right. exists v', f'. split_and!; [done..|]. by eapply entry_kept.
      * apply list_elem_of_singleton in Hin. subst ev. by destruct Hat.
  - (* the clean shutdown: the entry is there *)
    simpl in Hpc, Hrpc. destruct Hrpc as (v & Hv & Hin).
    destruct (exec w (VM_clean_shutdown ref)).1 as [r|e]; simpl.
    + apply Hsame; [done|constructor|constructor|].
      intros vm [[= <-]|[=]]. by exists v, f.
    + apply Hsame; [done|by repeat constructor| |].
      * apply Forall_singleton. simpl. by exists v.
      * intros vm [[= <-]|[=]]. by exists v, f.
  - (* the hard shutdown *)
    simpl in Hpc, Hrpc. destruct Hrpc as (v & Hv & Hin).
    destruct (exec w (VM_hard_shutdown ref)).1 as [r|e]; simpl.
    + apply Hsame; [done|constructor|constructor|].
      intros vm [[=]|[= <-]]. by exists v, f.
    + apply Hsame; [done|constructor|constructor|].
      intros vm [[=]|[= <-]]. by exists v, f.
Qed.
End Recording.

(** Whatever its outcome, the shutdown block leaves in memory the entry of
    every VM whose shutdown it attempted. *)
Lemma shutdownRunningVms_recorded l c ev vm :
  unique_uuids vm_uuid (VMs (c_world c)) →
  NoDup (runningVms l).*1 →
  ev ∈ c_trace (shutdownRunningVms l c).2 → shutdown_attempt ev vm →
  ev ∈ c_trace c ∨
  ∃ v f vms, (vm, f) ∈ runningVms l ∧ VMs (c_world c) !! vm = Some v ∧
             shutdownVms (state (shutdownRunningVms l c).1.2) = Some vms ∧
             (vm_uuid v, f) ∈ vms.
Proof.
  intros Huniq Hnd. unfold shutdownRunningVms. unfold bind, assign, locals, asyncMapSettled.
  cbn [c_world c_trace c_sched runningVms set_state].
  match goal with |- context [run_pool _ _ _ ?sc ?po _ ?l0 _ _] =>
    destruct (run_pool_invariant shutdown_awaited shutdown_resume
      (recording (c_world c) (runningVms l) (c_trace c)))
      with (settled := true) (sched := sc) (pool := po)
           (failure := @None error) (l := l0) (w := c_world c) (tr := c_trace c)
      as (pool' & (_ & _ & vms & Hvms & _ & Hall) & _)
  end.
  - intros. by apply recording_step.
  - split_and!; [done| |].
    + apply Forall_forall. intros pc ([vm' f] & -> & Hin)%list_elem_of_fmap. done.
    + exists []. split_and!; [done| |by left].
      apply Forall_forall. by intros pc ([vm' f] & -> & Hin)%list_elem_of_fmap.
  - intros Hev Hat. destruct (Hall ev vm Hev Hat) as [?|(v & f & H1 & H2 & H3)]; [by left|].
    right. by exists v, f, vms.
Qed.

Lemma body_recorded ref vmsToShutdown w sched o l c :
  enableMaintenanceMode_body ref vmsToShutdown no_locals (start w sched) = (o, l, c) →
  unique_uuids vm_uuid (VMs w) →
  all_recorded w l (c_trace c).
Proof.
  intros Hbody Huniq ev vm Hev Hat.
  pose proof (beginMaintenance_spec ref w sched) as Hspec. cbv zeta in Hspec.
  destruct Hspec as (reads & Htr1 & Hsteps1 & _).
  assert (Hpre : no_attempt (c_trace (beginMaintenance ref no_locals (start w sched)).2)).
  { rewrite Htr1. intros ev' vm' [->|Hin]%elem_of_cons Hat'.
    - by destruct Hat'.
    - apply getter_trace_quiet in Hsteps1.
      by apply (quiet_no_attempt _ Hsteps1 ev' vm'). }
  unfold enableMaintenanceMode_body in Hbody.
  apply bind_cases in Hbody as [(us & l1 & c1 & Hb & Hbody)|[Hc _]].
  2:{ rewrite <- Hc in Hev. by destruct (Hpre ev vm). }
  rewrite Hb in Hpre. cbn [snd] in Hpre.
  apply bind_cases in Hbody as [([] & l2 & c2 & Hcheck & Hbody)|[Hc _]].
  2:{ unfold checkVmsToShutdown in Hc. case_decide; simpl in Hc; subst c;
        by destruct (Hpre ev vm). }
  apply checkVmsToShutdown_returned in Hcheck as [-> ->].
  apply beginMaintenance_complete in Hb
    as (s & _ & _ & _ & _ & _ & _ & HVM1 & _ & Hgen & _ & Hnd & _).
  assert (Huniq1 : unique_uuids vm_uuid (VMs (c_world c1))) by (by rewrite HVM1).
  assert (H3 : ∀ ev', ev' ∈ c_trace (shutdownRunningVms l1 c1).2 →
                      shutdown_attempt ev' vm →
                      entry_recorded w (shutdownRunningVms l1 c1).1.2 vm).
  { intros ev' Hin Hat'.
    destruct (shutdownRunningVms_recorded l1 c1 ev' vm Huniq1 Hnd Hin Hat')
      as [Hold|(v & f & vms & Ht & Hv & Hvms & Hentry)]; [by destruct (Hpre ev' vm)|].
    rewrite Forall_forall in Hgen. destruct (Hgen _ Ht) as (v' & Hv' & _ & Hf).
    simpl in Hv', Hf. rewrite HVM1, Hv' in Hv. injection Hv as <-.
    exists v', vms. split_and!; [done..|]. by rewrite <- Hf. }
  apply bind_cases in Hbody as [([] & l3 & c3 & Hshut & Hbody)|(Hc & Hl & _)].
  2:{ rewrite <- Hc in Hev. rewrite <- Hl. by apply (H3 ev). }
  rewrite Hshut in H3. cbn [fst snd] in H3.
  pose proof (confined_unplugPbds ref l3 c3) as (t4 & Ht4 & Hs4).
  apply steps_calls, unplug_call_no_attempt in Hs4.
  pose proof (keeps_unplugPbds ref (shutdownVms (state l3)) l3 c3 eq_refl) as Hk4.
  assert (H4 : ∀ ev', ev' ∈ c_trace (unplugPbds ref l3 c3).2 →
                      shutdown_attempt ev' vm →
                      entry_recorded w (unplugPbds ref l3 c3).1.2 vm).
  { intros ev'. rewrite Ht4. intros [Hin|Hin]%elem_of_app Hat'.
    - destruct (H3 ev' Hin Hat') as (v & vms & Hv & Hvms & Hentry).
      exists v, vms. split_and!; [done| |done]. by rewrite Hk4.
    - by destruct (Hs4 ev' vm). }
  apply bind_cases in Hbody as [([] & l4 & c4 & Hunplug & Hbody)|(Hc & Hl & _)].
  2:{ rewrite <- Hc in Hev. rewrite <- Hl. by apply (H4 ev). }
  rewrite Hunplug in H4. cbn [fst snd] in H4.
  apply bind_cases in Hbody as [(l5 & l6 & c6 & Hloc & Hbody)|(Hc & Hl & _)].
  2:{ simpl in Hc, Hl. subst c l. by apply (H4 ev). }
  apply locals_returned in Hloc as (-> & -> & ->).
  assert (Hend : c = (await (SR_set_other_config_entry ref OC_MAINTENANCE (state l4)) l4 c4).2
                 ∧ l = l4).
  { apply bind_cases in Hbody as [(v & l7 & c7 & Hset & Hbody)|(Hc & Hl & _)].
    - rewrite Hset. cbn [snd]. apply await_returned in Hset as (_ & -> & _).
      unfold ret in Hbody. split; congruence.
    - split; [done|]. rewrite <- Hl. unfold await. by destruct (perform _ _) as [[] ?]. }
  destruct Hend as [Hc ->]. rewrite await_cfg in Hc. subst c. cbn [c_trace] in Hev.
  apply elem_of_app in Hev as [Hin|Hin]; [by apply (H4 ev)|].
  apply list_elem_of_singleton in Hin. subst ev. by destruct Hat.
Qed.

(** C8, as amended: while [enableMaintenanceMode] runs, the record stored on
    the storage object stays the timestamp-only placeholder after every call
    that precedes the last write: no call in between writes [other_config].
    The state is persisted by the single [setFieldEntry] that ends the body;
    when the body returns the stored record is the complete in-memory state.
    That in-memory state lists the uuid read for every VM whose shutdown was
    attempted, whether the shutdown succeeded or not; where uuids identify
    the VMs of the pool, it maps the uuid of each such VM to whether the VM
    was paused when the call started. *)
Theorem remote_record_written_once ref vmsToShutdown w sched :
  let add := SR_add_to_other_config ref OC_MAINTENANCE (placeholder (now w)) in
  let body := enableMaintenanceMode_body ref vmsToShutdown no_locals (start w sched) in
  let set := SR_set_other_config_entry ref OC_MAINTENANCE (state body.1.2) in
  is_Reply (exec w add).1 = true →
  (∃ before final,
     c_trace body.2 = before ++ final ∧
     before ≠ [] ∧
     Forall (λ ev, maintenance_record (ev_world ev) ref = Some (placeholder (now w))) before ∧
     Forall (λ ev, writes_other_config (ev_call ev) = false) (tail before) ∧
     (final = [] ∨ ∃ ev, final = [ev] ∧ ev_call ev = set) ∧
     (body.1.1 = Returned tt →
        final ≠ [] ∧ maintenance_record (c_world body.2) ref = Some (state body.1.2))) ∧
  all_listed body.1.2 (c_trace body.2) ∧
  (unique_uuids vm_uuid (VMs w) → all_recorded w body.1.2 (c_trace body.2)).
Proof.
  intros add body set Hadd.
  destruct (record_set_at_the_end ref vmsToShutdown w sched Hadd) as [Hwritten Hlisted].
  split_and!; [exact Hwritten|exact Hlisted|].
  intros Huniq. unfold body.
  destruct (enableMaintenanceMode_body ref vmsToShutdown no_locals (start w sched))
    as [[o l] c] eqn:Hbody.
  by eapply body_recorded.
Qed.

(** * The further properties on concrete inputs *)

Lemma unique_uuids_by_list {A} (uuid_of : A → string) (m : gmap string A) :
  NoDup (uuid_of <$> (map_to_list m).*2) → unique_uuids uuid_of m.
Proof.
  intros Hnd r1 r2 x1 x2 H1 H2 Hu.
  apply elem_of_map_to_list, list_elem_of_lookup in H1 as [i Hi].
  apply elem_of_map_to_list, list_elem_of_lookup in H2 as [j Hj].
  assert (E : i = j).
  { eapply NoDup_lookup; [exact Hnd| |].
    - rewrite !list_lookup_fmap, Hi. done.
    - rewrite !list_lookup_fmap, Hj. simpl. by rewrite Hu. }
  subst j. rewrite Hi in Hj. by injection Hj.
Qed.

Lemma returned_pair {A B} (r : outcome A * B) a : r.1 = Returned a → r = (Returned a, r.2).
Proof. destruct r as [o b]. simpl. by intros ->. Qed.

Lemma lookup_event (tr : list event) (k : nat) (call : rcall) :
  ev_call <$> tr !! k = Some call → ∃ ev, tr !! k = Some ev ∧ ev_call ev = call.
Proof. destruct (tr !! k) as [ev|]; [|done]. intros [= <-]. by exists ev. Qed.

Lemma missing_patches_are_installable_witness :
  listMissingPoolPatchesOnHost xs70 bare_host = Returned [nine; ten] ∧
  ∃ all,
    xs70 !! "6.5.0" = Some all ∧
    omap snd all = [ten; nine] ∧
    [nine; ten] `sublist_of` omap snd (own_entries all).
Proof.
  assert (H : listMissingPoolPatchesOnHost xs70 bare_host = Returned [nine; ten])
    by (vm_compute; reflexivity).
  split; [exact H|].
  destruct (missing_patches_are_installable xs70 bare_host [nine; ten] H)
    as (all & Hall & Hsub & _).
  exists all. split_and!; [exact Hall| |exact Hsub].
  assert (E : xs70 !! "6.5.0" = Some [("10", Some ten); ("9", Some nine)])
    by (vm_compute; reflexivity).
  change (product_version bare_host) with "6.5.0" in Hall.
  rewrite E in Hall. injection Hall as <-. reflexivity.
Defined.

Lemma missing_patches_shrink_witness :
  product_version host_with_p3_p1 = product_version host_with_p3 ∧
  host_patches host_with_p3 ⊆ host_patches host_with_p3_p1 ∧
  listMissingPoolPatchesOnHost xs70 host_with_p3 = Returned [hotfix1] ∧
  listMissingPoolPatchesOnHost xs70 host_with_p3_p1 = Returned [] ∧
  [] ⊆ [hotfix1].
Proof.
  assert (H1 : host_patches host_with_p3 ⊆ host_patches host_with_p3_p1).
  { intros x Hx. apply list_elem_of_singleton in Hx. subst x. apply list_elem_of_here. }
  assert (H2 : listMissingPoolPatchesOnHost xs70 host_with_p3 = Returned [hotfix1])
    by (vm_compute; reflexivity).
  assert (H3 : listMissingPoolPatchesOnHost xs70 host_with_p3_p1 = Returned [])
    by (vm_compute; reflexivity).
  split_and!; [reflexivity|exact H1|exact H2|exact H3|].
  exact (missing_patches_shrink xs70 host_with_p3 host_with_p3_p1 [hotfix1] []
           eq_refl H1 H2 H3).
Defined.

Lemma deleteVm_destroys_vm_last_witness :
  cache "vm-1" = Some halted_vm ∧
  isVmRunning halted_vm = false ∧
  ∃ disks,
    disks = omap (disk_destruction cache) (obj_VBDs halted_vm) ∧
    deleteVm cache disks_stay [] "vm-1" true = (Unsettled, disks) ∧
    deleteVm cache disks_stay [0] "vm-1" true =
      (Unsettled,
       disks ++ [{| x_method := "VM.destroy"; x_params := [AString "OpaqueRef:vm1"] |}]) ∧
    (deleteVm cache disks_stay [1; 0] "vm-1" true).1 = Resolves tt.
Proof.
  assert (H : cache "vm-1" = Some halted_vm) by reflexivity.
  destruct (proj2 (deleteVm_destroys_vm_last cache disks_stay [] "vm-1" true halted_vm H)
              eq_refl) as (disks & _ & _ & Hdisks & Hwait & _).
  split_and!; [exact H|reflexivity|].
  exists disks. split_and!; [exact (Hdisks eq_refl)| |..].
  - apply Hwait. rewrite (Hdisks eq_refl). vm_compute.
    intros Hall. apply Forall_cons in Hall as [Hin _]. by apply elem_of_nil in Hin.
  - rewrite (Hdisks eq_refl). vm_compute. reflexivity.
  - vm_compute. reflexivity.
Defined.

Lemma setSrProperties_sets_given_names_witness :
  cache "sr-1" = Some cached_sr ∧
  obj_type cached_sr = "sr" ∧
  (setSrProperties cache disks_stay [1; 0] "sr-1" (Some "backups") None).2 =
    [{| x_method := "SR.set_name_label";
        x_params := [AString "OpaqueRef:sr1"; AString "backups"] |}].
Proof.
  assert (H : cache "sr-1" = Some cached_sr) by reflexivity.
  split_and!; [exact H|reflexivity|].
  exact (proj1 (setSrProperties_sets_given_names cache disks_stay [1; 0] "sr-1" cached_sr
                  (Some "backups") None H eq_refl)).
Defined.

Lemma importVdi_explicit_size_wins_witness :
  o_virtual_size sized_opts = Some 1024%Z ∧
  (importVdi import_fails "sr0" vhd_upload sized_opts).1 = Threw boom ∧
  i_trace (importVdi import_fails "sr0" vhd_upload sized_opts).2 =
    [VdiCreate "sr0" "[XO] Imported disk - 2024-01-01T00:00:00.000Z" 1024 false;
     VdiImportContent "OpaqueRef:vdi" (s_unread vhd_upload) "raw" true;
     VdiDestroy "OpaqueRef:vdi"].
Proof.
  pose proof (importVdi_explicit_size_wins import_fails "sr0" vhd_upload sized_opts 1024
                eq_refl) as H.
  split_and!; [reflexivity|exact (proj1 H)|exact (proj2 H)].
Defined.

Lemma notifications_spare_other_keys_witness :
  reachable watching_task ∧
  Forall (λ o, o_ref o ≠ "OpaqueRef:task") [new_vm] ∧
  _taskWatchers (onAddOrUpdate [new_vm] watching_task) !! "OpaqueRef:task" = Some 0 ∧
  promise_state (onAddOrUpdate [new_vm] watching_task) 0 = None.
Proof.
  assert (R : reachable watching_task) by (apply reach_serve, reach_fresh).
  assert (N : Forall (λ o, o_ref o ≠ "OpaqueRef:task") [new_vm])
    by (apply Forall_singleton; discriminate).
  assert (W : _taskWatchers watching_task !! "OpaqueRef:task" = Some 0)
    by (vm_compute; reflexivity).
  destruct (notifications_spare_other_keys watching_task [new_vm] "OpaqueRef:task" R N)
    as (Hsame & Hpending & _).
  split_and!; [exact R|exact N| |exact (Hpending 0 W)].
  rewrite Hsame. exact W.
Defined.

Lemma first_matching_object_resolves_witness :
  reachable watching_vm_twice ∧
  _objectWatchers watching_vm_twice !! "OpaqueRef:vm" = Some 1 ∧
  Forall (λ o', o_id o' ≠ "OpaqueRef:vm" ∧ o_ref o' ≠ "OpaqueRef:vm") [failed_task] ∧
  (o_id new_vm = "OpaqueRef:vm" ∨ o_ref new_vm = "OpaqueRef:vm") ∧
  promise_state (onAddOrUpdate ([failed_task] ++ new_vm :: [failed_task; new_vm])
                   watching_vm_twice) 1 = Some (Fulfilled (VObject new_vm)).
Proof.
  assert (R : reachable watching_vm_twice) by (apply reach_serve, reach_serve, reach_fresh).
  assert (W : _objectWatchers watching_vm_twice !! "OpaqueRef:vm" = Some 1)
    by (vm_compute; reflexivity).
  assert (N : Forall (λ o', o_id o' ≠ "OpaqueRef:vm" ∧ o_ref o' ≠ "OpaqueRef:vm")
                [failed_task])
    by (apply Forall_singleton; split; discriminate).
  assert (M : o_id new_vm = "OpaqueRef:vm" ∨ o_ref new_vm = "OpaqueRef:vm")
    by (right; reflexivity).
  split_and!; [exact R|exact W|exact N|exact M|].
  exact (proj1 (first_matching_object_resolves watching_vm_twice "OpaqueRef:vm" 1
                  [failed_task] [failed_task; new_vm] new_vm R W N M)).
Defined.

Lemma disable_requires_maintenance_witness :
  let s := {| sr_other_config := ∅; sr_VDIs := ["vdi1"; "vdi2"];
              sr_PBDs := ["pbd1"; "pbd2"] |} in
  SRs (pool0 no_fault) !! "sr0" = Some s ∧
  sr_other_config s !! OC_MAINTENANCE = None ∧
  (disableMaintenanceMode "sr0" {| d_errors := [] |} (start (pool0 no_fault) in_order)).1.1 =
    Threw SyntaxError.
Proof.
  intros s.
  assert (H1 : SRs (pool0 no_fault) !! "sr0" = Some s) by (vm_compute; reflexivity).
  assert (H2 : sr_other_config s !! OC_MAINTENANCE = None) by (vm_compute; reflexivity).
  split_and!; [exact H1|exact H2|].
  exact (proj1 (disable_requires_maintenance "sr0" (pool0 no_fault) in_order s
                  {| d_errors := [] |} H1 H2 eq_refl)).
Defined.

Lemma enable_quiesces_storage_witness :
  let res := enableMaintenanceMode "sr0" ["uuid-A"; "uuid-C"] (pool0 no_fault) interleaved in
  res = (Returned tt, res.2) ∧
  ∃ s st vms ps,
    SRs (pool0 no_fault) !! "sr0" = Some s ∧
    SRs (c_world res.2) = <[ "sr0" := in_maintenance s st ]> (SRs (pool0 no_fault)) ∧
    shutdownVms st = Some vms ∧ unpluggedPbds st = Some ps.
Proof.
  intros res.
  assert (H : res = (Returned tt, res.2))
    by (apply returned_pair; vm_compute; reflexivity).
  split; [exact H|].
  destruct (enable_quiesces_storage "sr0" ["uuid-A"; "uuid-C"] (pool0 no_fault) interleaved
              res.2 H) as (s & st & vms & ps & H1 & H2 & _ & _ & H3 & H4 & _).
  exists s, st, vms, ps. split_and!; [exact H1|exact H2|exact H3|exact H4].
Defined.

Lemma enable_then_disable_restores_witness :
  let res := enableMaintenanceMode "sr0" ["uuid-A"; "uuid-C"] (pool0 no_fault) interleaved in
  let back := disableMaintenanceMode "sr0" {| d_errors := [] |}
                (start (c_world res.2) in_order) in
  res = (Returned tt, res.2) ∧
  unique_uuids vm_uuid (VMs (pool0 no_fault)) ∧
  unique_uuids pbd_uuid (PBDs (pool0 no_fault)) ∧
  fault_free_from (c_world res.2) (now (c_world res.2)) ∧
  maintenance_record (c_world res.2) "sr0" = Some stored ∧
  back.1.1 = Returned tt ∧
  VMs (c_world back.2) = VMs (pool0 no_fault) ∧
  PBDs (c_world back.2) = PBDs (pool0 no_fault).
Proof.
  intros res back.
  assert (H : res = (Returned tt, res.2))
    by (apply returned_pair; vm_compute; reflexivity).
  assert (U1 : unique_uuids vm_uuid (VMs (pool0 no_fault))).
  { apply unique_uuids_by_list. apply (bool_decide_unpack _). vm_compute. exact I. }
  assert (U2 : unique_uuids pbd_uuid (PBDs (pool0 no_fault))).
  { apply unique_uuids_by_list. apply (bool_decide_unpack _). vm_compute. exact I. }
  assert (F : fault_free_from (c_world res.2) (now (c_world res.2))).
  { intros t' call _. vm_compute. reflexivity. }
  assert (S : maintenance_record (c_world res.2) "sr0" = Some stored)
    by (vm_compute; reflexivity).
  assert (L : 2 * (length ["uuid-p1"] + length [("uuid-C", true); ("uuid-A", false)])
              ≤ length in_order) by (simpl; lia).
  destruct (enable_then_disable_restores "sr0" ["uuid-A"; "uuid-C"] (pool0 no_fault)
              interleaved res.2 in_order stored ["uuid-p1"]
              [("uuid-C", true); ("uuid-A", false)] H U1 U2 F S eq_refl eq_refl L)
    as (Hret & _ & _ & _ & HVMs & HPBDs).
  split_and!; [exact H|exact U1|exact U2|exact F|exact S|exact Hret|exact HVMs|exact HPBDs].
Defined.

Lemma detach_only_after_shutdowns_witness :
  let res := enableMaintenanceMode "sr0" ["uuid-A"; "uuid-C"] (pool0 unplug_fails)
               interleaved in
  res.1 = Threw boom ∧
  ∃ ev, c_trace res.2 !! 21 = Some ev ∧
        ev_call ev = PBD_unplug "pbd1" ∧
        vm_power_state <$> VMs (ev_world ev) !! "vmC" = Some Halted.
Proof.
  intros res. split; [vm_compute; reflexivity|].
  assert (E' : ev_call <$> c_trace res.2 !! 21 = Some (PBD_unplug "pbd1"))
    by (vm_compute; reflexivity).
  destruct (lookup_event _ _ _ E') as (ev & E & Hcall).
  exists ev. split_and!; [exact E|exact Hcall|].
  assert (Hin : ev ∈ c_trace res.2) by (by eapply list_elem_of_lookup_2).
  assert (Hd : detach_attempt ev = true) by (unfold detach_attempt; by rewrite Hcall).
  destruct (detach_only_after_shutdowns "sr0" ["uuid-A"; "uuid-C"] (pool0 unplug_fails)
              interleaved ev Hin Hd) as (s & Hs & Hhalted).
  assert (Es : s = {| sr_other_config := ∅; sr_VDIs := ["vdi1"; "vdi2"];
                      sr_PBDs := ["pbd1"; "pbd2"] |}).
  { vm_compute in Hs. by injection Hs. }
  rewrite (Hhalted "vmC" {| vm_uuid := "uuid-C"; vm_power_state := Paused |});
    [reflexivity|vm_compute; reflexivity| |reflexivity].
  rewrite Es. exists "vbd3". split; [|vm_compute; reflexivity].
  exists "vdi1", ["vbd1"; "vbd3"].
  split_and!; [apply one_string_in|vm_compute|apply one_string_in]; vm_compute; reflexivity.
Defined.

Lemma second_enable_is_refused_witness :
  let res := enableMaintenanceMode "sr0" ["uuid-A"; "uuid-C"] (pool0 no_fault) interleaved in
  let again := enableMaintenanceMode "sr0" [] (c_world res.2) in_order in
  res = (Returned tt, res.2) ∧
  (∃ e, again.1 = Threw e) ∧
  length (c_trace again.2) = 1 ∧
  maintenance_record (c_world again.2) "sr0" = Some stored.
Proof.
  intros res again.
  assert (H : res = (Returned tt, res.2))
    by (apply returned_pair; vm_compute; reflexivity).
  destruct (second_enable_is_refused "sr0" ["uuid-A"; "uuid-C"] (pool0 no_fault)
              interleaved res.2 [] in_order H)
    as (e & st & Hthrew & _ & Hcalls & _ & Hbefore & Hafter).
  assert (S : maintenance_record (c_world res.2) "sr0" = Some stored)
    by (vm_compute; reflexivity).
  split_and!; [exact H|by exists e| |].
  - fold again in Hcalls. rewrite <- (length_fmap ev_call), Hcalls. reflexivity.
  - fold again in Hafter. rewrite Hafter, <- Hbefore. exact S.
Defined.

Lemma shutdowns_are_consented_witness :
  let res := enableMaintenanceMode "sr0" ["uuid-A"; "uuid-C"] (pool0 no_fault) interleaved in
  ∃ ev, c_trace res.2 !! 16 = Some ev ∧
        shutdown_attempt ev "vmC" ∧
        ∃ v, VMs (pool0 no_fault) !! "vmC" = Some v ∧ vm_uuid v ∈ ["uuid-A"; "uuid-C"].
Proof.
  intros res.
  assert (E' : ev_call <$> c_trace res.2 !! 16 = Some (VM_hard_shutdown "vmC"))
    by (vm_compute; reflexivity).
  destruct (lookup_event _ _ _ E') as (ev & E & Hcall).
  assert (Hat : shutdown_attempt ev "vmC") by (right; exact Hcall).
  exists ev. split_and!; [exact E|exact Hat|].
  assert (Hin : ev ∈ c_trace res.2) by (by eapply list_elem_of_lookup_2).
  pose proof (shutdowns_are_consented "sr0" ["uuid-A"; "uuid-C"] (pool0 no_fault)
                interleaved ev "vmC" Hin Hat) as Hconsent.
  destruct Hconsent as (s & v & _ & Hv & _ & _ & Hu).
  exists v. split; [exact Hv|exact Hu].
Defined.

Lemma remote_record_written_once_witness :
  let add := SR_add_to_other_config "sr0" OC_MAINTENANCE (placeholder (now (pool0 no_fault))) in
  let body := enableMaintenanceMode_body "sr0" ["uuid-A"; "uuid-C"] no_locals
                (start (pool0 no_fault) interleaved) in
  is_Reply (exec (pool0 no_fault) add).1 = true ∧
  unique_uuids vm_uuid (VMs (pool0 no_fault)) ∧
  all_listed body.1.2 (c_trace body.2) ∧
  all_recorded (pool0 no_fault) body.1.2 (c_trace body.2) ∧
  halted (c_trace body.2) = ["vmA"; "vmC"] ∧
  shutdownVms (state body.1.2) = Some [("uuid-C", true); ("uuid-A", false)].
Proof.
  intros add body.
  assert (H : is_Reply (exec (pool0 no_fault) add).1 = true) by (vm_compute; reflexivity).
  assert (U : unique_uuids vm_uuid (VMs (pool0 no_fault))).
  { apply unique_uuids_by_list. apply (bool_decide_unpack _). vm_compute. exact I. }
  pose proof (remote_record_written_once "sr0" ["uuid-A"; "uuid-C"] (pool0 no_fault)
                interleaved H) as (_ & Hlisted & Hrecorded).
  split_and!; [exact H|exact U|exact Hlisted|exact (Hrecorded U)|..];
    vm_compute; reflexivity.
Defined.

